(** * A shallow embedding of the red-black-tree malloc of [mm.c]

    The allocator manages one contiguous byte region obtained from a
    provider ([mem_sbrk]).  Blocks carry boundary tags (a 4-byte header and a
    4-byte footer); free blocks host, in their payload, a node of a
    red-black tree keyed by block size.  The embedding keeps the program's
    view of the world: a byte-addressed memory, 32-bit words stored
    little-endian, 64-bit pointers, and the globals [heap_listp], [NIL] and
    [root].  Loops and the recursive search take fuel. *)

From Stdlib Require Import ZArith List Bool Lia Permutation Sorted Morphisms Setoid.
Import ListNotations.
Local Open Scope Z_scope.

(* ================================================================== *)
(** ** Byte-addressed memory *)
(* ================================================================== *)

Module Mem.

Definition mem := Z -> Z.

Definition upd (m : mem) (a b : Z) : mem :=
  fun x => if x =? a then b else m x.

Definition byte_at (m : mem) (a : Z) : Z := m a mod 256.

(** [load n m a]: the unsigned little-endian value of the [n] bytes at [a]. *)
Fixpoint load (n : nat) (m : mem) (a : Z) : Z :=
  match n with
  | O => 0
  | S k => byte_at m a + 256 * load k m (a + 1)
  end.

(** [store n m a v]: write the [n] low bytes of [v] at [a], little-endian. *)
Fixpoint store (n : nat) (m : mem) (a v : Z) : mem :=
  match n with
  | O => m
  | S k => store k (upd m a (v mod 256)) (a + 1) (v / 256)
  end.

(** [memcpy m dst src n] for non-overlapping ranges. *)
Definition memcpy (m : mem) (dst src n : Z) : mem :=
  fun x => if (dst <=? x) && (x <? dst + n) then m (src + (x - dst)) else m x.

End Mem.

(* ================================================================== *)
(** ** C integer types *)
(* ================================================================== *)

Definition u32 (x : Z) : Z := x mod 2 ^ 32.

(** Conversion of a [uint32_t] to [int] (two's complement). *)
Definition to_int (x : Z) : Z :=
  if u32 x <? 2 ^ 31 then u32 x else u32 x - 2 ^ 32.

Definition NULL : Z := 0.
(** [(void * )-1], the provider's failure value. *)
Definition MINUS1 : Z := 2 ^ 64 - 1.

(* ================================================================== *)
(** ** Constants and macros *)
(* ================================================================== *)

Definition WSIZE : Z := 4.
Definition DSIZE : Z := 8.
Definition CHUNKSIZE : Z := 4096.
Definition OVERHEAD : Z := 8.
Definition MINBLOCKSIZE : Z := 6 * DSIZE.

Definition RED : Z := 1.
Definition BLACK : Z := 0.

(** [static inline int MAX(int x, int y)] *)
Definition MAX (x y : Z) : Z := if x >? y then x else y.

(** [static inline uint32_t PACK(uint32_t size, int alloc)] *)
Definition PACK (size alloc : Z) : Z := u32 (Z.lor size (Z.land alloc 1)).

(** The program state: the bytes of the address space, the provider's
    break and limit, and the three globals of [mm.c]. *)
Record state := mkState {
  bytes : Mem.mem;
  mem_brk : Z;
  mem_max_addr : Z;
  heap_listp : Z;
  NIL : Z;
  root : Z
}.

Definition set_bytes (m : Mem.mem) (st : state) : state :=
  mkState m (mem_brk st) (mem_max_addr st) (heap_listp st) (NIL st) (root st).
Definition set_brk (b : Z) (st : state) : state :=
  mkState (bytes st) b (mem_max_addr st) (heap_listp st) (NIL st) (root st).
Definition set_heap_listp (p : Z) (st : state) : state :=
  mkState (bytes st) (mem_brk st) (mem_max_addr st) p (NIL st) (root st).
Definition set_root (r : Z) (st : state) : state :=
  mkState (bytes st) (mem_brk st) (mem_max_addr st) (heap_listp st) (NIL st) r.

Definition GET (st : state) (p : Z) : Z := Mem.load 4 (bytes st) p.
Definition PUT (p val : Z) (st : state) : state :=
  set_bytes (Mem.store 4 (bytes st) p val) st.

(** [GET(p) & ~0x7] and [GET(p) & 0x1] *)
Definition GET_SIZE (st : state) (p : Z) : Z := Z.land (GET st p) (2 ^ 32 - 8).
Definition GET_ALLOC (st : state) (p : Z) : Z := Z.land (GET st p) 1.

Definition HDRP (bp : Z) : Z := bp - WSIZE.
Definition FTRP (st : state) (bp : Z) : Z := bp + GET_SIZE st (HDRP bp) - DSIZE.
Definition NEXT_BLKP (st : state) (bp : Z) : Z := bp + GET_SIZE st (bp - WSIZE).
Definition PREV_BLKP (st : state) (bp : Z) : Z := bp - GET_SIZE st (bp - DSIZE).

(** Tree-node fields inside a free block's payload. *)
Definition PARENT (st : state) (bp : Z) : Z := Mem.load 8 (bytes st) bp.
Definition LEFT (st : state) (bp : Z) : Z := Mem.load 8 (bytes st) (bp + DSIZE).
Definition RIGHT (st : state) (bp : Z) : Z := Mem.load 8 (bytes st) (bp + 2 * DSIZE).
Definition COLOR (st : state) (bp : Z) : Z := Mem.load 1 (bytes st) (bp + 3 * DSIZE).

Definition SET_PARENT (bp v : Z) (st : state) : state :=
  set_bytes (Mem.store 8 (bytes st) bp v) st.
Definition SET_LEFT (bp v : Z) (st : state) : state :=
  set_bytes (Mem.store 8 (bytes st) (bp + DSIZE) v) st.
Definition SET_RIGHT (bp v : Z) (st : state) : state :=
  set_bytes (Mem.store 8 (bytes st) (bp + 2 * DSIZE) v) st.
Definition SET_COLOR (bp c : Z) (st : state) : state :=
  set_bytes (Mem.store 1 (bytes st) (bp + 3 * DSIZE) c) st.

(** Modelled from the spec: the byte-region provider [mem_sbrk] of
    [memlib.c], which is not part of [mm.c].  [extend(nbytes)] returns a
    pointer to the newly mapped range (the old break) and moves the break
    up, or returns the failure value when the region cannot grow. *)
Definition mem_sbrk (incr : Z) (st : state) : Z * state :=
  if mem_brk st + incr >? mem_max_addr st then (MINUS1, st)
  else (mem_brk st, set_brk (mem_brk st + incr) st).

(** Sequencing of fuelled computations. *)
Definition obind {A B} (o : option A) (k : A -> option B) : option B :=
  match o with Some a => k a | None => None end.
Notation "x <- e ;; k" := (obind e (fun x => k))
  (at level 61, e at next level, right associativity).
Notation "' p <- e ;; k" := (obind e (fun p => k))
  (at level 61, p pattern, e at next level, right associativity).

(* ================================================================== *)
(** ** Red-black tree routines *)
(* ================================================================== *)

Definition left_rotate (x : Z) (st : state) : state :=
  let y := RIGHT st x in
  let st := SET_RIGHT x (LEFT st y) st in
  let st := if LEFT st y =? NIL st then st else SET_PARENT (LEFT st y) x st in
  let st := SET_PARENT y (PARENT st x) st in
  let st :=
    if PARENT st x =? NIL st then set_root y st
    else if x =? LEFT st (PARENT st x) then SET_LEFT (PARENT st x) y st
    else SET_RIGHT (PARENT st x) y st in
  let st := SET_LEFT y x st in
  SET_PARENT x y st.

Definition right_rotate (x : Z) (st : state) : state :=
  let y := LEFT st x in
  let st := SET_LEFT x (RIGHT st y) st in
  let st := if RIGHT st y =? NIL st then st else SET_PARENT (RIGHT st y) x st in
  let st := SET_PARENT y (PARENT st x) st in
  let st :=
    if PARENT st x =? NIL st then set_root y st
    else if x =? RIGHT st (PARENT st x) then SET_RIGHT (PARENT st x) y st
    else SET_LEFT (PARENT st x) y st in
  let st := SET_RIGHT y x st in
  SET_PARENT x y st.

(** One turn of the loop of [rbt_insert_fixup]: the new [bp] and state. *)
Definition insert_fixup_body (bp : Z) (st : state) : Z * state :=
  if PARENT st bp =? LEFT st (PARENT st (PARENT st bp)) then
    let uncle := RIGHT st (PARENT st (PARENT st bp)) in
    if COLOR st uncle =? RED then
      let st := SET_COLOR (PARENT st bp) BLACK st in
      let st := SET_COLOR uncle BLACK st in
      let st := SET_COLOR (PARENT st (PARENT st bp)) RED st in
      (PARENT st (PARENT st bp), st)
    else
      let '(bp, st) :=
        if bp =? RIGHT st (PARENT st bp)
        then (PARENT st bp, left_rotate (PARENT st bp) st)
        else (bp, st) in
      let st := SET_COLOR (PARENT st bp) BLACK st in
      let st := SET_COLOR (PARENT st (PARENT st bp)) RED st in
      (bp, right_rotate (PARENT st (PARENT st bp)) st)
  else
    let uncle := LEFT st (PARENT st (PARENT st bp)) in
    if COLOR st uncle =? RED then
      let st := SET_COLOR (PARENT st bp) BLACK st in
      let st := SET_COLOR uncle BLACK st in
      let st := SET_COLOR (PARENT st (PARENT st bp)) RED st in
      (PARENT st (PARENT st bp), st)
    else
      let '(bp, st) :=
        if bp =? LEFT st (PARENT st bp)
        then (PARENT st bp, right_rotate (PARENT st bp) st)
        else (bp, st) in
      let st := SET_COLOR (PARENT st bp) BLACK st in
      let st := SET_COLOR (PARENT st (PARENT st bp)) RED st in
      (bp, left_rotate (PARENT st (PARENT st bp)) st).

Fixpoint rbt_insert_fixup (fuel : nat) (bp : Z) (st : state) : option state :=
  if negb (bp =? root st) && (COLOR st (PARENT st bp) =? RED) then
    match fuel with
    | O => None
    | S f => let '(bp, st) := insert_fixup_body bp st in rbt_insert_fixup f bp st
    end
  else Some (SET_COLOR (root st) BLACK st).

(** The descent of [rbt_insert]: the last node [y] visited before [NIL]. *)
Fixpoint insert_descend (fuel : nat) (size x y : Z) (st : state) : option Z :=
  if x =? NIL st then Some y
  else
    match fuel with
    | O => None
    | S f =>
        let x_size := GET_SIZE st (HDRP x) in
        if size <? x_size then insert_descend f size (LEFT st x) x st
        else insert_descend f size (RIGHT st x) x st
    end.

Definition rbt_insert (fuel : nat) (bp : Z) (st : state) : option state :=
  let size := GET_SIZE st (HDRP bp) in
  y <- insert_descend fuel size (root st) (NIL st) st ;;
  let st := SET_PARENT bp y st in
  let st :=
    if y =? NIL st then set_root bp st
    else
      let y_size := GET_SIZE st (HDRP y) in
      if size <? y_size then SET_LEFT y bp st else SET_RIGHT y bp st in
  let st := SET_COLOR bp RED st in
  rbt_insert_fixup fuel bp st.

Definition rbt_transplant (u v : Z) (st : state) : state :=
  let st :=
    if PARENT st u =? NIL st then set_root v st
    else if u =? LEFT st (PARENT st u) then SET_LEFT (PARENT st u) v st
    else SET_RIGHT (PARENT st u) v st in
  SET_PARENT v (PARENT st u) st.

Fixpoint rbt_minimum (fuel : nat) (node : Z) (st : state) : option Z :=
  if LEFT st node =? NIL st then Some node
  else
    match fuel with
    | O => None
    | S f => rbt_minimum f (LEFT st node) st
    end.

(** One turn of the loop of [rbt_remove_fixup], split into its parts.
    [x] is a left child and [w] its sibling, once a red sibling has been
    dealt with: the three remaining cases. *)
Definition remove_fixup_left_tail (x w : Z) (st : state) : Z * state :=
  if (COLOR st (LEFT st w) =? BLACK) && (COLOR st (RIGHT st w) =? BLACK) then
    let st := SET_COLOR w RED st in
    (PARENT st x, st)
  else
    let '(w, st) :=
      if COLOR st (RIGHT st w) =? BLACK then
        let st := SET_COLOR (LEFT st w) BLACK st in
        let st := SET_COLOR w RED st in
        let st := right_rotate w st in
        (RIGHT st (PARENT st x), st)
      else (w, st) in
    let st := SET_COLOR w (COLOR st (PARENT st x)) st in
    let st := SET_COLOR (PARENT st x) BLACK st in
    let st := SET_COLOR (RIGHT st w) BLACK st in
    let st := left_rotate (PARENT st x) st in
    (root st, st).

(** The branch of the loop body taken when [x] is a left child. *)
Definition remove_fixup_left (x : Z) (st : state) : Z * state :=
  let w := RIGHT st (PARENT st x) in
  let '(w, st) :=
    if COLOR st w =? RED then
      let st := SET_COLOR w BLACK st in
      let st := SET_COLOR (PARENT st x) RED st in
      let st := left_rotate (PARENT st x) st in
      (RIGHT st (PARENT st x), st)
    else (w, st) in
  remove_fixup_left_tail x w st.

(** The mirror image: [x] is a right child. *)
Definition remove_fixup_right_tail (x w : Z) (st : state) : Z * state :=
  if (COLOR st (RIGHT st w) =? BLACK) && (COLOR st (LEFT st w) =? BLACK) then
    let st := SET_COLOR w RED st in
    (PARENT st x, st)
  else
    let '(w, st) :=
      if COLOR st (LEFT st w) =? BLACK then
        let st := SET_COLOR (RIGHT st w) BLACK st in
        let st := SET_COLOR w RED st in
        let st := left_rotate w st in
        (LEFT st (PARENT st x), st)
      else (w, st) in
    let st := SET_COLOR w (COLOR st (PARENT st x)) st in
    let st := SET_COLOR (PARENT st x) BLACK st in
    let st := SET_COLOR (LEFT st w) BLACK st in
    let st := right_rotate (PARENT st x) st in
    (root st, st).

Definition remove_fixup_right (x : Z) (st : state) : Z * state :=
  let w := LEFT st (PARENT st x) in
  let '(w, st) :=
    if COLOR st w =? RED then
      let st := SET_COLOR w BLACK st in
      let st := SET_COLOR (PARENT st x) RED st in
      let st := right_rotate (PARENT st x) st in
      (LEFT st (PARENT st x), st)
    else (w, st) in
  remove_fixup_right_tail x w st.

Definition remove_fixup_body (x : Z) (st : state) : Z * state :=
  if x =? LEFT st (PARENT st x) then remove_fixup_left x st
  else remove_fixup_right x st.

Fixpoint rbt_remove_fixup (fuel : nat) (x : Z) (st : state) : option state :=
  if negb (x =? root st) && (COLOR st x =? BLACK) then
    match fuel with
    | O => None
    | S f => let '(x, st) := remove_fixup_body x st in rbt_remove_fixup f x st
    end
  else Some (SET_COLOR x BLACK st).

Definition rbt_remove (fuel : nat) (bp : Z) (st : state) : option state :=
  let y := bp in
  let y_original_color := COLOR st y in
  '(y_original_color, x, st) <-
    (if LEFT st bp =? NIL st then
       let x := RIGHT st bp in
       Some (y_original_color, x, rbt_transplant bp (RIGHT st bp) st)
     else if RIGHT st bp =? NIL st then
       let x := LEFT st bp in
       Some (y_original_color, x, rbt_transplant bp (LEFT st bp) st)
     else
       m <- rbt_minimum fuel (RIGHT st bp) st ;;
       let y := m in
       let y_original_color := COLOR st y in
       let x := RIGHT st y in
       let st :=
         if PARENT st y =? bp then SET_PARENT x y st
         else
           let st := rbt_transplant y (RIGHT st y) st in
           let st := SET_RIGHT y (RIGHT st bp) st in
           SET_PARENT (RIGHT st y) y st in
       let st := rbt_transplant bp y st in
       let st := SET_LEFT y (LEFT st bp) st in
       let st := SET_PARENT (LEFT st y) y st in
       let st := SET_COLOR y (COLOR st bp) st in
       Some (y_original_color, x, st)) ;;
  if y_original_color =? BLACK then rbt_remove_fixup fuel x st else Some st.

(** [rbt_find_best_fit]: the out-parameter [*best_fit] is threaded as
    [best]; the result is its final value. *)
Fixpoint rbt_find_best_fit (fuel : nat) (node asize best : Z) (st : state)
  : option Z :=
  if node =? NIL st then Some best
  else
    match fuel with
    | O => None
    | S f =>
        let nsize := GET_SIZE st (HDRP node) in
        if nsize >=? asize then
          let best :=
            if (best =? NULL) || (nsize <? GET_SIZE st (HDRP best))
            then node else best in
          rbt_find_best_fit f (LEFT st node) asize best st
        else rbt_find_best_fit f (RIGHT st node) asize best st
    end.

(* ================================================================== *)
(** ** The allocator *)
(* ================================================================== *)

Definition insert_free_block (fuel : nat) (bp size : Z) (st : state)
  : option state :=
  let st := SET_PARENT bp (NIL st) st in
  let st := SET_LEFT bp (NIL st) st in
  let st := SET_RIGHT bp (NIL st) st in
  let st := SET_COLOR bp RED st in
  rbt_insert fuel bp st.

Definition remove_free_block (fuel : nat) (bp : Z) (st : state) : option state :=
  rbt_remove fuel bp st.

Definition find_fit (fuel : nat) (asize : Z) (st : state) : option Z :=
  rbt_find_best_fit fuel (root st) asize NULL st.

Definition coalesce (fuel : nat) (bp : Z) (st : state) : option (Z * state) :=
  let prev_alloc := GET_ALLOC st (FTRP st (PREV_BLKP st bp)) in
  let next_alloc := GET_ALLOC st (HDRP (NEXT_BLKP st bp)) in
  let size := GET_SIZE st (HDRP bp) in
  '(bp, size, st) <-
    (if negb (prev_alloc =? 0) && negb (next_alloc =? 0) then
       Some (bp, size, st)
     else if negb (prev_alloc =? 0) && (next_alloc =? 0) then
       st <- remove_free_block fuel (NEXT_BLKP st bp) st ;;
       let size := u32 (size + GET_SIZE st (HDRP (NEXT_BLKP st bp))) in
       let st := PUT (HDRP bp) (PACK size 0) st in
       let st := PUT (FTRP st bp) (PACK size 0) st in
       Some (bp, size, st)
     else if (prev_alloc =? 0) && negb (next_alloc =? 0) then
       st <- remove_free_block fuel (PREV_BLKP st bp) st ;;
       let size := u32 (size + GET_SIZE st (HDRP (PREV_BLKP st bp))) in
       let st := PUT (FTRP st bp) (PACK size 0) st in
       let st := PUT (HDRP (PREV_BLKP st bp)) (PACK size 0) st in
       Some (PREV_BLKP st bp, size, st)
     else
       st <- remove_free_block fuel (PREV_BLKP st bp) st ;;
       st <- remove_free_block fuel (NEXT_BLKP st bp) st ;;
       let size :=
         u32 (size + u32 (GET_SIZE st (HDRP (PREV_BLKP st bp)) +
                          GET_SIZE st (FTRP st (NEXT_BLKP st bp)))) in
       let st := PUT (HDRP (PREV_BLKP st bp)) (PACK size 0) st in
       let st := PUT (FTRP st (NEXT_BLKP st bp)) (PACK size 0) st in
       Some (PREV_BLKP st bp, size, st)) ;;
  st <- insert_free_block fuel bp size st ;;
  Some (bp, st).

Definition extend_heap (fuel : nat) (words : Z) (st : state)
  : option (Z * state) :=
  let size :=
    if negb (words mod 2 =? 0) then u32 ((words + 1) * WSIZE)
    else u32 (words * WSIZE) in
  let '(bp, st) := mem_sbrk size st in
  if bp =? MINUS1 then Some (NULL, st)
  else
    let st := PUT (HDRP bp) (PACK size 0) st in
    let st := PUT (FTRP st bp) (PACK size 0) st in
    let st := PUT (HDRP (NEXT_BLKP st bp)) (PACK 0 1) st in
    coalesce fuel bp st.

Definition mm_init (fuel : nat) (st : state) : option (Z * state) :=
  let st := SET_PARENT (NIL st) (NIL st) st in
  let st := SET_LEFT (NIL st) (NIL st) st in
  let st := SET_RIGHT (NIL st) (NIL st) st in
  let st := SET_COLOR (NIL st) BLACK st in
  let st := set_root (NIL st) st in
  let '(p, st) := mem_sbrk (4 * WSIZE) st in
  let st := set_heap_listp p st in
  if heap_listp st =? MINUS1 then Some (-1, st)
  else
    let st := PUT (heap_listp st) 0 st in
    let st := PUT (heap_listp st + 1 * WSIZE) (PACK DSIZE 1) st in
    let st := PUT (heap_listp st + 2 * WSIZE) (PACK DSIZE 1) st in
    let st := PUT (heap_listp st + 3 * WSIZE) (PACK 0 1) st in
    let st := set_heap_listp (heap_listp st + 2 * WSIZE) st in
    '(r, st) <- extend_heap fuel (CHUNKSIZE / WSIZE) st ;;
    if r =? NULL then Some (-1, st) else Some (0, st).

Definition place (fuel : nat) (bp asize : Z) (st : state) : option state :=
  let csize := GET_SIZE st (HDRP bp) in
  st <- remove_free_block fuel bp st ;;
  if u32 (csize - asize) >=? MINBLOCKSIZE then
    let st := PUT (HDRP bp) (PACK asize 1) st in
    let st := PUT (FTRP st bp) (PACK asize 1) st in
    let new_bp := NEXT_BLKP st bp in
    let st := PUT (HDRP new_bp) (PACK (u32 (csize - asize)) 0) st in
    let st := PUT (FTRP st new_bp) (PACK (u32 (csize - asize)) 0) st in
    insert_free_block fuel new_bp (u32 (csize - asize)) st
  else
    let st := PUT (HDRP bp) (PACK csize 1) st in
    let st := PUT (FTRP st bp) (PACK csize 1) st in
    Some st.

(** The size adjustment that [mm_malloc] and [mm_realloc] both spell out:
    round [size + DSIZE] up to a multiple of [DSIZE] in [uint32_t]
    arithmetic, then take [MAX] — on [int] — with [MINBLOCKSIZE]. *)
Definition adjust_size (size : Z) : Z :=
  let asize :=
    if size <=? DSIZE then 2 * DSIZE
    else u32 (DSIZE * (u32 (size + DSIZE + (DSIZE - 1)) / DSIZE)) in
  u32 (MAX (to_int asize) MINBLOCKSIZE).

Definition mm_malloc (fuel : nat) (size : Z) (st : state) : option (Z * state) :=
  if size =? 0 then Some (NULL, st)
  else
    let asize := adjust_size size in
    bp <- find_fit fuel asize st ;;
    if negb (bp =? NULL) then
      st <- place fuel bp asize st ;;
      Some (bp, st)
    else
      let extendsize := u32 (MAX (to_int asize) CHUNKSIZE) in
      '(bp, st) <- extend_heap fuel (extendsize / WSIZE) st ;;
      if bp =? NULL then Some (NULL, st)
      else
        st <- place fuel bp asize st ;;
        Some (bp, st).

Definition mm_free (fuel : nat) (bp : Z) (st : state) : option state :=
  if bp =? NULL then Some st
  else
    let size := GET_SIZE st (HDRP bp) in
    let st := PUT (HDRP bp) (PACK size 0) st in
    let st := PUT (FTRP st bp) (PACK size 0) st in
    '(_, st) <- coalesce fuel bp st ;;
    Some st.

Definition mm_realloc (fuel : nat) (ptr size : Z) (st : state)
  : option (Z * state) :=
  if size =? 0 then
    st <- mm_free fuel ptr st ;;
    Some (NULL, st)
  else if ptr =? NULL then mm_malloc fuel size st
  else
    let old_size := u32 (GET_SIZE st (HDRP ptr) - DSIZE) in
    let asize := adjust_size size in
    if asize <=? GET_SIZE st (HDRP ptr) then
      let csize := GET_SIZE st (HDRP ptr) in
      if u32 (csize - asize) >=? MINBLOCKSIZE then
        let st := PUT (HDRP ptr) (PACK asize 1) st in
        let st := PUT (FTRP st ptr) (PACK asize 1) st in
        let new_bp := NEXT_BLKP st ptr in
        let st := PUT (HDRP new_bp) (PACK (u32 (csize - asize)) 0) st in
        let st := PUT (FTRP st new_bp) (PACK (u32 (csize - asize)) 0) st in
        st <- insert_free_block fuel new_bp (u32 (csize - asize)) st ;;
        Some (ptr, st)
      else Some (ptr, st)
    else
      let csize := GET_SIZE st (HDRP ptr) in
      let next_bp := NEXT_BLKP st ptr in
      if (GET_ALLOC st (HDRP next_bp) =? 0)
         && (u32 (GET_SIZE st (HDRP next_bp) + csize) >=? asize) then
        st <- remove_free_block fuel next_bp st ;;
        let new_size := u32 (csize + GET_SIZE st (HDRP next_bp)) in
        let st := PUT (HDRP ptr) (PACK new_size 1) st in
        let st := PUT (FTRP st ptr) (PACK new_size 1) st in
        if u32 (new_size - asize) >=? MINBLOCKSIZE then
          let st := PUT (HDRP ptr) (PACK asize 1) st in
          let st := PUT (FTRP st ptr) (PACK asize 1) st in
          let new_bp := NEXT_BLKP st ptr in
          let st := PUT (HDRP new_bp) (PACK (u32 (new_size - asize)) 0) st in
          let st := PUT (FTRP st new_bp) (PACK (u32 (new_size - asize)) 0) st in
          st <- insert_free_block fuel new_bp (u32 (new_size - asize)) st ;;
          Some (ptr, st)
        else Some (ptr, st)
      else
        '(new_ptr, st) <- mm_malloc fuel size st ;;
        if new_ptr =? NULL then Some (NULL, st)
        else
          let copy_size := if size <? old_size then size else old_size in
          let st := set_bytes (Mem.memcpy (bytes st) new_ptr ptr copy_size) st in
          st <- mm_free fuel ptr st ;;
          Some (new_ptr, st).

(* ================================================================== *)
(** ** Observing a heap: the block list and the tree *)
(* ================================================================== *)

(** Walk the blocks from [bp] up to the epilogue (the header of size 0),
    listing each block's payload pointer, size and allocated bit. *)
Fixpoint heap_walk (fuel : nat) (bp : Z) (st : state)
  : option (list (Z * Z * Z)) :=
  let size := GET_SIZE st (HDRP bp) in
  if size =? 0 then Some []
  else
    match fuel with
    | O => None
    | S f =>
        rest <- heap_walk f (NEXT_BLKP st bp) st ;;
        Some ((bp, size, GET_ALLOC st (HDRP bp)) :: rest)
    end.

(** The blocks between the prologue and the epilogue. *)
Definition heap_blocks (fuel : nat) (st : state) : option (list (Z * Z * Z)) :=
  heap_walk fuel (NEXT_BLKP st (heap_listp st)) st.

Definition is_free (b : Z * Z * Z) : bool := snd b =? 0.

Definition free_blocks (fuel : nat) (st : state) : option (list Z) :=
  bs <- heap_blocks fuel st ;;
  Some (map (fun b => fst (fst b)) (filter is_free bs)).

(** The nodes reachable from [node], in order. *)
Fixpoint tree_walk (fuel : nat) (node : Z) (st : state) : option (list Z) :=
  if node =? NIL st then Some []
  else
    match fuel with
    | O => None
    | S f =>
        l <- tree_walk f (LEFT st node) st ;;
        r <- tree_walk f (RIGHT st node) st ;;
        Some (l ++ node :: r)
    end.

Definition tree_nodes (fuel : nat) (st : state) : option (list Z) :=
  tree_walk fuel (root st) st.

(** Two physically adjacent blocks that are both free. *)
Fixpoint adjacent_free (bs : list (Z * Z * Z)) : bool :=
  match bs with
  | b1 :: (b2 :: _) as rest => (is_free b1 && is_free b2) || adjacent_free rest
  | _ => false
  end.

(* ================================================================== *)
(** ** The tree a memory holds *)
(* ================================================================== *)

(** Two node addresses are [far] apart when neither one's header word and
    node fields, the bytes [x - 4 .. x + 25), meet the other's. *)
Definition far (x y : Z) : Prop := x + 32 <= y \/ y + 32 <= x.

(** A node address that fits a 64-bit pointer and is not NULL. *)
Definition okptr (x : Z) : Prop := 0 < x /\ x + 32 <= 2 ^ 64.

(** Pairwise far addresses. *)
Fixpoint sepl (l : list Z) : Prop :=
  match l with
  | [] => True
  | x :: r => Forall (far x) r /\ sepl r
  end.

(** The key of a tree node: its block's size, read from the header. *)
Definition key (st : state) (x : Z) : Z := GET_SIZE st (HDRP x).

(** A binary tree of node addresses with their colours. *)
Inductive tree : Type :=
  | Leaf
  | Node (c : Z) (l : tree) (x : Z) (r : tree).

Fixpoint nodes (t : tree) : list Z :=
  match t with
  | Leaf => []
  | Node _ l x r => nodes l ++ x :: nodes r
  end.

Fixpoint height (t : tree) : nat :=
  match t with
  | Leaf => O
  | Node _ l _ r => S (Nat.max (height l) (height r))
  end.

(** The pointer that stands for a tree: its root, or the sentinel. *)
Definition ptr (nil : Z) (t : tree) : Z :=
  match t with
  | Leaf => nil
  | Node _ _ x _ => x
  end.

Definition color_of (t : tree) : Z :=
  match t with
  | Leaf => BLACK
  | Node c _ _ _ => c
  end.

(** [rep st par t]: the memory of [st] holds the nodes of [t], linked as
    in [t], the root's parent pointer being [par]. *)
Fixpoint rep (st : state) (par : Z) (t : tree) : Prop :=
  match t with
  | Leaf => True
  | Node c l x r =>
      PARENT st x = par /\ COLOR st x = c /\
      LEFT st x = ptr (NIL st) l /\ RIGHT st x = ptr (NIL st) r /\
      rep st x l /\ rep st x r
  end.

(** One-hole contexts, innermost frame first. *)
Inductive ctx : Type :=
  | Top
  | CL (c : Z) (x : Z) (up : ctx) (r : tree)
  | CR (c : Z) (l : tree) (x : Z) (up : ctx).

Fixpoint plug (C : ctx) (t : tree) : tree :=
  match C with
  | Top => t
  | CL c x up r => plug up (Node c t x r)
  | CR c l x up => plug up (Node c l x t)
  end.

Fixpoint cnodes (C : ctx) : list Z :=
  match C with
  | Top => []
  | CL _ x up r => x :: nodes r ++ cnodes up
  | CR _ l x up => x :: nodes l ++ cnodes up
  end.

Fixpoint depth (C : ctx) : nat :=
  match C with
  | Top => O
  | CL _ _ up _ | CR _ _ _ up => S (depth up)
  end.

(** The parent of the hole. *)
Definition cpar (nil : Z) (C : ctx) : Z :=
  match C with
  | Top => nil
  | CL _ x _ _ | CR _ _ x _ => x
  end.

(** [repc st C h]: the memory holds the frames of [C], the hole's slot
    (a child field of its parent, or [root]) holding the pointer [h]. *)
Fixpoint repc (st : state) (C : ctx) (h : Z) : Prop :=
  match C with
  | Top => root st = h
  | CL c x up r =>
      LEFT st x = h /\ COLOR st x = c /\ RIGHT st x = ptr (NIL st) r /\
      rep st x r /\ PARENT st x = cpar (NIL st) up /\ repc st up x
  | CR c l x up =>
      RIGHT st x = h /\ COLOR st x = c /\ LEFT st x = ptr (NIL st) l /\
      rep st x l /\ PARENT st x = cpar (NIL st) up /\ repc st up x
  end.

(** The whole tree, from [root]. *)
Definition wrep (st : state) (t : tree) : Prop :=
  root st = ptr (NIL st) t /\ rep st (NIL st) t.

(** [wr st st' ws]: [st'] differs from [st] at most in [root] and in the
    node fields of the addresses [ws]. *)
Definition wr (st st' : state) (ws : list Z) : Prop :=
  NIL st' = NIL st /\ mem_brk st' = mem_brk st /\
  mem_max_addr st' = mem_max_addr st /\ heap_listp st' = heap_listp st /\
  forall a, Forall (fun x => a < x \/ x + 25 <= a) ws ->
            bytes st' a = bytes st a.

(** What the code keeps of the sentinel: its children and its colour. *)
Definition nil_ok (st : state) : Prop :=
  LEFT st (NIL st) = NIL st /\ RIGHT st (NIL st) = NIL st /\
  COLOR st (NIL st) = BLACK.

(** Every node of [l1] is far from every node of [l2]. *)
Definition cross (l1 l2 : list Z) : Prop :=
  Forall (fun x => Forall (far x) l2) l1.

(** The memory holds the tree [T]. *)
Record tinv (st : state) (T : tree) : Prop := mk_tinv {
  ti_rep : wrep st T;
  ti_sep : sepl (NIL st :: nodes T);
  ti_ok : Forall okptr (NIL st :: nodes T);
  ti_nil : nil_ok st
}.

(** ** Red-black and search-tree shape *)

Definition blk (c : Z) : nat := if c =? BLACK then 1%nat else 0%nat.

(** Black height along the left spine. *)
Fixpoint bh (t : tree) : nat :=
  match t with
  | Leaf => O
  | Node c l _ _ => (blk c + bh l)%nat
  end.

Fixpoint balanced (t : tree) : Prop :=
  match t with
  | Leaf => True
  | Node _ l _ r => bh l = bh r /\ balanced l /\ balanced r
  end.

(** Colours are RED or BLACK and no red node has a red child. *)
Fixpoint redok (t : tree) : Prop :=
  match t with
  | Leaf => True
  | Node c l _ r =>
      (c = RED \/ c = BLACK) /\
      (c = RED -> color_of l = BLACK /\ color_of r = BLACK) /\
      redok l /\ redok r
  end.

Definition rbtree (t : tree) : Prop :=
  balanced t /\ redok t /\ color_of t = BLACK.

(** Keys in order, left to right (equal keys allowed). *)
Definition bst (st : state) (t : tree) : Prop :=
  StronglySorted Z.le (map (key st) (nodes t)).

(** A context that is balanced once its hole holds black height [n]. *)
Fixpoint cbal (C : ctx) (n : nat) : Prop :=
  match C with
  | Top => True
  | CL c _ up r => bh r = n /\ balanced r /\ cbal up (blk c + n)
  | CR c l _ up => bh l = n /\ balanced l /\ cbal up (blk c + n)
  end.

(** A context with no red-red edge once its hole holds a root coloured
    [c]. *)
Fixpoint cred (C : ctx) (c : Z) : Prop :=
  match C with
  | Top => True
  | CL cx _ up r =>
      (cx = RED \/ cx = BLACK) /\
      (cx = RED -> c = BLACK /\ color_of r = BLACK) /\
      redok r /\ cred up cx
  | CR cx l _ up =>
      (cx = RED \/ cx = BLACK) /\
      (cx = RED -> c = BLACK /\ color_of l = BLACK) /\
      redok l /\ cred up cx
  end.

(** The colour of the outermost frame's node, the root of the plugged
    tree ([d] when there is no frame). *)
Fixpoint ctop (C : ctx) (d : Z) : Z :=
  match C with
  | Top => d
  | CL c _ up _ | CR c _ _ up => ctop up c
  end.

(** The nodes of a context to the left and to the right of its hole, in
    order. *)
Fixpoint lctx (C : ctx) : list Z :=
  match C with
  | Top => []
  | CL _ _ up _ => lctx up
  | CR _ l x up => lctx up ++ nodes l ++ [x]
  end.

Fixpoint rctx (C : ctx) : list Z :=
  match C with
  | Top => []
  | CL _ x up r => x :: nodes r ++ rctx up
  | CR _ _ _ up => rctx up
  end.

(** ** The tree algorithms on trees and contexts *)

Definition blacken (t : tree) : tree :=
  match t with
  | Leaf => Leaf
  | Node _ l x r => Node BLACK l x r
  end.

(** Where [rbt_insert] descends to: the context of the leaf that a block
    of size [size] replaces. *)
Fixpoint ins_ctx (st : state) (size : Z) (C : ctx) (t : tree) : ctx :=
  match t with
  | Leaf => C
  | Node c l x r =>
      if size <? key st x then ins_ctx st size (CL c x C r) l
      else ins_ctx st size (CR c l x C) r
  end.

(** The innermost frame of the insertion context records the last
    comparison of the descent. *)
Definition last_cmp (st : state) (size : Z) (C : ctx) : Prop :=
  match C with
  | Top => True
  | CL _ y _ _ => (size <? key st y) = true
  | CR _ _ y _ => (size <? key st y) = false
  end.

(** The loop of [rbt_insert_fixup] on a focused tree: [t] is the subtree
    at [bp], [C] its context; the result is the whole tree when the loop
    exits. *)
Fixpoint ifix (C : ctx) (t : tree) {struct C} : tree :=
  match C with
  | Top => t
  | CL cp p up s =>
      if cp =? RED then
        match up with
        | Top => plug C t
        | CL cg g up' u =>
            if color_of u =? RED then
              ifix up' (Node RED (Node BLACK t p s) g (blacken u))
            else plug up' (Node BLACK t p (Node RED s g u))
        | CR cg u g up' =>
            if color_of u =? RED then
              ifix up' (Node RED (blacken u) g (Node BLACK t p s))
            else
              match t with
              | Node cz l z r =>
                  plug up' (Node BLACK (Node RED u g l) z (Node cp r p s))
              | Leaf => plug C t
              end
        end
      else plug C t
  | CR cp s p up =>
      if cp =? RED then
        match up with
        | Top => plug C t
        | CL cg g up' u =>
            if color_of u =? RED then
              ifix up' (Node RED (Node BLACK s p t) g (blacken u))
            else
              match t with
              | Node cz l z r =>
                  plug up' (Node BLACK (Node cp s p l) z (Node RED r g u))
              | Leaf => plug C t
              end
        | CR cg u g up' =>
            if color_of u =? RED then
              ifix up' (Node RED (blacken u) g (Node BLACK s p t))
            else plug up' (Node BLACK (Node RED u g s) p t)
        end
      else plug C t
  end.

(** [rbt_insert] as a whole: descend, hang the red node, fix up, blacken
    the root. *)
Definition ins (st : state) (bp : Z) (t : tree) : tree :=
  blacken (ifix (ins_ctx st (key st bp) Top t) (Node RED Leaf bp Leaf)).

(** *** Removal *)

(** Cases 3 and 4 of [rbt_remove_fixup], [x] a left child: the subtree
    that replaces [Node cp t p w] ([None] when both nephews are black). *)
Definition rcase_L (cp : Z) (t : tree) (p : Z) (w : tree) : option tree :=
  match w with
  | Leaf => None
  | Node cw wl w0 wr =>
      if (color_of wl =? BLACK) && (color_of wr =? BLACK) then None
      else if color_of wr =? BLACK then
        match wl with
        | Node _ wll wl0 wlr =>
            Some (Node cp (Node BLACK t p wll) wl0 (Node BLACK wlr w0 wr))
        | Leaf => None
        end
      else Some (Node cp (Node BLACK t p wl) w0 (blacken wr))
  end.

(** The mirror image, [x] a right child. *)
Definition rcase_R (cp : Z) (w : tree) (p : Z) (t : tree) : option tree :=
  match w with
  | Leaf => None
  | Node cw wl w0 wr =>
      if (color_of wr =? BLACK) && (color_of wl =? BLACK) then None
      else if color_of wl =? BLACK then
        match wr with
        | Node _ wrl wr0 wrr =>
            Some (Node cp (Node BLACK wl w0 wrl) wr0 (Node BLACK wrr p t))
        | Leaf => None
        end
      else Some (Node cp (blacken wl) w0 (Node BLACK wr p t))
  end.

Definition redden (t : tree) : tree :=
  match t with
  | Leaf => Leaf
  | Node _ l x r => Node RED l x r
  end.

(** The loop of [rbt_remove_fixup] with its final [SET_COLOR(x, BLACK)]:
    [t] is the subtree at [x] (a leaf when [x] is NIL), [C] its context. *)
Fixpoint rfix (C : ctx) (t : tree) {struct C} : tree :=
  match C with
  | Top => blacken t
  | CL cp p up w =>
      if negb (color_of t =? BLACK) then plug C (blacken t)
      else
        match w with
        | Leaf => plug C t
        | Node cw wl w0 wr =>
            if cw =? RED then
              match rcase_L RED t p wl with
              | Some s => blacken (plug (CL BLACK w0 up wr) s)
              | None => plug (CL BLACK w0 up wr) (Node BLACK t p (redden wl))
              end
            else
              match rcase_L cp t p w with
              | Some s => blacken (plug up s)
              | None => rfix up (Node cp t p (Node RED wl w0 wr))
              end
        end
  | CR cp w p up =>
      if negb (color_of t =? BLACK) then plug C (blacken t)
      else
        match w with
        | Leaf => plug C t
        | Node cw wl w0 wr =>
            if cw =? RED then
              match rcase_R RED wr p t with
              | Some s => blacken (plug (CR BLACK wl w0 up) s)
              | None => plug (CR BLACK wl w0 up) (Node BLACK (redden wr) p t)
              end
            else
              match rcase_R cp w p t with
              | Some s => blacken (plug up s)
              | None => rfix up (Node cp (Node RED wl w0 wr) p t)
              end
        end
  end.

(** Contexts compose: the hole of [outer] takes [inner]. *)
Fixpoint capp (inner outer : ctx) : ctx :=
  match inner with
  | Top => outer
  | CL c x up r => CL c x (capp up outer) r
  | CR c l x up => CR c l x (capp up outer)
  end.

(** The leftmost node of [t], its colour, its right subtree, and the
    context of that node inside [t]. *)
Fixpoint min_split (t : tree) (C : ctx) : option (ctx * Z * Z * tree) :=
  match t with
  | Leaf => None
  | Node c l x r =>
      match l with
      | Leaf => Some (C, c, x, r)
      | Node _ _ _ _ => min_split l (CL c x C r)
      end
  end.

(** [rbt_remove] of the node at the focus: the colour of the node that
    leaves its place, the context and subtree at [x], and the whole tree
    before the fix-up. *)
Definition del_focus (C : ctx) (c : Z) (l : tree) (bp : Z) (r : tree)
  : Z * ctx * tree :=
  match l with
  | Leaf => (c, C, r)
  | Node _ _ _ _ =>
      match min_split r Top with
      | None => (c, C, l)
      | Some (Cm, cm, m, mr) => (cm, capp Cm (CR c l m C), mr)
      end
  end.

Definition del (C : ctx) (c : Z) (l : tree) (bp : Z) (r : tree) : tree :=
  let '(yc, C', t') := del_focus C c l bp r in
  if yc =? BLACK then rfix C' t' else plug C' t'.

(** *** Best fit *)

(** [rbt_find_best_fit] on the tree: [best] is the candidate so far. *)
Fixpoint bf (st : state) (t : tree) (asize best : Z) : Z :=
  match t with
  | Leaf => best
  | Node _ l x r =>
      if key st x >=? asize then
        bf st l asize
          (if (best =? NULL) || (key st x <? key st best) then x else best)
      else bf st r asize best
  end.

(* ================================================================== *)
(** ** The blocks a memory holds *)
(* ================================================================== *)

(** [seg st b e bl]: the blocks of sizes and allocated bits [bl] lie one
    after the other, the first with its payload at [b], the last ending
    where a block with payload at [e] would begin.  Each has its header
    and footer, at least [MINBLOCKSIZE] bytes, and a multiple of 8. *)
Fixpoint seg (st : state) (b e : Z) (bl : list (Z * Z)) : Prop :=
  match bl with
  | [] => b = e
  | (sz, a) :: rest =>
      GET st (HDRP b) = PACK sz a /\ GET st (b + sz - DSIZE) = PACK sz a /\
      MINBLOCKSIZE <= sz /\ sz mod 8 = 0 /\ (a = 0 \/ a = 1) /\
      seg st (b + sz) e rest
  end.

(** The bytes the blocks take together. *)
Fixpoint total (bl : list (Z * Z)) : Z :=
  match bl with
  | [] => 0
  | (sz, _) :: rest => sz + total rest
  end.

(** The blocks as [heap_walk] lists them. *)
Fixpoint blocks_at (b : Z) (bl : list (Z * Z)) : list (Z * Z * Z) :=
  match bl with
  | [] => []
  | (sz, a) :: rest => (b, sz, a) :: blocks_at (b + sz) rest
  end.

(** The payload pointers of the free blocks, and of the allocated ones. *)
Fixpoint frees (b : Z) (bl : list (Z * Z)) : list Z :=
  match bl with
  | [] => []
  | (sz, a) :: rest =>
      if a =? 0 then b :: frees (b + sz) rest else frees (b + sz) rest
  end.

Fixpoint allocs (b : Z) (bl : list (Z * Z)) : list (Z * Z) :=
  match bl with
  | [] => []
  | (sz, a) :: rest =>
      if a =? 0 then allocs (b + sz) rest else (b, sz) :: allocs (b + sz) rest
  end.

(** The first block's payload pointer. *)
Definition first_bp (st : state) : Z := heap_listp st + DSIZE.

(** The heap between two operations, but for the free blocks [xs] that are
    not in the tree: the prologue, the blocks [bl], the epilogue at the
    break; the region below [2^32] bytes and inside the address space; the
    sentinel outside the region; the tree [T], red-black and ordered by
    size, holding the other free blocks. *)
Record hinv_x (st : state) (bl : list (Z * Z)) (T : tree) (xs : list Z)
  : Prop := mk_hinv {
  hi_seg : seg st (first_bp st) (mem_brk st) bl;
  hi_pro : GET st (heap_listp st - WSIZE) = PACK DSIZE 1 /\
           GET st (heap_listp st) = PACK DSIZE 1;
  hi_epi : GET st (mem_brk st - WSIZE) = PACK 0 1;
  hi_rng : DSIZE <= heap_listp st /\ mem_brk st <= mem_max_addr st /\
           mem_max_addr st - heap_listp st < 2 ^ 32 /\
           mem_max_addr st + 32 <= 2 ^ 64;
  hi_nil : NIL st + 32 <= heap_listp st - DSIZE \/ mem_max_addr st <= NIL st;
  hi_tree : tinv st T;
  hi_rb : rbtree T;
  hi_bst : bst st T;
  hi_free : Permutation (xs ++ nodes T) (frees (first_bp st) bl)
}.

(** The heap between two operations. *)
Definition hinv (st : state) (bl : list (Z * Z)) (T : tree) : Prop :=
  hinv_x st bl T [].

(** [agree st st' lo hi]: [st'] differs from [st] at most in the bytes of
    [lo .. hi) and in the provider's break and limit. *)
Definition agree (st st' : state) (lo hi : Z) : Prop :=
  NIL st' = NIL st /\ root st' = root st /\ heap_listp st' = heap_listp st /\
  forall a, a < lo \/ hi <= a -> bytes st' a = bytes st a.

(** [env_eq st st']: the sentinel, the list head and the provider's break
    and limit are the same. *)
Definition env_eq (st st' : state) : Prop :=
  NIL st' = NIL st /\ heap_listp st' = heap_listp st /\
  mem_brk st' = mem_brk st /\ mem_max_addr st' = mem_max_addr st.

(** [env_ext st st']: as [env_eq], but the break may have moved up. *)
Definition env_ext (st st' : state) : Prop :=
  NIL st' = NIL st /\ heap_listp st' = heap_listp st /\
  mem_max_addr st' = mem_max_addr st /\ mem_brk st <= mem_brk st'.

(** Before [mm_init]: the provider's region is empty, below [2^32] bytes
    at its largest, and inside the address space; [nil_node] is a static
    array outside of it. *)
Definition pre_init (st : state) : Prop :=
  0 < NIL st /\ NIL st + 32 <= 2 ^ 64 /\
  (NIL st + 32 <= mem_brk st \/ mem_max_addr st <= NIL st) /\
  0 <= mem_brk st /\ mem_brk st <= mem_max_addr st /\
  mem_max_addr st - mem_brk st <= 2 ^ 32 /\ mem_max_addr st + 32 <= 2 ^ 64.

(** [keeps st st' A]: the payloads of the blocks [A], given by payload
    pointer and size, hold in [st'] the bytes they hold in [st]. *)
Definition keeps (st st' : state) (A : list (Z * Z)) : Prop :=
  forall q s a, In (q, s) A -> q <= a < q + s - DSIZE ->
                bytes st' a = bytes st a.

(** The allocated blocks around a run of [tm] bytes that follows [l1]. *)
Definition others (b : Z) (l1 : list (Z * Z)) (tm : Z) (l2 : list (Z * Z))
  : list (Z * Z) :=
  allocs b l1 ++ allocs (b + total l1 + tm) l2.

(* ================================================================== *)
(** ** The states a client can reach *)
(* ================================================================== *)

(** [allocated st p sz]: the walk over the heap finds an allocated block
    of [sz] bytes with its payload at [p]. *)
Definition allocated (st : state) (p sz : Z) : Prop :=
  exists fuel bs, heap_blocks fuel st = Some bs /\ In (p, sz, 1) bs.

(** The states between two public operations: after a successful
    [mm_init], the client calls [mm_malloc], [mm_free] and [mm_realloc]
    with sizes that fit [uint32_t] and pointers that are NULL or
    allocated, and writes bytes into the payloads of allocated blocks. *)
Inductive reachable : state -> Prop :=
| reach_init : forall st0 fuel st,
    pre_init st0 -> mm_init fuel st0 = Some (0, st) -> reachable st
| reach_malloc : forall st fuel n p st',
    reachable st -> 0 <= n < 2 ^ 32 ->
    mm_malloc fuel n st = Some (p, st') -> reachable st'
| reach_free : forall st fuel p st',
    reachable st -> (p = NULL \/ exists sz, allocated st p sz) ->
    mm_free fuel p st = Some st' -> reachable st'
| reach_realloc : forall st fuel p n q st',
    reachable st -> (p = NULL \/ exists sz, allocated st p sz) ->
    0 <= n < 2 ^ 32 ->
    mm_realloc fuel p n st = Some (q, st') -> reachable st'
| reach_write : forall st p sz a b,
    reachable st -> allocated st p sz -> p <= a < p + sz - DSIZE ->
    reachable (set_bytes (Mem.upd (bytes st) a b) st).

(** [r] is a best fit for [asize] among the free blocks [fb]: NULL when
    none is large enough, and otherwise a smallest one that is. *)
Definition best_fit_of (st : state) (fb : list Z) (asize r : Z) : Prop :=
  (r = NULL /\ forall x, In x fb -> GET_SIZE st (HDRP x) < asize) \/
  (r <> NULL /\ In r fb /\ asize <= GET_SIZE st (HDRP r) /\
   forall x, In x fb -> asize <= GET_SIZE st (HDRP x) ->
             GET_SIZE st (HDRP r) <= GET_SIZE st (HDRP x)).

(* ================================================================== *)
(** ** A concrete address space for the end-to-end scenarios *)
(* ================================================================== *)

(** Before [mm_init]: the provider's region starts at 4096 and may grow by
    20 MB, [nil_node] sits at address 64, and the other globals are zero.
    The initial contents [m0] of the address space are arbitrary. *)
Definition fresh (m0 : Mem.mem) : state :=
  mkState m0 4096 (4096 + 20 * 1048576) 0 64 0.

(** The same, with a provider that can grow the region by 3 GB. *)
Definition fresh_big (m0 : Mem.mem) : state :=
  mkState m0 4096 (4096 + 3 * 1073741824) 0 64 0.

(** The same, with a provider that stops after the first chunk. *)
Definition fresh_small (m0 : Mem.mem) : state :=
  mkState m0 4096 (4096 + 16 + 4096) 0 64 0.

(** An address space of zero bytes. *)
Definition zero_mem : Mem.mem := fun _ => 0.

(** The state an operation leaves, [st] when it does not return. *)
Definition state_of {A} (st : state) (r : option (A * state)) : state :=
  match r with Some (_, s) => s | None => st end.
Definition value_of {A} (r : option (Z * A)) : Z :=
  match r with Some (p, _) => p | None => 0 end.

(** The client fills [n] payload bytes at [p] with the byte [b]. *)
Definition fill (p n b : Z) (st : state) : state :=
  set_bytes (fun a => if (p <=? a) && (a <? p + n) then b else bytes st a) st.

(** The payload bytes [p[0..n)]. *)
Definition payload (st : state) (p : Z) (n : nat) : list Z :=
  map (fun i => Mem.byte_at (bytes st) (p + Z.of_nat i)) (seq 0 n).

(** [p = allocate(40); free(p)] after a fresh init. *)
Definition simple_cycle (m0 : Mem.mem) : option state :=
  '(_, st) <- mm_init 64 (fresh m0) ;;
  '(p, st) <- mm_malloc 64 40 st ;;
  mm_free 64 p st.

(** [allocate(SIZE_MAX)] after a fresh init. *)
Definition alloc_size_max (m0 : Mem.mem) : option (state * Z * state) :=
  '(_, st) <- mm_init 64 (fresh m0) ;;
  '(p, st') <- mm_malloc 64 (2 ^ 32 - 1) st ;;
  Some (st, p, st').

(** [p = allocate(200); reallocate(p, 40)] after a fresh init. *)
Definition shrink_scenario (m0 : Mem.mem) : option (Z * Z * state) :=
  '(_, st) <- mm_init 64 (fresh m0) ;;
  '(p, st) <- mm_malloc 64 200 st ;;
  '(q, st) <- mm_realloc 64 p 40 st ;;
  Some (p, q, st).

(** [p = allocate(100)], the client fills the 104 payload bytes with 0xAA,
    then [reallocate(p, SIZE_MAX)]. *)
Definition clobber_scenario (m0 : Mem.mem) : option (Z * state * Z * state) :=
  '(_, st) <- mm_init 64 (fresh m0) ;;
  '(p, st) <- mm_malloc 64 100 st ;;
  let st := fill p 104 170 st in
  '(q, st') <- mm_realloc 64 p (2 ^ 32 - 1) st ;;
  Some (p, st, q, st').

(** After [mm_init] on the zeroed address space. *)
Definition init_state : state :=
  state_of (fresh zero_mem) (mm_init 64 (fresh zero_mem)).

(** After [mm_init] with the small provider and [alloc_ptr = allocate(100)]. *)
Definition small_init : state :=
  state_of (fresh_small zero_mem) (mm_init 64 (fresh_small zero_mem)).
Definition alloc_ptr : Z := value_of (mm_malloc 64 100 small_init).
Definition alloc_state : state := state_of small_init (mm_malloc 64 100 small_init).

(** With a provider of 3 GB: [a = allocate(4040); p = allocate(2^31 - 56)],
    [reallocate(p, 2^31 - 16)], which grows [p] in place to [2^31] bytes,
    and then [reallocate(p, 2^31 - 8)]. *)
Definition big_scenario (m0 : Mem.mem) : option (Z * state * Z * state) :=
  '(_, st) <- mm_init 64 (fresh_big m0) ;;
  '(a, st) <- mm_malloc 64 4040 st ;;
  '(p, st) <- mm_malloc 64 (2 ^ 31 - 56) st ;;
  '(p, st) <- mm_realloc 64 p (2 ^ 31 - 16) st ;;
  '(q, st') <- mm_realloc 64 p (2 ^ 31 - 8) st ;;
  Some (p, st, q, st').

(** The two tests of [mm_realloc] that lead to its fall-back path: the
    adjusted size exceeds the block, and the next block is allocated or
    too small to make up the difference. *)
Definition falls_back (st : state) (ptr size : Z) : bool :=
  negb (adjust_size size <=? GET_SIZE st (HDRP ptr)) &&
  negb ((GET_ALLOC st (HDRP (NEXT_BLKP st ptr)) =? 0) &&
        (u32 (GET_SIZE st (HDRP (NEXT_BLKP st ptr)) + GET_SIZE st (HDRP ptr))
           >=? adjust_size size)).

(** Claim C8 as a test: the sentinel points to itself three times and is
    BLACK. *)
Definition nil_self_b (st : state) : bool :=
  (PARENT st (NIL st) =? NIL st) && (LEFT st (NIL st) =? NIL st) &&
  (RIGHT st (NIL st) =? NIL st) && (COLOR st (NIL st) =? BLACK).

(** The states of [a = allocate(40); b = allocate(40); free(a);
    c = allocate(40)] after [mm_init] on the zeroed address space. *)
Definition np_a : Z := value_of (mm_malloc 64 40 init_state).
Definition np_s1 : state := state_of init_state (mm_malloc 64 40 init_state).
Definition np_s2 : state := state_of np_s1 (mm_malloc 64 40 np_s1).
Definition np_s3 : state :=
  match mm_free 64 np_a np_s2 with Some s => s | None => np_s2 end.
Definition np_s4 : state := state_of np_s3 (mm_malloc 64 40 np_s3).

(* ================================================================== *)
(** ** Loads and stores *)
(* ================================================================== *)

Lemma load_bound : forall n m a, 0 <= Mem.load n m a < 256 ^ Z.of_nat n.
Proof.
  induction n; intros m a.
  - simpl. lia.
  - rewrite Nat2Z.inj_succ, Z.pow_succ_r by lia.
    cbn [Mem.load]. unfold Mem.byte_at.
    pose proof (Z.mod_pos_bound (m a) 256 ltac:(lia)).
    specialize (IHn m (a + 1)). nia.
Qed.

Lemma store_out : forall n m a v x,
  x < a \/ a + Z.of_nat n <= x -> Mem.store n m a v x = m x.
Proof.
  induction n; intros m a v x H; cbn [Mem.store].
  - reflexivity.
  - rewrite IHn by lia. unfold Mem.upd.
    destruct (Z.eqb_spec x a); [lia | reflexivity].
Qed.

Lemma load_ext : forall n m1 m2 a,
  (forall x, a <= x < a + Z.of_nat n -> m1 x = m2 x) ->
  Mem.load n m1 a = Mem.load n m2 a.
Proof.
  induction n; intros m1 m2 a H; cbn [Mem.load].
  - reflexivity.
  - unfold Mem.byte_at. rewrite (H a) by lia.
    rewrite (IHn m1 m2 (a + 1)); [reflexivity|].
    intros x Hx. apply H. lia.
Qed.

Lemma load_store_same : forall n m a v,
  Mem.load n (Mem.store n m a v) a = v mod 256 ^ Z.of_nat n.
Proof.
  induction n; intros m a v.
  - simpl. now rewrite Z.mod_1_r.
  - cbn [Mem.load Mem.store]. rewrite IHn.
    unfold Mem.byte_at. rewrite store_out by lia.
    unfold Mem.upd. rewrite Z.eqb_refl.
    rewrite Nat2Z.inj_succ, Z.pow_succ_r by lia.
    rewrite Z.mod_mod by lia.
    rewrite (Z.rem_mul_r v 256 (256 ^ Z.of_nat n)) by lia.
    reflexivity.
Qed.

Lemma load_store_disj : forall k n m a b v,
  b + Z.of_nat k <= a \/ a + Z.of_nat n <= b ->
  Mem.load k (Mem.store n m a v) b = Mem.load k m b.
Proof.
  intros k n m a b v H. apply load_ext.
  intros x Hx. apply store_out. lia.
Qed.

Lemma load_store_eq : forall n m a v,
  0 <= v < 256 ^ Z.of_nat n ->
  Mem.load n (Mem.store n m a v) a = v.
Proof.
  intros. rewrite load_store_same. apply Z.mod_small. assumption.
Qed.

(* ================================================================== *)
(** ** Node fields: reads over writes *)
(* ================================================================== *)

Lemma far_sym : forall x y, far x y -> far y x.
Proof. unfold far; intros; lia. Qed.

Lemma far_neq : forall x y, far x y -> x <> y.
Proof. unfold far; intros; lia. Qed.

Lemma far_eqb : forall x y, far x y -> (x =? y) = false.
Proof. intros x y H. apply Z.eqb_neq. now apply far_neq. Qed.

Lemma far_eqb' : forall x y, far x y -> (y =? x) = false.
Proof. intros x y H. apply Z.eqb_neq. apply far_neq in H. congruence. Qed.

Ltac fld_unfold :=
  unfold PARENT, LEFT, RIGHT, COLOR, key, GET_SIZE, GET, HDRP,
    SET_PARENT, SET_LEFT, SET_RIGHT, SET_COLOR, set_bytes, set_root,
    far, okptr, DSIZE, WSIZE in *;
  cbn [bytes NIL root mem_brk mem_max_addr heap_listp] in *.

Ltac fld_disj :=
  intros; fld_unfold; rewrite load_store_disj by (simpl; lia); reflexivity.

Lemma PARENT_SET_PARENT_far : forall x v st y,
  far x y -> PARENT (SET_PARENT x v st) y = PARENT st y.
Proof. fld_disj. Qed.

Lemma PARENT_SET_PARENT_eq : forall x v st,
  0 <= v < 2 ^ 64 -> PARENT (SET_PARENT x v st) x = v.
Proof.
  intros; fld_unfold. now rewrite load_store_eq.
Qed.

Lemma PARENT_SET_LEFT_far : forall x v st y,
  far x y -> PARENT (SET_LEFT x v st) y = PARENT st y.
Proof. fld_disj. Qed.

Lemma PARENT_SET_LEFT_same : forall x v st,
  PARENT (SET_LEFT x v st) x = PARENT st x.
Proof. fld_disj. Qed.

Lemma PARENT_SET_RIGHT_far : forall x v st y,
  far x y -> PARENT (SET_RIGHT x v st) y = PARENT st y.
Proof. fld_disj. Qed.

Lemma PARENT_SET_RIGHT_same : forall x v st,
  PARENT (SET_RIGHT x v st) x = PARENT st x.
Proof. fld_disj. Qed.

Lemma PARENT_SET_COLOR_far : forall x v st y,
  far x y -> PARENT (SET_COLOR x v st) y = PARENT st y.
Proof. fld_disj. Qed.

Lemma PARENT_SET_COLOR_same : forall x v st,
  PARENT (SET_COLOR x v st) x = PARENT st x.
Proof. fld_disj. Qed.

Lemma PARENT_set_root : forall r st y, PARENT (set_root r st) y = PARENT st y.
Proof. reflexivity. Qed.

Lemma LEFT_SET_PARENT_far : forall x v st y,
  far x y -> LEFT (SET_PARENT x v st) y = LEFT st y.
Proof. fld_disj. Qed.

Lemma LEFT_SET_PARENT_same : forall x v st,
  LEFT (SET_PARENT x v st) x = LEFT st x.
Proof. fld_disj. Qed.

Lemma LEFT_SET_LEFT_far : forall x v st y,
  far x y -> LEFT (SET_LEFT x v st) y = LEFT st y.
Proof. fld_disj. Qed.

Lemma LEFT_SET_LEFT_eq : forall x v st,
  0 <= v < 2 ^ 64 -> LEFT (SET_LEFT x v st) x = v.
Proof.
  intros; fld_unfold. now rewrite load_store_eq.
Qed.

Lemma LEFT_SET_RIGHT_far : forall x v st y,
  far x y -> LEFT (SET_RIGHT x v st) y = LEFT st y.
Proof. fld_disj. Qed.

Lemma LEFT_SET_RIGHT_same : forall x v st,
  LEFT (SET_RIGHT x v st) x = LEFT st x.
Proof. fld_disj. Qed.

Lemma LEFT_SET_COLOR_far : forall x v st y,
  far x y -> LEFT (SET_COLOR x v st) y = LEFT st y.
Proof. fld_disj. Qed.

Lemma LEFT_SET_COLOR_same : forall x v st,
  LEFT (SET_COLOR x v st) x = LEFT st x.
Proof. fld_disj. Qed.

Lemma LEFT_set_root : forall r st y, LEFT (set_root r st) y = LEFT st y.
Proof. reflexivity. Qed.

Lemma RIGHT_SET_PARENT_far : forall x v st y,
  far x y -> RIGHT (SET_PARENT x v st) y = RIGHT st y.
Proof. fld_disj. Qed.

Lemma RIGHT_SET_PARENT_same : forall x v st,
  RIGHT (SET_PARENT x v st) x = RIGHT st x.
Proof. fld_disj. Qed.

Lemma RIGHT_SET_LEFT_far : forall x v st y,
  far x y -> RIGHT (SET_LEFT x v st) y = RIGHT st y.
Proof. fld_disj. Qed.

Lemma RIGHT_SET_LEFT_same : forall x v st,
  RIGHT (SET_LEFT x v st) x = RIGHT st x.
Proof. fld_disj. Qed.

Lemma RIGHT_SET_RIGHT_far : forall x v st y,
  far x y -> RIGHT (SET_RIGHT x v st) y = RIGHT st y.
Proof. fld_disj. Qed.

Lemma RIGHT_SET_RIGHT_eq : forall x v st,
  0 <= v < 2 ^ 64 -> RIGHT (SET_RIGHT x v st) x = v.
Proof.
  intros; fld_unfold. now rewrite load_store_eq.
Qed.

Lemma RIGHT_SET_COLOR_far : forall x v st y,
  far x y -> RIGHT (SET_COLOR x v st) y = RIGHT st y.
Proof. fld_disj. Qed.

Lemma RIGHT_SET_COLOR_same : forall x v st,
  RIGHT (SET_COLOR x v st) x = RIGHT st x.
Proof. fld_disj. Qed.

Lemma RIGHT_set_root : forall r st y, RIGHT (set_root r st) y = RIGHT st y.
Proof. reflexivity. Qed.

Lemma COLOR_SET_PARENT_far : forall x v st y,
  far x y -> COLOR (SET_PARENT x v st) y = COLOR st y.
Proof. fld_disj. Qed.

Lemma COLOR_SET_PARENT_same : forall x v st,
  COLOR (SET_PARENT x v st) x = COLOR st x.
Proof. fld_disj. Qed.

Lemma COLOR_SET_LEFT_far : forall x v st y,
  far x y -> COLOR (SET_LEFT x v st) y = COLOR st y.
Proof. fld_disj. Qed.

Lemma COLOR_SET_LEFT_same : forall x v st,
  COLOR (SET_LEFT x v st) x = COLOR st x.
Proof. fld_disj. Qed.

Lemma COLOR_SET_RIGHT_far : forall x v st y,
  far x y -> COLOR (SET_RIGHT x v st) y = COLOR st y.
Proof. fld_disj. Qed.

Lemma COLOR_SET_RIGHT_same : forall x v st,
  COLOR (SET_RIGHT x v st) x = COLOR st x.
Proof. fld_disj. Qed.

Lemma COLOR_SET_COLOR_far : forall x v st y,
  far x y -> COLOR (SET_COLOR x v st) y = COLOR st y.
Proof. fld_disj. Qed.

Lemma COLOR_SET_COLOR_eq : forall x v st,
  0 <= v < 256 -> COLOR (SET_COLOR x v st) x = v.
Proof.
  intros; fld_unfold. now rewrite load_store_eq.
Qed.

Lemma COLOR_set_root : forall r st y, COLOR (set_root r st) y = COLOR st y.
Proof. reflexivity. Qed.

Lemma key_SET_PARENT_far : forall x v st y,
  far x y -> key (SET_PARENT x v st) y = key st y.
Proof. fld_disj. Qed.

Lemma key_SET_PARENT_same : forall x v st,
  key (SET_PARENT x v st) x = key st x.
Proof. fld_disj. Qed.

Lemma key_SET_LEFT_far : forall x v st y,
  far x y -> key (SET_LEFT x v st) y = key st y.
Proof. fld_disj. Qed.

Lemma key_SET_LEFT_same : forall x v st,
  key (SET_LEFT x v st) x = key st x.
Proof. fld_disj. Qed.

Lemma key_SET_RIGHT_far : forall x v st y,
  far x y -> key (SET_RIGHT x v st) y = key st y.
Proof. fld_disj. Qed.

Lemma key_SET_RIGHT_same : forall x v st,
  key (SET_RIGHT x v st) x = key st x.
Proof. fld_disj. Qed.

Lemma key_SET_COLOR_far : forall x v st y,
  far x y -> key (SET_COLOR x v st) y = key st y.
Proof. fld_disj. Qed.

Lemma key_SET_COLOR_same : forall x v st,
  key (SET_COLOR x v st) x = key st x.
Proof. fld_disj. Qed.

Lemma key_set_root : forall r st y, key (set_root r st) y = key st y.
Proof. reflexivity. Qed.

Lemma NIL_SET_PARENT : forall x v st, NIL (SET_PARENT x v st) = NIL st.
Proof. reflexivity. Qed.

Lemma root_SET_PARENT : forall x v st, root (SET_PARENT x v st) = root st.
Proof. reflexivity. Qed.

Lemma NIL_SET_LEFT : forall x v st, NIL (SET_LEFT x v st) = NIL st.
Proof. reflexivity. Qed.

Lemma root_SET_LEFT : forall x v st, root (SET_LEFT x v st) = root st.
Proof. reflexivity. Qed.

Lemma NIL_SET_RIGHT : forall x v st, NIL (SET_RIGHT x v st) = NIL st.
Proof. reflexivity. Qed.

Lemma root_SET_RIGHT : forall x v st, root (SET_RIGHT x v st) = root st.
Proof. reflexivity. Qed.

Lemma NIL_SET_COLOR : forall x v st, NIL (SET_COLOR x v st) = NIL st.
Proof. reflexivity. Qed.

Lemma root_SET_COLOR : forall x v st, root (SET_COLOR x v st) = root st.
Proof. reflexivity. Qed.

Lemma NIL_set_root : forall r st, NIL (set_root r st) = NIL st.
Proof. reflexivity. Qed.

Lemma root_set_root : forall r st, root (set_root r st) = r.
Proof. reflexivity. Qed.


Lemma COLOR_range : forall st x, 0 <= COLOR st x < 256.
Proof. intros. unfold COLOR. apply (load_bound 1). Qed.

Lemma okptr_range : forall x, okptr x -> 0 <= x < 2 ^ 64.
Proof. unfold okptr; intros; lia. Qed.

Create Rewrite HintDb fld.

Ltac far_tac :=
  solve [ assumption | apply far_sym; assumption ].

Ltac rng_tac :=
  solve [ assumption
        | apply okptr_range; assumption
        | apply COLOR_range
        | unfold RED, BLACK; lia ].

#[export] Hint Rewrite
  PARENT_SET_LEFT_same
  PARENT_SET_RIGHT_same
  PARENT_SET_COLOR_same
  LEFT_SET_PARENT_same
  LEFT_SET_RIGHT_same
  LEFT_SET_COLOR_same
  RIGHT_SET_PARENT_same
  RIGHT_SET_LEFT_same
  RIGHT_SET_COLOR_same
  COLOR_SET_PARENT_same
  COLOR_SET_LEFT_same
  COLOR_SET_RIGHT_same
  key_SET_PARENT_same
  key_SET_LEFT_same
  key_SET_RIGHT_same
  key_SET_COLOR_same
  PARENT_set_root
  LEFT_set_root
  RIGHT_set_root
  COLOR_set_root
  key_set_root
  NIL_SET_PARENT
  NIL_SET_LEFT
  NIL_SET_RIGHT
  NIL_SET_COLOR
  root_SET_PARENT
  root_SET_LEFT
  root_SET_RIGHT
  root_SET_COLOR
  NIL_set_root root_set_root : fld.

#[export] Hint Rewrite
  PARENT_SET_PARENT_far
  PARENT_SET_LEFT_far
  PARENT_SET_RIGHT_far
  PARENT_SET_COLOR_far
  LEFT_SET_PARENT_far
  LEFT_SET_LEFT_far
  LEFT_SET_RIGHT_far
  LEFT_SET_COLOR_far
  RIGHT_SET_PARENT_far
  RIGHT_SET_LEFT_far
  RIGHT_SET_RIGHT_far
  RIGHT_SET_COLOR_far
  COLOR_SET_PARENT_far
  COLOR_SET_LEFT_far
  COLOR_SET_RIGHT_far
  COLOR_SET_COLOR_far
  key_SET_PARENT_far
  key_SET_LEFT_far
  key_SET_RIGHT_far
  key_SET_COLOR_far
  using far_tac : fld.

#[export] Hint Rewrite
  PARENT_SET_PARENT_eq
  LEFT_SET_LEFT_eq
  RIGHT_SET_RIGHT_eq
  COLOR_SET_COLOR_eq
  using rng_tac : fld.

Lemma key_eq : forall st x, GET_SIZE st (HDRP x) = key st x.
Proof. reflexivity. Qed.

#[global] Opaque PARENT LEFT RIGHT COLOR key
  SET_PARENT SET_LEFT SET_RIGHT SET_COLOR set_root.

(* ================================================================== *)
(** ** Separation, frames and the representation predicates *)
(* ================================================================== *)

Lemma sepl_app : forall l1 l2,
  sepl (l1 ++ l2) <->
  sepl l1 /\ sepl l2 /\ Forall (fun x => Forall (far x) l2) l1.
Proof.
  induction l1; intros l2; simpl.
  - intuition.
  - rewrite Forall_app, IHl1. split.
    + intros [[H1 H2] [H3 [H4 H5]]]. repeat split; auto.
    + intros [[H1 H2] [H3 H4]]. inversion H4; subst. repeat split; auto.
Qed.

Lemma sepl_perm : forall l1 l2, Permutation l1 l2 -> sepl l1 -> sepl l2.
Proof.
  induction 1; simpl; intros Hs.
  - exact I.
  - destruct Hs as [H1 H2]. split; auto.
    eapply Permutation_Forall; eauto.
  - destruct Hs as [H1 [H2 H3]]. inversion H1; subst.
    repeat split; auto. constructor; auto. now apply far_sym.
  - auto.
Qed.

Lemma sepl_NoDup : forall l, sepl l -> NoDup l.
Proof.
  induction l; simpl; intros H.
  - constructor.
  - destruct H as [H1 H2]. constructor; auto.
    intros Hin. rewrite Forall_forall in H1. apply H1 in Hin.
    unfold far in Hin. lia.
Qed.

Lemma sepl_in_far : forall l x y,
  sepl l -> In x l -> In y l -> x <> y -> far x y.
Proof.
  induction l; simpl; intros x y Hs Hx Hy Hne.
  - contradiction.
  - destruct Hs as [H1 H2]. rewrite Forall_forall in H1.
    destruct Hx as [-> | Hx], Hy as [-> | Hy].
    + congruence.
    + auto.
    + apply far_sym; auto.
    + eauto.
Qed.

Lemma nodes_plug : forall C t,
  Permutation (nodes (plug C t)) (nodes t ++ cnodes C).
Proof.
  induction C; intros t; simpl.
  - now rewrite app_nil_r.
  - rewrite IHC. simpl. rewrite <- app_assoc. simpl.
    apply Permutation_app_head. reflexivity.
  - rewrite IHC. simpl. rewrite <- app_assoc. simpl.
    rewrite <- (Permutation_middle (nodes l)).
    rewrite <- (Permutation_middle (nodes t)).
    apply perm_skip. rewrite !app_assoc.
    apply Permutation_app_tail. apply Permutation_app_comm.
Qed.

(** *** Frames *)

#[local] Transparent PARENT LEFT RIGHT COLOR key
  SET_PARENT SET_LEFT SET_RIGHT SET_COLOR set_root.

Lemma wr_refl : forall st, wr st st [].
Proof. unfold wr; intuition. Qed.

Lemma wr_set_root : forall r st, wr st (set_root r st) [].
Proof. unfold wr; simpl; intuition. Qed.

Lemma wr_store : forall n x off v st,
  0 <= off -> off + Z.of_nat n <= 25 ->
  wr st (set_bytes (Mem.store n (bytes st) (x + off) v) st) [x].
Proof.
  intros. unfold wr; simpl. repeat split; auto.
  intros a Ha. inversion Ha; subst.
  apply store_out. lia.
Qed.

Lemma wr_SET_PARENT : forall x v st, wr st (SET_PARENT x v st) [x].
Proof.
  intros. unfold SET_PARENT.
  replace x with (x + 0) at 1 by lia.
  apply wr_store; simpl; lia.
Qed.

Lemma wr_SET_LEFT : forall x v st, wr st (SET_LEFT x v st) [x].
Proof. intros. apply wr_store; unfold DSIZE; simpl; lia. Qed.

Lemma wr_SET_RIGHT : forall x v st, wr st (SET_RIGHT x v st) [x].
Proof. intros. apply wr_store; unfold DSIZE; simpl; lia. Qed.

Lemma wr_SET_COLOR : forall x v st, wr st (SET_COLOR x v st) [x].
Proof. intros. apply wr_store; unfold DSIZE; simpl; lia. Qed.

Lemma wr_trans : forall st st1 st2 l1 l2,
  wr st st1 l1 -> wr st1 st2 l2 -> wr st st2 (l1 ++ l2).
Proof.
  unfold wr. intros st st1 st2 l1 l2 (A1 & A2 & A3 & A4 & A5) (B1 & B2 & B3 & B4 & B5).
  repeat split; try congruence.
  intros a Ha. apply Forall_app in Ha. destruct Ha.
  rewrite B5, A5; auto.
Qed.

Lemma wr_incl : forall st st' l l',
  wr st st' l -> incl l l' -> wr st st' l'.
Proof.
  unfold wr. intros st st' l l' (A1 & A2 & A3 & A4 & A5) Hi.
  repeat split; auto.
  intros a Ha. apply A5. rewrite Forall_forall in *.
  intros x Hx. apply Ha. auto.
Qed.

Lemma wr_load : forall st st' ws n a,
  wr st st' ws ->
  Forall (fun w => a + Z.of_nat n <= w \/ w + 25 <= a) ws ->
  Mem.load n (bytes st') a = Mem.load n (bytes st) a.
Proof.
  intros st st' ws n a (_ & _ & _ & _ & H) Hf.
  apply load_ext. intros x Hx. apply H.
  rewrite Forall_forall in *. intros w Hw. specialize (Hf w Hw). lia.
Qed.

Lemma wr_fields : forall st st' ws x,
  wr st st' ws -> Forall (fun w => far w x) ws ->
  PARENT st' x = PARENT st x /\ LEFT st' x = LEFT st x /\
  RIGHT st' x = RIGHT st x /\ COLOR st' x = COLOR st x.
Proof.
  intros st st' ws x Hw Hf.
  unfold PARENT, LEFT, RIGHT, COLOR, DSIZE.
  repeat split; apply (wr_load st st' ws); auto;
    (eapply Forall_impl; [|exact Hf]); unfold far; simpl; intros; lia.
Qed.

Lemma wr_key : forall st st' ws x,
  wr st st' ws -> Forall (fun w => w = x \/ far w x) ws ->
  key st' x = key st x.
Proof.
  intros st st' ws x Hw Hf.
  unfold key, GET_SIZE, GET, HDRP, WSIZE. f_equal.
  apply (wr_load st st' ws); auto.
  (eapply Forall_impl; [|exact Hf]); unfold far; simpl; intros; lia.
Qed.

Lemma wr_NIL : forall st st' ws, wr st st' ws -> NIL st' = NIL st.
Proof. unfold wr; intuition. Qed.

(** *** [rep] and [repc] under a frame *)

Lemma rep_wr : forall st st' ws t par,
  wr st st' ws ->
  Forall (fun w => Forall (far w) (nodes t)) ws ->
  rep st par t -> rep st' par t.
Proof.
  intros st st' ws t. induction t as [|c l IHl x r IHr]; intros par Hw Hf; simpl.
  - auto.
  - intros (H1 & H2 & H3 & H4 & H5 & H6).
    assert (Hx : Forall (fun w => far w x) ws).
    { eapply Forall_impl; [|exact Hf]. simpl. intros a Ha.
      rewrite Forall_forall in Ha. apply Ha. apply in_or_app. right. now left. }
    destruct (wr_fields _ _ _ _ Hw Hx) as (E1 & E2 & E3 & E4).
    rewrite E1, E2, E3, E4, (wr_NIL _ _ _ Hw).
    repeat split; auto.
    + apply IHl; auto. eapply Forall_impl; [|exact Hf]. simpl. intros a Ha.
      rewrite Forall_forall in *. intros y Hy. apply Ha. apply in_or_app. now left.
    + apply IHr; auto. eapply Forall_impl; [|exact Hf]. simpl. intros a Ha.
      rewrite Forall_forall in *. intros y Hy. apply Ha. apply in_or_app. right. now right.
Qed.

Lemma Forall_far_split : forall ws x l1 l2,
  Forall (fun w => Forall (far w) (x :: l1 ++ l2)) ws ->
  Forall (fun w => far w x) ws /\
  Forall (fun w => Forall (far w) l1) ws /\
  Forall (fun w => Forall (far w) l2) ws.
Proof.
  intros ws x l1 l2 H. repeat split;
    (eapply Forall_impl; [|exact H]); simpl; intros a Ha;
    apply Forall_cons_iff in Ha; destruct Ha as [Ha1 Ha2];
    apply Forall_app in Ha2; tauto.
Qed.

Lemma repc_wr : forall st st' ws C h,
  wr st st' ws -> root st' = root st ->
  Forall (fun w => Forall (far w) (cnodes C)) ws ->
  repc st C h -> repc st' C h.
Proof.
  intros st st' ws C. induction C as [|c x up IH r|c l x up IH]; intros h Hw Hr Hf; simpl.
  - congruence.
  - intros (H1 & H2 & H3 & H4 & H5 & H6).
    simpl in Hf. apply Forall_far_split in Hf. destruct Hf as (Hx & Hf1 & Hf2).
    destruct (wr_fields _ _ _ _ Hw Hx) as (E1 & E2 & E3 & E4).
    rewrite E1, E2, E3, E4, (wr_NIL _ _ _ Hw).
    repeat split; auto.
    eapply rep_wr; eauto.
  - intros (H1 & H2 & H3 & H4 & H5 & H6).
    simpl in Hf. apply Forall_far_split in Hf. destruct Hf as (Hx & Hf1 & Hf2).
    destruct (wr_fields _ _ _ _ Hw Hx) as (E1 & E2 & E3 & E4).
    rewrite E1, E2, E3, E4, (wr_NIL _ _ _ Hw).
    repeat split; auto.
    eapply rep_wr; eauto.
Qed.

(** The whole tree through a focus. *)
Lemma rep_plug : forall st C t par0,
  rep st par0 (plug C t) /\ root st = ptr (NIL st) (plug C t) /\ par0 = NIL st <->
  repc st C (ptr (NIL st) t) /\ rep st (cpar (NIL st) C) t /\ par0 = NIL st.
Proof.
  intros st C. induction C as [|c x up IH r|c l x up IH]; intros t par0; simpl.
  - split; intros (A & B & D); subst; auto.
  - rewrite IH. simpl. tauto.
  - rewrite IH. simpl. tauto.
Qed.

Lemma wrep_plug : forall st C t,
  wrep st (plug C t) <->
  repc st C (ptr (NIL st) t) /\ rep st (cpar (NIL st) C) t.
Proof.
  intros. unfold wrep.
  pose proof (rep_plug st C t (NIL st)). tauto.
Qed.

#[local] Opaque PARENT LEFT RIGHT COLOR key.

(* ================================================================== *)
(** ** Pairwise separation of named nodes and node lists *)
(* ================================================================== *)


Lemma cross_nil_l : forall l, cross [] l <-> True.
Proof. unfold cross; intuition. Qed.

Lemma cross_nil_r : forall l, cross l [] <-> True.
Proof.
  unfold cross; intros; split; auto. intros _.
  apply Forall_forall. intros; constructor.
Qed.

Lemma cross_cons_l : forall x l1 l2,
  cross (x :: l1) l2 <-> Forall (far x) l2 /\ cross l1 l2.
Proof. unfold cross; intros. apply Forall_cons_iff. Qed.

Lemma cross_sym : forall l1 l2, cross l1 l2 -> cross l2 l1.
Proof.
  unfold cross; intros l1 l2 H. rewrite Forall_forall in *.
  intros y Hy. rewrite Forall_forall. intros x Hx.
  specialize (H x Hx). rewrite Forall_forall in H.
  apply far_sym. auto.
Qed.

Lemma cross_cons_r : forall y l1 l2,
  cross l1 (y :: l2) <-> Forall (far y) l1 /\ cross l1 l2.
Proof.
  intros. split.
  - intros H. apply cross_sym in H. apply cross_cons_l in H.
    destruct H. split; auto. now apply cross_sym.
  - intros [H1 H2]. apply cross_sym. apply cross_cons_l. split; auto.
    now apply cross_sym.
Qed.

Lemma cross_app_l : forall l1 l1' l2,
  cross (l1 ++ l1') l2 <-> cross l1 l2 /\ cross l1' l2.
Proof. unfold cross; intros. apply Forall_app. Qed.

Lemma cross_app_r : forall l1 l2 l2',
  cross l1 (l2 ++ l2') <-> cross l1 l2 /\ cross l1 l2'.
Proof.
  intros. split.
  - intros H. apply cross_sym in H. apply cross_app_l in H.
    destruct H. split; now apply cross_sym.
  - intros [H1 H2]. apply cross_sym. apply cross_app_l.
    split; now apply cross_sym.
Qed.

Lemma sepl_cons : forall x l, sepl (x :: l) <-> Forall (far x) l /\ sepl l.
Proof. reflexivity. Qed.

Lemma sepl_nil : sepl [] <-> True.
Proof. reflexivity. Qed.

Lemma sepl_app' : forall l1 l2,
  sepl (l1 ++ l2) <-> sepl l1 /\ sepl l2 /\ cross l1 l2.
Proof. exact sepl_app. Qed.

Lemma Forall_nil_iff' : forall (P : Z -> Prop), Forall P [] <-> True.
Proof. intros; split; auto. Qed.

Lemma Forall_cons_iff' : forall (P : Z -> Prop) x l,
  Forall P (x :: l) <-> P x /\ Forall P l.
Proof. intros. apply Forall_cons_iff. Qed.

Lemma Forall_app' : forall (P : Z -> Prop) l1 l2,
  Forall P (l1 ++ l2) <-> Forall P l1 /\ Forall P l2.
Proof. intros. apply Forall_app. Qed.

Create Rewrite HintDb sepdb.
#[export] Hint Rewrite sepl_cons sepl_nil sepl_app'
  cross_nil_l cross_nil_r cross_cons_l cross_cons_r cross_app_l cross_app_r
  Forall_nil_iff' Forall_cons_iff' Forall_app' : sepdb.

(** Break a separation or [Forall] hypothesis into its atomic facts. *)
Ltac brk H :=
  lazymatch type of H with
  | sepl [] => clear H
  | sepl (_ :: _) =>
      let A := fresh "S" in let B := fresh "S" in
      destruct (proj1 (sepl_cons _ _) H) as [A B]; clear H; brk A; brk B
  | sepl (_ ++ _) =>
      let A := fresh "S" in let B := fresh "S" in let D := fresh "S" in
      destruct (proj1 (sepl_app' _ _) H) as (A & B & D); clear H;
      brk A; brk B; brk D
  | Forall _ [] => clear H
  | Forall _ (_ :: _) =>
      let A := fresh "S" in let B := fresh "S" in
      destruct (proj1 (Forall_cons_iff' _ _ _) H) as [A B]; clear H; brk B
  | Forall _ (_ ++ _) =>
      let A := fresh "S" in let B := fresh "S" in
      destruct (proj1 (Forall_app' _ _ _) H) as [A B]; clear H; brk A; brk B
  | cross [] _ => clear H
  | cross _ [] => clear H
  | cross (_ :: _) _ =>
      let A := fresh "S" in let B := fresh "S" in
      destruct (proj1 (cross_cons_l _ _ _) H) as [A B]; clear H; brk A; brk B
  | cross (_ ++ _) _ =>
      let A := fresh "S" in let B := fresh "S" in
      destruct (proj1 (cross_app_l _ _ _) H) as [A B]; clear H; brk A; brk B
  | cross _ (_ :: _) =>
      let A := fresh "S" in let B := fresh "S" in
      destruct (proj1 (cross_cons_r _ _ _) H) as [A B]; clear H; brk A; brk B
  | cross _ (_ ++ _) =>
      let A := fresh "S" in let B := fresh "S" in
      destruct (proj1 (cross_app_r _ _ _) H) as [A B]; clear H; brk A; brk B
  | _ => idtac
  end.

Ltac sep_in H := simpl nodes in H; simpl cnodes in H; brk H.


Lemma wr_step_P : forall st s ws x v,
  wr st s ws -> wr st (SET_PARENT x v s) (x :: ws).
Proof.
  intros. eapply wr_incl. eapply wr_trans; [eassumption|apply wr_SET_PARENT].
  intros a Ha. apply in_app_or in Ha. simpl in *. intuition.
Qed.
Lemma wr_step_L : forall st s ws x v,
  wr st s ws -> wr st (SET_LEFT x v s) (x :: ws).
Proof.
  intros. eapply wr_incl. eapply wr_trans; [eassumption|apply wr_SET_LEFT].
  intros a Ha. apply in_app_or in Ha. simpl in *. intuition.
Qed.
Lemma wr_step_R : forall st s ws x v,
  wr st s ws -> wr st (SET_RIGHT x v s) (x :: ws).
Proof.
  intros. eapply wr_incl. eapply wr_trans; [eassumption|apply wr_SET_RIGHT].
  intros a Ha. apply in_app_or in Ha. simpl in *. intuition.
Qed.
Lemma wr_step_C : forall st s ws x v,
  wr st s ws -> wr st (SET_COLOR x v s) (x :: ws).
Proof.
  intros. eapply wr_incl. eapply wr_trans; [eassumption|apply wr_SET_COLOR].
  intros a Ha. apply in_app_or in Ha. simpl in *. intuition.
Qed.
Lemma wr_step_root : forall st s ws r,
  wr st s ws -> wr st (set_root r s) ws.
Proof.
  intros. eapply wr_incl. eapply wr_trans; [eassumption|apply wr_set_root].
  intros a Ha. apply in_app_or in Ha. simpl in *. intuition.
Qed.

Ltac wr_tac :=
  repeat lazymatch goal with
  | |- wr _ (SET_PARENT _ _ _) _ => apply wr_step_P
  | |- wr _ (SET_LEFT _ _ _) _ => apply wr_step_L
  | |- wr _ (SET_RIGHT _ _ _) _ => apply wr_step_R
  | |- wr _ (SET_COLOR _ _ _) _ => apply wr_step_C
  | |- wr _ (set_root _ _) _ => apply wr_step_root
  end;
  apply wr_refl.

Lemma nodes_plug_eq : forall C t t',
  nodes t = nodes t' -> nodes (plug C t) = nodes (plug C t').
Proof.
  induction C; intros t t' H; simpl; auto.
  - apply IHC. simpl. now rewrite H.
  - apply IHC. simpl. now rewrite H.
Qed.

Lemma tinv_same_nodes : forall st st' T T',
  tinv st T -> nodes T' = nodes T -> NIL st' = NIL st ->
  wrep st' T' -> nil_ok st' -> tinv st' T'.
Proof.
  intros st st' T T' [H1 H2 H3 H4] Hn HN Hw Hnil.
  constructor; auto; rewrite Hn, HN; auto.
Qed.

Lemma repc_update_Top : forall st' h, root st' = h -> repc st' Top h.
Proof. auto. Qed.

Lemma repc_update_CL : forall st st' ws c p up r h h',
  repc st (CL c p up r) h -> wr st st' ws -> root st' = root st ->
  Forall (fun w => Forall (far w) (nodes r)) ws ->
  Forall (fun w => Forall (far w) (cnodes up)) ws ->
  LEFT st' p = h' -> COLOR st' p = COLOR st p ->
  RIGHT st' p = RIGHT st p -> PARENT st' p = PARENT st p ->
  repc st' (CL c p up r) h'.
Proof.
  simpl. intros st st' ws c p up r h h' (H1 & H2 & H3 & H4 & H5 & H6) Hw Hr F1 F2 E1 E2 E3 E4.
  rewrite E2, E3, E4, (wr_NIL _ _ _ Hw). repeat split; auto.
  - eapply rep_wr; eauto.
  - eapply repc_wr; eauto.
Qed.

Lemma repc_update_CR : forall st st' ws c l p up h h',
  repc st (CR c l p up) h -> wr st st' ws -> root st' = root st ->
  Forall (fun w => Forall (far w) (nodes l)) ws ->
  Forall (fun w => Forall (far w) (cnodes up)) ws ->
  RIGHT st' p = h' -> COLOR st' p = COLOR st p ->
  LEFT st' p = LEFT st p -> PARENT st' p = PARENT st p ->
  repc st' (CR c l p up) h'.
Proof.
  simpl. intros st st' ws c l p up h h' (H1 & H2 & H3 & H4 & H5 & H6) Hw Hr F1 F2 E1 E2 E3 E4.
  rewrite E2, E3, E4, (wr_NIL _ _ _ Hw). repeat split; auto.
  - eapply rep_wr; eauto.
  - eapply repc_wr; eauto.
Qed.

(** Expand the outermost [let] of the goal, after simplifying what it
    binds. *)
Ltac let_step :=
  match goal with
  | |- context G [let v := ?e in @?b v] =>
      let g' := context G [b e] in change g'; cbv beta
  end.

Ltac farall_tac :=
  repeat (apply Forall_cons || apply Forall_nil);
  rewrite ?Forall_app'; repeat split;
  solve [ assumption | apply Forall_nil ].

Ltac fld_goal :=
  autorewrite with fld;
  solve [ reflexivity | assumption | congruence ].

Ltac rep_tac :=
  simpl rep; repeat split;
  lazymatch goal with
  | |- rep _ _ _ => (eapply rep_wr; [wr_tac | farall_tac | eassumption])
  | |- _ => fld_goal
  end.

Lemma ptr_far : forall x nil t,
  far x nil -> Forall (far x) (nodes t) -> far x (ptr nil t).
Proof.
  intros x nil [|c l y r] H1 H2; simpl; auto.
  rewrite Forall_forall in H2. apply H2. apply in_or_app. right. now left.
Qed.

Ltac far_tac ::=
  solve [ assumption | apply far_sym; assumption
        | apply ptr_far; [ first [assumption | apply far_sym; assumption]
                         | assumption ]
        | apply far_sym; apply ptr_far;
          [ first [assumption | apply far_sym; assumption] | assumption ] ].

(** One read pushed through one write. *)
Ltac fstep :=
  match goal with
  | |- context [PARENT (SET_PARENT ?x ?v ?s) ?y] =>
      first [ rewrite (PARENT_SET_PARENT_eq x v s) by rng_tac
            | rewrite (PARENT_SET_PARENT_far x v s y) by far_tac ]
  | |- context [PARENT (SET_LEFT ?x ?v ?s) ?y] =>
      first [ rewrite (PARENT_SET_LEFT_same x v s)
            | rewrite (PARENT_SET_LEFT_far x v s y) by far_tac ]
  | |- context [PARENT (SET_RIGHT ?x ?v ?s) ?y] =>
      first [ rewrite (PARENT_SET_RIGHT_same x v s)
            | rewrite (PARENT_SET_RIGHT_far x v s y) by far_tac ]
  | |- context [PARENT (SET_COLOR ?x ?v ?s) ?y] =>
      first [ rewrite (PARENT_SET_COLOR_same x v s)
            | rewrite (PARENT_SET_COLOR_far x v s y) by far_tac ]
  | |- context [PARENT (set_root ?r ?s) ?y] => rewrite (PARENT_set_root r s y)
  | |- context [LEFT (SET_PARENT ?x ?v ?s) ?y] =>
      first [ rewrite (LEFT_SET_PARENT_same x v s)
            | rewrite (LEFT_SET_PARENT_far x v s y) by far_tac ]
  | |- context [LEFT (SET_LEFT ?x ?v ?s) ?y] =>
      first [ rewrite (LEFT_SET_LEFT_eq x v s) by rng_tac
            | rewrite (LEFT_SET_LEFT_far x v s y) by far_tac ]
  | |- context [LEFT (SET_RIGHT ?x ?v ?s) ?y] =>
      first [ rewrite (LEFT_SET_RIGHT_same x v s)
            | rewrite (LEFT_SET_RIGHT_far x v s y) by far_tac ]
  | |- context [LEFT (SET_COLOR ?x ?v ?s) ?y] =>
      first [ rewrite (LEFT_SET_COLOR_same x v s)
            | rewrite (LEFT_SET_COLOR_far x v s y) by far_tac ]
  | |- context [LEFT (set_root ?r ?s) ?y] => rewrite (LEFT_set_root r s y)
  | |- context [RIGHT (SET_PARENT ?x ?v ?s) ?y] =>
      first [ rewrite (RIGHT_SET_PARENT_same x v s)
            | rewrite (RIGHT_SET_PARENT_far x v s y) by far_tac ]
  | |- context [RIGHT (SET_LEFT ?x ?v ?s) ?y] =>
      first [ rewrite (RIGHT_SET_LEFT_same x v s)
            | rewrite (RIGHT_SET_LEFT_far x v s y) by far_tac ]
  | |- context [RIGHT (SET_RIGHT ?x ?v ?s) ?y] =>
      first [ rewrite (RIGHT_SET_RIGHT_eq x v s) by rng_tac
            | rewrite (RIGHT_SET_RIGHT_far x v s y) by far_tac ]
  | |- context [RIGHT (SET_COLOR ?x ?v ?s) ?y] =>
      first [ rewrite (RIGHT_SET_COLOR_same x v s)
            | rewrite (RIGHT_SET_COLOR_far x v s y) by far_tac ]
  | |- context [RIGHT (set_root ?r ?s) ?y] => rewrite (RIGHT_set_root r s y)
  | |- context [COLOR (SET_PARENT ?x ?v ?s) ?y] =>
      first [ rewrite (COLOR_SET_PARENT_same x v s)
            | rewrite (COLOR_SET_PARENT_far x v s y) by far_tac ]
  | |- context [COLOR (SET_LEFT ?x ?v ?s) ?y] =>
      first [ rewrite (COLOR_SET_LEFT_same x v s)
            | rewrite (COLOR_SET_LEFT_far x v s y) by far_tac ]
  | |- context [COLOR (SET_RIGHT ?x ?v ?s) ?y] =>
      first [ rewrite (COLOR_SET_RIGHT_same x v s)
            | rewrite (COLOR_SET_RIGHT_far x v s y) by far_tac ]
  | |- context [COLOR (SET_COLOR ?x ?v ?s) ?y] =>
      first [ rewrite (COLOR_SET_COLOR_eq x v s) by rng_tac
            | rewrite (COLOR_SET_COLOR_far x v s y) by far_tac ]
  | |- context [COLOR (set_root ?r ?s) ?y] => rewrite (COLOR_set_root r s y)
  | |- context [key (SET_PARENT ?x ?v ?s) ?y] =>
      first [ rewrite (key_SET_PARENT_same x v s)
            | rewrite (key_SET_PARENT_far x v s y) by far_tac ]
  | |- context [key (SET_LEFT ?x ?v ?s) ?y] =>
      first [ rewrite (key_SET_LEFT_same x v s)
            | rewrite (key_SET_LEFT_far x v s y) by far_tac ]
  | |- context [key (SET_RIGHT ?x ?v ?s) ?y] =>
      first [ rewrite (key_SET_RIGHT_same x v s)
            | rewrite (key_SET_RIGHT_far x v s y) by far_tac ]
  | |- context [key (SET_COLOR ?x ?v ?s) ?y] =>
      first [ rewrite (key_SET_COLOR_same x v s)
            | rewrite (key_SET_COLOR_far x v s y) by far_tac ]
  | |- context [key (set_root ?r ?s) ?y] => rewrite (key_set_root r s y)
  | |- context [NIL (SET_PARENT ?x ?v ?s)] => rewrite (NIL_SET_PARENT x v s)
  | |- context [root (SET_PARENT ?x ?v ?s)] => rewrite (root_SET_PARENT x v s)
  | |- context [NIL (SET_LEFT ?x ?v ?s)] => rewrite (NIL_SET_LEFT x v s)
  | |- context [root (SET_LEFT ?x ?v ?s)] => rewrite (root_SET_LEFT x v s)
  | |- context [NIL (SET_RIGHT ?x ?v ?s)] => rewrite (NIL_SET_RIGHT x v s)
  | |- context [root (SET_RIGHT ?x ?v ?s)] => rewrite (root_SET_RIGHT x v s)
  | |- context [NIL (SET_COLOR ?x ?v ?s)] => rewrite (NIL_SET_COLOR x v s)
  | |- context [root (SET_COLOR ?x ?v ?s)] => rewrite (root_SET_COLOR x v s)
  | |- context [NIL (set_root ?r ?s)] => rewrite (NIL_set_root r s)
  | |- context [root (set_root ?r ?s)] => rewrite (root_set_root r s)
  end.

Ltac fsimp := repeat fstep.

Ltac use_reads :=
  repeat match goal with
  | H : PARENT _ _ = _ |- _ => rewrite H
  | H : LEFT _ _ = _ |- _ => rewrite H
  | H : RIGHT _ _ = _ |- _ => rewrite H
  | H : COLOR _ _ = _ |- _ => rewrite H
  | H : root _ = _ |- _ => rewrite H
  | H : NIL _ = _ |- _ => rewrite H
  end.

Lemma BLACK_RED : (BLACK =? RED) = false.
Proof. reflexivity. Qed.

Ltac eqb_step :=
  match goal with
  | |- context [BLACK =? RED] => rewrite BLACK_RED
  | |- context [?a =? ?b] =>
      first [ constr_eq a b; rewrite (Z.eqb_refl a)
            | rewrite (far_eqb a b) by far_tac ]
  | H : (_ =? _) = _ |- _ => rewrite H
  end.

Ltac sym_step :=
  first [ fstep | progress use_reads | eqb_step | let_step
        | progress cbv beta iota ].

Ltac sym_exec := repeat sym_step.

Ltac fld_goal ::=
  fsimp; use_reads;
  solve [ reflexivity | assumption | congruence ].

Ltac repc_tac Hc :=
  lazymatch goal with
  | |- repc _ Top _ => apply repc_update_Top; fld_goal
  | |- repc _ (CL _ _ _ _) _ =>
      eapply repc_update_CL;
      [ exact Hc | wr_tac | fld_goal | farall_tac | farall_tac
      | fld_goal | fld_goal | fld_goal | fld_goal ]
  | |- repc _ (CR _ _ _ _) _ =>
      eapply repc_update_CR;
      [ exact Hc | wr_tac | fld_goal | farall_tac | farall_tac
      | fld_goal | fld_goal | fld_goal | fld_goal ]
  end.

Ltac nil_tac :=
  unfold nil_ok; fsimp; repeat split; assumption.

Lemma wr_named : forall st st' l L,
  wr st st' l -> Forall (fun x => In x L) l -> wr st st' L.
Proof.
  intros. eapply wr_incl; eauto. intros a Ha.
  rewrite Forall_forall in H0. auto.
Qed.

Lemma in_nodes_plug : forall C t x,
  In x (nodes t) -> In x (nodes (plug C t)).
Proof.
  intros. eapply Permutation_in; [symmetry; apply nodes_plug|].
  apply in_or_app. now left.
Qed.

Lemma in_cnodes_plug : forall C t x,
  In x (cnodes C) -> In x (nodes (plug C t)).
Proof.
  intros. eapply Permutation_in; [symmetry; apply nodes_plug|].
  apply in_or_app. now right.
Qed.

Ltac in_list :=
  simpl nodes; simpl cnodes;
  lazymatch goal with
  | |- In ?x (?x :: _) => left; reflexivity
  | |- In _ (_ :: _) => right; in_list
  | |- In _ (_ ++ _) => apply in_or_app; first [left; in_list | right; in_list]
  end.

Ltac in_tac :=
  first [ apply in_nodes_plug; in_list | apply in_cnodes_plug; in_list ].

Ltac forall_in_tac :=
  repeat (apply Forall_cons; [in_tac|]); apply Forall_nil.

Ltac nodes_eq :=
  simpl; repeat (rewrite <- app_assoc; simpl); reflexivity.

(** Close a goal [tinv st' (plug C t')] where [st'] is an explicit chain
    of field writes on [st], [Hinv] is the invariant of [st] and [Hc] the
    representation of the context in [st]. *)
Ltac tinv_close st Hinv Hc :=
  apply (tinv_same_nodes st _ _ _ Hinv);
  [ apply nodes_plug_eq; nodes_eq
  | reflexivity
  | apply wrep_plug; split; [ repc_tac Hc | rep_tac ]
  | nil_tac ].

Ltac wr_close := eapply wr_named; [wr_tac | forall_in_tac].

(** Unpack an invariant at a focus: the context's and the subtree's
    representation, and the separation facts. *)
Ltac tinv_open Hinv C Hc Hr Hsep Hok Hnil :=
  pose proof Hinv as [Hr Hsep Hok Hnil];
  apply wrep_plug in Hr; destruct Hr as [Hc Hr];
  apply (sepl_perm _ _ (perm_skip _ (nodes_plug C _))) in Hsep;
  apply (Permutation_Forall (perm_skip _ (nodes_plug C _))) in Hok.

Lemma left_rotate_tinv : forall st C cx a x cy b y c0,
  tinv st (plug C (Node cx a x (Node cy b y c0))) ->
  tinv (left_rotate x st) (plug C (Node cy (Node cx a x b) y c0)) /\
  wr st (left_rotate x st) (nodes (plug C (Node cx a x (Node cy b y c0)))).
Proof.
  intros st C cx a x cy b y c0 Hinv.
  tinv_open Hinv C Hc Hr Hsep Hok Hnil.
  simpl in Hr. destruct Hr as (Px & Cx & Lx & Rx & Ha & Py & Cy & Ly & Ry & Hb & Hc0).
  destruct Hnil as (Ln & Rn & Cn).
  destruct b as [|cb bl b0 br]; destruct C as [|cp p up r|cp l p up];
  sep_in Hsep; sep_in Hok.
  all: simpl in Hc; simpl in Hb; simpl in Ly; simpl in Px.
  all: pose proof Hc as Hc'.
  all: try destruct Hc as (Hc1 & Hc2 & Hc3 & Hc4 & Hc5 & Hc6).
  all: try destruct Hb as (Hb1 & Hb2 & Hb3 & Hb4 & Hb5 & Hb6).
  all: cbv beta delta [left_rotate].
  all: sym_exec.
  all: split; [tinv_close st Hinv Hc' | wr_close].
Qed.

Lemma right_rotate_tinv : forall st C cx a y cy b x c0,
  tinv st (plug C (Node cx (Node cy a y b) x c0)) ->
  tinv (right_rotate x st) (plug C (Node cy a y (Node cx b x c0))) /\
  wr st (right_rotate x st) (nodes (plug C (Node cx (Node cy a y b) x c0))).
Proof.
  intros st C cx a y cy b x c0 Hinv.
  tinv_open Hinv C Hc Hr Hsep Hok Hnil.
  simpl in Hr. destruct Hr as (Px & Cx & Lx & Rx & (Py & Cy & Ly & Ry & Ha & Hb) & Hc0).
  destruct Hnil as (Ln & Rn & Cn).
  destruct b as [|cb bl b0 br]; destruct C as [|cp p up r|cp l p up];
  sep_in Hsep; sep_in Hok.
  all: simpl in Hc; simpl in Hb; simpl in Ry; simpl in Px.
  all: pose proof Hc as Hc'.
  all: try destruct Hc as (Hc1 & Hc2 & Hc3 & Hc4 & Hc5 & Hc6).
  all: try destruct Hb as (Hb1 & Hb2 & Hb3 & Hb4 & Hb5 & Hb6).
  all: cbv beta delta [right_rotate].
  all: sym_exec.
  all: split; [tinv_close st Hinv Hc' | wr_close].
Qed.

#[global] Opaque left_rotate right_rotate.

Lemma set_color_tinv : forall st C c l x r c',
  0 <= c' < 256 ->
  tinv st (plug C (Node c l x r)) ->
  tinv (SET_COLOR x c' st) (plug C (Node c' l x r)) /\
  wr st (SET_COLOR x c' st) (nodes (plug C (Node c l x r))).
Proof.
  intros st C c l x r c' Hc' Hinv.
  tinv_open Hinv C Hc Hr Hsep Hok Hnil.
  simpl in Hr. destruct Hr as (Px & Cx & Lx & Rx & Hl & Hr).
  destruct Hnil as (Ln & Rn & Cn).
  destruct C as [|cp p up s|cp s p up];
  sep_in Hsep; sep_in Hok.
  all: simpl in Hc; simpl in Px.
  all: pose proof Hc as Hc0.
  all: try destruct Hc as (Hc1 & Hc2 & Hc3 & Hc4 & Hc5 & Hc6).
  all: split; [tinv_close st Hinv Hc0 | wr_close].
Qed.

Lemma set_color_nil_tinv : forall st T,
  tinv st T ->
  tinv (SET_COLOR (NIL st) BLACK st) T /\
  wr st (SET_COLOR (NIL st) BLACK st) [NIL st].
Proof.
  intros st T Hinv.
  pose proof Hinv as [[Hroot Hrep] Hsep Hok Hnil].
  simpl in Hsep. destruct Hsep as [Hs1 Hs2].
  destruct Hnil as (Ln & Rn & Cn).
  split; [|wr_tac].
  apply (tinv_same_nodes st _ _ _ Hinv); [reflexivity|reflexivity| |nil_tac].
  split.
  - fsimp. assumption.
  - eapply rep_wr; [wr_tac| |eassumption].
    repeat constructor. assumption.
Qed.

(* ================================================================== *)
(** ** [rbt_insert_fixup] *)
(* ================================================================== *)

Lemma wr_trans_eq : forall st s1 s2 l l',
  wr st s1 l -> wr s1 s2 l' -> l' = l -> wr st s2 l.
Proof.
  intros; subst. eapply wr_incl; [eapply wr_trans; eauto|].
  intros a Ha. apply in_app_or in Ha. tauto.
Qed.

Lemma blacken_root_tinv : forall st c l x r,
  tinv st (Node c l x r) ->
  tinv (SET_COLOR (root st) BLACK st) (Node BLACK l x r) /\
  wr st (SET_COLOR (root st) BLACK st) (nodes (Node c l x r)).
Proof.
  intros st c l x r H.
  assert (Hr : root st = x) by (destruct H as [[Hr _] _ _ _]; exact Hr).
  rewrite Hr.
  apply (set_color_tinv st Top c l x r BLACK); [unfold BLACK; lia | exact H].
Qed.

(** Recolouring parent, uncle and grandparent (the uncle is red). *)
Lemma recolor3_L : forall st C cg cp a p b g cu ul u ur,
  tinv st (plug C (Node cg (Node cp a p b) g (Node cu ul u ur))) ->
  let st' := SET_COLOR g RED (SET_COLOR u BLACK (SET_COLOR p BLACK st)) in
  tinv st' (plug C (Node RED (Node BLACK a p b) g (Node BLACK ul u ur))) /\
  wr st st' (nodes (plug C (Node cg (Node cp a p b) g (Node cu ul u ur)))).
Proof.
  intros st C cg cp a p b g cu ul u ur H0 st'. subst st'.
  destruct (set_color_tinv st (CL cg g C (Node cu ul u ur)) cp a p b BLACK
              ltac:(unfold BLACK; lia) H0) as [H1 W1].
  destruct (set_color_tinv _ (CR cg (Node BLACK a p b) g C) cu ul u ur BLACK
              ltac:(unfold BLACK; lia) H1) as [H2 W2].
  destruct (set_color_tinv _ C cg (Node BLACK a p b) g (Node BLACK ul u ur) RED
              ltac:(unfold RED; lia) H2) as [H3 W3].
  split; [exact H3|].
  eapply wr_trans_eq; [eapply wr_trans_eq; [exact W1 | exact W2 |] | exact W3 |];
    cbn [plug]; apply nodes_plug_eq; reflexivity.
Qed.

Lemma recolor3_R : forall st C cg cu ul u ur g cp a p b,
  tinv st (plug C (Node cg (Node cu ul u ur) g (Node cp a p b))) ->
  let st' := SET_COLOR g RED (SET_COLOR u BLACK (SET_COLOR p BLACK st)) in
  tinv st' (plug C (Node RED (Node BLACK ul u ur) g (Node BLACK a p b))) /\
  wr st st' (nodes (plug C (Node cg (Node cu ul u ur) g (Node cp a p b)))).
Proof.
  intros st C cg cu ul u ur g cp a p b H0 st'. subst st'.
  destruct (set_color_tinv st (CR cg (Node cu ul u ur) g C) cp a p b BLACK
              ltac:(unfold BLACK; lia) H0) as [H1 W1].
  destruct (set_color_tinv _ (CL cg g C (Node BLACK a p b)) cu ul u ur BLACK
              ltac:(unfold BLACK; lia) H1) as [H2 W2].
  destruct (set_color_tinv _ C cg (Node BLACK ul u ur) g (Node BLACK a p b) RED
              ltac:(unfold RED; lia) H2) as [H3 W3].
  split; [exact H3|].
  eapply wr_trans_eq; [eapply wr_trans_eq; [exact W1 | exact W2 |] | exact W3 |];
    cbn [plug]; apply nodes_plug_eq; reflexivity.
Qed.

(** Parent black, grandparent red, rotate the grandparent. *)
Lemma rotR_recolor : forall st C cg cp a p b g c0,
  tinv st (plug C (Node cg (Node cp a p b) g c0)) ->
  let st' := right_rotate g (SET_COLOR g RED (SET_COLOR p BLACK st)) in
  tinv st' (plug C (Node BLACK a p (Node RED b g c0))) /\
  wr st st' (nodes (plug C (Node cg (Node cp a p b) g c0))).
Proof.
  intros st C cg cp a p b g c0 H0 st'. subst st'.
  destruct (set_color_tinv st (CL cg g C c0) cp a p b BLACK
              ltac:(unfold BLACK; lia) H0) as [H1 W1].
  destruct (set_color_tinv _ C cg (Node BLACK a p b) g c0 RED
              ltac:(unfold RED; lia) H1) as [H2 W2].
  destruct (right_rotate_tinv _ C RED a p BLACK b g c0 H2) as [H3 W3].
  split; [exact H3|].
  eapply wr_trans_eq; [eapply wr_trans_eq; [exact W1 | exact W2 |] | exact W3 |];
    cbn [plug]; apply nodes_plug_eq; reflexivity.
Qed.

Lemma rotL_recolor : forall st C cg c0 g cp a p b,
  tinv st (plug C (Node cg c0 g (Node cp a p b))) ->
  let st' := left_rotate g (SET_COLOR g RED (SET_COLOR p BLACK st)) in
  tinv st' (plug C (Node BLACK (Node RED c0 g a) p b)) /\
  wr st st' (nodes (plug C (Node cg c0 g (Node cp a p b)))).
Proof.
  intros st C cg c0 g cp a p b H0 st'. subst st'.
  destruct (set_color_tinv st (CR cg c0 g C) cp a p b BLACK
              ltac:(unfold BLACK; lia) H0) as [H1 W1].
  destruct (set_color_tinv _ C cg c0 g (Node BLACK a p b) RED
              ltac:(unfold RED; lia) H1) as [H2 W2].
  destruct (left_rotate_tinv _ C RED c0 g BLACK a p b H2) as [H3 W3].
  split; [exact H3|].
  eapply wr_trans_eq; [eapply wr_trans_eq; [exact W1 | exact W2 |] | exact W3 |];
    cbn [plug]; apply nodes_plug_eq; reflexivity.
Qed.

Lemma rbt_insert_fixup_eq : forall fuel bp st,
  rbt_insert_fixup fuel bp st =
  if negb (bp =? root st) && (COLOR st (PARENT st bp) =? RED) then
    match fuel with
    | O => None
    | S f => let '(bp, st) := insert_fixup_body bp st in rbt_insert_fixup f bp st
    end
  else Some (SET_COLOR (root st) BLACK st).
Proof. destruct fuel; reflexivity. Qed.

Lemma plug_node : forall C c l x r,
  exists c' l' x' r', plug C (Node c l x r) = Node c' l' x' r'.
Proof.
  induction C; intros; simpl; [repeat eexists | apply IHC | apply IHC].
Qed.

Lemma root_in_cnodes : forall st C h,
  repc st C h -> C <> Top -> In (root st) (cnodes C).
Proof.
  induction C as [|c x up IH r|c l x up IH]; intros h H Hne; [congruence| |].
  - simpl in H. destruct H as (_ & _ & _ & _ & _ & H).
    destruct up; [simpl in H; left; congruence|right|right];
      apply in_or_app; right; eapply IH; eauto; discriminate.
  - simpl in H. destruct H as (_ & _ & _ & _ & _ & H).
    destruct up; [simpl in H; left; congruence|right|right];
      apply in_or_app; right; eapply IH; eauto; discriminate.
Qed.

Lemma not_root : forall st C c l z r,
  tinv st (plug C (Node c l z r)) -> C <> Top -> (z =? root st) = false.
Proof.
  intros st C c l z r Hinv Hne.
  tinv_open Hinv C Hc Hr Hsep Hok Hnil.
  pose proof (root_in_cnodes _ _ _ Hc Hne) as Hin.
  simpl in Hsep. destruct Hsep as [_ Hsep].
  apply sepl_app' in Hsep. destruct Hsep as (_ & _ & Hx).
  apply cross_app_l in Hx. destruct Hx as [_ Hx].
  apply cross_cons_l in Hx. destruct Hx as [Hx _].
  rewrite Forall_forall in Hx. apply far_eqb. auto.
Qed.

(** Leaving the loop: the root is blackened. *)
Lemma insert_fixup_exit : forall fuel st c l x r z,
  tinv st (Node c l x r) ->
  negb (z =? root st) && (COLOR st (PARENT st z) =? RED) = false ->
  exists st', rbt_insert_fixup fuel z st = Some st' /\
    tinv st' (Node BLACK l x r) /\
    wr st st' (nodes (Node c l x r)).
Proof.
  intros fuel st c l x r z H Hc.
  rewrite rbt_insert_fixup_eq, Hc.
  eexists; split; [reflexivity|].
  exact (blacken_root_tinv st c l x r H).
Qed.

Ltac destr_and :=
  repeat match goal with H : _ /\ _ |- _ => destruct H end.

(** All the reads an invariant gives at the focus [C]. *)
Ltac tinv_reads H C :=
  let Hc := fresh "Hc" in let Hr := fresh "Hr" in let Hs := fresh "Hs" in
  let Ho := fresh "Ho" in let Hn := fresh "Hn" in
  tinv_open H C Hc Hr Hs Ho Hn;
  simpl in Hr; simpl in Hc; unfold nil_ok in Hn; destr_and;
  sep_in Hs; sep_in Ho.

(** The loop test after a rotation: the parent of [bp] is black. *)
Ltac cond_false H C :=
  tinv_reads H C; use_reads; rewrite ?BLACK_RED; apply andb_false_r.

Lemma ctop_up : forall up c, ctop up c = BLACK -> ctop up BLACK = BLACK.
Proof. destruct up; simpl; auto. Qed.

(** One turn of the loop: either the red node moves two levels up, or the
    tree is final and the loop test fails. *)
Lemma insert_fixup_body_ok : forall st C cz l z r,
  tinv st (plug C (Node cz l z r)) ->
  match C with
  | CL cp _ (CL _ _ _ _) _ | CL cp _ (CR _ _ _ _) _
  | CR cp _ _ (CL _ _ _ _) | CR cp _ _ (CR _ _ _ _) => cp = RED
  | _ => False
  end ->
  exists z' st1,
    insert_fixup_body z st = (z', st1) /\
    wr st st1 (nodes (plug C (Node cz l z r))) /\
    ((exists up' cl ll lr, depth C = S (S (depth up')) /\
        (ctop C BLACK = BLACK -> ctop up' BLACK = BLACK) /\
        tinv st1 (plug up' (Node RED ll z' lr)) /\
        ifix C (Node cz l z r) = ifix up' (Node cl ll z' lr) /\ cl = RED /\
        nodes (plug up' (Node RED ll z' lr)) = nodes (plug C (Node cz l z r))) \/
     (tinv st1 (ifix C (Node cz l z r)) /\
      negb (z' =? root st1) && (COLOR st1 (PARENT st1 z') =? RED) = false)).
Proof.
  intros st C cz l z r Hinv HC.
  destruct C as [|cp p [|cg g up' u|cg u g up'] s|cp s p [|cg g up' u|cg u g up']];
    try contradiction; subst cp.
  - (* parent a left child, bp a left child *)
    destruct u as [|cu ul u ur]; [|destruct (Z.eqb_spec cu RED) as [Ecu|Ecu]].
    + destruct (rotR_recolor st up' cg RED (Node cz l z r) p s g Leaf Hinv) as [H1 W1].
      tinv_reads Hinv up'.
      exists z, (right_rotate g (SET_COLOR g RED (SET_COLOR p BLACK st))).
      split; [cbv beta delta [insert_fixup_body]; sym_exec; reflexivity|].
      split; [exact W1|]. right. split; [exact H1|].
      clear - H1. cond_false H1 up'.
    + subst cu.
      destruct (recolor3_L st up' cg RED (Node cz l z r) p s g RED ul u ur Hinv) as [H1 W1].
      tinv_reads Hinv up'.
      exists g, (SET_COLOR g RED (SET_COLOR u BLACK (SET_COLOR p BLACK st))).
      split; [cbv beta delta [insert_fixup_body]; sym_exec; reflexivity|].
      split; [exact W1|]. left.
      exists up', RED, (Node BLACK (Node cz l z r) p s), (Node BLACK ul u ur).
      split; [reflexivity|]. split; [simpl ctop; apply ctop_up|]. split; [exact H1|].
      split; [reflexivity|]. split; [reflexivity|].
      cbn [plug]; apply nodes_plug_eq; reflexivity.
    + destruct (rotR_recolor st up' cg RED (Node cz l z r) p s g (Node cu ul u ur) Hinv) as [H1 W1].
      pose proof (proj2 (Z.eqb_neq cu RED) Ecu) as Ecu'.
      tinv_reads Hinv up'.
      exists z, (right_rotate g (SET_COLOR g RED (SET_COLOR p BLACK st))).
      split; [cbv beta delta [insert_fixup_body]; sym_exec; reflexivity|].
      split; [exact W1|]. right. split; [simpl; rewrite Ecu'; exact H1|].
      clear - H1. cond_false H1 up'.
  - (* parent a right child, bp a left child: rotate the parent first *)
    destruct u as [|cu ul u ur]; [|destruct (Z.eqb_spec cu RED) as [Ecu|Ecu]].
    + destruct (right_rotate_tinv st (CR cg Leaf g up') RED l z cz r p s Hinv) as [H1 W1].
      destruct (rotL_recolor _ up' cg Leaf g cz l z (Node RED r p s) H1) as [H2 W2].
      tinv_reads Hinv up'. tinv_reads H1 up'.
      exists p, (left_rotate g (SET_COLOR g RED (SET_COLOR z BLACK (right_rotate p st)))).
      split; [cbv beta delta [insert_fixup_body]; sym_exec; reflexivity|].
      split; [eapply wr_trans_eq; [exact W1|exact W2|cbn [plug]; apply nodes_plug_eq; nodes_eq]|].
      right. split; [exact H2|].
      clear - H2. cond_false H2 up'.
    + subst cu.
      destruct (recolor3_R st up' cg RED ul u ur g RED (Node cz l z r) p s Hinv) as [H1 W1].
      tinv_reads Hinv up'.
      exists g, (SET_COLOR g RED (SET_COLOR u BLACK (SET_COLOR p BLACK st))).
      split; [cbv beta delta [insert_fixup_body]; sym_exec; reflexivity|].
      split; [exact W1|]. left.
      exists up', RED, (Node BLACK ul u ur), (Node BLACK (Node cz l z r) p s).
      split; [reflexivity|]. split; [simpl ctop; apply ctop_up|]. split; [exact H1|].
      split; [reflexivity|]. split; [reflexivity|].
      cbn [plug]; apply nodes_plug_eq; reflexivity.
    + pose proof (proj2 (Z.eqb_neq cu RED) Ecu) as Ecu'.
      destruct (right_rotate_tinv st (CR cg (Node cu ul u ur) g up') RED l z cz r p s Hinv) as [H1 W1].
      destruct (rotL_recolor _ up' cg (Node cu ul u ur) g cz l z (Node RED r p s) H1) as [H2 W2].
      tinv_reads Hinv up'. tinv_reads H1 up'.
      exists p, (left_rotate g (SET_COLOR g RED (SET_COLOR z BLACK (right_rotate p st)))).
      split; [cbv beta delta [insert_fixup_body]; sym_exec; reflexivity|].
      split; [eapply wr_trans_eq; [exact W1|exact W2|cbn [plug]; apply nodes_plug_eq; nodes_eq]|].
      right. split; [simpl; rewrite Ecu'; exact H2|].
      clear - H2. cond_false H2 up'.
  - (* parent a left child, bp a right child: rotate the parent first *)
    destruct u as [|cu ul u ur]; [|destruct (Z.eqb_spec cu RED) as [Ecu|Ecu]].
    + destruct (left_rotate_tinv st (CL cg g up' Leaf) RED s p cz l z r Hinv) as [H1 W1].
      destruct (rotR_recolor _ up' cg cz (Node RED s p l) z r g Leaf H1) as [H2 W2].
      tinv_reads Hinv up'. tinv_reads H1 up'.
      exists p, (right_rotate g (SET_COLOR g RED (SET_COLOR z BLACK (left_rotate p st)))).
      split; [cbv beta delta [insert_fixup_body]; sym_exec; reflexivity|].
      split; [eapply wr_trans_eq; [exact W1|exact W2|cbn [plug]; apply nodes_plug_eq; nodes_eq]|].
      right. split; [exact H2|].
      clear - H2. cond_false H2 up'.
    + subst cu.
      destruct (recolor3_L st up' cg RED s p (Node cz l z r) g RED ul u ur Hinv) as [H1 W1].
      tinv_reads Hinv up'.
      exists g, (SET_COLOR g RED (SET_COLOR u BLACK (SET_COLOR p BLACK st))).
      split; [cbv beta delta [insert_fixup_body]; sym_exec; reflexivity|].
      split; [exact W1|]. left.
      exists up', RED, (Node BLACK s p (Node cz l z r)), (Node BLACK ul u ur).
      split; [reflexivity|]. split; [simpl ctop; apply ctop_up|]. split; [exact H1|].
      split; [reflexivity|]. split; [reflexivity|].
      cbn [plug]; apply nodes_plug_eq; reflexivity.
    + pose proof (proj2 (Z.eqb_neq cu RED) Ecu) as Ecu'.
      destruct (left_rotate_tinv st (CL cg g up' (Node cu ul u ur)) RED s p cz l z r Hinv) as [H1 W1].
      destruct (rotR_recolor _ up' cg cz (Node RED s p l) z r g (Node cu ul u ur) H1) as [H2 W2].
      tinv_reads Hinv up'. tinv_reads H1 up'.
      exists p, (right_rotate g (SET_COLOR g RED (SET_COLOR z BLACK (left_rotate p st)))).
      split; [cbv beta delta [insert_fixup_body]; sym_exec; reflexivity|].
      split; [eapply wr_trans_eq; [exact W1|exact W2|cbn [plug]; apply nodes_plug_eq; nodes_eq]|].
      right. split; [simpl; rewrite Ecu'; exact H2|].
      clear - H2. cond_false H2 up'.
  - (* parent a right child, bp a right child *)
    destruct u as [|cu ul u ur]; [|destruct (Z.eqb_spec cu RED) as [Ecu|Ecu]].
    + destruct (rotL_recolor st up' cg Leaf g RED s p (Node cz l z r) Hinv) as [H1 W1].
      tinv_reads Hinv up'.
      exists z, (left_rotate g (SET_COLOR g RED (SET_COLOR p BLACK st))).
      split; [cbv beta delta [insert_fixup_body]; sym_exec; reflexivity|].
      split; [exact W1|]. right. split; [exact H1|].
      clear - H1. cond_false H1 up'.
    + subst cu.
      destruct (recolor3_R st up' cg RED ul u ur g RED s p (Node cz l z r) Hinv) as [H1 W1].
      tinv_reads Hinv up'.
      exists g, (SET_COLOR g RED (SET_COLOR u BLACK (SET_COLOR p BLACK st))).
      split; [cbv beta delta [insert_fixup_body]; sym_exec; reflexivity|].
      split; [exact W1|]. left.
      exists up', RED, (Node BLACK ul u ur), (Node BLACK s p (Node cz l z r)).
      split; [reflexivity|]. split; [simpl ctop; apply ctop_up|]. split; [exact H1|].
      split; [reflexivity|]. split; [reflexivity|].
      cbn [plug]; apply nodes_plug_eq; reflexivity.
    + destruct (rotL_recolor st up' cg (Node cu ul u ur) g RED s p (Node cz l z r) Hinv) as [H1 W1].
      pose proof (proj2 (Z.eqb_neq cu RED) Ecu) as Ecu'.
      tinv_reads Hinv up'.
      exists z, (left_rotate g (SET_COLOR g RED (SET_COLOR p BLACK st))).
      split; [cbv beta delta [insert_fixup_body]; sym_exec; reflexivity|].
      split; [exact W1|]. right. split; [simpl; rewrite Ecu'; exact H1|].
      clear - H1. cond_false H1 up'.
Qed.

Lemma parent_reads : forall st C cz l z r,
  tinv st (plug C (Node cz l z r)) ->
  match C with
  | Top => root st = z
  | CL cp p _ _ | CR cp _ p _ => PARENT st z = p /\ COLOR st p = cp
  end.
Proof.
  intros st C cz l z r Hinv.
  pose proof Hinv as [Hr _ _ _].
  apply wrep_plug in Hr. destruct Hr as [Hc Hr].
  simpl in Hr. destruct Hr as (Pz & _).
  destruct C; simpl in *; intuition.
Qed.

Lemma nonleaf_nodes : forall t, nodes t <> [] -> exists c l x r, t = Node c l x r.
Proof. destruct t; simpl; intros; [congruence|repeat eexists]. Qed.

Lemma nodes_blacken : forall t, nodes (blacken t) = nodes t.
Proof. destruct t; reflexivity. Qed.

(** The fix-up keeps the nodes in order. *)
Lemma ifix_nodes : forall n C t,
  (depth C <= n)%nat -> nodes (ifix C t) = nodes (plug C t).
Proof.
  induction n as [n IH] using lt_wf_ind. intros C t Hd.
  destruct C as [|cp p [|cg g up' u|cg u g up'] s|cp s p [|cg g up' u|cg u g up']];
    simpl ifix; try reflexivity;
    destruct (cp =? RED); try reflexivity;
    destruct (color_of u =? RED); try reflexivity;
    try (erewrite (IH (depth up')); [| simpl in Hd; lia | lia];
         cbn [plug]; apply nodes_plug_eq; destruct u; reflexivity);
    try (destruct t; [reflexivity|]);
    cbn [plug]; apply nodes_plug_eq; nodes_eq.
Qed.

Lemma plug_nodes_nonnil : forall C c l x r, nodes (plug C (Node c l x r)) <> [].
Proof.
  intros. destruct (plug_node C c l x r) as (c' & l' & x' & r' & E).
  rewrite E. simpl. intro H. apply app_eq_nil in H. destruct H; discriminate.
Qed.

(** [rbt_insert_fixup] terminates within [depth C] turns, leaves the tree
    [blacken (ifix C t)] in memory, and writes node fields only. *)
Lemma insert_fixup_ok : forall fuel C st cz l z r,
  (depth C <= fuel)%nat ->
  tinv st (plug C (Node cz l z r)) ->
  ctop C BLACK = BLACK ->
  exists st', rbt_insert_fixup fuel z st = Some st' /\
    tinv st' (blacken (ifix C (Node cz l z r))) /\
    wr st st' (nodes (plug C (Node cz l z r))).
Proof.
  induction fuel as [fuel IH] using lt_wf_ind.
  intros C st cz l z r Hd Hinv Htop.
  assert (Hexit : negb (z =? root st) && (COLOR st (PARENT st z) =? RED) = false ->
                  ifix C (Node cz l z r) = plug C (Node cz l z r) ->
    exists st', rbt_insert_fixup fuel z st = Some st' /\
      tinv st' (blacken (ifix C (Node cz l z r))) /\
      wr st st' (nodes (plug C (Node cz l z r)))).
  { intros Hc E. rewrite E.
    destruct (plug_node C cz l z r) as (c' & l' & x' & r' & E').
    rewrite E' in *. apply insert_fixup_exit; assumption. }
  pose proof (parent_reads _ _ _ _ _ _ Hinv) as Hp.
  destruct C as [|cp p up s|cp s p up].
  - apply Hexit; [|reflexivity]. rewrite Hp, Z.eqb_refl. reflexivity.
  - destruct Hp as [Pz Cp]. destruct (Z.eqb_spec cp RED) as [Ecp|Ecp].
    2:{ apply Hexit; [|simpl; rewrite (proj2 (Z.eqb_neq _ _) Ecp); reflexivity].
        rewrite Pz, Cp, (proj2 (Z.eqb_neq _ _) Ecp). apply andb_false_r. }
    assert (Cp' : COLOR st p = RED) by congruence. clear Cp. subst cp.
    assert (HC : match CL RED p up s with
      | CL cp _ (CL _ _ _ _) _ | CL cp _ (CR _ _ _ _) _
      | CR cp _ _ (CL _ _ _ _) | CR cp _ _ (CR _ _ _ _) => cp = RED
      | _ => False end).
    { destruct up; [cbv in Htop; discriminate|reflexivity|reflexivity]. }
    clear Hexit.
    destruct (insert_fixup_body_ok st _ cz l z r Hinv HC) as (z' & st1 & Hb & W1 & Hcase).
    rewrite rbt_insert_fixup_eq.
    rewrite (not_root _ _ _ _ _ _ Hinv) by discriminate.
    rewrite Pz, Cp'. simpl negb. rewrite Z.eqb_refl. simpl andb.
    destruct fuel as [|f]; [destruct up; simpl in Hd; lia|].
    rewrite Hb.
    destruct Hcase as [(up' & cl & ll & lr & D & Ht & H1 & Ei & Ecl & En)|[H1 Hc]].
    + subst cl.
      destruct (IH f ltac:(lia) up' st1 RED ll z' lr ltac:(rewrite D in Hd; lia) H1 (Ht Htop))
        as (st' & R & H2 & W2).
      exists st'. split; [exact R|]. split; [rewrite Ei; exact H2|].
      eapply wr_trans_eq; [exact W1|exact W2|exact En].
    + pose proof (ifix_nodes _ (CL RED p up s) (Node cz l z r) (le_n _)) as En.
      destruct (nonleaf_nodes (ifix (CL RED p up s) (Node cz l z r))) as (c' & l' & x' & r' & E').
      { rewrite En. apply plug_nodes_nonnil. }
      rewrite E' in *.
      destruct (insert_fixup_exit f st1 c' l' x' r' z' H1 Hc) as (st' & R & H2 & W2).
      exists st'. split; [exact R|]. split; [exact H2|].
      eapply wr_trans_eq; [exact W1|exact W2|exact En].
  - destruct Hp as [Pz Cp]. destruct (Z.eqb_spec cp RED) as [Ecp|Ecp].
    2:{ apply Hexit; [|simpl; rewrite (proj2 (Z.eqb_neq _ _) Ecp); reflexivity].
        rewrite Pz, Cp, (proj2 (Z.eqb_neq _ _) Ecp). apply andb_false_r. }
    assert (Cp' : COLOR st p = RED) by congruence. clear Cp. subst cp.
    assert (HC : match CR RED s p up with
      | CL cp _ (CL _ _ _ _) _ | CL cp _ (CR _ _ _ _) _
      | CR cp _ _ (CL _ _ _ _) | CR cp _ _ (CR _ _ _ _) => cp = RED
      | _ => False end).
    { destruct up; [cbv in Htop; discriminate|reflexivity|reflexivity]. }
    clear Hexit.
    destruct (insert_fixup_body_ok st _ cz l z r Hinv HC) as (z' & st1 & Hb & W1 & Hcase).
    rewrite rbt_insert_fixup_eq.
    rewrite (not_root _ _ _ _ _ _ Hinv) by discriminate.
    rewrite Pz, Cp'. simpl negb. rewrite Z.eqb_refl. simpl andb.
    destruct fuel as [|f]; [destruct up; simpl in Hd; lia|].
    rewrite Hb.
    destruct Hcase as [(up' & cl & ll & lr & D & Ht & H1 & Ei & Ecl & En)|[H1 Hc]].
    + subst cl.
      destruct (IH f ltac:(lia) up' st1 RED ll z' lr ltac:(rewrite D in Hd; lia) H1 (Ht Htop))
        as (st' & R & H2 & W2).
      exists st'. split; [exact R|]. split; [rewrite Ei; exact H2|].
      eapply wr_trans_eq; [exact W1|exact W2|exact En].
    + pose proof (ifix_nodes _ (CR RED s p up) (Node cz l z r) (le_n _)) as En.
      destruct (nonleaf_nodes (ifix (CR RED s p up) (Node cz l z r))) as (c' & l' & x' & r' & E').
      { rewrite En. apply plug_nodes_nonnil. }
      rewrite E' in *.
      destruct (insert_fixup_exit f st1 c' l' x' r' z' H1 Hc) as (st' & R & H2 & W2).
      exists st'. split; [exact R|]. split; [exact H2|].
      eapply wr_trans_eq; [exact W1|exact W2|exact En].
Qed.

(* ================================================================== *)
(** ** [rbt_insert] *)
(* ================================================================== *)

Lemma insert_descend_eq : forall fuel size x y st,
  insert_descend fuel size x y st =
  if x =? NIL st then Some y
  else
    match fuel with
    | O => None
    | S f =>
        if size <? GET_SIZE st (HDRP x) then insert_descend f size (LEFT st x) x st
        else insert_descend f size (RIGHT st x) x st
    end.
Proof. destruct fuel; reflexivity. Qed.

Lemma height_depth_ins : forall st size t C,
  (depth (ins_ctx st size C t) <= depth C + height t)%nat.
Proof.
  induction t as [|c l IHl x r IHr]; intros C; simpl.
  - lia.
  - destruct (size <? key st x).
    + specialize (IHl (CL c x C r)). simpl in IHl. lia.
    + specialize (IHr (CR c l x C)). simpl in IHr. lia.
Qed.

Lemma plug_ins_ctx : forall st size t C,
  plug (ins_ctx st size C t) Leaf = plug C t.
Proof.
  induction t as [|c l IHl x r IHr]; intros C; simpl.
  - reflexivity.
  - destruct (size <? key st x); [rewrite IHl|rewrite IHr]; reflexivity.
Qed.


Lemma ins_ctx_last : forall st size t C,
  last_cmp st size C -> last_cmp st size (ins_ctx st size C t).
Proof.
  induction t as [|c l IHl x r IHr]; intros C H; simpl.
  - exact H.
  - destruct (size <? key st x) eqn:E; [apply IHl|apply IHr]; exact E.
Qed.

Lemma insert_descend_ok : forall st size t C fuel,
  tinv st (plug C t) ->
  (height t <= fuel)%nat ->
  insert_descend fuel size (ptr (NIL st) t) (cpar (NIL st) C) st =
  Some (cpar (NIL st) (ins_ctx st size C t)).
Proof.
  intros st size t. induction t as [|c l IHl x r IHr]; intros C fuel Hinv Hf.
  - rewrite insert_descend_eq. simpl. rewrite Z.eqb_refl. reflexivity.
  - rewrite insert_descend_eq.
    tinv_reads Hinv C.
    simpl ptr. rewrite (far_eqb' _ _ ltac:(eassumption)).
    destruct fuel as [|f]; [simpl in Hf; lia|].
    simpl in Hf. use_reads. rewrite key_eq. simpl ins_ctx.
    destruct (size <? key st x).
    + apply (IHl (CL c x C r)); [exact Hinv|lia].
    + apply (IHr (CR c l x C)); [exact Hinv|lia].
Qed.

Lemma color_plug : forall C t, color_of (plug C t) = ctop C (color_of t).
Proof. induction C; intros; simpl; auto; rewrite IHC; reflexivity. Qed.

Lemma nodes_plug_new : forall C c x,
  Permutation (nodes (plug C (Node c Leaf x Leaf))) (x :: nodes (plug C Leaf)).
Proof.
  intros. rewrite !nodes_plug. simpl. reflexivity.
Qed.

Lemma tinv_perm : forall st st' T' l,
  sepl (NIL st :: l) -> Forall okptr (NIL st :: l) ->
  Permutation l (nodes T') -> NIL st' = NIL st ->
  wrep st' T' -> nil_ok st' -> tinv st' T'.
Proof.
  intros st st' T' l Hs Ho Hp HN Hw Hn.
  constructor; auto; rewrite HN.
  - eapply sepl_perm; [|exact Hs]. now apply perm_skip.
  - eapply Permutation_Forall; [|exact Ho]. now apply perm_skip.
Qed.

(** Hanging the new red node [bp] under the leaf reached by the descent. *)
Lemma insert_attach_ok : forall st C bp,
  tinv st (plug C Leaf) ->
  Forall (far bp) (NIL st :: nodes (plug C Leaf)) -> okptr bp ->
  LEFT st bp = NIL st -> RIGHT st bp = NIL st ->
  last_cmp st (key st bp) C ->
  let y := cpar (NIL st) C in
  let st1 := SET_PARENT bp y st in
  let st2 :=
    if y =? NIL st1 then set_root bp st1
    else if key st bp <? GET_SIZE st1 (HDRP y) then SET_LEFT y bp st1
         else SET_RIGHT y bp st1 in
  let st3 := SET_COLOR bp RED st2 in
  tinv st3 (plug C (Node RED Leaf bp Leaf)) /\
  wr st st3 (bp :: nodes (plug C Leaf)).
Proof.
  intros st C bp Hinv Hfar Hok Lb Rb Hcmp.
  assert (Hperm := nodes_plug_new C RED bp).
  assert (Hsep : sepl (NIL st :: bp :: nodes (plug C Leaf))).
  { destruct Hinv as [_ Hs _ _]. simpl in Hs. destruct Hs as [Hs1 Hs2].
    apply Forall_cons_iff in Hfar. destruct Hfar as [Hf1 Hf2].
    simpl. split; [constructor; [now apply far_sym|assumption]|].
    split; assumption. }
  assert (Hoks : Forall okptr (NIL st :: bp :: nodes (plug C Leaf))).
  { destruct Hinv as [_ _ Ho _]. apply Forall_cons_iff in Ho. destruct Ho as [Ho1 Ho2].
    constructor; [assumption|constructor; assumption]. }
  pose proof Hsep as Hsep'. pose proof Hoks as Hoks'.
  apply (sepl_perm _ _ (perm_skip _ (perm_skip _ (nodes_plug C Leaf)))) in Hsep'.
  apply (Permutation_Forall (perm_skip _ (perm_skip _ (nodes_plug C Leaf)))) in Hoks'.
  pose proof Hinv as [Hr _ _ Hnil].
  apply wrep_plug in Hr. destruct Hr as [Hc _].
  destruct Hnil as (Ln & Rn & Cn).
  destruct C as [|c y up r|c l y up]; simpl nodes in *; simpl cnodes in *;
    simpl app in *; brk Hsep'; brk Hoks'; simpl in Hc; simpl in Hcmp;
    pose proof Hc as Hc'; try destruct Hc as (? & ? & ? & ? & ? & ?);
    cbv zeta; simpl cpar;
    rewrite ?key_eq; sym_exec; rewrite ?Hcmp.
  all: split;
    [ apply (tinv_perm st _ _ _ Hsep Hoks);
      [ symmetry; exact Hperm
      | reflexivity
      | apply wrep_plug; split; [ repc_tac Hc' | rep_tac ]
      | nil_tac ]
    | eapply wr_named; [wr_tac|] ].
  all: repeat (apply Forall_cons; [simpl; tauto|]); try apply Forall_nil.
  all: repeat (apply Forall_cons;
               [first [left; reflexivity | right; in_tac]|]); apply Forall_nil.
Qed.

Lemma perm_incl : forall (l l' : list Z), Permutation l l' -> incl l l'.
Proof. intros l l' H a Ha. eapply Permutation_in; eauto. Qed.

(** [rbt_insert]: with fuel for the height of the tree, the block [bp]
    (not yet in the tree, its child fields NIL) is inserted; the memory
    then holds [ins st bp T] and only node fields were written. *)
Lemma rbt_insert_ok : forall st T bp fuel,
  tinv st T -> color_of T = BLACK ->
  Forall (far bp) (NIL st :: nodes T) -> okptr bp ->
  LEFT st bp = NIL st -> RIGHT st bp = NIL st ->
  (height T <= fuel)%nat ->
  exists st', rbt_insert fuel bp st = Some st' /\
    tinv st' (ins st bp T) /\ wr st st' (bp :: nodes T).
Proof.
  intros st T bp fuel Hinv Hcol Hfar Hok Lb Rb Hf.
  set (C := ins_ctx st (key st bp) Top T).
  assert (EC : plug C Leaf = T) by apply plug_ins_ctx.
  assert (Hcmp : last_cmp st (key st bp) C) by (apply ins_ctx_last; exact I).
  assert (Hd : (depth C <= fuel)%nat).
  { pose proof (height_depth_ins st (key st bp) T Top). simpl in H. fold C in H. lia. }
  assert (Htop : ctop C BLACK = BLACK).
  { pose proof (color_plug C Leaf) as HH. rewrite EC, Hcol in HH.
    simpl in HH. symmetry. exact HH. }
  pose proof (insert_descend_ok st (key st bp) T Top fuel Hinv Hf) as Hdesc.
  fold C in Hdesc. simpl cpar in Hdesc.
  assert (Hroot : root st = ptr (NIL st) T) by (destruct Hinv as [[Hr _] _ _ _]; exact Hr).
  rewrite <- Hroot in Hdesc.
  rewrite <- EC in Hinv, Hfar.
  destruct (insert_attach_ok st C bp Hinv Hfar Hok Lb Rb Hcmp) as [H3 W3].
  cbv zeta in H3, W3.
  destruct (insert_fixup_ok fuel C _ RED Leaf bp Leaf Hd H3 Htop) as (st' & R & H4 & W4).
  exists st'. split.
  - unfold rbt_insert. rewrite key_eq, Hdesc. simpl obind. exact R.
  - split; [exact H4|].
    rewrite <- EC.
    eapply wr_incl; [eapply wr_trans; [exact W3|exact W4]|].
    apply incl_app; [apply incl_refl|].
    apply perm_incl. apply nodes_plug_new.
Qed.

Lemma ins_ctx_ext : forall st st' size t C,
  (forall x, In x (nodes t) -> key st' x = key st x) ->
  ins_ctx st' size C t = ins_ctx st size C t.
Proof.
  induction t as [|c l IHl x r IHr]; intros C H; simpl.
  - reflexivity.
  - rewrite (H x) by (simpl; apply in_or_app; right; now left).
    destruct (size <? key st x); [apply IHl|apply IHr];
      intros y Hy; apply H; simpl; apply in_or_app; [left|right; right]; exact Hy.
Qed.

(** [insert_free_block]: the node fields of [bp] are initialised, then
    [bp] is inserted. *)
Lemma insert_free_block_ok : forall st T bp size fuel,
  tinv st T -> color_of T = BLACK ->
  Forall (far bp) (NIL st :: nodes T) -> okptr bp ->
  (height T <= fuel)%nat ->
  exists st', insert_free_block fuel bp size st = Some st' /\
    tinv st' (ins st bp T) /\ wr st st' (bp :: nodes T).
Proof.
  intros st T bp size fuel Hinv Hcol Hfar Hok Hf.
  unfold insert_free_block.
  set (st0 := SET_COLOR bp RED
                (SET_RIGHT bp (NIL (SET_LEFT bp (NIL (SET_PARENT bp (NIL st) st))
                                             (SET_PARENT bp (NIL st) st)))
                   (SET_LEFT bp (NIL (SET_PARENT bp (NIL st) st))
                      (SET_PARENT bp (NIL st) st)))).
  assert (W0 : wr st st0 [bp]).
  { eapply wr_named; [unfold st0; rewrite ?NIL_SET_LEFT, ?NIL_SET_PARENT; wr_tac|].
    repeat (apply Forall_cons; [left; reflexivity|]). apply Forall_nil. }
  pose proof Hinv as [[Hroot Hrep] Hsep Hoks (Ln & Rn & Cn)].
  pose proof Hfar as Hfar'. apply Forall_cons_iff in Hfar'. destruct Hfar' as [Hfn Hfl].
  pose proof Hoks as Hoks'. apply Forall_cons_iff in Hoks'. destruct Hoks' as [Hon _].
  assert (Hinv0 : tinv st0 T).
  { apply (tinv_same_nodes st st0 T T Hinv); [reflexivity|reflexivity| |].
    - split.
      + unfold st0. fsimp. exact Hroot.
      + eapply rep_wr; [exact W0| |exact Hrep].
        constructor; [exact Hfl|constructor].
    - unfold st0. nil_tac. }
  assert (Ek : key st0 bp = key st bp).
  { unfold st0. fsimp. reflexivity. }
  destruct (rbt_insert_ok st0 T bp fuel Hinv0 Hcol) as (st' & R & H1 & W1).
  - exact Hfar.
  - exact Hok.
  - unfold st0. fsimp. reflexivity.
  - unfold st0. fsimp. reflexivity.
  - exact Hf.
  - exists st'. split; [exact R|]. split.
    + unfold ins in *. rewrite Ek in H1.
      replace (ins_ctx st (key st bp) Top T) with (ins_ctx st0 (key st bp) Top T); [exact H1|].
      apply ins_ctx_ext. intros x Hx.
      apply (wr_key st st0 [bp]); [exact W0|].
      constructor; [|constructor]. right.
      rewrite Forall_forall in Hfl. auto.
    + eapply wr_incl; [eapply wr_trans; [exact W0|exact W1]|].
      intros a Ha. simpl in Ha. simpl. tauto.
Qed.

(* ================================================================== *)
(** ** [rbt_remove_fixup] *)
(* ================================================================== *)

Lemma rep_color : forall st par t,
  COLOR st (NIL st) = BLACK -> rep st par t ->
  COLOR st (ptr (NIL st) t) = color_of t.
Proof.
  intros st par [|c l x r] Hn H; simpl in *; [exact Hn|tauto].
Qed.

(** The sentinel's parent field survives writes to tree nodes. *)
Lemma nil_parent_wr : forall st st' T,
  tinv st T -> wr st st' (nodes T) ->
  PARENT st' (NIL st) = PARENT st (NIL st).
Proof.
  intros st st' T [_ Hs _ _] W. simpl in Hs. destruct Hs as [Hs _].
  apply (wr_fields st st' (nodes T)); [exact W|].
  eapply Forall_impl; [|exact Hs]. intros a Ha. now apply far_sym.
Qed.

(** The parent pointer of [x] (which may be NIL) after a step that keeps
    [x]'s subtree under the same parent. *)
Lemma parent_focus : forall st st' C C' t,
  tinv st (plug C t) -> PARENT st (ptr (NIL st) t) = cpar (NIL st) C ->
  wr st st' (nodes (plug C t)) -> tinv st' (plug C' t) ->
  cpar (NIL st) C' = cpar (NIL st) C ->
  PARENT st' (ptr (NIL st) t) = cpar (NIL st) C'.
Proof.
  intros st st' C C' t H0 Hp W H1 E.
  destruct t as [|c l x r].
  - simpl in *. rewrite (nil_parent_wr _ _ _ H0 W). congruence.
  - pose proof H1 as [Hr _ _ _]. apply wrep_plug in Hr. destruct Hr as [_ Hr].
    simpl in Hr. destruct Hr as [Hr _]. simpl.
    rewrite Hr, (wr_NIL _ _ _ W). reflexivity.
Qed.

(** Case 4, [x] a left child: the sibling takes the parent's colour,
    parent and far nephew turn black, the parent is rotated left. *)
Lemma case4_L : forall st C cp t p cw wL w0 cwr a wr0 b,
  tinv st (plug C (Node cp t p (Node cw wL w0 (Node cwr a wr0 b)))) ->
  let st' := left_rotate p (SET_COLOR wr0 BLACK (SET_COLOR p BLACK (SET_COLOR w0 cp st))) in
  tinv st' (plug C (Node cp (Node BLACK t p wL) w0 (Node BLACK a wr0 b))) /\
  wr st st' (nodes (plug C (Node cp t p (Node cw wL w0 (Node cwr a wr0 b))))).
Proof.
  intros st C cp t p cw wL w0 cwr a wr0 b H0 st'. subst st'.
  assert (Hcp : 0 <= cp < 256).
  { pose proof H0 as [Hr _ _ _]. apply wrep_plug in Hr. destruct Hr as [_ Hr].
    simpl in Hr. destruct Hr as (_ & Hc & _). rewrite <- Hc. apply COLOR_range. }
  destruct (set_color_tinv st (CR cp t p C) cw wL w0 (Node cwr a wr0 b) cp Hcp H0) as [H1 W1].
  destruct (set_color_tinv _ C cp t p (Node cp wL w0 (Node cwr a wr0 b)) BLACK
              ltac:(unfold BLACK; lia) H1) as [H2 W2].
  destruct (set_color_tinv _ (CR cp wL w0 (CR BLACK t p C)) cwr a wr0 b BLACK
              ltac:(unfold BLACK; lia) H2) as [H3 W3].
  destruct (left_rotate_tinv _ C BLACK t p cp wL w0 (Node BLACK a wr0 b) H3) as [H4 W4].
  split; [exact H4|].
  eapply wr_trans_eq; [eapply wr_trans_eq; [eapply wr_trans_eq; [exact W1 | exact W2 |] | exact W3 |] | exact W4 |];
    cbn [plug]; apply nodes_plug_eq; reflexivity.
Qed.

Lemma case4_R : forall st C cp cw cwl a wl0 b w0 wR p t,
  tinv st (plug C (Node cp (Node cw (Node cwl a wl0 b) w0 wR) p t)) ->
  let st' := right_rotate p (SET_COLOR wl0 BLACK (SET_COLOR p BLACK (SET_COLOR w0 cp st))) in
  tinv st' (plug C (Node cp (Node BLACK a wl0 b) w0 (Node BLACK wR p t))) /\
  wr st st' (nodes (plug C (Node cp (Node cw (Node cwl a wl0 b) w0 wR) p t))).
Proof.
  intros st C cp cw cwl a wl0 b w0 wR p t H0 st'. subst st'.
  assert (Hcp : 0 <= cp < 256).
  { pose proof H0 as [Hr _ _ _]. apply wrep_plug in Hr. destruct Hr as [_ Hr].
    simpl in Hr. destruct Hr as (_ & Hc & _). rewrite <- Hc. apply COLOR_range. }
  destruct (set_color_tinv st (CL cp p C t) cw (Node cwl a wl0 b) w0 wR cp Hcp H0) as [H1 W1].
  destruct (set_color_tinv _ C cp (Node cp (Node cwl a wl0 b) w0 wR) p t BLACK
              ltac:(unfold BLACK; lia) H1) as [H2 W2].
  destruct (set_color_tinv _ (CL cp w0 (CL BLACK p C t) wR) cwl a wl0 b BLACK
              ltac:(unfold BLACK; lia) H2) as [H3 W3].
  destruct (right_rotate_tinv _ C BLACK (Node BLACK a wl0 b) w0 cp wR p t H3) as [H4 W4].
  split; [exact H4|].
  eapply wr_trans_eq; [eapply wr_trans_eq; [eapply wr_trans_eq; [exact W1 | exact W2 |] | exact W3 |] | exact W4 |];
    cbn [plug]; apply nodes_plug_eq; reflexivity.
Qed.

Lemma root_ptr : forall st T, tinv st T -> root st = ptr (NIL st) T.
Proof. intros st T [[H _] _ _ _]. exact H. Qed.

Ltac color_facts st :=
  repeat match goal with
  | Hn : COLOR st (NIL st) = BLACK, H : rep st ?par ?t |- _ =>
      is_var t;
      lazymatch goal with
      | _ : COLOR st (ptr (NIL st) t) = color_of t |- _ => fail
      | _ => pose proof (rep_color st par t Hn H)
      end
  end.

(** Cases 2, 3 and 4 with [x] a left child. *)
Lemma rtail_L_ok : forall st cp p up cw wL w0 wR t,
  tinv st (plug (CL cp p up (Node cw wL w0 wR)) t) ->
  PARENT st (ptr (NIL st) t) = p ->
  exists x' st1 C1 t1,
    remove_fixup_left_tail (ptr (NIL st) t) w0 st = (x', st1) /\
    wr st st1 (nodes (plug (CL cp p up (Node cw wL w0 wR)) t)) /\
    tinv st1 (plug C1 t1) /\ x' = ptr (NIL st) t1 /\
    nodes (plug C1 t1) = nodes (plug (CL cp p up (Node cw wL w0 wR)) t) /\
    match rcase_L cp t p (Node cw wL w0 wR) with
    | Some s => C1 = Top /\ t1 = plug up s
    | None => C1 = up /\ t1 = Node cp t p (Node RED wL w0 wR)
    end.
Proof.
  intros st cp p up cw wL w0 wR t Hinv Hpx.
  destruct (color_of wR =? BLACK) eqn:ER; [destruct (color_of wL =? BLACK) eqn:EL|].
  - (* both nephews black *)
    destruct (set_color_tinv st (CR cp t p up) cw wL w0 wR RED
                ltac:(unfold RED; lia) Hinv) as [H1 W1].
    tinv_reads Hinv up. color_facts st.
    exists p, (SET_COLOR w0 RED st), up, (Node cp t p (Node RED wL w0 wR)).
    split; [cbv beta delta [remove_fixup_left_tail]; sym_exec; reflexivity|].
    split; [exact W1|]. split; [exact H1|]. split; [reflexivity|].
    split; [cbn [plug]; apply nodes_plug_eq; reflexivity|].
    simpl. rewrite EL, ER. simpl. split; reflexivity.
  - (* far nephew black, near nephew red *)
    destruct wL as [|cwl wll wl0 wlr]; [discriminate|]. simpl in EL.
    destruct (rotR_recolor st (CR cp t p up) cw cwl wll wl0 wlr w0 wR Hinv) as [H1 W1].
    destruct (case4_L _ up cp t p BLACK wll wl0 RED wlr w0 wR H1) as [H2 W2].
    cbv zeta in H1, W1, H2, W2.
    pose proof (parent_focus st _ (CL cp p up (Node cw (Node cwl wll wl0 wlr) w0 wR))
                  (CL cp p up (Node BLACK wll wl0 (Node RED wlr w0 wR))) t
                  Hinv Hpx W1 H1 eq_refl) as Hpx1.
    simpl cpar in Hpx1.
    pose proof (root_ptr _ _ H2) as Hroot2.
    pose proof (wr_NIL _ _ _ W1) as N1. pose proof (wr_NIL _ _ _ W2) as N2.
    tinv_reads Hinv up. tinv_reads H1 up. color_facts st.
    rewrite N1 in *.
    eexists _, _, Top, _.
    split; [cbv beta delta [remove_fixup_left_tail]; sym_exec; reflexivity|].
    split; [eapply wr_trans_eq; [exact W1|exact W2|cbn [plug]; apply nodes_plug_eq; nodes_eq]|].
    split; [exact H2|]. split; [rewrite ?Hroot2, ?N2, ?N1; reflexivity|].
    split; [cbn [plug]; apply nodes_plug_eq; nodes_eq|].
    simpl. rewrite EL, ER. simpl. split; reflexivity.
  - (* far nephew red *)
    destruct wR as [|cwr wrl wr0 wrr]; [discriminate|]. simpl in ER.
    destruct (case4_L st up cp t p cw wL w0 cwr wrl wr0 wrr Hinv) as [H2 W2].
    cbv zeta in H2, W2.
    pose proof (root_ptr _ _ H2) as Hroot2.
    pose proof (wr_NIL _ _ _ W2) as N2.
    tinv_reads Hinv up. color_facts st.
    eexists _, _, Top, _.
    split; [cbv beta delta [remove_fixup_left_tail]; sym_exec;
            rewrite ?andb_false_r; reflexivity|].
    split; [exact W2|].
    split; [exact H2|]. split; [rewrite ?Hroot2, ?N2; reflexivity|].
    split; [cbn [plug]; apply nodes_plug_eq; nodes_eq|].
    simpl. rewrite ER. rewrite andb_false_r. split; reflexivity.
Qed.

(** Cases 2, 3 and 4 with [x] a right child. *)
Lemma rtail_R_ok : forall st cp p up cw wL w0 wR t,
  tinv st (plug (CR cp (Node cw wL w0 wR) p up) t) ->
  PARENT st (ptr (NIL st) t) = p ->
  exists x' st1 C1 t1,
    remove_fixup_right_tail (ptr (NIL st) t) w0 st = (x', st1) /\
    wr st st1 (nodes (plug (CR cp (Node cw wL w0 wR) p up) t)) /\
    tinv st1 (plug C1 t1) /\ x' = ptr (NIL st) t1 /\
    nodes (plug C1 t1) = nodes (plug (CR cp (Node cw wL w0 wR) p up) t) /\
    match rcase_R cp (Node cw wL w0 wR) p t with
    | Some s => C1 = Top /\ t1 = plug up s
    | None => C1 = up /\ t1 = Node cp (Node RED wL w0 wR) p t
    end.
Proof.
  intros st cp p up cw wL w0 wR t Hinv Hpx.
  destruct (color_of wL =? BLACK) eqn:EL; [destruct (color_of wR =? BLACK) eqn:ER|].
  - (* both nephews black *)
    destruct (set_color_tinv st (CL cp p up t) cw wL w0 wR RED
                ltac:(unfold RED; lia) Hinv) as [H1 W1].
    tinv_reads Hinv up. color_facts st.
    exists p, (SET_COLOR w0 RED st), up, (Node cp (Node RED wL w0 wR) p t).
    split; [cbv beta delta [remove_fixup_right_tail]; sym_exec; reflexivity|].
    split; [exact W1|]. split; [exact H1|]. split; [reflexivity|].
    split; [cbn [plug]; apply nodes_plug_eq; reflexivity|].
    simpl. rewrite EL, ER. simpl. split; reflexivity.
  - (* far nephew black, near nephew red *)
    destruct wR as [|cwr wrl wr0 wrr]; [discriminate|]. simpl in ER.
    destruct (rotL_recolor st (CL cp p up t) cw wL w0 cwr wrl wr0 wrr Hinv) as [H1 W1].
    destruct (case4_R _ up cp BLACK RED wL w0 wrl wr0 wrr p t H1) as [H2 W2].
    cbv zeta in H1, W1, H2, W2.
    pose proof (parent_focus st _ (CR cp (Node cw wL w0 (Node cwr wrl wr0 wrr)) p up)
                  (CR cp (Node BLACK (Node RED wL w0 wrl) wr0 wrr) p up) t
                  Hinv Hpx W1 H1 eq_refl) as Hpx1.
    simpl cpar in Hpx1.
    pose proof (root_ptr _ _ H2) as Hroot2.
    pose proof (wr_NIL _ _ _ W1) as N1. pose proof (wr_NIL _ _ _ W2) as N2.
    tinv_reads Hinv up. tinv_reads H1 up. color_facts st.
    rewrite N1 in *.
    eexists _, _, Top, _.
    split; [cbv beta delta [remove_fixup_right_tail]; sym_exec; reflexivity|].
    split; [eapply wr_trans_eq; [exact W1|exact W2|cbn [plug]; apply nodes_plug_eq; nodes_eq]|].
    split; [exact H2|]. split; [rewrite ?Hroot2, ?N2, ?N1; reflexivity|].
    split; [cbn [plug]; apply nodes_plug_eq; nodes_eq|].
    simpl. rewrite EL, ER. simpl. split; reflexivity.
  - (* far nephew red *)
    destruct wL as [|cwl wll wl0 wlr]; [discriminate|]. simpl in EL.
    destruct (case4_R st up cp cw cwl wll wl0 wlr w0 wR p t Hinv) as [H2 W2].
    cbv zeta in H2, W2.
    pose proof (root_ptr _ _ H2) as Hroot2.
    pose proof (wr_NIL _ _ _ W2) as N2.
    tinv_reads Hinv up. color_facts st.
    eexists _, _, Top, _.
    split; [cbv beta delta [remove_fixup_right_tail]; sym_exec;
            rewrite ?andb_false_r; reflexivity|].
    split; [exact W2|].
    split; [exact H2|]. split; [rewrite ?Hroot2, ?N2; reflexivity|].
    split; [cbn [plug]; apply nodes_plug_eq; nodes_eq|].
    simpl. rewrite EL. rewrite andb_false_r. split; reflexivity.
Qed.

Lemma redden_node : forall t, t <> Leaf -> exists c l x r, t = Node c l x r.
Proof. destruct t; [congruence|]. intros _. repeat eexists. Qed.

(** One turn of the loop with [x] a left child: case 1 when the sibling
    is red, then cases 2 to 4. *)
Lemma rbody_L_ok : forall st cp p up cw wL w0 wR t,
  tinv st (plug (CL cp p up (Node cw wL w0 wR)) t) ->
  PARENT st (ptr (NIL st) t) = p ->
  (cw = RED -> wL <> Leaf) ->
  exists x' st1 C1 t1,
    remove_fixup_body (ptr (NIL st) t) st = (x', st1) /\
    wr st st1 (nodes (plug (CL cp p up (Node cw wL w0 wR)) t)) /\
    tinv st1 (plug C1 t1) /\ x' = ptr (NIL st) t1 /\
    nodes (plug C1 t1) = nodes (plug (CL cp p up (Node cw wL w0 wR)) t) /\
    if cw =? RED then
      match rcase_L RED t p wL with
      | Some s => C1 = Top /\ t1 = plug (CL BLACK w0 up wR) s
      | None => C1 = CL BLACK w0 up wR /\ t1 = Node RED t p (redden wL)
      end
    else
      match rcase_L cp t p (Node cw wL w0 wR) with
      | Some s => C1 = Top /\ t1 = plug up s
      | None => C1 = up /\ t1 = Node cp t p (Node RED wL w0 wR)
      end.
Proof.
  intros st cp p up cw wL w0 wR t Hinv Hpx Hnl.
  destruct (cw =? RED) eqn:Ecw.
  - apply Z.eqb_eq in Ecw. subst cw.
    destruct (redden_node wL (Hnl eq_refl)) as (cwl & wll & wl0 & wlr & ->).
    destruct (rotL_recolor st up cp t p RED (Node cwl wll wl0 wlr) w0 wR Hinv) as [H1 W1].
    cbv zeta in H1, W1.
    pose proof (parent_focus st _ (CL cp p up (Node RED (Node cwl wll wl0 wlr) w0 wR))
                  (CL RED p (CL BLACK w0 up wR) (Node cwl wll wl0 wlr)) t
                  Hinv Hpx W1 H1 eq_refl) as Hpx1.
    simpl cpar in Hpx1.
    pose proof (wr_NIL _ _ _ W1) as N1.
    assert (Hpx1' := Hpx1). rewrite <- N1 in Hpx1'.
    destruct (rtail_L_ok _ RED p (CL BLACK w0 up wR) cwl wll wl0 wlr t H1 Hpx1')
      as (x' & st1 & C1 & t1 & E & W2 & H2 & Ex & En & Hs).
    rewrite N1 in E, Ex.
    tinv_reads Hinv up. tinv_reads H1 (CL BLACK w0 up wR).
    rewrite N1 in *.
    exists x', st1, C1, t1.
    split; [cbv beta delta [remove_fixup_body remove_fixup_left]; sym_exec; exact E|].
    split; [eapply wr_trans_eq; [exact W1|exact W2|cbn [plug]; apply nodes_plug_eq; nodes_eq]|].
    split; [exact H2|]. split; [exact Ex|].
    split; [rewrite En; cbn [plug]; apply nodes_plug_eq; nodes_eq|].
    exact Hs.
  - destruct (rtail_L_ok st cp p up cw wL w0 wR t Hinv Hpx)
      as (x' & st1 & C1 & t1 & E & W2 & H2 & Ex & En & Hs).
    tinv_reads Hinv up.
    exists x', st1, C1, t1.
    split; [cbv beta delta [remove_fixup_body remove_fixup_left]; sym_exec; exact E|].
    split; [exact W2|]. split; [exact H2|]. split; [exact Ex|].
    split; [exact En|]. exact Hs.
Qed.

(** The same with [x] a right child. *)
Lemma rbody_R_ok : forall st cp p up cw wL w0 wR t,
  tinv st (plug (CR cp (Node cw wL w0 wR) p up) t) ->
  PARENT st (ptr (NIL st) t) = p ->
  (cw = RED -> wR <> Leaf) ->
  exists x' st1 C1 t1,
    remove_fixup_body (ptr (NIL st) t) st = (x', st1) /\
    wr st st1 (nodes (plug (CR cp (Node cw wL w0 wR) p up) t)) /\
    tinv st1 (plug C1 t1) /\ x' = ptr (NIL st) t1 /\
    nodes (plug C1 t1) = nodes (plug (CR cp (Node cw wL w0 wR) p up) t) /\
    if cw =? RED then
      match rcase_R RED wR p t with
      | Some s => C1 = Top /\ t1 = plug (CR BLACK wL w0 up) s
      | None => C1 = CR BLACK wL w0 up /\ t1 = Node RED (redden wR) p t
      end
    else
      match rcase_R cp (Node cw wL w0 wR) p t with
      | Some s => C1 = Top /\ t1 = plug up s
      | None => C1 = up /\ t1 = Node cp (Node RED wL w0 wR) p t
      end.
Proof.
  intros st cp p up cw wL w0 wR t Hinv Hpx Hnl.
  destruct (cw =? RED) eqn:Ecw.
  - apply Z.eqb_eq in Ecw. subst cw.
    destruct (redden_node wR (Hnl eq_refl)) as (cwr & wrl & wr0 & wrr & ->).
    destruct (rotR_recolor st up cp RED wL w0 (Node cwr wrl wr0 wrr) p t Hinv) as [H1 W1].
    cbv zeta in H1, W1.
    pose proof (parent_focus st _ (CR cp (Node RED wL w0 (Node cwr wrl wr0 wrr)) p up)
                  (CR RED (Node cwr wrl wr0 wrr) p (CR BLACK wL w0 up)) t
                  Hinv Hpx W1 H1 eq_refl) as Hpx1.
    simpl cpar in Hpx1.
    pose proof (wr_NIL _ _ _ W1) as N1.
    assert (Hpx1' := Hpx1). rewrite <- N1 in Hpx1'.
    destruct (rtail_R_ok _ RED p (CR BLACK wL w0 up) cwr wrl wr0 wrr t H1 Hpx1')
      as (x' & st1 & C1 & t1 & E & W2 & H2 & Ex & En & Hs).
    rewrite N1 in E, Ex.
    tinv_reads Hinv up. tinv_reads H1 (CR BLACK wL w0 up).
    rewrite N1 in *.
    exists x', st1, C1, t1.
    split; [cbv beta delta [remove_fixup_body remove_fixup_right]; sym_exec; exact E|].
    split; [eapply wr_trans_eq; [exact W1|exact W2|cbn [plug]; apply nodes_plug_eq; nodes_eq]|].
    split; [exact H2|]. split; [exact Ex|].
    split; [rewrite En; cbn [plug]; apply nodes_plug_eq; nodes_eq|].
    exact Hs.
  - destruct (rtail_R_ok st cp p up cw wL w0 wR t Hinv Hpx)
      as (x' & st1 & C1 & t1 & E & W2 & H2 & Ex & En & Hs).
    tinv_reads Hinv up.
    exists x', st1, C1, t1.
    split; [cbv beta delta [remove_fixup_body remove_fixup_right]; sym_exec; exact E|].
    split; [exact W2|]. split; [exact H2|]. split; [exact Ex|].
    split; [exact En|]. exact Hs.
Qed.

(** ** The loop of [rbt_remove_fixup] *)

Lemma rbt_remove_fixup_eq : forall fuel x st,
  rbt_remove_fixup fuel x st =
  if negb (x =? root st) && (COLOR st x =? BLACK) then
    match fuel with
    | O => None
    | S f => let '(x, st) := remove_fixup_body x st in rbt_remove_fixup f x st
    end
  else Some (SET_COLOR x BLACK st).
Proof. destruct fuel; reflexivity. Qed.

Lemma wr_cons : forall st st' ws a, wr st st' ws -> wr st st' (a :: ws).
Proof. intros. eapply wr_incl; [eassumption|]. intros y Hy. now right. Qed.

(** At the root the loop stops and the root is painted black. *)
Lemma remove_exit_top : forall fuel st t,
  tinv st t ->
  exists st', rbt_remove_fixup fuel (ptr (NIL st) t) st = Some st' /\
    tinv st' (blacken t) /\ wr st st' (NIL st :: nodes t).
Proof.
  intros fuel st t H.
  rewrite rbt_remove_fixup_eq, (root_ptr _ _ H), Z.eqb_refl. simpl.
  eexists; split; [reflexivity|].
  destruct t as [|c l x r].
  - apply (set_color_nil_tinv st Leaf H).
  - destruct (set_color_tinv st Top c l x r BLACK ltac:(unfold BLACK; lia) H) as [H1 W1].
    split; [exact H1|]. apply wr_cons. exact W1.
Qed.

(** At a node that is not black the loop stops and paints it black. *)
Lemma remove_exit_red : forall fuel st C c l x r,
  tinv st (plug C (Node c l x r)) -> (c =? BLACK) = false ->
  exists st', rbt_remove_fixup fuel x st = Some st' /\
    tinv st' (plug C (Node BLACK l x r)) /\
    wr st st' (NIL st :: nodes (plug C (Node c l x r))).
Proof.
  intros fuel st C c l x r H Hc.
  destruct (set_color_tinv st C c l x r BLACK ltac:(unfold BLACK; lia) H) as [H1 W1].
  rewrite rbt_remove_fixup_eq.
  assert (E : COLOR st x = c).
  { pose proof H as [Hr _ _ _]. apply wrep_plug in Hr. destruct Hr as [_ Hr].
    simpl in Hr. tauto. }
  rewrite E, Hc, andb_false_r.
  eexists; split; [reflexivity|]. split; [exact H1|]. apply wr_cons. exact W1.
Qed.

Lemma focus_not_root : forall st C t,
  tinv st (plug C t) -> C <> Top -> (ptr (NIL st) t =? root st) = false.
Proof.
  intros st C t Hinv Hne.
  destruct t as [|c l z r]; [|exact (not_root st C c l z r Hinv Hne)].
  tinv_open Hinv C Hc Hr Hsep Hok Hnil.
  pose proof (root_in_cnodes _ _ _ Hc Hne) as Hin.
  simpl in Hsep. destruct Hsep as [Hsep _].
  rewrite Forall_forall in Hsep.
  apply far_eqb. apply Hsep. exact Hin.
Qed.

Lemma node_parent : forall st C c l x r,
  tinv st (plug C (Node c l x r)) -> PARENT st x = cpar (NIL st) C.
Proof.
  intros st C c l x r H. pose proof H as [Hr _ _ _].
  apply wrep_plug in Hr. destruct Hr as [_ Hr]. simpl in Hr. tauto.
Qed.

Lemma focus_color : forall st C t,
  tinv st (plug C t) -> COLOR st (ptr (NIL st) t) = color_of t.
Proof.
  intros st C t H. pose proof H as [Hr _ _ [_ [_ Hn]]].
  apply wrep_plug in Hr. destruct Hr as [_ Hr].
  eapply rep_color; eauto.
Qed.

Lemma plug_blacken_nodes : forall C t, nodes (plug C (blacken t)) = nodes (plug C t).
Proof. intros. apply nodes_plug_eq, nodes_blacken. Qed.

Lemma rcase_L_node : forall cp t p w s,
  rcase_L cp t p w = Some s -> exists c l x r, s = Node c l x r.
Proof.
  intros cp t p [|cw wl w0 wr] s; simpl; [discriminate|].
  destruct (_ && _); [discriminate|].
  destruct (color_of wr =? BLACK).
  - destruct wl; [discriminate|]. intros [= <-]. repeat eexists.
  - intros [= <-]. repeat eexists.
Qed.

Lemma rcase_R_node : forall cp w p t s,
  rcase_R cp w p t = Some s -> exists c l x r, s = Node c l x r.
Proof.
  intros cp [|cw wl w0 wr] p t s; simpl; [discriminate|].
  destruct (_ && _); [discriminate|].
  destruct (color_of wl =? BLACK).
  - destruct wr; [discriminate|]. intros [= <-]. repeat eexists.
  - intros [= <-]. repeat eexists.
Qed.

Lemma cred_black : forall C c, cred C c -> cred C BLACK.
Proof.
  destruct C; simpl; auto; intros c0 (Hv & Hr & Hk & Hu);
    repeat split; try assumption; apply (Hr H).
Qed.

Ltac finish_top f st1 t1 H2 N1 W1 W2 En :=
  let st' := fresh "st'" in let E' := fresh "E'" in
  let H' := fresh "H'" in let W' := fresh "W'" in
  destruct (remove_exit_top f st1 t1 H2) as (st' & E' & H' & W');
  rewrite N1 in E', W';
  exists st'; split; [exact E'|]; split; [exact H'|];
  eapply wr_trans_eq; [apply wr_cons; exact W1 | exact W' |];
  f_equal; exact En.

(** [rbt_remove_fixup] started at [x], the root of [t] in the context [C]
    where [t] is one black node short, returns within [depth C] turns,
    leaves [rfix C t] in memory, and writes node fields only. *)
Lemma remove_fixup_ok : forall C t st fuel,
  (depth C <= fuel)%nat ->
  tinv st (plug C t) ->
  PARENT st (ptr (NIL st) t) = cpar (NIL st) C ->
  cbal C (S (bh t)) -> cred C BLACK ->
  exists st', rbt_remove_fixup fuel (ptr (NIL st) t) st = Some st' /\
    tinv st' (rfix C t) /\ wr st st' (NIL st :: nodes (plug C t)).
Proof.
  induction C as [|cp p up IH w|cp w p up IH]; intros t st fuel Hd Hinv Hpx Hb Hcr.
  - apply remove_exit_top. exact Hinv.
  - cbn [rfix]. destruct (color_of t =? BLACK) eqn:Et; cbn [negb].
    + destruct Hb as (Hbw & Hbal & Hbu).
      destruct w as [|cw wL w0 wR]; [discriminate|].
      destruct fuel as [|f]; [simpl in Hd; lia|].
      assert (Hnl : cw = RED -> wL <> Leaf).
      { intros -> ->. simpl in Hbw. discriminate. }
      simpl cpar in Hpx.
      destruct (rbody_L_ok st cp p up cw wL w0 wR t Hinv Hpx Hnl)
        as (x' & st1 & C1 & t1 & E & W1 & H2 & Ex & En & Hs).
      pose proof (wr_NIL _ _ _ W1) as N1.
      rewrite rbt_remove_fixup_eq, (focus_not_root st _ t Hinv) by discriminate.
      rewrite (focus_color st _ t Hinv), Et. cbn [negb andb].
      rewrite E. subst x'.
      destruct (cw =? RED).
      * destruct (rcase_L RED t p wL) as [s|] eqn:Er; destruct Hs as [-> ->].
        -- finish_top f st1 (plug (CL BLACK w0 up wR) s) H2 N1 W1 W2 En.
        -- destruct (remove_exit_red f st1 (CL BLACK w0 up wR) RED t p (redden wL)
                       H2 eq_refl) as (st' & E' & H' & W').
           rewrite N1 in W'.
           exists st'. split; [exact E'|]. split; [exact H'|].
           eapply wr_trans_eq; [apply wr_cons; exact W1 | exact W' |].
           f_equal; exact En.
      * destruct (rcase_L cp t p (Node cw wL w0 wR)) as [s|] eqn:Er;
          destruct Hs as [-> ->].
        -- finish_top f st1 (plug up s) H2 N1 W1 W2 En.
        -- destruct (IH (Node cp t p (Node RED wL w0 wR)) st1 f) as (st' & E' & H' & W').
           ++ simpl in Hd. lia.
           ++ exact H2.
           ++ apply (node_parent st1 up cp t p (Node RED wL w0 wR) H2).
           ++ simpl bh. rewrite Nat.add_succ_r in Hbu. exact Hbu.
           ++ apply cred_black with cp. apply Hcr.
           ++ rewrite N1 in W'.
              exists st'. split; [exact E'|]. split; [exact H'|].
              eapply wr_trans_eq; [apply wr_cons; exact W1 | exact W' |].
              f_equal; exact En.
    + destruct t as [|c l x r]; [discriminate|]. simpl in Et.
      apply (remove_exit_red fuel st (CL cp p up w) c l x r Hinv Et).
  - cbn [rfix]. destruct (color_of t =? BLACK) eqn:Et; cbn [negb].
    + destruct Hb as (Hbw & Hbal & Hbu).
      destruct w as [|cw wL w0 wR]; [discriminate|].
      destruct fuel as [|f]; [simpl in Hd; lia|].
      assert (Hnl : cw = RED -> wR <> Leaf).
      { intros -> ->. simpl in Hbw, Hbal. destruct Hbal as (Hbal & _).
        rewrite Hbal in Hbw. discriminate. }
      simpl cpar in Hpx.
      destruct (rbody_R_ok st cp p up cw wL w0 wR t Hinv Hpx Hnl)
        as (x' & st1 & C1 & t1 & E & W1 & H2 & Ex & En & Hs).
      pose proof (wr_NIL _ _ _ W1) as N1.
      rewrite rbt_remove_fixup_eq, (focus_not_root st _ t Hinv) by discriminate.
      rewrite (focus_color st _ t Hinv), Et. cbn [negb andb].
      rewrite E. subst x'.
      destruct (cw =? RED) eqn:Ecw.
      * destruct (rcase_R RED wR p t) as [s|] eqn:Er; destruct Hs as [-> ->].
        -- finish_top f st1 (plug (CR BLACK wL w0 up) s) H2 N1 W1 W2 En.
        -- destruct (remove_exit_red f st1 (CR BLACK wL w0 up) RED (redden wR) p t
                       H2 eq_refl) as (st' & E' & H' & W').
           rewrite N1 in W'.
           exists st'. split; [exact E'|]. split; [exact H'|].
           eapply wr_trans_eq; [apply wr_cons; exact W1 | exact W' |].
           f_equal; exact En.
      * destruct (rcase_R cp (Node cw wL w0 wR) p t) as [s|] eqn:Er;
          destruct Hs as [-> ->].
        -- finish_top f st1 (plug up s) H2 N1 W1 W2 En.
        -- destruct (IH (Node cp (Node RED wL w0 wR) p t) st1 f) as (st' & E' & H' & W').
           ++ simpl in Hd. lia.
           ++ exact H2.
           ++ apply (node_parent st1 up cp (Node RED wL w0 wR) p t H2).
           ++ assert (cw = BLACK) as ->.
              { destruct Hcr as (_ & _ & (Hv & _) & _).
                destruct Hv as [->|Hv]; [discriminate|exact Hv]. }
              simpl in Hbw. injection Hbw as Hbw.
              simpl bh. rewrite Hbw, <- Nat.add_succ_r. exact Hbu.
           ++ apply cred_black with cp. apply Hcr.
           ++ rewrite N1 in W'.
              exists st'. split; [exact E'|]. split; [exact H'|].
              eapply wr_trans_eq; [apply wr_cons; exact W1 | exact W' |].
              f_equal; exact En.
    + destruct t as [|c l x r]; [discriminate|]. simpl in Et.
      apply (remove_exit_red fuel st (CR cp w p up) c l x r Hinv Et).
Qed.

(** ** [rbt_transplant] and [rbt_remove] *)

Lemma tinv_sub_nodes : forall st st' T T' d,
  tinv st T -> Permutation (nodes T) (d ++ nodes T') -> NIL st' = NIL st ->
  wrep st' T' -> nil_ok st' -> tinv st' T'.
Proof.
  intros st st' T T' d [H1 H2 H3 H4] Hp HN Hw Hnil.
  constructor; auto; rewrite HN.
  - apply (sepl_perm _ _ (perm_skip _ Hp)) in H2.
    simpl in *. destruct H2 as [A B].
    apply Forall_app in A. apply sepl_app in B. tauto.
  - apply (Permutation_Forall (perm_skip _ Hp)) in H3.
    apply Forall_cons_iff in H3. destruct H3 as [A B].
    apply Forall_app in B. constructor; tauto.
Qed.

Lemma perm_drop_R : forall C c l u r,
  Permutation (nodes (plug C (Node c l u r))) ((nodes l ++ [u]) ++ nodes (plug C r)).
Proof.
  intros. rewrite !nodes_plug. simpl. rewrite <- !app_assoc. reflexivity.
Qed.

Lemma perm_drop_L : forall C c l u r,
  Permutation (nodes (plug C (Node c l u r))) ((u :: nodes r) ++ nodes (plug C l)).
Proof.
  intros. rewrite !nodes_plug. simpl.
  rewrite (Permutation_app_comm (nodes l) (u :: nodes r)).
  simpl. rewrite <- !app_assoc. reflexivity.
Qed.

Ltac in_tac' :=
  first [ left; reflexivity
        | right; apply in_nodes_plug; in_list
        | right; apply in_cnodes_plug; in_list ].

Ltac wr_close' :=
  eapply wr_named; [wr_tac | repeat (apply Forall_cons; [in_tac'|]); apply Forall_nil].

(** [rbt_transplant(u, v)] with [v] the right child of [u]: the right
    subtree takes [u]'s place, and [PARENT(v)] is [u]'s parent even when
    [v] is NIL. *)
Lemma transplant_R : forall st C c l u r,
  tinv st (plug C (Node c l u r)) ->
  let st' := rbt_transplant u (ptr (NIL st) r) st in
  tinv st' (plug C r) /\
  PARENT st' (ptr (NIL st) r) = cpar (NIL st) C /\
  wr st st' (NIL st :: nodes (plug C (Node c l u r))).
Proof.
  intros st C c l u r Hinv st'. subst st'.
  tinv_open Hinv C Hc Hr Hsep Hok Hnil.
  simpl in Hr. destruct Hr as (Px & Cx & Lx & Rx & Hl & Hr).
  destruct Hnil as (Ln & Rn & Cn).
  destruct r as [|cr rl r0 rr]; destruct C as [|cp p up s|cp s p up];
  sep_in Hsep; sep_in Hok.
  all: simpl in Hc; simpl in Hr; simpl in Rx; simpl in Px.
  all: pose proof Hc as Hc'.
  all: try destruct Hc as (Hc1 & Hc2 & Hc3 & Hc4 & Hc5 & Hc6).
  all: try destruct Hr as (Hr1 & Hr2 & Hr3 & Hr4 & Hr5 & Hr6).
  all: cbv beta delta [rbt_transplant]; cbn [ptr].
  all: sym_exec.
  all: split; [|split; [fld_goal | wr_close']].
  all: apply (tinv_sub_nodes st _ _ _ _ Hinv (perm_drop_R _ _ _ _ _));
    [ reflexivity | apply wrep_plug; split; [repc_tac Hc' | rep_tac] | nil_tac ].
Qed.

(** The same with [v] the left child of [u]. *)
Lemma transplant_L : forall st C c l u r,
  tinv st (plug C (Node c l u r)) ->
  let st' := rbt_transplant u (ptr (NIL st) l) st in
  tinv st' (plug C l) /\
  PARENT st' (ptr (NIL st) l) = cpar (NIL st) C /\
  wr st st' (NIL st :: nodes (plug C (Node c l u r))).
Proof.
  intros st C c l u r Hinv st'. subst st'.
  tinv_open Hinv C Hc Hr Hsep Hok Hnil.
  simpl in Hr. destruct Hr as (Px & Cx & Lx & Rx & Hl & Hr).
  destruct Hnil as (Ln & Rn & Cn).
  destruct l as [|cl ll l0 lr]; destruct C as [|cp p up s|cp s p up];
  sep_in Hsep; sep_in Hok.
  all: simpl in Hc; simpl in Hl; simpl in Lx; simpl in Px.
  all: pose proof Hc as Hc'.
  all: try destruct Hc as (Hc1 & Hc2 & Hc3 & Hc4 & Hc5 & Hc6).
  all: try destruct Hl as (Hl1 & Hl2 & Hl3 & Hl4 & Hl5 & Hl6).
  all: cbv beta delta [rbt_transplant]; cbn [ptr].
  all: sym_exec.
  all: split; [|split; [fld_goal | wr_close']].
  all: apply (tinv_sub_nodes st _ _ _ _ Hinv (perm_drop_L _ _ _ _ _));
    [ reflexivity | apply wrep_plug; split; [repc_tac Hc' | rep_tac] | nil_tac ].
Qed.

Lemma perm_drop_near : forall C c l bp cm m mr,
  Permutation (nodes (plug C (Node c l bp (Node cm Leaf m mr))))
              ([bp] ++ nodes (plug C (Node c l m mr))).
Proof.
  intros. rewrite !nodes_plug. simpl. rewrite <- !app_assoc. simpl.
  symmetry. apply Permutation_middle.
Qed.

(** The node with two children whose successor [m] is its right child:
    [m] takes the place of [bp] and keeps its own right subtree. *)
Lemma remove_two_near : forall st C c cl ll l0 lr bp cm m mr,
  tinv st (plug C (Node c (Node cl ll l0 lr) bp (Node cm Leaf m mr))) ->
  let x := ptr (NIL st) mr in
  let st1 := SET_PARENT x m st in
  let st2 := rbt_transplant bp m st1 in
  let st3 := SET_LEFT m (LEFT st2 bp) st2 in
  let st4 := SET_PARENT (LEFT st3 m) m st3 in
  let st' := SET_COLOR m (COLOR st4 bp) st4 in
  tinv st' (plug C (Node c (Node cl ll l0 lr) m mr)) /\
  PARENT st' x = m /\
  wr st st' (NIL st :: nodes (plug C (Node c (Node cl ll l0 lr) bp (Node cm Leaf m mr)))).
Proof.
  intros st C c cl ll l0 lr bp cm m mr Hinv x st1 st2 st3 st4 st'.
  subst x st1 st2 st3 st4 st'.
  tinv_open Hinv C Hc Hr Hsep Hok Hnil.
  simpl in Hr.
  destruct Hr as (Px & Cx & Lx & Rx & (Pl & Cl & Ll & Rl & Hll & Hlr)
                  & (Pm & Cm & Lm & Rm & _ & Hmr)).
  destruct Hnil as (Ln & Rn & Cn).
  assert (Hcr : 0 <= c < 256) by (rewrite <- Cx; apply COLOR_range).
  destruct mr as [|cr rl r0 rr]; destruct C as [|cp p up s|cp s p up];
  sep_in Hsep; sep_in Hok.
  all: simpl in Hc; simpl in Hmr; simpl in Rm; simpl in Px.
  all: pose proof Hc as Hc'.
  all: try destruct Hc as (Hc1 & Hc2 & Hc3 & Hc4 & Hc5 & Hc6).
  all: try destruct Hmr as (Hr1 & Hr2 & Hr3 & Hr4 & Hr5 & Hr6).
  all: cbv beta delta [rbt_transplant]; cbn [ptr].
  all: sym_exec.
  all: split; [|split; [fld_goal | wr_close']].
  all: apply (tinv_sub_nodes st _ _ _ _ Hinv (perm_drop_near _ _ _ _ _ _ _));
    [ reflexivity | apply wrep_plug; split; [repc_tac Hc' | rep_tac] | nil_tac ].
Qed.

Lemma tinv_sub_perm : forall st st' T' l d,
  sepl (NIL st :: l) -> Forall okptr (NIL st :: l) ->
  Permutation l (d ++ nodes T') -> NIL st' = NIL st ->
  wrep st' T' -> nil_ok st' -> tinv st' T'.
Proof.
  intros st st' T' l d H2 H3 Hp HN Hw Hnil.
  constructor; auto; rewrite HN.
  - apply (sepl_perm _ _ (perm_skip _ Hp)) in H2.
    simpl in *. destruct H2 as [A B].
    apply Forall_app in A. apply sepl_app in B. tauto.
  - apply (Permutation_Forall (perm_skip _ Hp)) in H3.
    apply Forall_cons_iff in H3. destruct H3 as [A B].
    apply Forall_app in B. constructor; tauto.
Qed.

Lemma sepl_add : forall n m X,
  sepl (n :: X) -> Forall (far m) (n :: X) -> sepl (n :: m :: X).
Proof.
  intros n m X [A B] Hm. apply Forall_cons_iff in Hm. destruct Hm as [Hn Hm].
  simpl. repeat split; auto. constructor; auto. now apply far_sym.
Qed.

Lemma perm_swap_node : forall C c l bp r m,
  Permutation (m :: nodes (plug C (Node c l bp r)))
              ([bp] ++ nodes (plug C (Node c l m r))).
Proof.
  intros. rewrite !nodes_plug. simpl. rewrite <- !app_assoc. simpl.
  rewrite <- !Permutation_middle. apply perm_swap.
Qed.

(** A node [bp] with two children gives its place, children and colour to
    a node [m] from outside the tree. *)
Lemma replace_node : forall st C c cl ll l0 lr bp cr rl r0 rr m,
  tinv st (plug C (Node c (Node cl ll l0 lr) bp (Node cr rl r0 rr))) ->
  okptr m ->
  Forall (far m) (NIL st :: nodes (plug C (Node c (Node cl ll l0 lr) bp (Node cr rl r0 rr)))) ->
  let st1 := SET_RIGHT m (RIGHT st bp) st in
  let st2 := SET_PARENT (RIGHT st1 m) m st1 in
  let st3 := rbt_transplant bp m st2 in
  let st4 := SET_LEFT m (LEFT st3 bp) st3 in
  let st5 := SET_PARENT (LEFT st4 m) m st4 in
  let st' := SET_COLOR m (COLOR st5 bp) st5 in
  tinv st' (plug C (Node c (Node cl ll l0 lr) m (Node cr rl r0 rr))) /\
  wr st st' (m :: nodes (plug C (Node c (Node cl ll l0 lr) bp (Node cr rl r0 rr)))).
Proof.
  intros st C c cl ll l0 lr bp cr rl r0 rr m Hinv Hokm Hm st1 st2 st3 st4 st5 st'.
  subst st1 st2 st3 st4 st5 st'.
  assert (Hsep' := sepl_add _ m _ (ti_sep _ _ Hinv) Hm).
  assert (Hok' : Forall okptr (NIL st :: m :: nodes (plug C (Node c (Node cl ll l0 lr) bp (Node cr rl r0 rr))))).
  { pose proof (ti_ok _ _ Hinv) as Ho. apply Forall_cons_iff in Ho.
    destruct Ho as [A B].
    apply Forall_cons; [exact A|apply Forall_cons; [exact Hokm|exact B]]. }
  apply (Permutation_Forall (perm_skip _ (nodes_plug C _))) in Hm.
  tinv_open Hinv C Hc Hr Hsep Hok Hnil.
  simpl in Hr.
  destruct Hr as (Px & Cx & Lx & Rx & (Pl & Cl & Ll & Rl & Hll & Hlr)
                  & (Pr & Cr & Lr & Rr & Hrl & Hrr)).
  destruct Hnil as (Ln & Rn & Cn).
  assert (Hcr : 0 <= c < 256) by (rewrite <- Cx; apply COLOR_range).
  destruct C as [|cp p up s|cp s p up];
  sep_in Hsep; sep_in Hok; sep_in Hm.
  all: simpl in Hc; simpl in Px.
  all: pose proof Hc as Hc'.
  all: try destruct Hc as (Hc1 & Hc2 & Hc3 & Hc4 & Hc5 & Hc6).
  all: cbv beta delta [rbt_transplant]; cbn [ptr].
  all: sym_exec.
  all: split; [|eapply wr_named; [wr_tac | repeat (apply Forall_cons; [in_tac'|]); apply Forall_nil]].
  all: apply (tinv_sub_perm st _ _ _ _ Hsep' Hok' (perm_swap_node _ _ _ _ _ _));
    [ reflexivity | apply wrep_plug; split; [repc_tac Hc' | rep_tac] | nil_tac ].
Qed.

(* ================================================================== *)
(** ** [rbt_minimum] and [rbt_remove] *)
(* ================================================================== *)

Lemma plug_capp : forall inner outer t,
  plug (capp inner outer) t = plug outer (plug inner t).
Proof.
  induction inner; intros; simpl; auto.
Qed.

Lemma depth_capp : forall inner outer,
  depth (capp inner outer) = (depth inner + depth outer)%nat.
Proof. induction inner; intros; simpl; auto. Qed.

Lemma cpar_capp : forall nil inner outer,
  inner <> Top -> cpar nil (capp inner outer) = cpar nil inner.
Proof. destruct inner; intros; simpl; congruence. Qed.

Lemma depth_height : forall C t,
  (depth C + height t <= height (plug C t))%nat.
Proof.
  induction C; intros t; simpl; [lia| |].
  - specialize (IHC (Node c t x r)). simpl in IHC. lia.
  - specialize (IHC (Node c l x t)). simpl in IHC. lia.
Qed.

Lemma min_split_some : forall r C0,
  r <> Leaf -> exists Cm cm m mr, min_split r C0 = Some (Cm, cm, m, mr).
Proof.
  induction r as [|c l IHl x r IHr]; intros C0 H; [congruence|].
  simpl. destruct l as [|cl ll l0 lr].
  - repeat eexists.
  - apply IHl. discriminate.
Qed.

Lemma min_split_plug : forall r C0 Cm cm m mr,
  min_split r C0 = Some (Cm, cm, m, mr) ->
  plug Cm (Node cm Leaf m mr) = plug C0 r /\
  (depth Cm < depth C0 + height r)%nat.
Proof.
  induction r as [|c l IHl x r IHr]; intros C0 Cm cm m mr H; [discriminate|].
  simpl in H. destruct l as [|cl ll l0 lr].
  - injection H as <- <- <- <-. split; [reflexivity|simpl; lia].
  - apply IHl in H. destruct H as [H1 H2]. split; [exact H1|].
    remember (Node cl ll l0 lr) as l. cbn [depth height] in *. lia.
Qed.

(** [rbt_minimum] walks down the left spine to the node [min_split]
    names. *)
Lemma rbt_minimum_ok : forall st r par C0 Cm cm m mr fuel,
  rep st par r -> Forall (far (NIL st)) (nodes r) ->
  min_split r C0 = Some (Cm, cm, m, mr) ->
  (height r <= S fuel)%nat ->
  rbt_minimum fuel (ptr (NIL st) r) st = Some m.
Proof.
  induction r as [|c l IHl x r IHr]; intros par C0 Cm cm m mr fuel Hr Hf H Hh;
    [discriminate|].
  simpl in H, Hr. destruct Hr as (_ & _ & Lx & _ & Hl & _).
  assert (E : forall f, rbt_minimum f x st =
    if LEFT st x =? NIL st then Some x
    else match f with O => None | S f' => rbt_minimum f' (LEFT st x) st end)
    by (destruct f; reflexivity).
  cbn [ptr]. rewrite E, Lx.
  destruct l as [|cl ll l0 lr].
  - injection H as <- <- <- <-. cbn [ptr]. now rewrite Z.eqb_refl.
  - cbn [ptr]. simpl nodes in Hf.
    assert (Hf' : Forall (far (NIL st)) (nodes (Node cl ll l0 lr))).
    { apply Forall_app in Hf. tauto. }
    assert (far (NIL st) l0).
    { rewrite Forall_forall in Hf'. apply Hf'. simpl. apply in_or_app. right. now left. }
    rewrite far_eqb by (apply far_sym; assumption).
    destruct fuel as [|f]; [cbn [height] in Hh; lia|].
    apply (IHl x (CL c x C0 r) Cm cm m mr f Hl Hf' H).
    remember (Node cl ll l0 lr) as l. cbn [height] in Hh. lia.
Qed.

Lemma plug_nonleaf : forall C t,
  C <> Top -> exists c l x r, plug C t = Node c l x r.
Proof.
  destruct C; intros t H; [congruence| |]; simpl; apply plug_node.
Qed.

Lemma perm_incl_tail : forall (l d l' : list Z),
  Permutation l (d ++ l') -> incl l' l.
Proof.
  intros l d l' H x Hx. eapply Permutation_in; [symmetry; exact H|].
  apply in_or_app. now right.
Qed.

Lemma incl_cons_same : forall (a : Z) l l', incl l l' -> incl (a :: l) (a :: l').
Proof. intros a l l' H x [->|Hx]; [now left|right; auto]. Qed.

(** A node of the tree is far from the sentinel and from the other
    nodes. *)
Lemma fresh_after_drop : forall st T d m X,
  tinv st T -> Permutation (nodes T) ((d ++ [m]) ++ X) ->
  okptr m /\ Forall (far m) (NIL st :: X).
Proof.
  intros st T d m X [_ Hs Ho _] Hp.
  apply (sepl_perm _ _ (perm_skip _ Hp)) in Hs.
  apply (Permutation_Forall (perm_skip _ Hp)) in Ho.
  simpl in Hs. destruct Hs as [A B].
  rewrite !Forall_app in A. destruct A as ((_ & A1) & _).
  apply sepl_app in B. destruct B as (_ & _ & B).
  apply Forall_app in B. destruct B as [_ B].
  apply Forall_cons_iff in Ho. destruct Ho as [_ Ho].
  rewrite !Forall_app in Ho. destruct Ho as ((_ & Ho) & _).
  inversion Ho; subst. inversion A1; subst. inversion B; subst.
  split; [assumption|]. constructor; [now apply far_sym|assumption].
Qed.

(** After the node has left its place: the fix-up when the colour that
    left was black. *)
Lemma remove_finish : forall st s1 yc C' t' fuel L,
  tinv s1 (plug C' t') ->
  PARENT s1 (ptr (NIL st) t') = cpar (NIL st) C' ->
  wr st s1 L -> incl (NIL st :: nodes (plug C' t')) L ->
  (depth C' <= fuel)%nat ->
  (yc = BLACK -> cbal C' (S (bh t')) /\ cred C' BLACK) ->
  exists st',
    (if yc =? BLACK then rbt_remove_fixup fuel (ptr (NIL st) t') s1
     else Some s1) = Some st' /\
    tinv st' (if yc =? BLACK then rfix C' t' else plug C' t') /\
    wr st st' L.
Proof.
  intros st s1 yc C' t' fuel L H1 Hp W1 Hi Hd Hb.
  pose proof (wr_NIL _ _ _ W1) as N1.
  destruct (yc =? BLACK) eqn:E.
  - apply Z.eqb_eq in E. destruct (Hb E) as [Hb1 Hb2].
    rewrite <- N1 in Hp.
    destruct (remove_fixup_ok C' t' s1 fuel Hd H1 Hp Hb1 Hb2) as (st' & E' & H' & W').
    rewrite N1 in E', W'.
    exists st'. split; [exact E'|]. split; [exact H'|].
    eapply wr_incl; [eapply wr_trans; [exact W1|exact W']|].
    intros a Ha. apply in_app_or in Ha. destruct Ha; auto.
  - exists s1. auto.
Qed.

Lemma cpar_in_cnodes : forall nil C, C <> Top -> In (cpar nil C) (cnodes C).
Proof. destruct C; intros; [congruence| |]; simpl; now left. Qed.

Lemma incl_replace : forall C c L x y R R',
  incl (nodes R') (nodes R) -> x = y \/ In x (nodes R) ->
  incl (nodes (plug C (Node c L x R'))) (nodes (plug C (Node c L y R))).
Proof.
  intros C c L x y R R' Hi Hm a Ha.
  apply (Permutation_in _ (nodes_plug _ _)) in Ha.
  apply (Permutation_in _ (Permutation_sym (nodes_plug _ _))).
  simpl in *. rewrite ?in_app_iff in *. simpl in *. rewrite ?in_app_iff in *.
  destruct Ha as [[Ha|[Ha|Ha]]|Ha]; subst; auto.
  destruct Hm; subst; auto.
Qed.

Lemma incl_drop_min : forall Cm cm m mr,
  incl (nodes (plug Cm mr)) (nodes (plug Cm (Node cm Leaf m mr))) /\
  In m (nodes (plug Cm (Node cm Leaf m mr))).
Proof.
  intros. split.
  - apply (perm_incl_tail _ _ _ (perm_drop_R Cm cm Leaf m mr)).
  - apply in_nodes_plug. simpl. now left.
Qed.

(** The node with two children whose successor [m] lies deeper in the
    right subtree: [m] is unlinked there, then takes the place of [bp]. *)
Lemma remove_two_far : forall st C c cl ll l0 lr bp Cm cm m mr,
  Cm <> Top ->
  tinv st (plug C (Node c (Node cl ll l0 lr) bp (plug Cm (Node cm Leaf m mr)))) ->
  let s1 := rbt_transplant m (ptr (NIL st) mr) st in
  let s2 := SET_RIGHT m (RIGHT s1 bp) s1 in
  let s3 := SET_PARENT (RIGHT s2 m) m s2 in
  let s4 := rbt_transplant bp m s3 in
  let s5 := SET_LEFT m (LEFT s4 bp) s4 in
  let s6 := SET_PARENT (LEFT s5 m) m s5 in
  let st' := SET_COLOR m (COLOR s6 bp) s6 in
  tinv st' (plug (capp Cm (CR c (Node cl ll l0 lr) m C)) mr) /\
  PARENT st' (ptr (NIL st) mr) = cpar (NIL st) (capp Cm (CR c (Node cl ll l0 lr) m C)) /\
  wr st st' (NIL st :: nodes (plug C (Node c (Node cl ll l0 lr) bp (plug Cm (Node cm Leaf m mr))))).
Proof.
  intros st C c cl ll l0 lr bp Cm cm m mr Hne Hinv.
  set (L := Node cl ll l0 lr) in *.
  assert (Hm : tinv st (plug (capp Cm (CR c L bp C)) (Node cm Leaf m mr)))
    by (rewrite plug_capp; exact Hinv).
  destruct (transplant_R st _ cm Leaf m mr Hm) as (H1 & P1 & W1).
  cbv zeta in H1, P1, W1.
  pose proof (wr_NIL _ _ _ W1) as N1.
  destruct (fresh_after_drop st _ [] m _ Hm (perm_drop_R _ cm Leaf m mr)) as [Hokm Fm].
  rewrite plug_capp in H1, Fm, W1. cbn [plug] in H1, Fm, W1.
  destruct (plug_nonleaf Cm mr Hne) as (cr' & rl' & r0' & rr' & ER).
  rewrite ER in H1, Fm. rewrite <- N1 in Fm.
  subst L.
  destruct (replace_node _ C c cl ll l0 lr bp cr' rl' r0' rr' m H1 Hokm Fm) as [H2 W2].
  cbv zeta in H2, W2. cbv zeta.
  rewrite <- ER in H2, W2.
  split; [rewrite plug_capp; exact H2|].
  destruct (incl_drop_min Cm cm m mr) as [Hi1 Hi2].
  split.
  - pose proof (wr_NIL _ _ _ W2) as N2.
    destruct mr as [|cmr mrl mr0 mrr].
    + cbn [ptr] in *.
      assert (F : Forall (fun w => far w (NIL st))
                (m :: nodes (plug C (Node c (Node cl ll l0 lr) bp (plug Cm Leaf))))).
      { rewrite <- N1. apply Forall_cons_iff in Fm. destruct Fm as [Fm _].
        constructor; [exact Fm|].
        pose proof (ti_sep _ _ H1) as Hs. rewrite <- ER in Hs.
        simpl in Hs. destruct Hs as [Hs _].
        eapply Forall_impl; [|exact Hs]. intros a Ha. now apply far_sym. }
      destruct (wr_fields _ _ _ _ W2 F) as (-> & _).
      rewrite P1, !cpar_capp by assumption. reflexivity.
    + cbn [ptr].
      rewrite <- N1, <- N2.
      apply (node_parent _ (capp Cm (CR c (Node cl ll l0 lr) m C)) cmr mrl mr0 mrr).
      rewrite plug_capp. exact H2.
  - eapply wr_incl; [eapply wr_trans; [exact W1|exact W2]|].
    intros a Ha. apply in_app_or in Ha. destruct Ha as [Ha|[Ha|Ha]]; auto.
    + subst a. right. apply in_nodes_plug. simpl. apply in_or_app. right. now right.
    + right. revert a Ha. apply incl_replace; auto.
Qed.

(** [rbt_remove(bp)] on a tree that holds [bp] at the focus returns within
    [height] turns of its loops, leaves [del C c l bp r] in memory, and
    writes only node fields of the tree and of the sentinel. *)
Lemma rbt_remove_ok : forall st C c l bp r fuel,
  tinv st (plug C (Node c l bp r)) ->
  (height (plug C (Node c l bp r)) <= fuel)%nat ->
  (forall yc C' t', del_focus C c l bp r = (yc, C', t') -> yc = BLACK ->
     cbal C' (S (bh t')) /\ cred C' BLACK) ->
  exists st', rbt_remove fuel bp st = Some st' /\
    tinv st' (del C c l bp r) /\
    wr st st' (NIL st :: nodes (plug C (Node c l bp r))).
Proof.
  intros st C c l bp r fuel Hinv Hh Hd.
  pose proof (depth_height C (Node c l bp r)) as Hdh.
  pose proof Hinv as Hinv0.
  tinv_open Hinv C Hc Hr Hsep Hok Hnil.
  simpl in Hr. destruct Hr as (Px & Cx & Lx & Rx & Hl & Hr).
  cbv beta zeta delta [rbt_remove del].
  destruct l as [|cl ll l0 lr]; [|destruct r as [|cr rl r0 rr]].
  - (* no left child *)
    cbn [ptr] in Lx. rewrite Lx, Z.eqb_refl, Rx, Cx. cbn [obind del_focus].
    destruct (transplant_R st C c Leaf bp r Hinv0) as (H1 & P1 & W1).
    cbv zeta in H1, P1, W1.
    apply (remove_finish st _ c C r fuel _ H1 P1 W1).
    + apply incl_cons_same. apply (perm_incl_tail _ _ _ (perm_drop_R C c Leaf bp r)).
    + lia.
    + apply (Hd c C r eq_refl).
  - (* no right child *)
    cbn [ptr] in Lx, Rx. rewrite Lx, Rx, Cx, Z.eqb_refl.
    assert (F : far l0 (NIL st)).
    { simpl in Hsep. destruct Hsep as [Hsep _]. rewrite Forall_forall in Hsep.
      apply far_sym, Hsep. apply in_or_app. left. in_list. }
    rewrite (far_eqb _ _ F). cbn [obind del_focus min_split].
    destruct (transplant_L st C c (Node cl ll l0 lr) bp Leaf Hinv0) as (H1 & P1 & W1).
    cbv zeta in H1, P1, W1.
    apply (remove_finish st _ c C (Node cl ll l0 lr) fuel _ H1 P1 W1).
    + apply incl_cons_same.
      apply (perm_incl_tail _ _ _ (perm_drop_L C c (Node cl ll l0 lr) bp Leaf)).
    + lia.
    + apply (Hd c C _ eq_refl).
  - (* two children *)
    cbn [ptr] in Lx, Rx. rewrite Lx, Rx.
    assert (F1 : far l0 (NIL st)).
    { simpl in Hsep. destruct Hsep as [Hsep _]. rewrite Forall_forall in Hsep.
      apply far_sym, Hsep. apply in_or_app. left. in_list. }
    assert (F2 : far r0 (NIL st)).
    { simpl in Hsep. destruct Hsep as [Hsep _]. rewrite Forall_forall in Hsep.
      apply far_sym, Hsep. apply in_or_app. left. in_list. }
    rewrite (far_eqb _ _ F1), (far_eqb _ _ F2).
    destruct (min_split_some (Node cr rl r0 rr) Top ltac:(discriminate))
      as (Cm & cm & m & mr & Em).
    destruct (min_split_plug _ _ _ _ _ _ Em) as [Epl Hdm].
    cbn [plug] in Epl.
    assert (Fr : Forall (far (NIL st)) (nodes (Node cr rl r0 rr))).
    { simpl in Hsep. destruct Hsep as [Hsep _].
      change (nodes (Node c (Node cl ll l0 lr) bp (Node cr rl r0 rr)))
        with (nodes (Node cl ll l0 lr) ++ bp :: nodes (Node cr rl r0 rr)) in Hsep.
      rewrite !Forall_app in Hsep. destruct Hsep as [[_ Hsep] _].
      apply Forall_cons_iff in Hsep. tauto. }
    assert (Emin : rbt_minimum fuel r0 st = Some m).
    { apply (rbt_minimum_ok st _ bp Top Cm cm m mr fuel Hr Fr Em).
      remember (Node cr rl r0 rr) as r; remember (Node cl ll l0 lr) as l.
      cbn [height] in Hdh. lia. }
    rewrite Emin.
    cbn [obind del_focus]. rewrite Em.
    assert (Hcm : Cm = Top \/ Cm <> Top) by (destruct Cm; [left|right|right]; congruence).
    destruct Hcm as [->|Hne].
    + (* the successor is the right child *)
      cbn [plug] in Epl. injection Epl as <- <- <- <-.
      simpl in Hr. destruct Hr as (Pm & Cm & _ & Rm & _ & Hmr).
      rewrite Pm, Cm, Rm, Z.eqb_refl.
      destruct (remove_two_near st C c cl ll l0 lr bp cm m mr Hinv0) as (H1 & P1 & W1).
      cbv zeta in H1, P1, W1. cbn [capp].
      apply (remove_finish st _ cm (CR c (Node cl ll l0 lr) m C) mr fuel _ H1 P1 W1).
      * apply incl_cons_same. cbn [plug].
        apply (perm_incl_tail _ _ _ (perm_drop_near C c (Node cl ll l0 lr) bp cm m mr)).
      * remember (Node cl ll l0 lr) as l. cbn [height depth] in *. lia.
      * apply (Hd cm _ mr). cbn [del_focus]. rewrite Em. reflexivity.
    + (* the successor lies deeper *)
      rewrite <- Epl in Hinv0.
      assert (Hm : tinv st (plug (capp Cm (CR c (Node cl ll l0 lr) bp C)) (Node cm Leaf m mr)))
        by (rewrite plug_capp; exact Hinv0).
      pose proof Hm as [Hrm _ _ _]. apply wrep_plug in Hrm. destruct Hrm as [_ Hrm].
      simpl in Hrm. destruct Hrm as (Pm & Cm' & _ & Rm & _ & _).
      rewrite cpar_capp in Pm by assumption.
      assert (Fq : far (cpar (NIL st) Cm) bp).
      { pose proof (in_cnodes_plug Cm (Node cm Leaf m mr) _ (cpar_in_cnodes (NIL st) Cm Hne)) as Hin.
        rewrite Epl in Hin.
        simpl in Hsep. destruct Hsep as [_ Hsep].
        apply sepl_app in Hsep. destruct Hsep as (Hsep & _ & _).
        change (nodes (Node c (Node cl ll l0 lr) bp (Node cr rl r0 rr)))
          with (nodes (Node cl ll l0 lr) ++ bp :: nodes (Node cr rl r0 rr)) in Hsep.
        apply sepl_app in Hsep. destruct Hsep as (_ & Hsep & _).
        simpl in Hsep. destruct Hsep as [Hsep _].
        rewrite Forall_forall in Hsep. apply far_sym, Hsep. exact Hin. }
      rewrite Pm, Cm', Rm, (far_eqb _ _ Fq).
      destruct (remove_two_far st C c cl ll l0 lr bp Cm cm m mr Hne Hinv0) as (H1 & P1 & W1).
      cbv zeta in H1, P1, W1.
      rewrite Epl in W1.
      apply (remove_finish st _ cm _ mr fuel _ H1 P1 W1).
      * apply incl_cons_same. rewrite plug_capp. cbn [plug].
        destruct (incl_drop_min Cm cm m mr) as [Hi1 Hi2]. rewrite Epl in Hi1, Hi2.
        apply incl_replace; auto.
      * rewrite depth_capp.
        remember (Node cl ll l0 lr) as l. remember (Node cr rl r0 rr) as r.
        cbn [height depth] in *. lia.
      * apply (Hd cm _ mr). cbn [del_focus]. rewrite Em. reflexivity.
Qed.

(* ================================================================== *)
(** ** Red-black shape of the trees the algorithms build *)
(* ================================================================== *)

Lemma balanced_plug : forall C t,
  balanced (plug C t) <-> balanced t /\ cbal C (bh t).
Proof.
  induction C as [|c x up IH r|c l x up IH]; intros t; simpl.
  - tauto.
  - rewrite IH. simpl. intuition congruence.
  - rewrite IH. simpl. split.
    + intros ((E & Hl & Ht) & Hu). rewrite E in Hu. auto.
    + intros (Ht & E & Hl & Hu). rewrite E. auto.
Qed.

Lemma redok_plug : forall C t,
  redok (plug C t) <-> redok t /\ cred C (color_of t).
Proof.
  induction C as [|c x up IH r|c l x up IH]; intros t; simpl.
  - tauto.
  - rewrite IH. simpl. tauto.
  - rewrite IH. simpl. tauto.
Qed.

Lemma nodes_plug_lr : forall C t,
  nodes (plug C t) = lctx C ++ nodes t ++ rctx C.
Proof.
  induction C as [|c x up IH r|c l x up IH]; intros t; simpl.
  - now rewrite app_nil_r.
  - rewrite IH. simpl. now rewrite <- !app_assoc.
  - rewrite IH. simpl. rewrite <- !app_assoc. simpl. reflexivity.
Qed.

Lemma blk_cases : forall c, c = RED \/ c = BLACK ->
  (c = RED /\ blk c = 0%nat) \/ (c = BLACK /\ blk c = 1%nat).
Proof. intros c [->| ->]; [left|right]; split; reflexivity. Qed.

Lemma redok_blacken : forall t, redok t -> redok (blacken t).
Proof.
  destruct t; simpl; auto. intros (_ & _ & Hl & Hr).
  repeat split; auto; try discriminate.
Qed.

Lemma balanced_blacken : forall t, balanced t -> balanced (blacken t).
Proof. destruct t; simpl; auto. Qed.

(** *** Insertion *)

Ltac colors :=
  repeat match goal with
  | H : ?c = RED \/ ?c = BLACK |- _ => is_var c; destruct H; subst c
  | H : _ /\ _ |- _ => destruct H
  | H : RED = BLACK |- _ => discriminate H
  | H : BLACK = RED |- _ => discriminate H
  | H : RED = RED -> _ |- _ => specialize (H eq_refl)
  | H : BLACK = BLACK -> _ |- _ => specialize (H eq_refl)
  | H : BLACK = RED -> _ |- _ => clear H
  | H : RED = BLACK -> _ |- _ => clear H
  end.

Ltac crunch :=
  cbn [balanced redok bh blacken color_of plug cbal cred blk Z.eqb Pos.eqb
       RED BLACK Nat.add] in *;
  colors;
  cbn [balanced redok bh blacken color_of plug cbal cred blk Z.eqb Pos.eqb
       RED BLACK Nat.add] in *.

Lemma color_valid : forall t, redok t -> color_of t = RED \/ color_of t = BLACK.
Proof. destruct t; simpl; [now right|tauto]. Qed.

Lemma redok_blacken_plug : forall C t,
  redok t -> cred C (color_of t) -> redok (blacken (plug C t)).
Proof. intros. apply redok_blacken, redok_plug. auto. Qed.

Lemma neq_red : forall c, c = RED \/ c = BLACK -> (c =? RED) = false -> c = BLACK.
Proof. intros c [->| ->] H; [discriminate|reflexivity]. Qed.

Lemma tree_not_red : forall u, redok u -> (color_of u =? RED) = false ->
  color_of u = BLACK.
Proof. intros u H. apply neq_red, color_valid, H. Qed.

Ltac shape :=
  rewrite ?balanced_plug, ?redok_plug; crunch;
  repeat (split || intro); crunch; auto; try congruence; try lia.

(** The fix-up of insertion restores the shape: starting from a red node
    [t] whose context would be fine around a black node, the result is
    balanced and, once its root is black, has no red-red edge. *)
Lemma ifix_ok : forall n C t,
  (depth C <= n)%nat ->
  color_of t = RED -> redok t -> balanced t ->
  cbal C (bh t) -> cred C BLACK ->
  balanced (ifix C t) /\ redok (blacken (ifix C t)).
Proof.
  induction n as [n IH] using lt_wf_ind. intros C t Hd Ht Hr Hb Hcb Hcr.
  destruct t as [|ct tl t0 tr]; [discriminate|]. simpl in Ht. subst ct.
  destruct C as [|cp p [|cg g up' u|cg u g up'] s|cp s p [|cg g up' u|cg u g up']];
    cbn [ifix].
  1: split; [exact Hb|apply redok_blacken; exact Hr].
  1, 4: destruct (cp =? RED) eqn:Ecp;
    [ apply Z.eqb_eq in Ecp; subst cp; split; shape
    | split; [|apply redok_blacken]; shape ].
  all: destruct (cp =? RED) eqn:Ecp;
    [ apply Z.eqb_eq in Ecp; subst cp;
      destruct (color_of u =? RED) eqn:Eu;
      [ apply Z.eqb_eq in Eu;
        apply (IH (depth up')); [simpl in Hd; lia|lia|reflexivity|..];
        destruct u; try discriminate; simpl in Eu; subst; shape
      | assert (color_of u = BLACK) by (apply tree_not_red; [crunch; tauto|exact Eu]);
        split; [|apply redok_blacken]; shape ]
    | split; [|apply redok_blacken]; shape ].
Qed.

Lemma color_blacken : forall t, color_of (blacken t) = BLACK.
Proof. destruct t; reflexivity. Qed.

(** [rbt_insert] keeps a red-black tree red-black. *)
Lemma ins_rbtree : forall st bp T, rbtree T -> rbtree (ins st bp T).
Proof.
  intros st bp T (Hb & Hr & Hc). unfold ins.
  set (C := ins_ctx st (key st bp) Top T).
  assert (E : plug C Leaf = T) by apply (plug_ins_ctx st (key st bp) T Top).
  rewrite <- E in Hb, Hr.
  apply balanced_plug in Hb. apply redok_plug in Hr.
  simpl in Hb, Hr. destruct Hb as [_ Hb]. destruct Hr as [_ Hr].
  destruct (ifix_ok (depth C) C (Node RED Leaf bp Leaf)) as [H1 H2].
  - lia.
  - reflexivity.
  - simpl. repeat split; auto.
  - simpl. auto.
  - exact Hb.
  - exact Hr.
  - split; [apply balanced_blacken; exact H1|].
    split; [exact H2|apply color_blacken].
Qed.

(** The nodes after the insertion, in order. *)
Lemma ins_nodes : forall st bp T,
  let C := ins_ctx st (key st bp) Top T in
  nodes T = lctx C ++ rctx C /\
  nodes (ins st bp T) = lctx C ++ bp :: rctx C.
Proof.
  intros st bp T C. split.
  - rewrite <- (plug_ins_ctx st (key st bp) T Top) at 1.
    fold C. rewrite nodes_plug_lr. reflexivity.
  - unfold ins. fold C.
    rewrite nodes_blacken, (ifix_nodes (depth C)), nodes_plug_lr by lia.
    reflexivity.
Qed.

(** *** Search order *)

Lemma ssorted_app : forall (l1 l2 : list Z),
  StronglySorted Z.le (l1 ++ l2) <->
  StronglySorted Z.le l1 /\ StronglySorted Z.le l2 /\
  (forall a b, In a l1 -> In b l2 -> a <= b).
Proof.
  induction l1 as [|x l1 IH]; intros l2; simpl.
  - split; [intros H; repeat split; [constructor|exact H|tauto]|tauto].
  - split.
    + intros H. inversion H as [|? ? Hs Hf]; subst.
      apply IH in Hs. destruct Hs as (H1 & H2 & H3).
      apply Forall_app in Hf. destruct Hf as [Hf1 Hf2].
      rewrite Forall_forall in Hf2.
      repeat split; auto.
      * constructor; auto.
      * intros a b [->|Ha] Hb; auto.
    + intros (H1 & H2 & H3). inversion H1 as [|? ? Hs Hf]; subst.
      constructor.
      * apply IH. repeat split; auto.
      * apply Forall_app. split; [exact Hf|].
        rewrite Forall_forall. intros b Hb. apply H3; auto.
Qed.

Lemma ssorted_cons : forall x (l : list Z),
  StronglySorted Z.le (x :: l) <->
  StronglySorted Z.le l /\ (forall b, In b l -> x <= b).
Proof.
  intros. split.
  - intros H. inversion H; subst. rewrite Forall_forall in *. auto.
  - intros [H1 H2]. constructor; auto. rewrite Forall_forall. auto.
Qed.

(** The descent of [rbt_insert] passes only nodes that are no larger on
    its left and nodes that are no smaller on its right. *)
Lemma ins_ctx_bounds : forall st size t C0,
  bst st (plug C0 t) ->
  (forall y, In y (lctx C0) -> key st y <= size) ->
  (forall y, In y (rctx C0) -> size <= key st y) ->
  (forall y, In y (lctx (ins_ctx st size C0 t)) -> key st y <= size) /\
  (forall y, In y (rctx (ins_ctx st size C0 t)) -> size <= key st y).
Proof.
  induction t as [|c l IHl x r IHr]; intros C0 Hs HL HR; simpl; [tauto|].
  assert (Hx : (forall y, In y (nodes l) -> key st y <= key st x) /\
               (forall y, In y (nodes r) -> key st x <= key st y)).
  { unfold bst in Hs. rewrite nodes_plug_lr in Hs. simpl in Hs.
    rewrite !map_app in Hs. apply ssorted_app in Hs. destruct Hs as (_ & Hs & _).
    apply ssorted_app in Hs. destruct Hs as (Hs & _ & _).
    simpl in Hs.
    apply ssorted_app in Hs. destruct Hs as (_ & H2 & H3).
    apply ssorted_cons in H2. destruct H2 as [_ H2].
    split; intros y Hy.
    - apply H3; [apply in_map; exact Hy|now left].
    - apply H2. apply in_map. exact Hy. }
  destruct Hx as [Hx1 Hx2].
  destruct (size <? key st x) eqn:E.
  - apply Z.ltb_lt in E. apply IHl; simpl; auto.
    intros y [->|Hy]; [lia|].
    apply in_app_or in Hy. destruct Hy as [Hy|Hy]; auto.
    specialize (Hx2 y Hy). lia.
  - apply Z.ltb_ge in E. apply IHr; simpl; auto.
    intros y Hy. apply in_app_or in Hy. destruct Hy as [Hy|Hy]; auto.
    apply in_app_or in Hy. destruct Hy as [Hy|[->|[]]]; [|lia].
    specialize (Hx1 y Hy). lia.
Qed.

(** [rbt_insert] keeps the keys in order. *)
Lemma ins_bst : forall st bp T, bst st T -> bst st (ins st bp T).
Proof.
  intros st bp T H.
  destruct (ins_nodes st bp T) as [E1 E2]. cbv zeta in E1, E2.
  destruct (ins_ctx_bounds st (key st bp) T Top H) as [HL HR];
    [simpl; tauto|simpl; tauto|].
  unfold bst in *. rewrite E2. rewrite E1 in H.
  rewrite map_app in *. simpl.
  apply ssorted_app in H. destruct H as (H1 & H2 & H3).
  apply ssorted_app. repeat split; auto.
  - apply ssorted_cons. split; auto.
    intros b Hb. apply in_map_iff in Hb. destruct Hb as (y & <- & Hy). auto.
  - intros a b Ha [<-|Hb]; auto.
    apply in_map_iff in Ha. destruct Ha as (y & <- & Hy). auto.
Qed.

(** Keys read in another state. *)
Lemma bst_ext : forall st st' T,
  (forall x, In x (nodes T) -> key st' x = key st x) -> bst st T -> bst st' T.
Proof.
  intros st st' T H. unfold bst.
  rewrite (map_ext_in (key st') (key st)); auto.
Qed.

(** *** Removal *)

Lemma rcase_L_nodes : forall cp t p w s,
  rcase_L cp t p w = Some s -> nodes s = nodes t ++ p :: nodes w.
Proof.
  intros cp t p [|cw wl w0 wr] s; simpl; [discriminate|].
  destruct (_ && _); [discriminate|].
  destruct (color_of wr =? BLACK).
  - destruct wl; [discriminate|]. intros [= <-].
    simpl. repeat (rewrite <- app_assoc; simpl). reflexivity.
  - intros [= <-]. simpl. rewrite nodes_blacken.
    repeat (rewrite <- app_assoc; simpl). reflexivity.
Qed.

Lemma rcase_R_nodes : forall cp w p t s,
  rcase_R cp w p t = Some s -> nodes s = nodes w ++ p :: nodes t.
Proof.
  intros cp [|cw wl w0 wr] p t s; simpl; [discriminate|].
  destruct (_ && _); [discriminate|].
  destruct (color_of wl =? BLACK).
  - destruct wr; [discriminate|]. intros [= <-].
    simpl. repeat (rewrite <- app_assoc; simpl). reflexivity.
  - intros [= <-]. simpl. rewrite nodes_blacken.
    repeat (rewrite <- app_assoc; simpl). reflexivity.
Qed.

Lemma nodes_redden : forall t, nodes (redden t) = nodes t.
Proof. destruct t; reflexivity. Qed.

(** The fix-up of removal keeps the nodes in order. *)
Lemma rfix_nodes : forall C t, nodes (rfix C t) = nodes (plug C t).
Proof.
  induction C as [|cp p up IH w|cp w p up IH]; intros t; cbn [rfix].
  - apply nodes_blacken.
  - destruct (negb _); [apply plug_blacken_nodes|].
    destruct w as [|cw wl w0 wr]; [reflexivity|].
    destruct (cw =? RED).
    + destruct (rcase_L RED t p wl) as [s|] eqn:E.
      * rewrite nodes_blacken. cbn [plug]. apply nodes_plug_eq.
        simpl. rewrite (rcase_L_nodes _ _ _ _ _ E).
        repeat (rewrite <- app_assoc; simpl). reflexivity.
      * cbn [plug]. apply nodes_plug_eq. simpl. rewrite nodes_redden.
        repeat (rewrite <- app_assoc; simpl). reflexivity.
    + destruct (rcase_L cp t p (Node cw wl w0 wr)) as [s|] eqn:E.
      * rewrite nodes_blacken. cbn [plug]. apply nodes_plug_eq.
        apply (rcase_L_nodes _ _ _ _ _ E).
      * rewrite IH. cbn [plug]. apply nodes_plug_eq. reflexivity.
  - destruct (negb _); [apply plug_blacken_nodes|].
    destruct w as [|cw wl w0 wr]; [reflexivity|].
    destruct (cw =? RED).
    + destruct (rcase_R RED wr p t) as [s|] eqn:E.
      * rewrite nodes_blacken. cbn [plug]. apply nodes_plug_eq.
        simpl. rewrite (rcase_R_nodes _ _ _ _ _ E).
        repeat (rewrite <- app_assoc; simpl). reflexivity.
      * cbn [plug]. apply nodes_plug_eq. simpl. rewrite nodes_redden.
        repeat (rewrite <- app_assoc; simpl). reflexivity.
    + destruct (rcase_R cp (Node cw wl w0 wr) p t) as [s|] eqn:E.
      * rewrite nodes_blacken. cbn [plug]. apply nodes_plug_eq.
        apply (rcase_R_nodes _ _ _ _ _ E).
      * rewrite IH. cbn [plug]. apply nodes_plug_eq. reflexivity.
Qed.

Lemma lctx_capp : forall Ci Co, lctx (capp Ci Co) = lctx Co ++ lctx Ci.
Proof.
  induction Ci; intros; simpl; [now rewrite app_nil_r|auto|].
  rewrite IHCi, <- app_assoc. reflexivity.
Qed.

Lemma rctx_capp : forall Ci Co, rctx (capp Ci Co) = rctx Ci ++ rctx Co.
Proof.
  induction Ci; intros; simpl; auto.
  rewrite IHCi, <- app_assoc. reflexivity.
Qed.

Lemma min_split_lctx : forall r C0 Cm cm m mr,
  min_split r C0 = Some (Cm, cm, m, mr) -> lctx Cm = lctx C0.
Proof.
  induction r as [|c l IHl x r IHr]; intros C0 Cm cm m mr H; [discriminate|].
  simpl in H. destruct l as [|cl ll l0 lr].
  - now injection H as <- <- <- <-.
  - apply IHl in H. exact H.
Qed.

(** The nodes after the removal, in order: the node is gone, the others
    stay as they were. *)
Lemma del_nodes : forall C c l bp r,
  nodes (del C c l bp r) = lctx C ++ (nodes l ++ nodes r) ++ rctx C.
Proof.
  intros. unfold del.
  assert (E : forall yc C' t', nodes (if yc =? BLACK then rfix C' t' else plug C' t')
                               = nodes (plug C' t')).
  { intros. destruct (_ =? _); [apply rfix_nodes|reflexivity]. }
  destruct (del_focus C c l bp r) as [[yc C'] t'] eqn:F. rewrite E.
  unfold del_focus in F.
  destruct l as [|cl ll l0 lr].
  - injection F as <- <- <-. rewrite nodes_plug_lr. reflexivity.
  - destruct (min_split r Top) as [[[[Cm cm] m] mr]|] eqn:Em.
    + injection F as <- <- <-.
      destruct (min_split_plug _ _ _ _ _ _ Em) as [Epl _]. cbn [plug] in Epl.
      pose proof (min_split_lctx _ _ _ _ _ _ Em) as El. simpl in El.
      rewrite <- Epl. rewrite !nodes_plug_lr, lctx_capp, rctx_capp, El. simpl.
      repeat (rewrite <- app_assoc; simpl). reflexivity.
    + injection F as <- <- <-.
      destruct r; [|destruct (min_split_some (Node c0 r1 x r2) Top) as (a & b & d & e & E');
                    [discriminate|congruence]].
      rewrite nodes_plug_lr. simpl. rewrite app_nil_r. reflexivity.
Qed.

Lemma ssorted_remove : forall (A B : list Z) x,
  StronglySorted Z.le (A ++ x :: B) -> StronglySorted Z.le (A ++ B).
Proof.
  intros A B x H. apply ssorted_app in H. destruct H as (H1 & H2 & H3).
  apply ssorted_cons in H2. destruct H2 as [H2 _].
  apply ssorted_app. repeat split; auto.
  intros a b Ha Hb. apply H3; auto. now right.
Qed.

(** [rbt_remove] keeps the keys in order. *)
Lemma del_bst : forall st C c l bp r,
  bst st (plug C (Node c l bp r)) -> bst st (del C c l bp r).
Proof.
  intros st C c l bp r H. unfold bst in *.
  rewrite del_nodes. rewrite nodes_plug_lr in H. simpl in H.
  rewrite !app_assoc in *. rewrite <- !app_assoc in H.
  rewrite !map_app in *. simpl in H.
  rewrite !app_assoc in H.
  apply ssorted_remove in H.
  rewrite <- !app_assoc in *. exact H.
Qed.

(** Cases 3 and 4 of the removal fix-up rebuild a balanced subtree one
    black node taller than the deficient one; otherwise both nephews are
    black. *)
Lemma rcase_L_ok : forall cp t p wl w0 wr,
  balanced t -> redok t -> color_of t = BLACK ->
  cp = RED \/ cp = BLACK ->
  bh (Node BLACK wl w0 wr) = S (bh t) ->
  balanced (Node BLACK wl w0 wr) -> redok (Node BLACK wl w0 wr) ->
  match rcase_L cp t p (Node BLACK wl w0 wr) with
  | Some s => balanced s /\ redok s /\ bh s = (blk cp + S (bh t))%nat /\
              color_of s = cp
  | None => color_of wl = BLACK /\ color_of wr = BLACK
  end.
Proof.
  intros cp t p wl w0 wr Hbt Hrt Hct Hcp Hbh Hbw Hrw.
  cbn [rcase_L].
  destruct (color_of wl =? BLACK) eqn:El; destruct (color_of wr =? BLACK) eqn:Er;
    cbn [andb].
  - apply Z.eqb_eq in El, Er. auto.
  - destruct wr as [|cwr wrl wr0 wrr]; [discriminate|]. simpl in Er.
    shape.
  - destruct wl as [|cwl wll wl0 wlr]; [discriminate|]. simpl in El.
    shape.
  - destruct wr as [|cwr wrl wr0 wrr]; [discriminate|]. simpl in Er.
    shape.
Qed.

Lemma rcase_R_ok : forall cp t p wl w0 wr,
  balanced t -> redok t -> color_of t = BLACK ->
  cp = RED \/ cp = BLACK ->
  bh (Node BLACK wl w0 wr) = S (bh t) ->
  balanced (Node BLACK wl w0 wr) -> redok (Node BLACK wl w0 wr) ->
  match rcase_R cp (Node BLACK wl w0 wr) p t with
  | Some s => balanced s /\ redok s /\ bh s = (blk cp + S (bh t))%nat /\
              color_of s = cp
  | None => color_of wl = BLACK /\ color_of wr = BLACK
  end.
Proof.
  intros cp t p wl w0 wr Hbt Hrt Hct Hcp Hbh Hbw Hrw.
  cbn [rcase_R].
  destruct (color_of wr =? BLACK) eqn:Er; destruct (color_of wl =? BLACK) eqn:El;
    cbn [andb].
  - apply Z.eqb_eq in El, Er. auto.
  - destruct wl as [|cwl wll wl0 wlr]; [discriminate|]. simpl in El.
    shape.
  - destruct wr as [|cwr wrl wr0 wrr]; [discriminate|]. simpl in Er.
    shape.
  - destruct wl as [|cwl wll wl0 wlr]; [discriminate|]. simpl in El.
    shape.
Qed.

Lemma bh_blacken_nonblack : forall t,
  (color_of t =? BLACK) = false -> bh (blacken t) = S (bh t).
Proof.
  destruct t as [|c l x r]; simpl; [discriminate|].
  intros H. unfold blk. rewrite H. reflexivity.
Qed.

Lemma blacken_black : forall t, color_of t = BLACK -> blacken t = t.
Proof. destruct t; simpl; congruence. Qed.

Ltac fin_black :=
  split; [apply balanced_blacken|split; [apply redok_blacken|apply color_blacken]];
  shape.

(** The fix-up of removal restores the shape: [t] is balanced and one
    black node short for its context, which would be fine around a black
    node. *)
Lemma rfix_ok : forall C t,
  balanced t -> redok (blacken t) ->
  cbal C (S (bh t)) -> cred C BLACK -> ctop C BLACK = BLACK ->
  balanced (rfix C t) /\ redok (rfix C t) /\ color_of (rfix C t) = BLACK.
Proof.
  induction C as [|cp p up IH w|cp w p up IH]; intros t Hb Hr Hcb Hcr Htop;
    cbn [rfix].
  - split; [apply balanced_blacken; exact Hb|].
    split; [exact Hr|apply color_blacken].
  - destruct (color_of t =? BLACK) eqn:Et; cbn [negb].
    + apply Z.eqb_eq in Et. rewrite (blacken_black t Et) in Hr.
      destruct Hcb as (Hbw & Hbalw & Hcbu).
      destruct Hcr as (Hvp & Hrp & Hrw & Hcru).
      destruct w as [|cw wl w0 wr]; [discriminate|].
      cbn [ctop] in Htop.
      destruct (cw =? RED) eqn:Ecw.
      * apply Z.eqb_eq in Ecw. subst cw.
        assert (cp = BLACK) by (destruct Hvp as [->|]; [destruct (Hrp eq_refl); discriminate|assumption]).
        subst cp.
        destruct wl as [|cwl wll wl0 wlr]; [discriminate|].
        assert (cwl = BLACK) by (simpl in Hrw; destruct Hrw as (_ & Hrw & _); apply Hrw; reflexivity).
        subst cwl.
        pose proof (rcase_L_ok RED t p wll wl0 wlr Hb Hr Et) as Hk.
        destruct (rcase_L RED t p (Node BLACK wll wl0 wlr)) as [s|].
        -- destruct Hk as (K1 & K2 & K3 & K4); [left; reflexivity|shape..|].
           fin_black.
        -- destruct Hk as (K1 & K2); [left; reflexivity|shape..|].
           rewrite color_plug. cbn [ctop redden].
           split; [|split; [|exact Htop]]; shape.
      * assert (cw = BLACK) by (apply neq_red; [simpl in Hrw; tauto|exact Ecw]).
        subst cw.
        pose proof (rcase_L_ok cp t p wl w0 wr Hb Hr Et Hvp Hbw Hbalw Hrw) as Hk.
        destruct (rcase_L cp t p (Node BLACK wl w0 wr)) as [s|].
        -- destruct Hk as (K1 & K2 & K3 & K4). fin_black.
        -- destruct Hk as (K1 & K2).
           apply IH.
           ++ shape.
           ++ shape.
           ++ cbn [bh]. rewrite <- Nat.add_succ_r. exact Hcbu.
           ++ apply cred_black with cp. exact Hcru.
           ++ apply ctop_up with cp. exact Htop.
    + destruct t as [|ct tl t0 tr]; [discriminate|].
      rewrite color_plug.
      split; [|split; [|destruct up; exact Htop]].
      * apply balanced_plug. split; [exact Hb|].
        rewrite (bh_blacken_nonblack _ Et). exact Hcb.
      * apply redok_plug. split; [exact Hr|exact Hcr].
  - destruct (color_of t =? BLACK) eqn:Et; cbn [negb].
    + apply Z.eqb_eq in Et. rewrite (blacken_black t Et) in Hr.
      destruct Hcb as (Hbw & Hbalw & Hcbu).
      destruct Hcr as (Hvp & Hrp & Hrw & Hcru).
      destruct w as [|cw wl w0 wr]; [discriminate|].
      cbn [ctop] in Htop.
      destruct (cw =? RED) eqn:Ecw.
      * apply Z.eqb_eq in Ecw. subst cw.
        assert (cp = BLACK) by (destruct Hvp as [->|]; [destruct (Hrp eq_refl); discriminate|assumption]).
        subst cp.
        destruct wr as [|cwr wrl wr0 wrr];
          [simpl in Hbw, Hbalw; destruct Hbalw as (Hbalw & _); rewrite Hbalw in Hbw; discriminate|].
        assert (cwr = BLACK) by (simpl in Hrw; destruct Hrw as (_ & Hrw & _); apply Hrw; reflexivity).
        subst cwr.
        pose proof (rcase_R_ok RED t p wrl wr0 wrr Hb Hr Et) as Hk.
        destruct (rcase_R RED (Node BLACK wrl wr0 wrr) p t) as [s|].
        -- destruct Hk as (K1 & K2 & K3 & K4); [left; reflexivity|shape..|].
           fin_black.
        -- destruct Hk as (K1 & K2); [left; reflexivity|shape..|].
           rewrite color_plug. cbn [ctop redden].
           split; [|split; [|exact Htop]]; shape.
      * assert (cw = BLACK) by (apply neq_red; [simpl in Hrw; tauto|exact Ecw]).
        subst cw.
        pose proof (rcase_R_ok cp t p wl w0 wr Hb Hr Et Hvp Hbw Hbalw Hrw) as Hk.
        destruct (rcase_R cp (Node BLACK wl w0 wr) p t) as [s|].
        -- destruct Hk as (K1 & K2 & K3 & K4). fin_black.
        -- destruct Hk as (K1 & K2).
           apply IH.
           ++ shape.
           ++ shape.
           ++ cbn [bh blk Z.eqb RED BLACK Nat.add]. simpl in Hbw.
              injection Hbw as Hbw. rewrite Hbw, <- Nat.add_succ_r. exact Hcbu.
           ++ apply cred_black with cp. exact Hcru.
           ++ apply ctop_up with cp. exact Htop.
    + destruct t as [|ct tl t0 tr]; [discriminate|].
      rewrite color_plug.
      split; [|split; [|destruct up; exact Htop]].
      * apply balanced_plug. split; [exact Hb|].
        rewrite (bh_blacken_nonblack _ Et). exact Hcb.
      * apply redok_plug. split; [exact Hr|exact Hcr].
Qed.


(** The shape of a context does not depend on the address in a frame. *)
Lemma cbal_readdress : forall Ci c l x y Co n,
  cbal (capp Ci (CR c l x Co)) n -> cbal (capp Ci (CR c l y Co)) n.
Proof. induction Ci; intros; simpl in *; intuition eauto. Qed.

Lemma cred_readdress : forall Ci c l x y Co c0,
  cred (capp Ci (CR c l x Co)) c0 -> cred (capp Ci (CR c l y Co)) c0.
Proof. induction Ci; intros; simpl in *; intuition eauto. Qed.

Lemma ctop_readdress : forall Ci c l x y Co c0,
  ctop (capp Ci (CR c l x Co)) c0 = ctop (capp Ci (CR c l y Co)) c0.
Proof. induction Ci; intros; simpl in *; auto. Qed.

(** What is left once a node with at most one child is cut out: [t'] is
    the child that takes its place. *)
Lemma cut_shape : forall C c bp l r t',
  (l = Leaf /\ t' = r) \/ (r = Leaf /\ t' = l) ->
  balanced (plug C (Node c l bp r)) -> redok (plug C (Node c l bp r)) ->
  color_of (plug C (Node c l bp r)) = BLACK ->
  balanced t' /\ redok t' /\
  (c = BLACK -> cbal C (S (bh t')) /\ cred C BLACK /\ ctop C BLACK = BLACK) /\
  (c <> BLACK -> cbal C (bh t') /\ cred C (color_of t') /\
                 ctop C (color_of t') = BLACK).
Proof.
  intros C c bp l r t' Hs Hb Hr Hc.
  apply balanced_plug in Hb. apply redok_plug in Hr. rewrite color_plug in Hc.
  destruct Hb as [Hb Hcb]. destruct Hr as [Hr Hcr].
  assert (E : bh t' = 0%nat /\ balanced t' /\ redok t' /\
              (c = RED -> color_of t' = BLACK)).
  { destruct Hs as [[-> ->]|[-> ->]]; simpl in Hb, Hr; intuition. }
  destruct E as (E0 & Et & Ert & Ect).
  assert (Hbh : bh (Node c l bp r) = blk c).
  { destruct Hs as [[-> ->]|[-> ->]]; simpl in *; [lia|].
    destruct Hb as [Hb _]. rewrite Hb. lia. }
  rewrite Hbh in Hcb. cbn [color_of] in Hcr, Hc.
  assert (Hv : c = RED \/ c = BLACK) by (simpl in Hr; tauto).
  split; [exact Et|]. split; [exact Ert|]. split.
  - intros ->. rewrite E0. simpl in Hcb. auto.
  - intros Hn. destruct Hv as [->|]; [|congruence].
    rewrite E0, (Ect eq_refl). simpl in Hcb.
    split; [exact Hcb|]. split; [apply cred_black with RED; exact Hcr|].
    destruct C; [discriminate|exact Hc|exact Hc].
Qed.

(** The shape around the node that [rbt_remove] unlinks. *)
Lemma del_focus_shape : forall C c l bp r yc C' t',
  rbtree (plug C (Node c l bp r)) ->
  del_focus C c l bp r = (yc, C', t') ->
  balanced t' /\ redok t' /\
  (yc = BLACK -> cbal C' (S (bh t')) /\ cred C' BLACK /\ ctop C' BLACK = BLACK) /\
  (yc <> BLACK -> cbal C' (bh t') /\ cred C' (color_of t') /\
                  ctop C' (color_of t') = BLACK).
Proof.
  intros C c l bp r yc C' t' (Hb & Hr & Hc) F.
  unfold del_focus in F.
  destruct l as [|cl ll l0 lr].
  - injection F as <- <- <-. apply (cut_shape C c bp Leaf r r); auto.
  - destruct (min_split r Top) as [[[[Cm cm] m] mr]|] eqn:Em.
    + injection F as <- <- <-.
      destruct (min_split_plug _ _ _ _ _ _ Em) as [Epl _]. cbn [plug] in Epl.
      rewrite <- Epl in Hb, Hr, Hc.
      change (plug C (Node c (Node cl ll l0 lr) bp (plug Cm (Node cm Leaf m mr))))
        with (plug (CR c (Node cl ll l0 lr) bp C) (plug Cm (Node cm Leaf m mr)))
        in Hb, Hr, Hc.
      rewrite <- plug_capp in Hb, Hr, Hc.
      destruct (cut_shape _ cm m Leaf mr mr (or_introl (conj eq_refl eq_refl)) Hb Hr Hc)
        as (H1 & H2 & H3 & H4).
      split; [exact H1|]. split; [exact H2|]. split.
      * intros E. destruct (H3 E) as (A & B & D).
        split; [eapply cbal_readdress; exact A|].
        split; [eapply cred_readdress; exact B|].
        rewrite (ctop_readdress Cm c _ m bp C). exact D.
      * intros E. destruct (H4 E) as (A & B & D).
        split; [eapply cbal_readdress; exact A|].
        split; [eapply cred_readdress; exact B|].
        rewrite (ctop_readdress Cm c _ m bp C). exact D.
    + injection F as <- <- <-.
      destruct r; [|destruct (min_split_some (Node c0 r1 x r2) Top) as (a & b & d & e & E');
                    [discriminate|congruence]].
      apply (cut_shape C c bp (Node cl ll l0 lr) Leaf (Node cl ll l0 lr)); auto.
Qed.

(** [rbt_remove] keeps a red-black tree red-black. *)
Lemma del_rbtree : forall C c l bp r,
  rbtree (plug C (Node c l bp r)) -> rbtree (del C c l bp r).
Proof.
  intros C c l bp r H. unfold del.
  destruct (del_focus C c l bp r) as [[yc C'] t'] eqn:F.
  destruct (del_focus_shape _ _ _ _ _ _ _ _ H F) as (H1 & H2 & H3 & H4).
  destruct (yc =? BLACK) eqn:E.
  - apply Z.eqb_eq in E. destruct (H3 E) as (A & B & D).
    apply rfix_ok; auto. apply redok_blacken. exact H2.
  - apply Z.eqb_neq in E. destruct (H4 E) as (A & B & D).
    split; [apply balanced_plug; auto|].
    split; [apply redok_plug; auto|].
    rewrite color_plug. exact D.
Qed.

(** *** Best fit *)

Lemma bst_node : forall st c l x r,
  bst st (Node c l x r) ->
  bst st l /\ bst st r /\
  (forall y, In y (nodes l) -> key st y <= key st x) /\
  (forall y, In y (nodes r) -> key st x <= key st y).
Proof.
  unfold bst. intros st c l x r H. simpl in H. rewrite map_app in H. simpl in H.
  apply ssorted_app in H. destruct H as (H1 & H2 & H3).
  apply ssorted_cons in H2. destruct H2 as [H2 H4].
  repeat split; auto.
  - intros y Hy. apply H3; [apply in_map; exact Hy|now left].
  - intros y Hy. apply H4. apply in_map. exact Hy.
Qed.

(** The search on the tree: with a candidate [best] that is at least as
    large as every node of [t], the result is the smallest node of [t]
    that fits, or [best] when none of [t] fits. *)
Lemma bf_inv : forall st asize t best,
  bst st t -> (forall y, In y (nodes t) -> y <> NULL) ->
  best = NULL \/
    (asize <= key st best /\ forall y, In y (nodes t) -> key st y <= key st best) ->
  let res := bf st t asize best in
  (res = best \/ In res (nodes t)) /\
  (res = NULL <-> best = NULL /\ forall y, In y (nodes t) -> key st y < asize) /\
  (res <> NULL ->
     asize <= key st res /\
     (forall y, In y (nodes t) -> asize <= key st y -> key st res <= key st y) /\
     (best <> NULL -> key st res <= key st best)).
Proof.
  induction t as [|c l IHl x r IHr]; intros best Hs Hnz Hbest; cbn [bf].
  - simpl. split; [now left|]. split; [tauto|].
    intros Hn. destruct Hbest as [->|[H1 H2]]; [congruence|].
    repeat split; auto; try lia; tauto.
  - destruct (bst_node _ _ _ _ _ Hs) as (Hsl & Hsr & Hl & Hr).
    assert (Hx : x <> NULL) by (apply Hnz; simpl; apply in_or_app; right; now left).
    assert (Hnl : forall y, In y (nodes l) -> y <> NULL)
      by (intros; apply Hnz; simpl; apply in_or_app; now left).
    assert (Hnr : forall y, In y (nodes r) -> y <> NULL)
      by (intros; apply Hnz; simpl; apply in_or_app; right; now right).
    destruct (key st x >=? asize) eqn:E.
    + apply Z.geb_le in E.
      set (best' := if (best =? NULL) || (key st x <? key st best) then x else best).
      assert (Hb' : best' <> NULL /\ asize <= key st best' /\
                     key st best' <= key st x /\
                     (best' = x \/ best' = best) /\
                     (best <> NULL -> key st best' <= key st best)).
      { subst best'. destruct (best =? NULL) eqn:E1; cbn [orb].
        - apply Z.eqb_eq in E1. repeat split; auto; try lia; congruence.
        - apply Z.eqb_neq in E1. destruct Hbest as [->|[H1 H2]]; [congruence|].
          destruct (key st x <? key st best) eqn:E2.
          + apply Z.ltb_lt in E2. repeat split; auto; lia.
          + apply Z.ltb_ge in E2. repeat split; auto; lia. }
      destruct Hb' as (B1 & B2 & B3 & B4 & B5).
      destruct (IHl best' Hsl Hnl) as (R1 & R2 & R3).
      { right. split; [exact B2|]. intros y Hy. specialize (Hl y Hy).
        destruct B4 as [->| ->]; [exact Hl|].
        destruct Hbest as [->|[H1 H2]]; [congruence|].
        apply H2. simpl. apply in_or_app. now left. }
      cbv zeta in R1, R2, R3.
      assert (Rn : bf st l asize best' <> NULL) by (intros E'; apply R2 in E'; tauto).
      destruct (R3 Rn) as (Q1 & Q2 & Q3). specialize (Q3 B1).
      split; [|split].
      * destruct R1 as [R1|R1].
        -- rewrite R1. destruct B4 as [->| ->]; [right|now left].
           simpl. apply in_or_app. right. now left.
        -- right. simpl. apply in_or_app. now left.
      * split; [congruence|]. intros [_ H]. exfalso.
        specialize (H x ltac:(simpl; apply in_or_app; right; now left)). lia.
      * intros _. split; [exact Q1|]. split.
        -- intros y Hy Hy'. simpl in Hy. apply in_app_or in Hy.
           destruct Hy as [Hy|[<-|Hy]]; [auto|lia|specialize (Hr y Hy); lia].
        -- intros Hb. specialize (B5 Hb). lia.
    + rewrite Z.geb_leb in E. apply Z.leb_gt in E.
      destruct (IHr best Hsr Hnr) as (R1 & R2 & R3).
      { destruct Hbest as [->|[H1 H2]]; [now left|right].
        split; [exact H1|]. intros y Hy. apply H2. simpl.
        apply in_or_app. right. now right. }
      cbv zeta in R1, R2, R3.
      split; [|split].
      * destruct R1 as [R1|R1]; [now left|right].
        simpl. apply in_or_app. right. now right.
      * rewrite R2. split; intros [H1 H2]; (split; [exact H1|]).
        -- intros y Hy. simpl in Hy. apply in_app_or in Hy.
           destruct Hy as [Hy|[<-|Hy]]; [specialize (Hl y Hy); lia|lia|auto].
        -- intros y Hy. apply H2. simpl. apply in_or_app. right. now right.
      * intros Hn. destruct (R3 Hn) as (Q1 & Q2 & Q3).
        split; [exact Q1|]. split; [|exact Q3].
        intros y Hy Hy'. simpl in Hy. apply in_app_or in Hy.
        destruct Hy as [Hy|[<-|Hy]]; [specialize (Hl y Hy); lia|lia|auto].
Qed.

(** Best fit from the root with no candidate. *)
Lemma bf_spec : forall st asize t,
  bst st t -> (forall y, In y (nodes t) -> y <> NULL) ->
  let res := bf st t asize NULL in
  (res = NULL <-> forall y, In y (nodes t) -> key st y < asize) /\
  (res <> NULL ->
     In res (nodes t) /\ asize <= key st res /\
     forall y, In y (nodes t) -> asize <= key st y -> key st res <= key st y).
Proof.
  intros st asize t Hs Hnz res.
  destruct (bf_inv st asize t NULL Hs Hnz (or_introl eq_refl)) as (R1 & R2 & R3).
  fold res in R1, R2, R3. split.
  - rewrite R2. tauto.
  - intros Hn. destruct (R3 Hn) as (Q1 & Q2 & _).
    destruct R1 as [R1|R1]; [congruence|]. auto.
Qed.

(** [rbt_find_best_fit] computes [bf] within [height t] turns. *)
Lemma rbt_find_best_fit_ok : forall st asize t par best fuel,
  rep st par t -> Forall (far (NIL st)) (nodes t) ->
  (height t <= fuel)%nat ->
  rbt_find_best_fit fuel (ptr (NIL st) t) asize best st =
  Some (bf st t asize best).
Proof.
  intros st asize.
  assert (E : forall fuel node best, rbt_find_best_fit fuel node asize best st =
    if node =? NIL st then Some best
    else match fuel with
         | O => None
         | S f =>
           if key st node >=? asize then
             rbt_find_best_fit f (LEFT st node) asize
               (if (best =? NULL) || (key st node <? key st best) then node else best) st
           else rbt_find_best_fit f (RIGHT st node) asize best st
         end).
  { intros. destruct fuel; simpl; rewrite ?key_eq; reflexivity. }
  induction t as [|c l IHl x r IHr]; intros par best fuel Hr Hf Hh; rewrite E; cbn [ptr bf].
  - now rewrite Z.eqb_refl.
  - simpl in Hr. destruct Hr as (_ & _ & Lx & Rx & Hl & Hr).
    simpl in Hf. apply Forall_app in Hf. destruct Hf as [Hfl Hf].
    apply Forall_cons_iff in Hf. destruct Hf as [Hx Hfr].
    rewrite (far_eqb x (NIL st)) by (apply far_sym; exact Hx).
    destruct fuel as [|f]; [simpl in Hh; lia|].
    cbn [height] in Hh.
    rewrite Lx, Rx.
    destruct (key st x >=? asize).
    + apply (IHl x); auto. lia.
    + apply (IHr x); auto. lia.
Qed.

(* ================================================================== *)
(** ** Header words *)
(* ================================================================== *)

Lemma land_size_mask : forall x,
  0 <= x -> Z.land x (2 ^ 32 - 8) = 8 * ((x mod 2 ^ 32) / 8).
Proof.
  intros x Hx.
  assert (E : 8 * ((x mod 2 ^ 32) / 8) = Z.shiftl (Z.shiftr (x mod 2 ^ 32) 3) 3).
  { rewrite Z.shiftl_mul_pow2, Z.shiftr_div_pow2 by lia.
    change (2 ^ 3) with 8. apply Z.mul_comm. }
  rewrite E. clear E.
  apply Z.bits_inj'. intros n Hn.
  change (2 ^ 32 - 8) with (Z.shiftl (Z.ones 29) 3).
  rewrite Z.land_spec.
  rewrite !Z.shiftl_spec by lia.
  destruct (Z.ltb_spec n 3).
  - rewrite (Z.testbit_neg_r (Z.ones 29)), (Z.testbit_neg_r (Z.shiftr _ _)) by lia.
    apply andb_false_r.
  - rewrite Z.shiftr_spec by lia.
    replace (n - 3 + 3) with n by lia.
    destruct (Z.ltb_spec n 32).
    + rewrite Z.ones_spec_low by lia.
      rewrite Z.mod_pow2_bits_low by lia. apply andb_true_r.
    + rewrite Z.ones_spec_high by lia.
      rewrite Z.mod_pow2_bits_high by lia. apply andb_false_r.
Qed.

Lemma mult8 : forall sz, sz mod 8 = 0 -> exists k, sz = 8 * k.
Proof.
  intros sz H. exists (sz / 8).
  pose proof (Z.div_mod sz 8 ltac:(lia)) as D. lia.
Qed.

Lemma lor_bit0 : forall sz a,
  sz mod 8 = 0 -> a = 0 \/ a = 1 -> Z.lor sz (Z.land a 1) = sz + a.
Proof.
  intros sz a Hs [-> | ->].
  - simpl. rewrite Z.lor_0_r. lia.
  - change (Z.land 1 1) with 1.
    destruct (mult8 sz Hs) as [k ->].
    assert (E : Z.land (8 * k) 1 = 0).
    { change 1 with (Z.ones 1). rewrite Z.land_ones by lia.
      change (2 ^ 1) with 2.
      replace (8 * k) with ((4 * k) * 2) by lia.
      apply Z.mod_mul. lia. }
    rewrite <- Z.lxor_lor by exact E.
    symmetry. apply Z.add_nocarry_lxor. exact E.
Qed.

(** A header word holds its size and its allocated bit. *)
Lemma PACK_ok : forall sz a,
  0 <= sz < 2 ^ 32 -> sz mod 8 = 0 -> a = 0 \/ a = 1 ->
  PACK sz a = sz + a /\
  Z.land (PACK sz a) (2 ^ 32 - 8) = sz /\ Z.land (PACK sz a) 1 = a.
Proof.
  intros sz a Hr Hs Ha.
  assert (E : PACK sz a = sz + a /\ 0 <= sz + a < 2 ^ 32).
  { unfold PACK, u32. rewrite lor_bit0 by assumption.
    destruct (mult8 sz Hs) as [k ->].
    assert (8 * k + a < 2 ^ 32) by lia.
    split; [apply Z.mod_small|]; lia. }
  destruct E as [E Hlt]. rewrite E. split; [reflexivity|].
  destruct (mult8 sz Hs) as [k ->]. split.
  - rewrite land_size_mask by lia. rewrite Z.mod_small by lia.
    replace (8 * k + a) with (a + k * 8) by lia.
    rewrite Z.div_add by lia.
    replace (a / 8) with 0 by (destruct Ha; subst; reflexivity). lia.
  - change 1 with (Z.ones 1). rewrite Z.land_ones by lia. change (2 ^ 1) with 2.
    replace (8 * k + a) with (a + (4 * k) * 2) by lia.
    rewrite Z.mod_add by lia. destruct Ha; subst; reflexivity.
Qed.

Lemma PACK_range : forall sz a, 0 <= PACK sz a < 2 ^ 32.
Proof. intros. unfold PACK, u32. apply Z.mod_pos_bound. lia. Qed.

(** What [GET_SIZE] and [GET_ALLOC] read from a header word. *)
Lemma GET_SIZE_word : forall st p sz a,
  GET st p = PACK sz a ->
  0 <= sz < 2 ^ 32 -> sz mod 8 = 0 -> a = 0 \/ a = 1 ->
  GET_SIZE st p = sz /\ GET_ALLOC st p = a.
Proof.
  intros st p sz a E Hr Hs Ha. unfold GET_SIZE, GET_ALLOC. rewrite E.
  destruct (PACK_ok sz a Hr Hs Ha) as (_ & H1 & H2). auto.
Qed.

(* ================================================================== *)
(** ** Reads over header writes *)
(* ================================================================== *)

Lemma GET_PUT_same : forall st a v,
  0 <= v < 2 ^ 32 -> GET (PUT a v st) a = v.
Proof.
  intros. unfold GET, PUT. cbn [bytes set_bytes]. apply load_store_eq.
  change (256 ^ Z.of_nat 4) with (2 ^ 32). assumption.
Qed.

Lemma GET_PUT_other : forall st a v b,
  a + 4 <= b \/ b + 4 <= a -> GET (PUT a v st) b = GET st b.
Proof.
  intros. unfold GET, PUT. cbn [bytes set_bytes]. apply load_store_disj.
  change (Z.of_nat 4) with 4. lia.
Qed.

Lemma agree_refl : forall st lo hi, agree st st lo hi.
Proof. unfold agree. intuition. Qed.

Lemma agree_PUT : forall st st' lo hi a v,
  agree st st' lo hi -> lo <= a -> a + 4 <= hi ->
  agree st (PUT a v st') lo hi.
Proof.
  unfold agree. intros st st' lo hi a v (H1 & H2 & H5 & H6) Hl Hh.
  unfold PUT. cbn [bytes set_bytes NIL root mem_brk mem_max_addr heap_listp].
  repeat split; auto.
  intros b Hb. rewrite store_out by (change (Z.of_nat 4) with 4; lia). auto.
Qed.

Lemma agree_trans : forall st st1 st2 lo hi,
  agree st st1 lo hi -> agree st1 st2 lo hi -> agree st st2 lo hi.
Proof.
  unfold agree. intros st st1 st2 lo hi (H1 & H2 & H5 & H6)
    (K1 & K2 & K5 & K6).
  repeat split; try congruence. intros a Ha. rewrite K6, H6; auto.
Qed.

Lemma agree_widen : forall st st' lo hi lo' hi',
  agree st st' lo hi -> lo' <= lo -> hi <= hi' -> agree st st' lo' hi'.
Proof.
  unfold agree. intros st st' lo hi lo' hi' (H1 & H2 & H5 & H6) Hl Hh.
  repeat split; auto. intros a Ha. apply H6. lia.
Qed.

Lemma agree_load : forall st st' lo hi n a,
  agree st st' lo hi -> a + Z.of_nat n <= lo \/ hi <= a ->
  Mem.load n (bytes st') a = Mem.load n (bytes st) a.
Proof.
  intros st st' lo hi n a (_ & _ & _ & H) Ha.
  apply load_ext. intros x Hx. apply H. lia.
Qed.

Lemma agree_GET : forall st st' lo hi a,
  agree st st' lo hi -> a + 4 <= lo \/ hi <= a -> GET st' a = GET st a.
Proof.
  intros. unfold GET. eapply agree_load; [eassumption|].
  change (Z.of_nat 4) with 4. lia.
Qed.

#[local] Transparent PARENT LEFT RIGHT COLOR key.

Lemma agree_fields : forall st st' lo hi x,
  agree st st' lo hi -> x + 25 <= lo \/ hi <= x ->
  PARENT st' x = PARENT st x /\ LEFT st' x = LEFT st x /\
  RIGHT st' x = RIGHT st x /\ COLOR st' x = COLOR st x.
Proof.
  intros st st' lo hi x H Hx. unfold PARENT, LEFT, RIGHT, COLOR, DSIZE.
  repeat split; (eapply agree_load; [eassumption|]);
    [change (Z.of_nat 8) with 8|change (Z.of_nat 8) with 8
    |change (Z.of_nat 8) with 8|change (Z.of_nat 1) with 1]; lia.
Qed.

Lemma agree_key : forall st st' lo hi x,
  agree st st' lo hi -> x <= lo \/ hi <= x - 4 -> key st' x = key st x.
Proof.
  intros st st' lo hi x H Hx. unfold key, GET_SIZE, HDRP, WSIZE.
  f_equal. eapply agree_GET; eauto. lia.
Qed.

Lemma wr_GET : forall st st' ws a,
  wr st st' ws -> Forall (fun w => a + 4 <= w \/ w + 25 <= a) ws ->
  GET st' a = GET st a.
Proof. intros. unfold GET. eapply wr_load; eauto. Qed.

#[local] Opaque PARENT LEFT RIGHT COLOR key.

Lemma agree_NIL : forall st st' lo hi, agree st st' lo hi -> NIL st' = NIL st.
Proof. unfold agree. tauto. Qed.

Lemma rep_agree : forall st st' lo hi t par,
  agree st st' lo hi ->
  (forall x, In x (nodes t) -> x + 25 <= lo \/ hi <= x) ->
  rep st par t -> rep st' par t.
Proof.
  intros st st' lo hi t. induction t as [|c l IHl x r IHr]; intros par H Hn Hr;
    simpl in *; auto.
  destruct Hr as (H1 & H2 & H3 & H4 & H5 & H6).
  destruct (agree_fields st st' lo hi x H) as (E1 & E2 & E3 & E4).
  { apply Hn. apply in_or_app. right. now left. }
  rewrite E1, E2, E3, E4, (agree_NIL _ _ _ _ H).
  repeat split; auto.
  - apply IHl; auto. intros y Hy. apply Hn. apply in_or_app. now left.
  - apply IHr; auto. intros y Hy. apply Hn. apply in_or_app. right. now right.
Qed.

(** The tree survives writes outside its nodes' fields. *)
Lemma tinv_agree : forall st st' lo hi T,
  agree st st' lo hi ->
  (forall x, In x (NIL st :: nodes T) -> x + 25 <= lo \/ hi <= x) ->
  tinv st T -> tinv st' T.
Proof.
  intros st st' lo hi T H Hn [[Hroot Hrep] Hs Ho [Ln [Rn Cn]]].
  pose proof H as (EN & ER & _).
  destruct (agree_fields st st' lo hi (NIL st) H) as (_ & E2 & E3 & E4).
  { apply Hn. now left. }
  constructor; rewrite ?EN; auto.
  - unfold wrep. rewrite ER, EN. split; [exact Hroot|].
    apply (rep_agree st st' lo hi T (NIL st) H);
      [intros x Hx; apply Hn; now right|exact Hrep].
  - unfold nil_ok. rewrite EN, E2, E3, E4. auto.
Qed.

Lemma bst_agree : forall st st' lo hi T,
  agree st st' lo hi ->
  (forall x, In x (nodes T) -> x <= lo \/ hi <= x - 4) ->
  bst st T -> bst st' T.
Proof.
  intros st st' lo hi T H Hn. apply bst_ext.
  intros x Hx. eapply agree_key; eauto.
Qed.

(* ================================================================== *)
(** ** Runs of blocks *)
(* ================================================================== *)

Lemma total_app : forall l1 l2, total (l1 ++ l2) = total l1 + total l2.
Proof. induction l1 as [|[sz a] l1 IH]; intros; simpl; [|rewrite IH]; lia. Qed.

Lemma seg_end : forall st bl b e, seg st b e bl -> e = b + total bl.
Proof.
  induction bl as [|[sz a] bl IH]; intros b e H; simpl in *; [lia|].
  destruct H as (_ & _ & _ & _ & _ & H). apply IH in H. lia.
Qed.

Lemma seg_total_nonneg : forall st bl b e, seg st b e bl -> 0 <= total bl.
Proof.
  induction bl as [|[sz a] bl IH]; intros b e H; simpl in *; [lia|].
  destruct H as (_ & _ & Hm & _ & _ & H). apply IH in H.
  unfold MINBLOCKSIZE, DSIZE in Hm. lia.
Qed.

Lemma seg_app : forall st l1 l2 b e,
  seg st b e (l1 ++ l2) <->
  seg st b (b + total l1) l1 /\ seg st (b + total l1) e l2.
Proof.
  induction l1 as [|[sz a] l1 IH]; intros l2 b e; simpl.
  - rewrite Z.add_0_r. tauto.
  - rewrite IH. replace (b + sz + total l1) with (b + (sz + total l1)) by lia.
    tauto.
Qed.

Lemma frees_app : forall l1 l2 b,
  frees b (l1 ++ l2) = frees b l1 ++ frees (b + total l1) l2.
Proof.
  induction l1 as [|[sz a] l1 IH]; intros l2 b; simpl.
  - now rewrite Z.add_0_r.
  - rewrite IH. replace (b + sz + total l1) with (b + (sz + total l1)) by lia.
    destruct (a =? 0); reflexivity.
Qed.

Lemma blocks_at_app : forall l1 l2 b,
  blocks_at b (l1 ++ l2) = blocks_at b l1 ++ blocks_at (b + total l1) l2.
Proof.
  induction l1 as [|[sz a] l1 IH]; intros l2 b; simpl.
  - now rewrite Z.add_0_r.
  - rewrite IH. replace (b + sz + total l1) with (b + (sz + total l1)) by lia.
    reflexivity.
Qed.

Lemma allocs_app : forall l1 l2 b,
  allocs b (l1 ++ l2) = allocs b l1 ++ allocs (b + total l1) l2.
Proof.
  induction l1 as [|[sz a] l1 IH]; intros l2 b; simpl.
  - now rewrite Z.add_0_r.
  - rewrite IH. replace (b + sz + total l1) with (b + (sz + total l1)) by lia.
    destruct (a =? 0); reflexivity.
Qed.

(** A free block lies inside its run, a whole block before the end. *)
Lemma frees_range : forall st bl b e x,
  seg st b e bl -> In x (frees b bl) -> b <= x /\ x + MINBLOCKSIZE <= e.
Proof.
  induction bl as [|[sz a] bl IH]; intros b e x H Hx; simpl in *; [tauto|].
  destruct H as (_ & _ & Hm & _ & _ & H).
  pose proof (seg_end _ _ _ _ H) as He.
  pose proof (seg_total_nonneg _ _ _ _ H) as Ht.
  assert (In x (frees (b + sz) bl) -> b <= x /\ x + MINBLOCKSIZE <= e).
  { intros Hx'. specialize (IH _ _ _ H Hx'). unfold MINBLOCKSIZE, DSIZE in *. lia. }
  destruct (a =? 0); [destruct Hx as [<-|Hx]|]; auto.
  unfold MINBLOCKSIZE, DSIZE in *. lia.
Qed.

(** Where a free block sits in its run. *)
Lemma frees_split : forall st bl b e x,
  seg st b e bl -> In x (frees b bl) ->
  exists l1 sz l2, bl = l1 ++ (sz, 0) :: l2 /\ x = b + total l1.
Proof.
  induction bl as [|[sz a] bl IH]; intros b e x H Hx; simpl in *; [tauto|].
  destruct H as (_ & _ & Hm & _ & _ & H).
  destruct (a =? 0) eqn:E.
  - apply Z.eqb_eq in E. subst a. destruct Hx as [<-|Hx].
    + exists [], sz, bl. simpl. split; [reflexivity|lia].
    + destruct (IH _ _ _ H Hx) as (l1 & s & l2 & -> & ->).
      exists ((sz, 0) :: l1), s, l2. simpl. split; [reflexivity|lia].
  - destruct (IH _ _ _ H Hx) as (l1 & s & l2 & -> & ->).
    exists ((sz, a) :: l1), s, l2. simpl. split; [reflexivity|lia].
Qed.

Lemma allocs_split : forall st bl b e p s,
  seg st b e bl -> In (p, s) (allocs b bl) ->
  exists l1 l2, bl = l1 ++ (s, 1) :: l2 /\ p = b + total l1.
Proof.
  induction bl as [|[sz a] bl IH]; intros b e p s H Hx; simpl in *; [tauto|].
  destruct H as (_ & _ & Hm & _ & Ha & H).
  destruct (a =? 0) eqn:E.
  - destruct (IH _ _ _ _ H Hx) as (l1 & l2 & -> & ->).
    exists ((sz, a) :: l1), l2. simpl. split; [reflexivity|lia].
  - destruct Ha as [->| ->]; [discriminate|].
    destruct Hx as [Hx|Hx].
    + injection Hx as <- <-. exists [], bl. simpl. split; [reflexivity|lia].
    + destruct (IH _ _ _ _ H Hx) as (l1 & l2 & -> & ->).
      exists ((sz, 1) :: l1), l2. simpl. split; [reflexivity|lia].
Qed.

(** A run of blocks survives writes outside its headers and footers. *)
Lemma seg_agree : forall st st' lo hi bl b e,
  agree st st' lo hi -> e - 4 <= lo \/ hi <= b - 4 ->
  seg st b e bl -> seg st' b e bl.
Proof.
  intros st st' lo hi. induction bl as [|[sz a] bl IH]; intros b e H Hr Hs;
    simpl in *; auto.
  destruct Hs as (H1 & H2 & Hm & H4 & H5 & H6).
  pose proof (seg_end _ _ _ _ H6) as He.
  pose proof (seg_total_nonneg _ _ _ _ H6) as Ht.
  unfold MINBLOCKSIZE, DSIZE, HDRP, WSIZE in *.
  rewrite !(agree_GET st st' lo hi) by (assumption || lia).
  repeat split; auto. apply IH; auto. lia.
Qed.

(** A run of blocks survives writes to the node fields of its free
    blocks and to nodes outside of it. *)
Lemma seg_wr : forall st st' ws bl b e,
  wr st st' ws ->
  (forall x, In x ws -> x + 29 <= b \/ e <= x + 4 \/ In x (frees b bl)) ->
  seg st b e bl -> seg st' b e bl.
Proof.
  intros st st' ws. induction bl as [|[sz a] bl IH]; intros b e H Hw Hs;
    simpl in *; auto.
  destruct Hs as (H1 & H2 & Hm & H4 & H5 & H6).
  pose proof (seg_end _ _ _ _ H6) as He.
  pose proof (seg_total_nonneg _ _ _ _ H6) as Ht.
  assert (Hq : forall x, In x ws ->
            x + 29 <= b \/ b + sz <= x + 4 \/ x = b).
  { intros x Hx. destruct (Hw x Hx) as [K|[K|K]]; [lia|lia|].
    destruct (a =? 0).
    - destruct K as [<-|K]; [right; right; reflexivity|].
      destruct (frees_range _ _ _ _ _ H6 K). lia.
    - destruct (frees_range _ _ _ _ _ H6 K). lia. }
  unfold MINBLOCKSIZE, DSIZE, HDRP, WSIZE in *.
  rewrite !(wr_GET st st' ws) by
    (try assumption; apply Forall_forall; intros x Hx;
     destruct (Hq x Hx) as [K|[K|K]]; lia).
  repeat split; auto. apply IH; auto.
  intros x Hx. destruct (Hw x Hx) as [K1|[K1|K1]]; [lia|lia|].
  destruct (a =? 0); [destruct K1 as [<-|K1]; [lia|auto]|auto].
Qed.

(* ================================================================== *)
(** ** Free blocks as tree nodes *)
(* ================================================================== *)

Lemma height_le_nodes : forall t, (height t <= length (nodes t))%nat.
Proof.
  induction t as [|c l IHl x r IHr]; simpl; [lia|].
  rewrite length_app. simpl. lia.
Qed.

(** A node of the tree is the root of a subtree in some context. *)
Lemma nodes_focus : forall t x,
  In x (nodes t) -> exists C c l r, t = plug C (Node c l x r).
Proof.
  assert (G : forall t C x, In x (nodes t) ->
            exists C' c l r, plug C t = plug C' (Node c l x r)).
  { induction t as [|c l IHl y r IHr]; intros C x Hx; simpl in Hx; [tauto|].
    apply in_app_or in Hx. destruct Hx as [Hx|[->|Hx]].
    - destruct (IHl (CL c y C r) x Hx) as (C' & c' & l' & r' & E).
      exists C', c', l', r'. exact E.
    - exists C, c, l, r. reflexivity.
    - destruct (IHr (CR c l y C) x Hx) as (C' & c' & l' & r' & E).
      exists C', c', l', r'. exact E. }
  intros t x Hx. apply (G t Top x Hx).
Qed.

(** The free blocks of a run are far from one another. *)
Lemma frees_sepl : forall st bl b e, seg st b e bl -> sepl (frees b bl).
Proof.
  induction bl as [|[sz a] bl IH]; intros b e H; simpl in *; auto.
  destruct H as (_ & _ & Hm & _ & _ & H).
  destruct (a =? 0); [|eauto].
  simpl. split; [|eauto].
  apply Forall_forall. intros y Hy.
  destruct (frees_range _ _ _ _ _ H Hy).
  unfold far, MINBLOCKSIZE, DSIZE in *. lia.
Qed.

Section Geometry.

Variables (st : state) (bl : list (Z * Z)) (T : tree) (xs : list Z).
Hypothesis Hinv : hinv_x st bl T xs.

Lemma hx_range : forall x, In x (frees (first_bp st) bl) ->
  first_bp st <= x /\ x + MINBLOCKSIZE <= mem_brk st.
Proof. intros. eapply frees_range; eauto. apply Hinv. Qed.

Lemma hx_in_frees : forall x, In x (xs ++ nodes T) ->
  In x (frees (first_bp st) bl).
Proof. intros x Hx. eapply Permutation_in; [apply Hinv|exact Hx]. Qed.

Lemma hx_node_in_frees : forall x, In x (nodes T) ->
  In x (frees (first_bp st) bl).
Proof. intros. apply hx_in_frees. apply in_or_app. now right. Qed.

Lemma hx_nil_out : forall x, In x (frees (first_bp st) bl) ->
  NIL st + 32 <= x - 16 \/ x + 44 <= NIL st.
Proof.
  intros x Hx. destruct (hx_range x Hx) as [H1 H2].
  destruct Hinv as [_ _ _ (R1 & R2 & R3 & R4) Hn _ _ _ _].
  unfold first_bp, MINBLOCKSIZE, DSIZE in *. lia.
Qed.

Lemma hx_okptr : forall x, In x (frees (first_bp st) bl) -> okptr x.
Proof.
  intros x Hx. destruct (hx_range x Hx) as [H1 H2].
  destruct Hinv as [_ _ _ (R1 & R2 & R3 & R4) Hn _ _ _ _].
  unfold okptr, first_bp, MINBLOCKSIZE, DSIZE in *. lia.
Qed.

Lemma hx_sepl : sepl (xs ++ nodes T).
Proof.
  eapply sepl_perm; [symmetry; apply Hinv|].
  eapply frees_sepl. apply Hinv.
Qed.

(** A free block outside the tree is far from the sentinel and from the
    tree's nodes. *)
Lemma hx_fresh : forall x xs',
  Permutation xs (x :: xs') -> Forall (far x) (NIL st :: nodes T) /\ okptr x.
Proof.
  intros x xs' Hp.
  assert (Hx : In x (frees (first_bp st) bl)).
  { apply hx_in_frees. apply in_or_app. left.
    eapply Permutation_in; [symmetry; exact Hp|]. now left. }
  split; [|apply hx_okptr; exact Hx].
  constructor.
  - destruct (hx_nil_out x Hx); unfold far; lia.
  - pose proof hx_sepl as Hs.
    apply (sepl_perm _ (x :: xs' ++ nodes T)) in Hs;
      [|apply (Permutation_app_tail (nodes T) Hp)].
    simpl in Hs. destruct Hs as [Hs _]. apply Forall_app in Hs. tauto.
Qed.

(** Keys of tree nodes, seen through writes of node fields. *)
Lemma hx_keys_wr : forall st' ws y,
  wr st st' ws -> (forall w, In w ws -> w = NIL st \/ In w (frees (first_bp st) bl)) ->
  In y (frees (first_bp st) bl) -> key st' y = key st y.
Proof.
  intros st' ws y W Hw Hy. apply (wr_key st st' ws); [exact W|].
  apply Forall_forall. intros w Hin.
  destruct (Z.eq_dec w y) as [->|Hne]; [now left|right].
  destruct (Hw w Hin) as [->|Hf].
  - destruct (hx_nil_out y Hy); unfold far; lia.
  - apply (sepl_in_far (frees (first_bp st) bl)); auto.
    eapply frees_sepl. apply Hinv.
Qed.

(** The layout, seen through writes of node fields of free blocks and of
    the sentinel. *)
Lemma hinv_wr : forall st' ws T' xs',
  wr st st' ws ->
  (forall w, In w ws -> w = NIL st \/ In w (frees (first_bp st) bl)) ->
  tinv st' T' -> rbtree T' -> bst st' T' ->
  Permutation (xs' ++ nodes T') (frees (first_bp st) bl) ->
  hinv_x st' bl T' xs'.
Proof.
  intros st' ws T' xs' W Hw Ht Hrb Hb Hp.
  pose proof W as (EN & EB & EM & EH & _).
  pose proof Hinv as [Hs [Hp1 Hp2] He (R1 & R2 & R3 & R4) Hn _ _ _ _].
  assert (Hout : forall w, In w ws ->
            (w + 32 <= heap_listp st - DSIZE \/ mem_max_addr st <= w) \/
            (first_bp st <= w /\ w + MINBLOCKSIZE <= mem_brk st)).
  { intros w Hin. destruct (Hw w Hin) as [->|Hf]; [left; exact Hn|right].
    apply hx_range. exact Hf. }
  pose proof (seg_end _ _ _ _ Hs) as Hend.
  pose proof (seg_total_nonneg _ _ _ _ Hs) as Htot.
  unfold first_bp, MINBLOCKSIZE, WSIZE, DSIZE in *.
  constructor; unfold first_bp, DSIZE, WSIZE; rewrite ?EN, ?EB, ?EM, ?EH; auto.
  - apply (seg_wr st st' ws); auto.
    intros w Hin. destruct (Hw w Hin) as [->|Hf]; [|auto].
    destruct Hn; [left|right; left]; lia.
  - split; (rewrite (wr_GET st st' ws _ W); [assumption|]);
      apply Forall_forall; intros w Hin; destruct (Hout w Hin); lia.
  - rewrite (wr_GET st st' ws _ W); [assumption|].
    apply Forall_forall; intros w Hin; destruct (Hout w Hin); lia.
Qed.

End Geometry.

(* ================================================================== *)
(** ** Reading the blocks of a laid-out heap *)
(* ================================================================== *)

Lemma u32_small : forall x, 0 <= x < 2 ^ 32 -> u32 x = x.
Proof. intros. unfold u32. apply Z.mod_small. assumption. Qed.

Lemma GET_SIZE_PUT_eq : forall st a p sz al,
  a = p -> 0 <= sz < 2 ^ 32 -> sz mod 8 = 0 -> al = 0 \/ al = 1 ->
  GET_SIZE (PUT a (PACK sz al) st) p = sz.
Proof.
  intros st a p sz al <- Hr Hm Ha.
  apply (GET_SIZE_word _ _ sz al); auto.
  apply GET_PUT_same. apply PACK_range.
Qed.

Lemma GET_ALLOC_PUT_eq : forall st a p sz al,
  a = p -> 0 <= sz < 2 ^ 32 -> sz mod 8 = 0 -> al = 0 \/ al = 1 ->
  GET_ALLOC (PUT a (PACK sz al) st) p = al.
Proof.
  intros st a p sz al <- Hr Hm Ha.
  apply (GET_SIZE_word _ _ sz al); auto.
  apply GET_PUT_same. apply PACK_range.
Qed.

Lemma GET_SIZE_PUT_other : forall st a v p,
  a + 4 <= p \/ p + 4 <= a -> GET_SIZE (PUT a v st) p = GET_SIZE st p.
Proof. intros. unfold GET_SIZE. now rewrite GET_PUT_other. Qed.

Lemma GET_ALLOC_PUT_other : forall st a v p,
  a + 4 <= p \/ p + 4 <= a -> GET_ALLOC (PUT a v st) p = GET_ALLOC st p.
Proof. intros. unfold GET_ALLOC. now rewrite GET_PUT_other. Qed.

Lemma GET_PUT_eq : forall st a p v,
  a = p -> 0 <= v < 2 ^ 32 -> GET (PUT a v st) p = v.
Proof. intros st a p v <- H. now apply GET_PUT_same. Qed.

Lemma last_case : forall (l : list (Z * Z)),
  l = [] \/ exists l' x, l = l' ++ [x].
Proof.
  induction l as [|x l IH] using rev_ind; [now left|right].
  exists l, x. reflexivity.
Qed.

Section Blocks.

Variables (st : state) (l1 l2 : list (Z * Z)) (sz a : Z) (T : tree) (xs : list Z).
Hypothesis Hinv : hinv_x st (l1 ++ (sz, a) :: l2) T xs.

Let bp := first_bp st + total l1.

(** The block at [bp]: its words, its size, its place. *)
Lemma hx_block :
  GET st (bp - 4) = PACK sz a /\ GET st (bp + sz - 8) = PACK sz a /\
  48 <= sz < 2 ^ 32 /\ sz mod 8 = 0 /\ (a = 0 \/ a = 1) /\
  0 <= total l1 /\ 0 <= total l2 /\ mem_brk st = bp + sz + total l2 /\
  seg st (first_bp st) bp l1 /\ seg st (bp + sz) (mem_brk st) l2.
Proof.
  pose proof Hinv as [Hs _ _ (R1 & R2 & R3 & R4) _ _ _ _ _].
  apply seg_app in Hs. fold bp in Hs. destruct Hs as [S1 S2].
  pose proof (seg_total_nonneg _ _ _ _ S1) as T1.
  simpl in S2. destruct S2 as (H1 & H2 & Hm & H4 & H5 & S3).
  pose proof (seg_total_nonneg _ _ _ _ S3) as T3.
  pose proof (seg_end _ _ _ _ S3) as E3.
  unfold bp in *. unfold first_bp, MINBLOCKSIZE, HDRP, WSIZE, DSIZE in *.
  repeat split; auto; lia.
Qed.

Lemma hx_block_size :
  GET_SIZE st (bp - 4) = sz /\ GET_ALLOC st (bp - 4) = a /\
  GET_SIZE st (bp + sz - 8) = sz /\ GET_ALLOC st (bp + sz - 8) = a.
Proof.
  destruct hx_block as (H1 & H2 & H3 & H4 & H5 & _).
  destruct (GET_SIZE_word _ _ _ _ H1 ltac:(lia) H4 H5) as [A B].
  destruct (GET_SIZE_word _ _ _ _ H2 ltac:(lia) H4 H5) as [C D].
  auto.
Qed.

(** The word before the block's header: the footer of the block before
    it, or of the prologue. *)
Lemma hx_prev :
  exists psz pa,
    GET st (bp - 8) = PACK psz pa /\ GET st (bp - psz - 4) = PACK psz pa /\
    8 <= psz < 2 ^ 32 /\ psz mod 8 = 0 /\ (pa = 0 \/ pa = 1) /\
    (pa = 0 -> exists l1', l1 = l1' ++ [(psz, 0)]).
Proof.
  pose proof Hinv as [Hs [Hp1 Hp2] _ (R1 & R2 & R3 & R4) _ _ _ _ _].
  destruct hx_block as (_ & _ & Hsz & _ & _ & T1 & T3 & E3 & S1 & _).
  destruct (last_case l1) as [E|(l1' & [psz pa] & E)].
  - exists 8, 1. unfold bp in *. rewrite E. simpl.
    unfold first_bp, DSIZE, WSIZE in *.
    replace (heap_listp st + 8 + 0 - 8) with (heap_listp st) by lia.
    replace (heap_listp st + 8 + 0 - 8 - 4) with (heap_listp st - 4) by lia.
    repeat split; auto; try lia; discriminate.
  - rewrite E in S1. apply seg_app in S1. destruct S1 as [S0 S1].
    simpl in S1. destruct S1 as (H1 & H2 & Hm & H4 & H5 & S1).
    pose proof (seg_total_nonneg _ _ _ _ S0) as T0.
    assert (Et : total l1 = total l1' + psz)
      by (rewrite E, total_app; simpl; lia).
    assert (Eb : bp = first_bp st + total l1' + psz) by (unfold bp; lia).
    exists psz, pa.
    rewrite Eb. clear Eb. unfold bp in *.
    unfold first_bp, MINBLOCKSIZE, HDRP, WSIZE, DSIZE in *.
    replace (heap_listp st + 8 + total l1' + psz - psz - 4)
      with (heap_listp st + 8 + total l1' - 4) by lia.
    repeat split; auto; try lia.
    intros ->. exists l1'. exact E.
Qed.

(** The word after the block's footer: the header of the block after it,
    or of the epilogue. *)
Lemma hx_next :
  exists nsz na,
    GET st (bp + sz - 4) = PACK nsz na /\
    0 <= nsz < 2 ^ 32 /\ nsz mod 8 = 0 /\ (na = 0 \/ na = 1) /\
    (na = 0 -> exists l2', l2 = (nsz, 0) :: l2').
Proof.
  pose proof Hinv as [Hs _ He (R1 & R2 & R3 & R4) _ _ _ _ _].
  destruct hx_block as (_ & _ & Hsz & _ & _ & T1 & T3 & E3 & _ & S3).
  destruct l2 as [|[nsz na] l2'].
  - exists 0, 1. simpl in S3. unfold WSIZE in *. rewrite S3.
    repeat split; auto; try lia; discriminate.
  - simpl in S3. destruct S3 as (H1 & H2 & Hm & H4 & H5 & S3).
    pose proof (seg_total_nonneg _ _ _ _ S3) as T4. simpl in T3, E3.
    exists nsz, na.
    unfold bp in *. unfold first_bp, MINBLOCKSIZE, HDRP, WSIZE, DSIZE in *.
    replace (heap_listp st + 8 + total l1 + sz - 4)
      with (heap_listp st + 8 + total l1 + sz - 4) by lia.
    repeat split; auto; try lia.
    intros ->. exists l2'. reflexivity.
Qed.

End Blocks.

Lemma mod8_sub : forall x y, x mod 8 = 0 -> y mod 8 = 0 -> (x - y) mod 8 = 0.
Proof.
  intros x y Hx Hy. destruct (mult8 x Hx) as [k ->]. destruct (mult8 y Hy) as [j ->].
  replace (8 * k - 8 * j) with ((k - j) * 8) by lia. apply Z.mod_mul. lia.
Qed.

Lemma mod8_add : forall x y, x mod 8 = 0 -> y mod 8 = 0 -> (x + y) mod 8 = 0.
Proof.
  intros x y Hx Hy. destruct (mult8 x Hx) as [k ->]. destruct (mult8 y Hy) as [j ->].
  replace (8 * k + 8 * j) with ((k + j) * 8) by lia. apply Z.mod_mul. lia.
Qed.

(** Side conditions of the reads below. *)
Ltac hside :=
  solve [ assumption | lia | left; reflexivity | right; reflexivity
        | apply mod8_sub; assumption | apply mod8_add; assumption
        | apply PACK_range ].

(** One read of a header word pushed through one header write. *)
Ltac hstep :=
  match goal with
  | |- context [GET_SIZE (PUT ?a (PACK ?s ?al) ?st) ?p] =>
      first [ rewrite (GET_SIZE_PUT_eq st a p s al) by hside
            | rewrite (GET_SIZE_PUT_other st a (PACK s al) p) by hside ]
  | |- context [GET_ALLOC (PUT ?a (PACK ?s ?al) ?st) ?p] =>
      first [ rewrite (GET_ALLOC_PUT_eq st a p s al) by hside
            | rewrite (GET_ALLOC_PUT_other st a (PACK s al) p) by hside ]
  | |- context [GET (PUT ?a ?v ?st) ?p] =>
      first [ rewrite (GET_PUT_eq st a p v) by hside
            | rewrite (GET_PUT_other st a v p) by hside ]
  end.

Ltac hsimp := repeat hstep.

(** Reads of header words of an unmodified state, by the facts at hand. *)
Ltac rd1 :=
  match goal with
  | H : GET_SIZE ?s ?q = ?v |- context [GET_SIZE ?s ?p] =>
      is_var s;
      replace (GET_SIZE s p) with v by (rewrite <- H; f_equal; lia)
  | H : GET_ALLOC ?s ?q = ?v |- context [GET_ALLOC ?s ?p] =>
      is_var s;
      replace (GET_ALLOC s p) with v by (rewrite <- H; f_equal; lia)
  end.

Ltac rd := repeat rd1.

Section Reads.

Variables (st : state) (l1 l2 : list (Z * Z)) (sz a : Z) (T : tree) (xs : list Z).
Hypothesis Hinv : hinv_x st (l1 ++ (sz, a) :: l2) T xs.

Let bp := first_bp st + total l1.

(** What the macros read around the block at [bp]. *)
Lemma hx_reads :
  exists psz pa nsz na,
    GET_SIZE st (bp - 4) = sz /\ GET_ALLOC st (bp - 4) = a /\
    GET_SIZE st (bp + sz - 8) = sz /\ GET_ALLOC st (bp + sz - 8) = a /\
    GET_SIZE st (bp - 8) = psz /\ GET_ALLOC st (bp - 8) = pa /\
    GET_SIZE st (bp - psz - 4) = psz /\
    GET_SIZE st (bp + sz - 4) = nsz /\ GET_ALLOC st (bp + sz - 4) = na /\
    8 <= psz /\ (pa = 0 \/ pa = 1) /\ (na = 0 \/ na = 1) /\
    (pa = 0 -> exists l1', l1 = l1' ++ [(psz, 0)]) /\
    (na = 0 -> exists l2', l2 = (nsz, 0) :: l2').
Proof.
  destruct (hx_block_size st l1 l2 sz a T xs Hinv) as (B1 & B2 & B3 & B4).
  destruct (hx_prev st l1 l2 sz a T xs Hinv) as (psz & pa & P1 & P2 & P3 & P4 & P5 & P6).
  destruct (hx_next st l1 l2 sz a T xs Hinv) as (nsz & na & N1 & N2 & N3 & N4 & N5).
  destruct (GET_SIZE_word _ _ _ _ P1 ltac:(lia) P4 P5) as [Q1 Q2].
  destruct (GET_SIZE_word _ _ _ _ P2 ltac:(lia) P4 P5) as [Q3 Q4].
  destruct (GET_SIZE_word _ _ _ _ N1 N2 N3 N4) as [Q5 Q6].
  exists psz, pa, nsz, na. fold bp in B1, B2, B3, B4, Q1, Q2, Q3, Q4, Q5, Q6.
  repeat split; auto; lia.
Qed.

End Reads.

(* ================================================================== *)
(** ** Payloads that stay the same *)
(* ================================================================== *)

Lemma keeps_refl : forall st A, keeps st st A.
Proof. unfold keeps. auto. Qed.

Lemma keeps_trans : forall st s1 s2 A,
  keeps st s1 A -> keeps s1 s2 A -> keeps st s2 A.
Proof.
  unfold keeps. intros st s1 s2 A H1 H2 q s a Hin Ha.
  rewrite (H2 q s a Hin Ha). apply (H1 q s a Hin Ha).
Qed.

Lemma keeps_incl : forall st st' A A',
  incl A' A -> keeps st st' A -> keeps st st' A'.
Proof. unfold keeps. intros st st' A A' Hi H q s a Hin Ha. eauto. Qed.

(** An allocated block lies inside its run. *)
Lemma allocs_range : forall st bl b e q s,
  seg st b e bl -> In (q, s) (allocs b bl) ->
  b <= q /\ q + s <= e /\ MINBLOCKSIZE <= s.
Proof.
  induction bl as [|[sz a] bl IH]; intros b e q s H Hx; simpl in *; [tauto|].
  destruct H as (_ & _ & Hm & _ & _ & H).
  pose proof (seg_end _ _ _ _ H) as He.
  pose proof (seg_total_nonneg _ _ _ _ H) as Ht.
  assert (K : In (q, s) (allocs (b + sz) bl) ->
              b <= q /\ q + s <= e /\ MINBLOCKSIZE <= s).
  { intros Hx'. specialize (IH _ _ _ _ H Hx'). unfold MINBLOCKSIZE, DSIZE in *. lia. }
  destruct (a =? 0); [auto|]. destruct Hx as [Hx|Hx]; [|auto].
  injection Hx as <- <-. unfold MINBLOCKSIZE, DSIZE in *. lia.
Qed.

(** An allocated block and a free block of one run do not overlap. *)
Lemma seg_disjoint : forall st bl b e q s x,
  seg st b e bl -> In (q, s) (allocs b bl) -> In x (frees b bl) ->
  q + s <= x \/ x + MINBLOCKSIZE <= q.
Proof.
  induction bl as [|[sz a] bl IH]; intros b e q s x H Hq Hx; simpl in *; [tauto|].
  destruct H as (_ & _ & Hm & _ & _ & H).
  destruct (a =? 0).
  - destruct Hx as [<-|Hx]; [|eauto].
    destruct (allocs_range _ _ _ _ _ _ H Hq). right. lia.
  - destruct Hq as [Hq|Hq]; [|eauto].
    injection Hq as <- <-. destruct (frees_range _ _ _ _ _ H Hx). left. lia.
Qed.

(** Writes outside the payloads keep the payloads. *)
Lemma keeps_agree : forall st st' lo hi A,
  agree st st' lo hi ->
  (forall q s, In (q, s) A -> q + s - 8 <= lo \/ hi <= q) ->
  keeps st st' A.
Proof.
  intros st st' lo hi A (_ & _ & _ & Hb) Hr q s a Hin Ha.
  unfold DSIZE in Ha. apply Hb. specialize (Hr q s Hin). lia.
Qed.

(** Writes to a run of blocks keep the payloads of the blocks around. *)
Lemma keeps_mid : forall st st' l1 mid l2 e,
  seg st (first_bp st) e (l1 ++ mid ++ l2) ->
  agree st st' (first_bp st + total l1 - 4)
               (first_bp st + total l1 + total mid - 4) ->
  keeps st st' (allocs (first_bp st) l1 ++
                allocs (first_bp st + total l1 + total mid) l2).
Proof.
  intros st st' l1 mid l2 e Hs Ha.
  apply seg_app in Hs. destruct Hs as [S1 S2].
  apply seg_app in S2. destruct S2 as [S2 S3].
  apply (keeps_agree _ _ _ _ _ Ha).
  intros q s Hin. apply in_app_or in Hin. destruct Hin as [Hin|Hin].
  - destruct (allocs_range _ _ _ _ _ _ S1 Hin) as (_ & H & _). lia.
  - destruct (allocs_range _ _ _ _ _ _ S3 Hin) as (H & _). lia.
Qed.

(** Writes to the sentinel and to the nodes in free blocks keep the
    payloads of the allocated blocks. *)
Lemma hx_keeps : forall st bl T xs st' ws,
  hinv_x st bl T xs -> wr st st' ws ->
  incl ws (NIL st :: xs ++ nodes T) ->
  keeps st st' (allocs (first_bp st) bl).
Proof.
  intros st bl T xs st' ws Hinv (_ & _ & _ & _ & Hb) Hi q s a Hin Ha.
  pose proof Hinv as [Hs _ _ (R1 & R2 & R3 & R4) Hn _ _ _ Hf].
  destruct (allocs_range _ _ _ _ _ _ Hs Hin) as (Q1 & Q2 & Q3).
  unfold first_bp, MINBLOCKSIZE, DSIZE in *.
  apply Hb. apply Forall_forall. intros w Hw.
  destruct (Hi w Hw) as [<-|Hx]; [lia|].
  assert (Hx' : In w (frees (heap_listp st + 8) bl))
    by (eapply Permutation_in; [exact Hf|exact Hx]).
  destruct (seg_disjoint _ _ _ _ _ _ _ Hs Hin Hx') as [K|K];
    unfold MINBLOCKSIZE, DSIZE in K; lia.
Qed.

Lemma keeps_eq : forall st st' A A',
  keeps st st' A -> A' = A -> keeps st st' A'.
Proof. intros st st' A A' H ->. exact H. Qed.

Lemma others_incl : forall b l1 mid l2,
  incl (others b l1 (total mid) l2) (allocs b (l1 ++ mid ++ l2)).
Proof.
  intros b l1 mid l2 x Hx. unfold others in Hx.
  rewrite !allocs_app. apply in_app_or in Hx. apply in_or_app.
  destruct Hx as [Hx|Hx]; [now left|right].
  apply in_or_app. right. exact Hx.
Qed.

(** The two ways a step of an operation writes: to tree nodes, and to the
    boundary tags of the run it works on.  Both keep the payloads of the
    allocated blocks around the run. *)
Lemma keeps_wr_mid : forall st l1 mid l2 T xs st' ws,
  hinv_x st (l1 ++ mid ++ l2) T xs -> wr st st' ws ->
  incl ws (NIL st :: xs ++ nodes T) ->
  keeps st st' (others (first_bp st) l1 (total mid) l2).
Proof.
  intros st l1 mid l2 T xs st' ws Hinv W Hi.
  apply (keeps_incl _ _ _ _ (others_incl _ l1 mid l2)).
  apply (hx_keeps st _ T xs st' ws Hinv W Hi).
Qed.

Lemma keeps_agree_mid : forall st l1 mid l2 T xs st',
  hinv_x st (l1 ++ mid ++ l2) T xs ->
  agree st st' (first_bp st + total l1 - 4)
               (first_bp st + total l1 + total mid - 4) ->
  keeps st st' (others (first_bp st) l1 (total mid) l2).
Proof.
  intros st l1 mid l2 T xs st' Hinv A.
  apply (keeps_mid st st' l1 mid l2 _ (hi_seg _ _ _ _ Hinv) A).
Qed.

(** A header write outside the payloads keeps them. *)
Lemma keeps_PUT : forall st st' a v A,
  keeps st st' A ->
  (forall q s, In (q, s) A -> a + 4 <= q \/ q + s - 8 <= a) ->
  keeps st (PUT a v st') A.
Proof.
  intros st st' a v A K Hr q s x Hin Hx.
  rewrite <- (K q s x Hin Hx). unfold PUT. cbn [bytes set_bytes].
  apply store_out. change (Z.of_nat 4) with 4.
  specialize (Hr q s Hin). unfold DSIZE in Hx. lia.
Qed.

(** A smaller block at the same place has its payload inside. *)
Lemma keeps_shrink : forall st st' q s s',
  keeps st st' [(q, s)] -> s' <= s -> keeps st st' [(q, s')].
Proof.
  intros st st' q s s' K Hs q0 s0 a [Hin|[]] Ha. injection Hin as <- <-.
  apply (K q s a (or_introl eq_refl)). lia.
Qed.

Lemma keeps_app : forall st st' A B,
  keeps st st' A -> keeps st st' B -> keeps st st' (A ++ B).
Proof.
  intros st st' A B KA KB q s a Hin Ha. apply in_app_or in Hin.
  destruct Hin; eauto.
Qed.

(** Equalities between lists of allocated blocks, by computation and
    arithmetic on the addresses. *)
Ltac oth_tac :=
  unfold others;
  try match goal with H : ?l = _ ++ [_] |- _ => rewrite H end;
  rewrite <- ?app_assoc; rewrite ?allocs_app; cbn [allocs total app Z.eqb];
  repeat first
    [ reflexivity
    | apply (f_equal2 (@app _)); [reflexivity|]
    | apply (f_equal2 allocs); [lia|reflexivity] ].

(* ================================================================== *)
(** ** What stays the same *)
(* ================================================================== *)

Lemma env_refl : forall st, env_eq st st.
Proof. unfold env_eq. tauto. Qed.

Lemma env_trans : forall st s1 s2, env_eq st s1 -> env_eq s1 s2 -> env_eq st s2.
Proof. unfold env_eq. intuition congruence. Qed.

Lemma env_wr : forall st st' ws, wr st st' ws -> env_eq st st'.
Proof. unfold env_eq, wr. tauto. Qed.

Lemma env_PUT : forall st st' a v, env_eq st st' -> env_eq st (PUT a v st').
Proof. unfold env_eq, PUT. simpl. tauto. Qed.

Lemma env_first : forall st st', env_eq st st' -> first_bp st' = first_bp st.
Proof. unfold env_eq, first_bp. intros st st' (_ & -> & _). reflexivity. Qed.

Ltac env_tac :=
  repeat first [ assumption | apply env_refl
               | apply env_PUT
               | eapply env_wr; eassumption
               | eapply env_trans; [eassumption|] ].

(* ================================================================== *)
(** ** The free-block index on a laid-out heap *)
(* ================================================================== *)

(** [remove_free_block]: a free block in the tree leaves it; the layout
    stays. *)
Lemma remove_hl : forall st bl T xs x fuel,
  hinv_x st bl T xs -> In x (nodes T) ->
  (length (nodes T) <= fuel)%nat ->
  exists st' T',
    remove_free_block fuel x st = Some st' /\
    hinv_x st' bl T' (x :: xs) /\
    wr st st' (NIL st :: nodes T) /\
    length (nodes T) = S (length (nodes T')).
Proof.
  intros st bl T xs x fuel Hinv Hx Hf.
  destruct (nodes_focus T x Hx) as (C & c & l & r & ->).
  pose proof (hi_rb _ _ _ _ Hinv) as Hrb.
  destruct (rbt_remove_ok st C c l x r fuel (hi_tree _ _ _ _ Hinv)) as (st' & E & Ht & W).
  { pose proof (height_le_nodes (plug C (Node c l x r))). lia. }
  { intros yc C' t' F Hy.
    destruct (del_focus_shape _ _ _ _ _ _ _ _ Hrb F) as (_ & _ & H3 & _).
    destruct (H3 Hy) as (A & B & _). auto. }
  assert (Hw : forall w, In w (NIL st :: nodes (plug C (Node c l x r))) ->
            w = NIL st \/ In w (frees (first_bp st) bl)).
  { intros w [<-|Hin]; [now left|right].
    eapply hx_node_in_frees; eauto. }
  assert (En : nodes (plug C (Node c l x r)) = lctx C ++ (nodes l ++ x :: nodes r) ++ rctx C)
    by apply nodes_plug_lr.
  assert (Ed : nodes (del C c l x r) = lctx C ++ (nodes l ++ nodes r) ++ rctx C)
    by apply del_nodes.
  assert (Hp : Permutation (x :: nodes (del C c l x r)) (nodes (plug C (Node c l x r)))).
  { rewrite En, Ed. rewrite <- !app_assoc. simpl.
    rewrite (app_assoc (lctx C) (nodes l)).
    rewrite (app_assoc (lctx C) (nodes l) (x :: _)).
    apply Permutation_middle. }
  exists st', (del C c l x r).
  split; [exact E|]. split; [|split; [exact W|]].
  - apply (hinv_wr st bl _ xs Hinv st' _ _ _ W Hw Ht).
    + apply del_rbtree. exact Hrb.
    + apply (bst_ext st).
      * intros y Hy. apply (hx_keys_wr st bl _ xs Hinv st' _ y W Hw).
        eapply hx_node_in_frees; eauto.
        eapply Permutation_in; [exact Hp|]. now right.
      * apply del_bst. apply Hinv.
    + etransitivity; [|apply Hinv].
      etransitivity; [|apply (Permutation_app_head xs Hp)].
      simpl. apply Permutation_middle.
  - rewrite <- (Permutation_length Hp). reflexivity.
Qed.

(** [insert_free_block]: a free block outside the tree enters it; the
    layout stays. *)
Lemma insert_hl : forall st bl T xs x size fuel,
  hinv_x st bl T (x :: xs) ->
  (length (nodes T) <= fuel)%nat ->
  exists st' T',
    insert_free_block fuel x size st = Some st' /\
    hinv_x st' bl T' xs /\
    wr st st' (x :: nodes T) /\
    length (nodes T') = S (length (nodes T)).
Proof.
  intros st bl T xs x size fuel Hinv Hf.
  destruct (hx_fresh st bl T (x :: xs) Hinv x xs (Permutation_refl _)) as [Hfar Hok].
  pose proof (hi_rb _ _ _ _ Hinv) as (Hb & Hr & Hc).
  destruct (insert_free_block_ok st T x size fuel (hi_tree _ _ _ _ Hinv) Hc Hfar Hok)
    as (st' & E & Ht & W).
  { pose proof (height_le_nodes T). lia. }
  destruct (ins_nodes st x T) as [E1 E2]. cbv zeta in E1, E2.
  assert (Hp : Permutation (nodes (ins st x T)) (x :: nodes T)).
  { rewrite E1, E2. symmetry. apply Permutation_middle. }
  assert (Hw : forall w, In w (x :: nodes T) ->
            w = NIL st \/ In w (frees (first_bp st) bl)).
  { intros w Hin. right. apply (hx_in_frees st bl T (x :: xs) Hinv).
    destruct Hin as [<-|Hin]; [now left|]. apply in_or_app. now right. }
  exists st', (ins st x T).
  split; [exact E|]. split; [|split; [exact W|]].
  - apply (hinv_wr st bl _ _ Hinv st' _ _ _ W Hw Ht).
    + apply ins_rbtree. repeat split; assumption.
    + apply (bst_ext st).
      * intros y Hy. apply (hx_keys_wr st bl _ _ Hinv st' _ y W Hw).
        apply (hx_in_frees st bl T (x :: xs) Hinv).
        apply (Permutation_in _ Hp) in Hy.
        destruct Hy as [<-|Hy]; [now left|]. apply in_or_app. now right.
      * apply ins_bst. apply Hinv.
    + etransitivity; [|apply Hinv].
      rewrite Hp. symmetry. apply Permutation_middle.
  - rewrite (Permutation_length Hp). reflexivity.
Qed.

Lemma hinv_x_perm : forall st bl T xs xs',
  Permutation xs xs' -> hinv_x st bl T xs -> hinv_x st bl T xs'.
Proof.
  intros st bl T xs xs' Hp [H1 H2 H3 H4 H5 H6 H7 H8 H9].
  constructor; auto.
  etransitivity; [|exact H9]. apply Permutation_app_tail. now symmetry.
Qed.

(** Rewriting a run of blocks in place: when every free block of the run
    [mid] is outside the tree and only the bytes of the run change, so
    that they hold the blocks [mid'], the heap holds [mid'] for [mid]. *)
Lemma replace_mid : forall st st' l1 mid mid' l2 T ys,
  hinv_x st (l1 ++ mid ++ l2) T (frees (first_bp st + total l1) mid ++ ys) ->
  agree st st' (first_bp st + total l1 - 4)
               (first_bp st + total l1 + total mid - 4) ->
  mem_brk st' = mem_brk st -> mem_max_addr st' = mem_max_addr st ->
  seg st' (first_bp st + total l1) (first_bp st + total l1 + total mid) mid' ->
  hinv_x st' (l1 ++ mid' ++ l2) T (frees (first_bp st + total l1) mid' ++ ys).
Proof.
  intros st st' l1 mid mid' l2 T ys Hinv Ha EB EM Hs'.
  pose proof Hinv as [Hs [Hp1 Hp2] He (R1 & R2 & R3 & R4) Hn Ht Hrb Hb Hf].
  pose proof Ha as (EN & ER & EH & _).
  set (b := first_bp st + total l1) in *.
  set (e := b + total mid) in *.
  apply seg_app in Hs. destruct Hs as [S1 S2].
  apply seg_app in S2. destruct S2 as [S2 S3]. fold b in S1, S2, S3. fold e in S2, S3.
  pose proof (seg_end _ _ _ _ Hs') as Et.
  assert (Et' : total mid' = total mid) by (subst e; lia).
  pose proof (seg_total_nonneg _ _ _ _ S1) as T1.
  pose proof (seg_total_nonneg _ _ _ _ S2) as T2.
  pose proof (seg_total_nonneg _ _ _ _ S3) as T3.
  pose proof (seg_end _ _ _ _ S3) as E3.
  rewrite !frees_app in Hf. fold b in Hf. fold e in Hf.
  assert (Hf' : Permutation (ys ++ nodes T) (frees (first_bp st) l1 ++ frees e l2)).
  { apply (Permutation_app_inv_l (frees b mid)).
    rewrite <- app_assoc in Hf.
    etransitivity; [exact Hf|].
    rewrite (app_assoc (frees (first_bp st) l1)).
    rewrite (Permutation_app_comm (frees (first_bp st) l1) (frees b mid)).
    rewrite <- app_assoc. reflexivity. }
  assert (Hg : forall x, In x (nodes T) -> x + MINBLOCKSIZE <= b \/ e <= x).
  { intros x Hx.
    assert (Hin : In x (frees (first_bp st) l1 ++ frees e l2)).
    { eapply Permutation_in; [exact Hf'|]. apply in_or_app. now right. }
    apply in_app_or in Hin. destruct Hin as [Hin|Hin].
    - left. eapply frees_range; eauto.
    - right. eapply frees_range; eauto. }
  unfold first_bp, MINBLOCKSIZE, WSIZE, DSIZE in *.
  constructor; unfold first_bp, DSIZE, WSIZE; rewrite ?EN, ?EB, ?EM, ?EH; auto.
  - apply seg_app. split; [apply (seg_agree st st' _ _ _ _ _ Ha); [lia|exact S1]|].
    apply seg_app. fold b. rewrite Et'. fold e.
    split; [exact Hs'|].
    apply (seg_agree st st' _ _ _ _ _ Ha); [lia|exact S3].
  - split; (rewrite (agree_GET st st' _ _ _ Ha); [assumption|lia]).
  - rewrite (agree_GET st st' _ _ _ Ha); [assumption|lia].
  - apply (tinv_agree st st' _ _ _ Ha); [|exact Ht].
    intros x [<-|Hx]; [lia|]. specialize (Hg x Hx). lia.
  - apply (bst_agree st st' _ _ _ Ha); [|exact Hb].
    intros x Hx. specialize (Hg x Hx). lia.
  - rewrite !frees_app. fold b. rewrite Et'. fold e.
    rewrite <- app_assoc.
    etransitivity; [apply (Permutation_app_head _ Hf')|].
    rewrite !app_assoc.
    apply Permutation_app_tail. apply Permutation_app_comm.
Qed.

Lemma hinv_in_tree : forall st l1 sz l2 T,
  hinv st (l1 ++ (sz, 0) :: l2) T -> In (first_bp st + total l1) (nodes T).
Proof.
  intros st l1 sz l2 T H.
  eapply Permutation_in; [symmetry; apply (hi_free _ _ _ _ H)|].
  rewrite frees_app. apply in_or_app. right. simpl. now left.
Qed.

(** [place]: the free block at [bp] leaves the tree and becomes an
    allocated block of [asize] bytes followed by a free remainder, or is
    allocated whole when the remainder would be too small. *)
Lemma place_ok : forall st l1 csize l2 T asize fuel,
  hinv st (l1 ++ (csize, 0) :: l2) T ->
  48 <= asize <= csize -> asize mod 8 = 0 ->
  (length (nodes T) <= fuel)%nat ->
  exists st' T' mid',
    place fuel (first_bp st + total l1) asize st = Some st' /\
    hinv st' (l1 ++ mid' ++ l2) T' /\
    (mid' = [(csize, 1)] \/
     (mid' = [(asize, 1); (csize - asize, 0)] /\ 48 <= csize - asize)) /\
    (length (nodes T') <= length (nodes T))%nat /\ env_eq st st' /\
    keeps st st' (others (first_bp st) l1 csize l2).
Proof.
  intros st l1 csize l2 T asize fuel Hinv Ha Hm Hf.
  set (bp := first_bp st + total l1).
  destruct (hx_block st l1 l2 csize 0 T [] Hinv)
    as (_ & _ & Hsz & Hcm & _ & T1 & T2 & Eb & _ & _). fold bp in Eb.
  destruct (hx_block_size st l1 l2 csize 0 T [] Hinv) as (Hg & _). fold bp in Hg.
  destruct (remove_hl st _ T [] bp fuel Hinv (hinv_in_tree _ _ _ _ _ Hinv) Hf)
    as (st1 & T1' & E1 & H1 & W1 & L1).
  unfold place, HDRP, WSIZE. rewrite Hg, E1. cbn [obind].
  assert (Hrem : (csize - asize) mod 8 = 0) by (apply mod8_sub; assumption).
  rewrite (u32_small (csize - asize)) by lia.
  pose proof (wr_NIL _ _ _ W1) as N1.
  assert (EB1 : first_bp st1 = first_bp st /\ mem_brk st1 = mem_brk st).
  { destruct W1 as (_ & B & _ & Hh & _). unfold first_bp. rewrite Hh. auto. }
  destruct EB1 as [EF1 EB1].
  assert (K1 : keeps st st1 (others (first_bp st) l1 csize l2)).
  { apply (keeps_eq _ _ _ _
             (keeps_wr_mid st l1 [(csize, 0)] l2 T [] st1 _ Hinv W1 (incl_refl _))).
    oth_tac. }
  destruct (csize - asize >=? MINBLOCKSIZE) eqn:Ec.
  - (* split *)
    apply Z.geb_le in Ec. unfold MINBLOCKSIZE, DSIZE in Ec.
    cbv zeta. unfold FTRP, NEXT_BLKP, HDRP, WSIZE, DSIZE. hsimp.
    set (s5 := PUT _ _ _).
    assert (A5 : agree st1 s5 (bp - 4) (bp + csize - 4)).
    { subst s5. repeat (apply agree_PUT; [|lia|lia]). apply agree_refl. }
    assert (S5 : seg s5 bp (bp + csize) [(asize, 1); (csize - asize, 0)]).
    { subst s5. simpl. unfold HDRP, MINBLOCKSIZE, WSIZE, DSIZE. hsimp.
      repeat split; auto; lia. }
    pose proof (replace_mid st1 s5 l1 [(csize, 0)] [(asize, 1); (csize - asize, 0)]
                  l2 T1' []) as H5.
    rewrite EF1 in H5. fold bp in H5.
    cbn [frees total Z.eqb app] in H5.
    replace (bp + (csize + 0)) with (bp + csize) in H5 by lia.
    specialize (H5 H1 A5 eq_refl eq_refl S5).
    destruct (insert_hl s5 _ T1' [] (bp + asize) (csize - asize) fuel H5)
      as (st' & T' & E' & H' & W' & L'); [lia|].
    exists st', T', [(asize, 1); (csize - asize, 0)].
    split; [exact E'|]. split; [exact H'|]. split; [right; split; [reflexivity|lia]|].
    split; [lia|].
    split; [apply (env_trans _ st1); [eapply env_wr; eassumption|];
            apply (env_trans _ s5); [subst s5; env_tac|eapply env_wr; eassumption]|].
    apply (keeps_trans _ st1); [exact K1|]. apply (keeps_trans _ s5).
    + apply (keeps_eq _ _ _ _ (keeps_agree_mid st1 l1 [(csize, 0)] l2 T1' _ s5 H1
               ltac:(rewrite EF1; fold bp; simpl total;
                     replace (bp + (csize + 0) - 4) with (bp + csize - 4) by lia;
                     exact A5))).
      rewrite EF1. oth_tac.
    + apply (keeps_eq _ _ _ _
               (keeps_wr_mid s5 l1 [(asize, 1); (csize - asize, 0)] l2 T1' _ st' _
                  H5 W' (incl_tl _ (incl_refl _)))).
      change (first_bp s5) with (first_bp st1). rewrite EF1. oth_tac.
  - (* no split *)
    rewrite Z.geb_leb in Ec. apply Z.leb_gt in Ec. unfold MINBLOCKSIZE, DSIZE in Ec.
    cbv zeta. unfold FTRP, NEXT_BLKP, HDRP, WSIZE, DSIZE. hsimp.
    set (s3 := PUT _ _ _).
    assert (A3 : agree st1 s3 (bp - 4) (bp + csize - 4)).
    { subst s3. repeat (apply agree_PUT; [|lia|lia]). apply agree_refl. }
    assert (S3 : seg s3 bp (bp + csize) [(csize, 1)]).
    { subst s3. simpl. unfold HDRP, MINBLOCKSIZE, WSIZE, DSIZE. hsimp.
      repeat split; auto; lia. }
    exists s3, T1', [(csize, 1)].
    split; [reflexivity|].
    split; [|split; [now left|split; [lia|split]]];
      [|apply (env_trans _ st1); [eapply env_wr; eassumption|subst s3; env_tac]|].
    + pose proof (replace_mid st1 s3 l1 [(csize, 0)] [(csize, 1)] l2 T1' []) as H3.
      rewrite EF1 in H3. fold bp in H3.
      cbn [frees total Z.eqb app] in H3.
      replace (bp + (csize + 0)) with (bp + csize) in H3 by lia.
      exact (H3 H1 A3 eq_refl eq_refl S3).
    + apply (keeps_trans _ st1); [exact K1|].
      apply (keeps_eq _ _ _ _ (keeps_agree_mid st1 l1 [(csize, 0)] l2 T1' _ s3 H1
               ltac:(rewrite EF1; fold bp; simpl total;
                     replace (bp + (csize + 0) - 4) with (bp + csize - 4) by lia;
                     exact A3))).
      rewrite EF1. oth_tac.
Qed.

(** A free block that is not among the blocks outside the tree is in the
    tree. *)
Lemma hx_in_tree : forall st bl T xs x,
  hinv_x st bl T xs -> In x (frees (first_bp st) bl) -> ~ In x xs ->
  In x (nodes T).
Proof.
  intros st bl T xs x H Hx Hn.
  apply (Permutation_in _ (Permutation_sym (hi_free _ _ _ _ H))) in Hx.
  apply in_app_or in Hx. tauto.
Qed.

(** The end of every merging case: the merged run holds one free block,
    which enters the tree. *)
Lemma merge_finish : forall st1 s l1 mid l2 T1 csz fuel,
  hinv_x st1 (l1 ++ mid ++ l2) T1 (frees (first_bp st1 + total l1) mid) ->
  agree st1 s (first_bp st1 + total l1 - 4)
              (first_bp st1 + total l1 + total mid - 4) ->
  mem_brk s = mem_brk st1 -> mem_max_addr s = mem_max_addr st1 ->
  seg s (first_bp st1 + total l1) (first_bp st1 + total l1 + total mid)
        [(csz, 0)] ->
  (length (nodes T1) <= fuel)%nat ->
  exists st' T',
    insert_free_block fuel (first_bp st1 + total l1) csz s = Some st' /\
    hinv st' (l1 ++ (csz, 0) :: l2) T' /\
    length (nodes T') = S (length (nodes T1)) /\ env_eq s st' /\
    keeps st1 st' (others (first_bp st1) l1 (total mid) l2).
Proof.
  intros st1 s l1 mid l2 T1 csz fuel H1 A EB EM S Hf.
  pose proof (replace_mid st1 s l1 mid [(csz, 0)] l2 T1 []) as H.
  rewrite app_nil_r in H. specialize (H H1 A EB EM S).
  cbn [frees Z.eqb app] in H.
  destruct (insert_hl s _ T1 [] _ csz fuel H Hf) as (st' & T' & E' & H' & W' & L').
  exists st', T'. split; [exact E'|]. split; [exact H'|]. split; [exact L'|].
  split; [eapply env_wr; eassumption|].
  pose proof (seg_end _ _ _ _ S) as Et. simpl in Et.
  assert (EFs : first_bp s = first_bp st1).
  { destruct A as (_ & _ & Eh & _). unfold first_bp. now rewrite Eh. }
  apply (keeps_trans _ s).
  - apply (keeps_agree_mid st1 l1 mid l2 T1 _ s H1 A).
  - apply (keeps_eq _ _ _ _
             (keeps_wr_mid s l1 [(csz, 0)] l2 T1 _ st' _ H W' (incl_tl _ (incl_refl _)))).
    rewrite EFs. unfold others. simpl total.
    apply (f_equal2 (@app _)); [reflexivity|].
    apply (f_equal2 allocs); [lia|reflexivity].
Qed.

Lemma incl_nil_nodes : forall (n : Z) xs l, incl (n :: l) (n :: xs ++ l).
Proof.
  intros n xs l w [<-|Hw]; [now left|right; apply in_or_app; now right].
Qed.

(** The allocated blocks are the same before and after a merge. *)
Ltac alloc_tac :=
  try match goal with H : ?l = _ ++ [_] |- _ => rewrite H end;
  rewrite <- ?app_assoc; rewrite !allocs_app; simpl;
  apply (f_equal2 (@app _)); [reflexivity|];
  apply (f_equal2 allocs); [lia|reflexivity].

(** [coalesce]: the freed block is merged with its free neighbours, and the
    merged block enters the tree. *)
Lemma coalesce_ok : forall st l1 size l2 T fuel,
  hinv_x st (l1 ++ (size, 0) :: l2) T [first_bp st + total l1] ->
  (length (nodes T) <= fuel)%nat ->
  exists st' T' l1' csz l2',
    coalesce fuel (first_bp st + total l1) st =
      Some (first_bp st + total l1', st') /\
    hinv st' (l1' ++ (csz, 0) :: l2') T' /\ size <= csz /\
    (length (nodes T') <= S (length (nodes T)))%nat /\ env_eq st st' /\
    allocs (first_bp st) (l1' ++ (csz, 0) :: l2') =
    allocs (first_bp st) (l1 ++ (size, 0) :: l2) /\
    keeps st st' (allocs (first_bp st) (l1 ++ (size, 0) :: l2)).
Proof.
  intros st l1 size l2 T fuel Hinv Hf.
  set (bp := first_bp st + total l1) in *.
  destruct (hx_block st l1 l2 size 0 T _ Hinv)
    as (_ & _ & Hsz & Hcm & _ & T1 & T2 & Eb & S1 & S2). fold bp in Eb, S1, S2.
  destruct (hx_reads st l1 l2 size 0 T _ Hinv)
    as (psz & pa & nsz & na & R1 & R2 & R3 & R4 & R5 & R6 & R7 & R8 & R9 &
        Hp & Hpa & Hna & Lp & Ln).
  fold bp in R1, R2, R3, R4, R5, R6, R7, R8, R9.
  pose proof (hi_rng _ _ _ _ Hinv) as (G1 & G2 & G3 & G4).
  assert (Hb0 : heap_listp st + 8 <= bp) by (unfold bp, first_bp, DSIZE; lia).
  unfold DSIZE in G1.
  unfold coalesce, FTRP, NEXT_BLKP, PREV_BLKP, HDRP, WSIZE, DSIZE. rd.
  destruct Hpa as [-> | ->]; destruct Hna as [-> | ->];
    cbn [Z.eqb negb andb].
  - (* both neighbours are free *)
    destruct (Lp eq_refl) as [l1p El1]. destruct (Ln eq_refl) as [l2' ->].
    set (pb := first_bp st + total l1p).
    assert (Ebp : bp = pb + psz).
    { unfold bp, pb. rewrite El1, total_app. simpl. lia. }
    assert (Hinv' : hinv_x st (l1p ++ (psz, 0) :: (size, 0) :: (nsz, 0) :: l2') T [bp]).
    { rewrite El1, <- app_assoc in Hinv. exact Hinv. }
    destruct (hx_block st l1p _ psz 0 T _ Hinv')
      as (_ & _ & Hpsz & Hpm & _ & T0 & _ & _ & _ & _).
    assert (Hpb0 : heap_listp st + 8 <= pb) by (unfold pb, first_bp, DSIZE; lia).
    destruct (hx_block st (l1 ++ [(size, 0)]) l2' nsz 0 T _
                ltac:(rewrite <- app_assoc; exact Hinv))
      as (_ & _ & Hnsz & Hnm & _ & _ & T3 & Eb' & _ & _).
    rewrite total_app in Eb'. simpl in Eb'.
    replace (first_bp st + (total l1 + (size + 0))) with (bp + size) in Eb'
      by (unfold bp; lia).
    destruct (remove_hl st _ T _ pb fuel Hinv') as (st1 & T1' & E1 & H1 & W1 & L1);
      [|exact Hf|].
    { apply (hx_in_tree _ _ _ _ _ Hinv').
      - rewrite frees_app. apply in_or_app. right. fold pb. simpl. now left.
      - simpl. lia. }
    replace (bp - psz) with pb by lia.
    rewrite E1. cbn [obind].
    pose proof (env_first _ _ (env_wr _ _ _ W1)) as EF1.
    destruct (hx_reads st1 l1 _ size 0 T1' _ ltac:(rewrite El1, <- app_assoc; exact H1))
      as (psz' & pa' & nsz' & na' & Q1 & Q2 & Q3 & Q4 & Q5 & Q6 & Q7 & Q8 & Q9 & _).
    rewrite EF1 in Q1, Q2, Q3, Q4, Q5, Q6, Q7, Q8, Q9.
    fold bp in Q1, Q2, Q3, Q4, Q5, Q6, Q7, Q8, Q9.
    rd.
    destruct (remove_hl st1 _ T1' _ (bp + size) fuel H1) as (st2 & T2' & E2 & H2 & W2 & L2);
      [|lia|].
    { apply (hx_in_tree _ _ _ _ _ H1).
      - rewrite frees_app. apply in_or_app. right. rewrite EF1. fold pb. simpl.
        right. right. left. lia.
      - simpl. lia. }
    rewrite E2. cbn [obind].
    pose proof (env_first _ _ (env_wr _ _ _ W2)) as EF2. rewrite EF1 in EF2.
    assert (H2' : hinv_x st2 (l1 ++ (size, 0) :: (nsz, 0) :: l2') T2' [bp + size; pb; bp]).
    { rewrite El1, <- app_assoc. exact H2. }
    destruct (hx_block_size st2 l1p _ psz 0 T2' _ H2) as (P1 & _ & P3 & _).
    destruct (hx_block_size st2 l1 _ size 0 T2' _ H2') as (P5 & _).
    destruct (hx_block_size st2 (l1 ++ [(size, 0)]) l2' nsz 0 T2' _
                ltac:(rewrite <- app_assoc; exact H2')) as (P7 & _ & P9 & _).
    rewrite total_app in P7, P9. simpl in P7, P9.
    rewrite EF2 in P1, P3, P5, P7, P9. fold pb in P1, P3. fold bp in P5, P7, P9.
    rd. rewrite (u32_small (psz + nsz)) by lia.
    rewrite (u32_small (size + (psz + nsz))) by lia. hsimp. rd. hsimp. rd.
    replace (bp - psz) with pb by lia.
    replace (bp + size + nsz - 8) with (pb + (size + (psz + nsz)) - 8) by lia.
    set (s := PUT _ _ _).
    pose proof (merge_finish st2 s l1p [(psz, 0); (size, 0); (nsz, 0)] l2' T2'
                  (size + (psz + nsz)) fuel) as M.
    rewrite EF2 in M. fold pb in M.
    destruct M as (st' & T' & E' & H' & L' & V' & K').
    + eapply hinv_x_perm; [|exact H2]. simpl.
      replace (pb + psz) with bp by lia.
      replace (pb + (psz + size)) with (bp + size) by lia.
      apply (Permutation_cons_append [pb; bp] (bp + size)).
    + simpl total. subst s. repeat (apply agree_PUT; [|lia|lia]). apply agree_refl.
    + reflexivity.
    + reflexivity.
    + simpl total. subst s. simpl. unfold HDRP, MINBLOCKSIZE, WSIZE, DSIZE. hsimp.
      repeat split; auto; try lia. repeat apply mod8_add; assumption.
    + lia.
    + rewrite E'. cbn [obind].
      exists st', T', l1p, (size + (psz + nsz)), l2'.
      split; [reflexivity|]. split; [exact H'|]. split; [lia|]. split; [lia|].
      split; [|split; [alloc_tac|]].
      * apply (env_trans _ st1); [eapply env_wr; eassumption|].
        apply (env_trans _ st2); [eapply env_wr; eassumption|].
        apply (env_trans _ s); [subst s; env_tac|exact V'].
      * apply (keeps_trans _ st1);
          [apply (keeps_eq _ _ _ _ (hx_keeps _ _ _ _ _ _ Hinv' W1 (incl_nil_nodes _ _ _)));
           oth_tac|].
        apply (keeps_trans _ st2);
          [apply (keeps_eq _ _ _ _ (hx_keeps _ _ _ _ _ _ H1 W2 (incl_nil_nodes _ _ _)));
           rewrite EF1; oth_tac|].
        apply (keeps_eq _ _ _ _ K'). rewrite ?EF1, ?EF2. oth_tac.
  - (* the previous block is free *)
    destruct (Lp eq_refl) as [l1p El1].
    set (pb := first_bp st + total l1p).
    assert (Ebp : bp = pb + psz).
    { unfold bp, pb. rewrite El1, total_app. simpl. lia. }
    assert (Hinv' : hinv_x st (l1p ++ (psz, 0) :: (size, 0) :: l2) T [bp]).
    { rewrite El1, <- app_assoc in Hinv. exact Hinv. }
    destruct (hx_block st l1p _ psz 0 T _ Hinv')
      as (_ & _ & Hpsz & Hpm & _ & T0 & _ & _ & _ & _).
    assert (Hpb0 : heap_listp st + 8 <= pb) by (unfold pb, first_bp, DSIZE; lia).
    destruct (remove_hl st _ T _ pb fuel Hinv') as (st1 & T1' & E1 & H1 & W1 & L1);
      [|exact Hf|].
    { apply (hx_in_tree _ _ _ _ _ Hinv').
      - rewrite frees_app. apply in_or_app. right. fold pb. simpl. now left.
      - simpl. lia. }
    replace (bp - psz) with pb by lia.
    rewrite E1. cbn [obind].
    pose proof (env_first _ _ (env_wr _ _ _ W1)) as EF1.
    destruct (hx_reads st1 l1 _ size 0 T1' _ ltac:(rewrite El1, <- app_assoc; exact H1))
      as (psz' & pa' & nsz' & na' & Q1 & Q2 & Q3 & Q4 & Q5 & Q6 & Q7 & Q8 & Q9 & _).
    rewrite EF1 in Q1, Q2, Q3, Q4, Q5, Q6, Q7, Q8, Q9.
    fold bp in Q1, Q2, Q3, Q4, Q5, Q6, Q7, Q8, Q9.
    assert (psz' = psz) as ->.
    { destruct (hx_block_size st1 l1p _ psz 0 T1' _ H1) as (_ & _ & B3 & _).
      rewrite EF1 in B3. fold pb in B3.
      rewrite <- Q5, <- B3. f_equal. lia. }
    rd. rewrite (u32_small (size + psz)) by lia. hsimp. rd.
    replace (bp - psz) with pb by lia.
    replace (bp + size - 8) with (pb + (size + psz) - 8) by lia.
    set (s := PUT _ _ _).
    pose proof (merge_finish st1 s l1p [(psz, 0); (size, 0)] l2 T1' (size + psz) fuel)
      as M.
    rewrite EF1 in M. fold pb in M.
    destruct M as (st' & T' & E' & H' & L' & V' & K').
    + eapply hinv_x_perm; [|exact H1]. simpl.
      replace (pb + psz) with bp by lia. reflexivity.
    + simpl total. subst s. repeat (apply agree_PUT; [|lia|lia]). apply agree_refl.
    + reflexivity.
    + reflexivity.
    + simpl total. subst s. simpl. unfold HDRP, MINBLOCKSIZE, WSIZE, DSIZE. hsimp.
      repeat split; auto; try lia. apply mod8_add; assumption.
    + lia.
    + rewrite E'. cbn [obind].
      exists st', T', l1p, (size + psz), l2.
      split; [reflexivity|]. split; [exact H'|]. split; [lia|]. split; [lia|].
      split; [|split; [alloc_tac|]].
      * apply (env_trans _ st1); [eapply env_wr; eassumption|].
        apply (env_trans _ s); [subst s; env_tac|exact V'].
      * apply (keeps_trans _ st1);
          [apply (keeps_eq _ _ _ _ (hx_keeps _ _ _ _ _ _ Hinv' W1 (incl_nil_nodes _ _ _)));
           oth_tac|].
        apply (keeps_eq _ _ _ _ K'). rewrite ?EF1. oth_tac.
  - (* the next block is free *)
    destruct (Ln eq_refl) as [l2' ->].
    destruct (remove_hl st _ T _ (bp + size) fuel Hinv) as (st1 & T1' & E1 & H1 & W1 & L1);
      [|exact Hf|].
    { apply (hx_in_tree _ _ _ _ _ Hinv).
      - rewrite frees_app. apply in_or_app. right. fold bp. simpl. right. now left.
      - simpl. lia. }
    rewrite E1. cbn [obind].
    pose proof (env_first _ _ (env_wr _ _ _ W1)) as EF1.
    destruct (hx_reads st1 l1 _ size 0 T1' _ H1)
      as (psz' & pa' & nsz' & na' & Q1 & Q2 & Q3 & Q4 & Q5 & Q6 & Q7 & Q8 & Q9 & _).
    rewrite EF1 in Q1, Q2, Q3, Q4, Q5, Q6, Q7, Q8, Q9.
    fold bp in Q1, Q2, Q3, Q4, Q5, Q6, Q7, Q8, Q9.
    destruct (hx_block st (l1 ++ [(size, 0)]) l2' nsz 0 T _
                ltac:(rewrite <- app_assoc; exact Hinv))
      as (_ & _ & Hnsz & Hnm & _ & _ & T3 & Eb' & _ & _).
    rewrite total_app in Eb'. simpl in Eb'.
    replace (first_bp st + (total l1 + (size + 0))) with (bp + size) in Eb'
      by (unfold bp; lia).
    assert (nsz' = nsz) as ->.
    { destruct (hx_block_size st1 (l1 ++ [(size, 0)]) l2' nsz 0 T1' _
                  ltac:(rewrite <- app_assoc; exact H1)) as (B1 & _).
      rewrite total_app, EF1 in B1. simpl in B1.
      rewrite <- Q8, <- B1. f_equal. unfold bp. lia. }
    rd. rewrite (u32_small (size + nsz)) by lia. hsimp.
    set (s := PUT _ _ _).
    pose proof (merge_finish st1 s l1 [(size, 0); (nsz, 0)] l2' T1' (size + nsz) fuel)
      as M.
    rewrite EF1 in M. fold bp in M.
    destruct M as (st' & T' & E' & H' & L' & V' & K').
    + eapply hinv_x_perm; [|exact H1]. simpl. apply perm_swap.
    + simpl total. subst s. repeat (apply agree_PUT; [|lia|lia]). apply agree_refl.
    + reflexivity.
    + reflexivity.
    + simpl total. subst s. simpl. unfold HDRP, MINBLOCKSIZE, WSIZE, DSIZE. hsimp.
      repeat split; auto; try lia. apply mod8_add; assumption.
    + lia.
    + rewrite E'. cbn [obind].
      exists st', T', l1, (size + nsz), l2'.
      split; [reflexivity|]. split; [exact H'|]. split; [lia|]. split; [lia|].
      split; [|split; [alloc_tac|]].
      * apply (env_trans _ st1); [eapply env_wr; eassumption|].
        apply (env_trans _ s); [subst s; env_tac|exact V'].
      * apply (keeps_trans _ st1);
          [apply (hx_keeps _ _ _ _ _ _ Hinv W1 (incl_nil_nodes _ _ _))|].
        apply (keeps_eq _ _ _ _ K'). rewrite ?EF1. oth_tac.
  - (* both neighbours allocated *)
    cbn [obind].
    destruct (insert_hl st _ T [] bp size fuel Hinv Hf) as (st' & T' & E' & H' & W' & L').
    rewrite E'. cbn [obind].
    exists st', T', l1, size, l2.
    split; [reflexivity|]. split; [exact H'|]. split; [lia|]. split; [lia|].
    split; [eapply env_wr; eassumption|]. split; [reflexivity|].
    apply (hx_keeps _ _ _ _ _ _ Hinv W').
    intros w [<-|Hw]; [right; now left|right; right; exact Hw].
Qed.

Lemma env_eq_ext : forall st st', env_eq st st' -> env_ext st st'.
Proof. unfold env_eq, env_ext. intros st st' (A & B & C & D). repeat split; auto. lia. Qed.

Lemma env_ext_refl : forall st, env_ext st st.
Proof. unfold env_ext. intros. repeat split; auto. lia. Qed.

Lemma env_ext_trans : forall st s1 s2, env_ext st s1 -> env_ext s1 s2 -> env_ext st s2.
Proof.
  unfold env_ext. intros st s1 s2 (A & B & C & D) (A' & B' & C' & D').
  repeat split; try congruence. lia.
Qed.

Lemma env_ext_first : forall st st', env_ext st st' -> first_bp st' = first_bp st.
Proof. unfold env_ext, first_bp. intros st st' (_ & -> & _). reflexivity. Qed.

(** A new free block at the break: the heap holds it after the others,
    outside the tree. *)
Lemma extend_tail : forall st s bl T size,
  hinv st bl T ->
  agree st s (mem_brk st - 4) (mem_brk st + size) ->
  mem_brk s = mem_brk st + size -> mem_max_addr s = mem_max_addr st ->
  mem_brk st + size <= mem_max_addr st ->
  seg s (mem_brk st) (mem_brk st + size) [(size, 0)] ->
  GET s (mem_brk st + size - 4) = PACK 0 1 ->
  hinv_x s (bl ++ [(size, 0)]) T [mem_brk st].
Proof.
  intros st s bl T size Hinv Ha EB EM Hle Hs' He'.
  pose proof Hinv as [Hs [Hp1 Hp2] He (R1 & R2 & R3 & R4) Hn Ht Hrb Hb Hf].
  pose proof Ha as (EN & ER & EH & _).
  pose proof (seg_end _ _ _ _ Hs) as Et.
  pose proof (seg_total_nonneg _ _ _ _ Hs) as T1.
  assert (Hg : forall x, In x (nodes T) -> x + MINBLOCKSIZE <= mem_brk st).
  { intros x Hx.
    assert (Hin : In x (frees (first_bp st) bl)).
    { eapply Permutation_in; [exact Hf|]. exact Hx. }
    eapply frees_range; eauto. }
  simpl in Hs'. destruct Hs' as (S1 & S2 & S3 & S4 & S5 & _).
  unfold first_bp, MINBLOCKSIZE, WSIZE, DSIZE, HDRP in *.
  constructor; unfold first_bp, DSIZE, WSIZE; rewrite ?EN, ?EB, ?EM, ?EH; auto.
  - apply seg_app. split.
    + rewrite <- Et. apply (seg_agree st s _ _ _ _ _ Ha); [lia|]. exact Hs.
    + rewrite <- Et. simpl. unfold MINBLOCKSIZE, WSIZE, DSIZE, HDRP.
      repeat split; auto.
  - split; (rewrite (agree_GET st s _ _ _ Ha); [assumption|lia]).
  - apply (tinv_agree st s _ _ _ Ha); [|exact Ht].
    intros x [<-|Hx]; [lia|]. specialize (Hg x Hx). lia.
  - apply (bst_agree st s _ _ _ Ha); [|exact Hb].
    intros x Hx. specialize (Hg x Hx). lia.
  - rewrite frees_app. simpl. rewrite <- Et.
    etransitivity; [|apply Permutation_app_comm].
    simpl. apply perm_skip. exact Hf.
Qed.

(** [extend_heap]: when the provider refuses, nothing changes; otherwise
    the new bytes become a free block, merged with a free block before it,
    in the tree. *)
Lemma extend_heap_ok : forall st bl T words fuel,
  hinv st bl T -> words mod 2 = 0 -> 48 <= words * 4 < 2 ^ 32 ->
  (words * 4) mod 8 = 0 ->
  (length (nodes T) <= fuel)%nat ->
  (mem_max_addr st < mem_brk st + words * 4 /\
   extend_heap fuel words st = Some (NULL, st)) \/
  (mem_brk st + words * 4 <= mem_max_addr st /\
   exists st' T' l1' csz l2',
     extend_heap fuel words st = Some (first_bp st + total l1', st') /\
     hinv st' (l1' ++ (csz, 0) :: l2') T' /\ words * 4 <= csz /\
     (length (nodes T') <= S (length (nodes T)))%nat /\ env_ext st st' /\
     allocs (first_bp st) (l1' ++ (csz, 0) :: l2') = allocs (first_bp st) bl /\
     keeps st st' (allocs (first_bp st) bl)).
Proof.
  intros st bl T words fuel Hinv Hw Hr Hm Hf.
  pose proof (hi_rng _ _ _ _ Hinv) as (G1 & G2 & G3 & G4).
  pose proof (seg_end _ _ _ _ (hi_seg _ _ _ _ Hinv)) as Et.
  pose proof (seg_total_nonneg _ _ _ _ (hi_seg _ _ _ _ Hinv)) as T1.
  unfold extend_heap, mem_sbrk, WSIZE. rewrite Hw. cbn [Z.eqb negb].
  rewrite (u32_small (words * 4)) by lia.
  set (size := words * 4) in *.
  destruct (mem_brk st + size >? mem_max_addr st) eqn:E.
  - left. apply Z.gtb_lt in E. split; [lia|].
    replace (MINUS1 =? MINUS1) with true by (symmetry; apply Z.eqb_refl). reflexivity.
  - right. rewrite Z.gtb_ltb in E. apply Z.ltb_ge in E. split; [exact E|].
    unfold DSIZE in G1.
    replace (mem_brk st =? MINUS1) with false
      by (symmetry; apply Z.eqb_neq; unfold MINUS1; lia).
    unfold FTRP, NEXT_BLKP, HDRP, WSIZE, DSIZE.
    assert (Hb0 : heap_listp st + 8 <= mem_brk st) by (unfold first_bp, DSIZE in Et; lia).
    hsimp.
    set (s := PUT _ _ _).
    assert (Hx : hinv_x s (bl ++ [(size, 0)]) T [mem_brk st]).
    { apply (extend_tail st s bl T size Hinv).
      - subst s. repeat (apply agree_PUT; [|lia|lia]).
        unfold agree, set_brk. simpl. auto.
      - reflexivity.
      - reflexivity.
      - exact E.
      - subst s. simpl. unfold HDRP, MINBLOCKSIZE, WSIZE, DSIZE. hsimp.
        repeat split; auto; lia.
      - subst s. hsimp. reflexivity. }
    assert (EFs : first_bp s = first_bp st) by reflexivity.
    rewrite Et in Hx. rewrite <- EFs in Hx.
    assert (As : agree st s (mem_brk st - 4) (mem_brk st + size)).
    { subst s. repeat (apply agree_PUT; [|lia|lia]).
      unfold agree, set_brk. simpl. auto. }
    assert (Ea : allocs (first_bp st) (bl ++ [(size, 0)]) = allocs (first_bp st) bl).
    { rewrite allocs_app. simpl. apply app_nil_r. }
    destruct (coalesce_ok s bl size [] T fuel Hx Hf)
      as (st' & T' & l1' & csz & l2' & E' & H' & Hc & L' & V' & A' & K').
    rewrite EFs in E', A', K'. rewrite <- Et in E'.
    exists st', T', l1', csz, l2'.
    split; [exact E'|]. split; [exact H'|]. split; [lia|]. split; [exact L'|].
    split; [|split].
    + apply (env_ext_trans _ s); [|apply env_eq_ext; exact V'].
      unfold env_ext. subst s. simpl. repeat split; auto. lia.
    + rewrite A'. exact Ea.
    + apply (keeps_trans _ s); [|rewrite <- Ea; exact K'].
      apply (keeps_agree _ _ _ _ _ As).
      intros q0 s0 Hin.
      destruct (allocs_range _ _ _ _ _ _ (hi_seg _ _ _ _ Hinv) Hin) as (_ & Hq & _).
      left. lia.
Qed.

(** The state after the sentinel is set up. *)
Lemma nil_setup : forall st0, 0 < NIL st0 -> NIL st0 + 32 <= 2 ^ 64 ->
  nil_ok (set_root (NIL st0)
            (SET_COLOR (NIL st0) BLACK
               (SET_RIGHT (NIL st0) (NIL st0)
                  (SET_LEFT (NIL st0) (NIL st0)
                     (SET_PARENT (NIL st0) (NIL st0) st0))))).
Proof.
  intros st0 H1 H2. unfold nil_ok.
  rewrite NIL_set_root, NIL_SET_COLOR, NIL_SET_RIGHT, NIL_SET_LEFT, NIL_SET_PARENT.
  rewrite LEFT_set_root, RIGHT_set_root, COLOR_set_root.
  rewrite LEFT_SET_COLOR_same, LEFT_SET_RIGHT_same, LEFT_SET_LEFT_eq by lia.
  rewrite RIGHT_SET_COLOR_same, RIGHT_SET_RIGHT_eq by lia.
  rewrite COLOR_SET_COLOR_eq by (unfold BLACK; lia).
  auto.
Qed.

(** [mm_init]: the sentinel, the prologue, the epilogue and one free
    chunk; or failure when the provider refuses. *)
Lemma mm_init_ok : forall st0 fuel,
  pre_init st0 ->
  (mem_max_addr st0 < mem_brk st0 + 16 + 4096 /\
   exists st, mm_init fuel st0 = Some (-1, st)) \/
  (mem_brk st0 + 16 + 4096 <= mem_max_addr st0 /\
   exists st bl T, mm_init fuel st0 = Some (0, st) /\ hinv st bl T /\
     NIL st = NIL st0 /\ heap_listp st = mem_brk st0 + 8 /\
     mem_max_addr st = mem_max_addr st0).
Proof.
  intros st0 fuel (P1 & P2 & P3 & P4 & P5 & P6 & P7).
  pose proof (nil_setup st0 P1 P2) as Hnil.
  unfold mm_init. cbv zeta.
  rewrite !NIL_SET_COLOR, !NIL_SET_RIGHT, !NIL_SET_LEFT, !NIL_SET_PARENT.
  set (sN := set_root _ _) in *.
  assert (EN : NIL sN = NIL st0) by reflexivity.
  assert (EB : mem_brk sN = mem_brk st0) by reflexivity.
  assert (EM : mem_max_addr sN = mem_max_addr st0) by reflexivity.
  assert (ER : root sN = NIL st0) by reflexivity.
  clearbody sN.
  unfold mem_sbrk, WSIZE, DSIZE, CHUNKSIZE.
  change (4 * 4) with 16. change (4096 / 4) with 1024.
  rewrite EB, EM.
  destruct (mem_brk st0 + 16 >? mem_max_addr st0) eqn:E.
  - left. apply Z.gtb_lt in E. split; [lia|].
    cbn [heap_listp set_heap_listp]. rewrite Z.eqb_refl. eauto.
  - rewrite Z.gtb_ltb in E. apply Z.ltb_ge in E.
    cbn [heap_listp set_heap_listp set_brk PUT set_bytes].
    replace (mem_brk st0 =? MINUS1) with false
      by (symmetry; apply Z.eqb_neq; unfold MINUS1; lia).
    change (1 * 4) with 4. change (2 * 4) with 8. change (3 * 4) with 12.
    set (s1 := set_heap_listp (mem_brk st0 + 8) (set_brk (mem_brk st0 + 16) sN)).
    set (s := PUT (mem_brk st0 + 12) (PACK 0 1)
                (PUT (mem_brk st0 + 8) (PACK 8 1)
                   (PUT (mem_brk st0 + 4) (PACK 8 1)
                      (PUT (mem_brk st0) 0 s1)))).
    match goal with |- context [extend_heap fuel 1024 ?x] => change x with s end.
    assert (A : agree s1 s (mem_brk st0) (mem_brk st0 + 16)).
    { subst s. repeat (apply agree_PUT; [|lia|lia]). apply agree_refl. }
    assert (H0 : hinv s [] Leaf).
    { constructor.
      - simpl. unfold first_bp, DSIZE. subst s s1. simpl. lia.
      - change (heap_listp s) with (mem_brk st0 + 8). unfold WSIZE, DSIZE. subst s.
        split; hsimp; reflexivity.
      - change (mem_brk s) with (mem_brk st0 + 16). unfold WSIZE. subst s.
        hsimp; reflexivity.
      - change (heap_listp s) with (mem_brk st0 + 8).
        change (mem_brk s) with (mem_brk st0 + 16).
        change (mem_max_addr s) with (mem_max_addr sN). rewrite EM.
        unfold DSIZE. lia.
      - change (heap_listp s) with (mem_brk st0 + 8).
        change (NIL s) with (NIL sN).
        change (mem_max_addr s) with (mem_max_addr sN). rewrite EM, EN.
        unfold DSIZE. lia.
      - apply (tinv_agree s1 s _ _ _ A).
        + intros x [<-|[]]. change (NIL s1) with (NIL sN). rewrite EN. lia.
        + constructor.
          * split; [|exact I]. change (root sN = NIL sN). rewrite EN. exact ER.
          * simpl. auto.
          * repeat constructor; change (NIL s1) with (NIL sN); rewrite EN; lia.
          * exact Hnil.
      - repeat split.
      - constructor.
      - simpl. constructor. }
    destruct (extend_heap_ok s [] Leaf 1024 fuel H0 eq_refl ltac:(lia) eq_refl
                ltac:(simpl; lia))
      as [[F1 F2]|(F1 & st' & T' & l1' & csz & l2' & E' & H' & Hc & L' & V' & A' & _)].
    + left. change (mem_brk s) with (mem_brk st0 + 16) in F1.
      change (mem_max_addr s) with (mem_max_addr sN) in F1. rewrite EM in F1.
      split; [lia|]. rewrite F2. cbn [obind]. unfold NULL. simpl. eauto.
    + right. change (mem_brk s) with (mem_brk st0 + 16) in F1.
      change (mem_max_addr s) with (mem_max_addr sN) in F1. rewrite EM in F1.
      split; [lia|]. rewrite E'. cbn [obind].
      pose proof (seg_total_nonneg _ _ _ _
        (proj1 (proj1 (seg_app _ _ _ _ _) (hi_seg _ _ _ _ H')))) as Tn.
      replace (first_bp s + total l1' =? NULL) with false.
      2:{ symmetry. apply Z.eqb_neq. unfold NULL, first_bp, DSIZE.
          change (heap_listp s) with (mem_brk st0 + 8). lia. }
      exists st', (l1' ++ (csz, 0) :: l2'), T'.
      destruct V' as (V1 & V2 & V3 & V4).
      split; [reflexivity|]. split; [exact H'|].
      rewrite V1, V2, V3. change (NIL s) with (NIL sN).
      change (mem_max_addr s) with (mem_max_addr sN).
      change (heap_listp s) with (mem_brk st0 + 8). auto.
Qed.

(** The adjusted size is a block size: at least [MINBLOCKSIZE], a multiple
    of 8, and below [2^31] whatever the request. *)
Lemma adjust_size_range : forall size,
  48 <= adjust_size size < 2 ^ 31 /\ adjust_size size mod 8 = 0.
Proof.
  intros size. unfold adjust_size, MAX, to_int, MINBLOCKSIZE, DSIZE.
  destruct (size <=? 8).
  - vm_compute. repeat split; congruence.
  - set (x := u32 (size + 8 + (8 - 1))).
    assert (Hx : 0 <= x < 2 ^ 32) by (apply Z.mod_pos_bound; lia).
    assert (Hy : 0 <= 8 * (x / 8) <= x).
    { pose proof (Z.mul_div_le x 8 ltac:(lia)). split; [|lia].
      assert (0 <= x / 8) by (apply Z.div_pos; lia). lia. }
    rewrite (u32_small (8 * (x / 8))) by lia.
    rewrite (u32_small (8 * (x / 8))) by lia.
    assert (Hm : (8 * (x / 8)) mod 8 = 0) by (rewrite Z.mul_comm; apply Z.mod_mul; lia).
    change (6 * 8) with 48.
    destruct (8 * (x / 8) <? 2 ^ 31) eqn:E1.
    + apply Z.ltb_lt in E1.
      destruct (8 * (x / 8) >? 48) eqn:E2.
      * apply Z.gtb_lt in E2. rewrite u32_small by lia. repeat split; try lia.
      * vm_compute. repeat split; congruence.
    + apply Z.ltb_ge in E1.
      replace (8 * (x / 8) - 2 ^ 32 >? 48) with false
        by (symmetry; rewrite Z.gtb_ltb; apply Z.ltb_ge; lia).
      vm_compute. repeat split; congruence.
Qed.

#[local] Transparent key.
Lemma key_size : forall st x, key st x = GET_SIZE st (x - 4).
Proof. reflexivity. Qed.
Lemma key_hdr : forall st x, key st x = GET_SIZE st (HDRP x).
Proof. reflexivity. Qed.
#[local] Opaque key.

(** [find_fit]: the search returns a smallest free block that is large
    enough, and NULL exactly when no free block is. *)
Lemma find_fit_ok : forall st bl T asize fuel,
  hinv st bl T -> (length (nodes T) <= fuel)%nat ->
  exists res, find_fit fuel asize st = Some res /\
    (res = NULL <-> forall y, In y (frees (first_bp st) bl) -> key st y < asize) /\
    (res <> NULL ->
       In res (frees (first_bp st) bl) /\ asize <= key st res /\
       forall y, In y (frees (first_bp st) bl) -> asize <= key st y ->
                 key st res <= key st y).
Proof.
  intros st bl T asize fuel Hinv Hf.
  pose proof (hi_tree _ _ _ _ Hinv) as [[Hroot Hrep] Hsep Hok Hnil].
  pose proof (hi_free _ _ _ _ Hinv) as Hp. simpl in Hp.
  exists (bf st T asize NULL). split.
  - unfold find_fit. rewrite Hroot.
    apply (rbt_find_best_fit_ok st asize T (NIL st)); auto.
    + simpl in Hsep. tauto.
    + pose proof (height_le_nodes T). lia.
  - assert (Hnz : forall y, In y (nodes T) -> y <> NULL).
    { intros y Hy. inversion Hok as [|? ? _ Hok']; subst.
      rewrite Forall_forall in Hok'. specialize (Hok' y Hy).
      unfold okptr, NULL in *. lia. }
    destruct (bf_spec st asize T (hi_bst _ _ _ _ Hinv) Hnz) as [B1 B2].
    split.
    + rewrite B1. split; intros H y Hy; apply H.
      * eapply Permutation_in; [symmetry; exact Hp|exact Hy].
      * eapply Permutation_in; [exact Hp|exact Hy].
    + intros Hn. destruct (B2 Hn) as (C1 & C2 & C3).
      split; [eapply Permutation_in; [exact Hp|exact C1]|]. split; [exact C2|].
      intros y Hy. apply C3. eapply Permutation_in; [symmetry; exact Hp|exact Hy].
Qed.

(** The chunk by which [mm_malloc] extends the heap. *)
Lemma extendsize_eq : forall asize,
  48 <= asize < 2 ^ 31 -> asize mod 8 = 0 ->
  let e := u32 (MAX (to_int asize) CHUNKSIZE) in
  e = Z.max asize 4096 /\ (e / WSIZE) mod 2 = 0 /\ e / WSIZE * 4 = e /\ e mod 8 = 0.
Proof.
  intros asize Ha Hm. unfold MAX, to_int, CHUNKSIZE, WSIZE.
  rewrite (u32_small asize) by lia.
  replace (asize <? 2 ^ 31) with true by (symmetry; apply Z.ltb_lt; lia).
  assert (H : forall e, e mod 8 = 0 ->
            (e / 4) mod 2 = 0 /\ e / 4 * 4 = e /\ e mod 8 = 0).
  { intros e He. destruct (mult8 e He) as [k Hk].
    assert (Hd : e / 4 = k * 2).
    { rewrite Hk. replace (8 * k) with (k * 2 * 4) by lia. apply Z.div_mul. lia. }
    rewrite Hd. split; [apply Z.mod_mul; lia|]. split; [lia|exact He]. }
  destruct (asize >? 4096) eqn:E.
  - apply Z.gtb_lt in E. rewrite u32_small by lia.
    split; [lia|]. apply H. exact Hm.
  - rewrite Z.gtb_ltb in E. apply Z.ltb_ge in E. rewrite u32_small by lia.
    split; [lia|]. apply H. reflexivity.
Qed.

(** [mm_malloc]: NULL and nothing changed when no free block fits and the
    provider refuses; otherwise a block of at least the adjusted size
    becomes allocated, beside the blocks that were, whose payloads stay. *)
Lemma mm_malloc_ok : forall st bl T size fuel,
  hinv st bl T -> size <> 0 -> (S (length (nodes T)) <= fuel)%nat ->
  (mm_malloc fuel size st = Some (NULL, st) /\
   (forall y, In y (frees (first_bp st) bl) -> key st y < adjust_size size) /\
   mem_max_addr st < mem_brk st + Z.max (adjust_size size) 4096) \/
  exists st' T' l1 sz l2,
    mm_malloc fuel size st = Some (first_bp st + total l1, st') /\
    hinv st' (l1 ++ (sz, 1) :: l2) T' /\ adjust_size size <= sz /\
    (length (nodes T') <= S (length (nodes T)))%nat /\ env_ext st st' /\
    allocs (first_bp st) bl = others (first_bp st) l1 sz l2 /\
    keeps st st' (allocs (first_bp st) bl) /\
    ((exists y, In y (frees (first_bp st) bl) /\ adjust_size size <= key st y) \/
     mem_brk st + Z.max (adjust_size size) 4096 <= mem_max_addr st) /\
    ((exists y, In y (frees (first_bp st) bl) /\ adjust_size size <= key st y) ->
     mem_brk st' = mem_brk st).
Proof.
  intros st bl T size fuel Hinv Hs Hf.
  destruct (adjust_size_range size) as [Ha Hm].
  set (asize := adjust_size size) in *.
  assert (Hplace : forall s l1 csz l2 T0,
    hinv s (l1 ++ (csz, 0) :: l2) T0 -> asize <= csz ->
    (length (nodes T0) <= S (length (nodes T)))%nat -> env_ext st s ->
    exists st' T' sz l2',
      place fuel (first_bp st + total l1) asize s = Some st' /\
      hinv st' (l1 ++ (sz, 1) :: l2') T' /\ asize <= sz /\
      (length (nodes T') <= S (length (nodes T)))%nat /\ env_ext st st' /\
      others (first_bp st) l1 sz l2' = others (first_bp st) l1 csz l2 /\
      keeps s st' (others (first_bp st) l1 csz l2) /\ mem_brk st' = mem_brk s).
  { intros s l1 csz l2 T0 H0 Hc L0 V0.
    pose proof (env_ext_first _ _ V0) as EF.
    destruct (place_ok s l1 csz l2 T0 asize fuel H0 ltac:(lia) Hm ltac:(lia))
      as (st' & T' & mid' & E' & H' & Hmid & L' & V' & K').
    rewrite EF in E', K'.
    assert (V2 : env_ext st st')
      by (eapply env_ext_trans; [exact V0|apply env_eq_ext; exact V']).
    assert (EB : mem_brk st' = mem_brk s) by apply V'.
    destruct Hmid as [->|[-> Hrem]].
    - exists st', T', csz, l2.
      split; [exact E'|]. split; [exact H'|]. split; [lia|]. split; [lia|].
      split; [exact V2|]. split; [|split; [exact K'|exact EB]].
      reflexivity.
    - exists st', T', asize, ((csz - asize, 0) :: l2).
      split; [exact E'|]. split; [exact H'|]. split; [lia|]. split; [lia|].
      split; [exact V2|]. split; [|split; [exact K'|exact EB]].
      oth_tac. }
  unfold mm_malloc. replace (size =? 0) with false by (symmetry; apply Z.eqb_neq; exact Hs).
  fold asize.
  destruct (find_fit_ok st bl T asize fuel Hinv ltac:(lia)) as (res & Er & R1 & R2).
  rewrite Er. cbn [obind].
  destruct (Z.eq_dec res NULL) as [En|En].
  - (* no fit: extend *)
    subst res. rewrite Z.eqb_refl. cbn [negb].
    destruct (extendsize_eq asize Ha Hm) as (X1 & X2 & X3 & X4).
    set (e := u32 (MAX (to_int asize) CHUNKSIZE)) in *.
    destruct (extend_heap_ok st bl T (e / WSIZE) fuel Hinv X2 ltac:(lia)
                ltac:(rewrite X3; exact X4) ltac:(lia))
      as [[F1 F2]|(F1 & st1 & T1 & l1 & csz & l2 & E1 & H1 & Hc & L1 & V1 & A1 & K1)].
    + left. rewrite F2. cbn [obind]. rewrite Z.eqb_refl.
      split; [reflexivity|]. split; [apply R1; reflexivity|]. lia.
    + right. rewrite E1. cbn [obind].
      pose proof (seg_total_nonneg _ _ _ _
        (proj1 (proj1 (seg_app _ _ _ _ _) (hi_seg _ _ _ _ H1)))) as Tn.
      pose proof (hi_rng _ _ _ _ Hinv) as (G1 & _).
      replace (first_bp st + total l1 =? NULL) with false
        by (symmetry; apply Z.eqb_neq; unfold NULL, first_bp, DSIZE in *; lia).
      destruct (Hplace st1 l1 csz l2 T1 H1 ltac:(lia) L1 V1)
        as (st' & T' & sz & l2' & E' & H' & Hsz & L' & V' & A' & K' & _).
      rewrite E'. cbn [obind].
      exists st', T', l1, sz, l2'.
      split; [reflexivity|]. split; [exact H'|]. split; [exact Hsz|].
      split; [exact L'|]. split; [exact V'|].
      assert (Eo : allocs (first_bp st) bl = others (first_bp st) l1 csz l2).
      { rewrite <- A1. oth_tac. }
      split; [rewrite A'; exact Eo|].
      split; [apply (keeps_trans _ st1); [exact K1|rewrite Eo; exact K']|].
      split; [right; lia|].
      intros (y & Hy1 & Hy2). specialize (proj1 R1 eq_refl y Hy1). lia.
  - (* a fit *)
    right.
    replace (res =? NULL) with false by (symmetry; apply Z.eqb_neq; exact En).
    cbn [negb].
    destruct (R2 En) as (C1 & C2 & _).
    assert (Hex : exists y, In y (frees (first_bp st) bl) /\ asize <= key st y)
      by (exists res; auto).
    destruct (frees_split _ _ _ _ _ (hi_seg _ _ _ _ Hinv) C1)
      as (l1 & csz & l2 & -> & ->).
    destruct (hx_block_size st l1 l2 csz 0 T [] Hinv) as (Hg & _).
    rewrite key_size, Hg in C2.
    destruct (Hplace st l1 csz l2 T Hinv C2 ltac:(lia) (env_ext_refl st))
      as (st' & T' & sz & l2' & E' & H' & Hsz & L' & V' & A' & K' & EB).
    rewrite E'. cbn [obind].
    exists st', T', l1, sz, l2'.
    split; [reflexivity|]. split; [exact H'|]. split; [exact Hsz|].
    split; [exact L'|]. split; [exact V'|].
    assert (Eo : allocs (first_bp st) (l1 ++ (csz, 0) :: l2) =
                 others (first_bp st) l1 csz l2) by oth_tac.
    split; [rewrite A'; exact Eo|].
    split; [rewrite Eo; exact K'|]. split; [left; exact Hex|].
    intros _. exact EB.
Qed.

(** [mm_free] of an allocated block: the block becomes free, merged with
    its free neighbours, in the tree; the other allocated blocks stay. *)
Lemma mm_free_ok : forall st l1 sz l2 T fuel,
  hinv st (l1 ++ (sz, 1) :: l2) T -> (length (nodes T) <= fuel)%nat ->
  exists st' T' bl',
    mm_free fuel (first_bp st + total l1) st = Some st' /\ hinv st' bl' T' /\
    (length (nodes T') <= S (length (nodes T)))%nat /\ env_eq st st' /\
    allocs (first_bp st) bl' = others (first_bp st) l1 sz l2 /\
    keeps st st' (others (first_bp st) l1 sz l2).
Proof.
  intros st l1 sz l2 T fuel Hinv Hf.
  set (bp := first_bp st + total l1).
  destruct (hx_block st l1 l2 sz 1 T [] Hinv)
    as (_ & _ & Hsz & Hcm & _ & T1 & T2 & Eb & _ & _). fold bp in Eb.
  destruct (hx_block_size st l1 l2 sz 1 T [] Hinv) as (Hg & _). fold bp in Hg.
  pose proof (hi_rng _ _ _ _ Hinv) as (G1 & G2 & G3 & G4). unfold DSIZE in G1.
  assert (Hb0 : heap_listp st + 8 <= bp) by (unfold bp, first_bp, DSIZE; lia).
  unfold mm_free.
  replace (bp =? NULL) with false by (symmetry; apply Z.eqb_neq; unfold NULL; lia).
  unfold FTRP, HDRP, WSIZE, DSIZE. rewrite Hg. hsimp.
  set (s := PUT _ _ _).
  assert (A : agree st s (bp - 4) (bp + sz - 4)).
  { subst s. repeat (apply agree_PUT; [|lia|lia]). apply agree_refl. }
  assert (S : seg s bp (bp + sz) [(sz, 0)]).
  { subst s. simpl. unfold HDRP, MINBLOCKSIZE, WSIZE, DSIZE. hsimp.
    repeat split; auto; lia. }
  pose proof (replace_mid st s l1 [(sz, 1)] [(sz, 0)] l2 T []) as H.
  fold bp in H. cbn [frees total Z.eqb app] in H.
  replace (bp + (sz + 0)) with (bp + sz) in H by lia.
  specialize (H Hinv A eq_refl eq_refl S).
  assert (EFs : first_bp s = first_bp st) by reflexivity.
  unfold bp in H. rewrite <- EFs in H.
  destruct (coalesce_ok s l1 sz l2 T fuel H Hf)
    as (st' & T' & l1' & csz & l2' & E' & H' & Hc & L' & V' & A' & K').
  rewrite EFs in E', A', K'. fold bp in E'. rewrite E'. cbn [obind].
  exists st', T', (l1' ++ (csz, 0) :: l2').
  split; [reflexivity|]. split; [exact H'|]. split; [exact L'|].
  split; [apply (env_trans _ s); [subst s; env_tac|exact V']|].
  assert (Eo : allocs (first_bp st) (l1 ++ (sz, 0) :: l2) =
               others (first_bp st) l1 sz l2) by oth_tac.
  split; [rewrite A'; exact Eo|].
  apply (keeps_trans _ s); [|rewrite <- Eo; exact K'].
  apply (keeps_eq _ _ _ _ (keeps_agree_mid st l1 [(sz, 1)] l2 T [] s Hinv
           ltac:(fold bp; simpl total;
                 replace (bp + (sz + 0) - 4) with (bp + sz - 4) by lia; exact A))).
  oth_tac.
Qed.

(** [memcpy] writes only its destination range. *)
Lemma agree_memcpy : forall st dst src n,
  agree st (set_bytes (Mem.memcpy (bytes st) dst src n) st) dst (dst + n).
Proof.
  intros st dst src n. unfold agree, set_bytes, Mem.memcpy. simpl.
  repeat split; auto. intros a Ha.
  destruct (dst <=? a) eqn:E1; [|reflexivity].
  destruct (a <? dst + n) eqn:E2; [|reflexivity].
  apply Z.leb_le in E1. apply Z.ltb_lt in E2. lia.
Qed.

(** Above [MINBLOCKSIZE] the adjusted size leaves room for the request and
    the header and footer. *)
Lemma adjust_size_fits : forall size,
  0 <= size < 2 ^ 32 -> 48 < adjust_size size -> size + 8 <= adjust_size size.
Proof.
  intros size Hs. unfold adjust_size, MAX, to_int, MINBLOCKSIZE, DSIZE.
  change (6 * 8) with 48.
  destruct (size <=? 8); [vm_compute; intros H; discriminate H|].
  set (x := u32 (size + 8 + (8 - 1))).
  assert (Hx : 0 <= x < 2 ^ 32) by (apply Z.mod_pos_bound; lia).
  assert (Hy : x - 8 < 8 * (x / 8) <= x).
  { pose proof (Z.mul_div_le x 8 ltac:(lia)).
    pose proof (Z.mod_pos_bound x 8 ltac:(lia)).
    pose proof (Z.div_mod x 8 ltac:(lia)). lia. }
  assert (H0 : 0 <= 8 * (x / 8)).
  { assert (0 <= x / 8) by (apply Z.div_pos; lia). lia. }
  rewrite !(u32_small (8 * (x / 8))) by lia.
  assert (Hw : x = size + 15 \/ x <= 14).
  { subst x. unfold u32. replace (size + 8 + (8 - 1)) with (size + 15) by lia.
    destruct (Z_lt_dec (size + 15) (2 ^ 32)).
    - left. apply Z.mod_small. lia.
    - right. replace (size + 15) with (size + 15 - 2 ^ 32 + 1 * 2 ^ 32) by lia.
      rewrite Z.mod_add by lia. rewrite Z.mod_small by lia. lia. }
  destruct (8 * (x / 8) <? 2 ^ 31) eqn:E1.
  - apply Z.ltb_lt in E1.
    destruct (8 * (x / 8) >? 48) eqn:E2.
    + apply Z.gtb_lt in E2. rewrite u32_small by lia. intros _. lia.
    + vm_compute. intros H; discriminate H.
  - apply Z.ltb_ge in E1.
    replace (8 * (x / 8) - 2 ^ 32 >? 48) with false
      by (symmetry; rewrite Z.gtb_ltb; apply Z.ltb_ge; lia).
    vm_compute. intros H; discriminate H.
Qed.

(** A request that fits the payload of a block adjusts to at most the
    block's size. *)
Lemma adjust_size_le : forall size csz,
  0 < size -> size <= csz - 8 -> 48 <= csz < 2 ^ 32 -> csz mod 8 = 0 ->
  adjust_size size <= csz.
Proof.
  intros size csz Hs Hc Hr Hm.
  destruct (Z_le_gt_dec (adjust_size size) 48) as [H|H]; [lia|].
  revert H. unfold adjust_size, MAX, to_int, MINBLOCKSIZE, DSIZE.
  change (6 * 8) with 48.
  destruct (size <=? 8); [vm_compute; intros H; discriminate H|].
  destruct (mult8 csz Hm) as [k Hk].
  assert (E : u32 (size + 8 + (8 - 1)) = size + 15).
  { replace (size + 8 + (8 - 1)) with (size + 15) by lia. apply u32_small; lia. }
  rewrite E.
  assert (Hy : 8 * ((size + 15) / 8) <= csz).
  { assert (Hq : (size + 15) / 8 < k + 1) by (apply Z.div_lt_upper_bound; lia).
    apply Zlt_succ_le in Hq.
    rewrite Hk. apply Z.mul_le_mono_nonneg_l; [lia|exact Hq]. }
  assert (H0 : 0 <= 8 * ((size + 15) / 8)).
  { assert (0 <= (size + 15) / 8) by (apply Z.div_pos; lia). lia. }
  rewrite !(u32_small (8 * ((size + 15) / 8))) by lia.
  destruct (8 * ((size + 15) / 8) <? 2 ^ 31) eqn:E1.
  - apply Z.ltb_lt in E1.
    destruct (8 * ((size + 15) / 8) >? 48) eqn:E2.
    + apply Z.gtb_lt in E2. rewrite u32_small by lia. intros _. lia.
    + vm_compute. intros H; discriminate H.
  - apply Z.ltb_ge in E1.
    replace (8 * ((size + 15) / 8) - 2 ^ 32 >? 48) with false
      by (symmetry; rewrite Z.gtb_ltb; apply Z.ltb_ge; lia).
    vm_compute. intros H; discriminate H.
Qed.

(** The end of every splitting case: the run holds an allocated block and
    a free remainder, which enters the tree. *)
Lemma split_finish : forall st1 s l1 mid l2 T1 asize rem fuel,
  hinv_x st1 (l1 ++ mid ++ l2) T1 (frees (first_bp st1 + total l1) mid) ->
  agree st1 s (first_bp st1 + total l1 - 4)
              (first_bp st1 + total l1 + total mid - 4) ->
  mem_brk s = mem_brk st1 -> mem_max_addr s = mem_max_addr st1 ->
  seg s (first_bp st1 + total l1) (first_bp st1 + total l1 + total mid)
        [(asize, 1); (rem, 0)] ->
  (length (nodes T1) <= fuel)%nat ->
  exists st' T',
    insert_free_block fuel (first_bp st1 + total l1 + asize) rem s = Some st' /\
    hinv st' (l1 ++ (asize, 1) :: (rem, 0) :: l2) T' /\
    length (nodes T') = S (length (nodes T1)) /\ env_eq s st' /\
    keeps st1 s (others (first_bp st1) l1 (total mid) l2) /\
    keeps s st' (allocs (first_bp st1) (l1 ++ (asize, 1) :: (rem, 0) :: l2)).
Proof.
  intros st1 s l1 mid l2 T1 asize rem fuel H1 A EB EM S Hf.
  pose proof (replace_mid st1 s l1 mid [(asize, 1); (rem, 0)] l2 T1 []) as H.
  rewrite app_nil_r in H. specialize (H H1 A EB EM S).
  cbn [frees Z.eqb app] in H.
  destruct (insert_hl s _ T1 [] _ rem fuel H Hf) as (st' & T' & E' & H' & W' & L').
  exists st', T'. split; [exact E'|]. split; [exact H'|]. split; [exact L'|].
  split; [eapply env_wr; eassumption|].
  assert (EFs : first_bp s = first_bp st1).
  { destruct A as (_ & _ & Eh & _). unfold first_bp. now rewrite Eh. }
  split.
  - apply (keeps_agree_mid st1 l1 mid l2 T1 _ s H1 A).
  - rewrite <- EFs.
    apply (hx_keeps s _ T1 _ st' _ H W' (incl_tl _ (incl_refl _))).
Qed.

(** [mm_realloc] when the adjusted size fits the block: the same pointer;
    the block is split when the remainder can hold a block, and nothing
    at all changes otherwise. *)
Lemma realloc_shrink_ok : forall st l1 csz l2 T size fuel,
  hinv st (l1 ++ (csz, 1) :: l2) T -> size <> 0 -> adjust_size size <= csz ->
  (length (nodes T) <= fuel)%nat ->
  exists st',
    mm_realloc fuel (first_bp st + total l1) size st =
      Some (first_bp st + total l1, st') /\
    ((csz - adjust_size size < 48 /\ st' = st) \/
     (48 <= csz - adjust_size size /\ exists T',
        hinv st' (l1 ++ (adjust_size size, 1) ::
                        (csz - adjust_size size, 0) :: l2) T' /\
        env_eq st st' /\ length (nodes T') = S (length (nodes T)) /\
        keeps st st' (others (first_bp st) l1 csz l2) /\
        keeps st st' [(first_bp st + total l1, adjust_size size)])).
Proof.
  intros st l1 csz l2 T size fuel Hinv Hs Hc Hf.
  destruct (adjust_size_range size) as [Ha Hm].
  set (asize := adjust_size size) in *.
  set (bp := first_bp st + total l1).
  destruct (hx_block st l1 l2 csz 1 T [] Hinv)
    as (_ & _ & Hsz & Hcm & _ & T1 & T2 & Eb & _ & _). fold bp in Eb.
  destruct (hx_block_size st l1 l2 csz 1 T [] Hinv) as (Hg & _). fold bp in Hg.
  pose proof (hi_rng _ _ _ _ Hinv) as (G1 & G2 & G3 & G4). unfold DSIZE in G1.
  assert (Hb0 : heap_listp st + 8 <= bp) by (unfold bp, first_bp, DSIZE; lia).
  unfold mm_realloc.
  replace (size =? 0) with false by (symmetry; apply Z.eqb_neq; exact Hs).
  replace (bp =? NULL) with false by (symmetry; apply Z.eqb_neq; unfold NULL; lia).
  fold asize. unfold HDRP, WSIZE. rewrite Hg.
  replace (asize <=? csz) with true by (symmetry; apply Z.leb_le; exact Hc).
  rewrite (u32_small (csz - asize)) by lia.
  assert (Hrem : (csz - asize) mod 8 = 0) by (apply mod8_sub; assumption).
  destruct (csz - asize >=? MINBLOCKSIZE) eqn:Ec.
  - apply Z.geb_le in Ec. unfold MINBLOCKSIZE, DSIZE in Ec.
    unfold FTRP, NEXT_BLKP, HDRP, WSIZE, DSIZE. hsimp.
    set (s := PUT _ _ _).
    assert (Kp : keeps st s [(bp, asize)]).
    { subst s. repeat (apply keeps_PUT;
        [|intros q0 s0 [Hq|[]]; injection Hq as <- <-; lia]).
      apply keeps_refl. }
    destruct (split_finish st s l1 [(csz, 1)] l2 T asize (csz - asize) fuel)
      as (st' & T' & E' & H' & L' & V' & K1 & K2); fold bp.
    + exact Hinv.
    + simpl total. subst s. repeat (apply agree_PUT; [|lia|lia]). apply agree_refl.
    + reflexivity.
    + reflexivity.
    + simpl total. subst s. simpl. unfold HDRP, MINBLOCKSIZE, WSIZE, DSIZE. hsimp.
      repeat split; auto; lia.
    + exact Hf.
    + fold bp in E'. rewrite E'. cbn [obind]. exists st'. split; [reflexivity|]. right.
      split; [lia|]. exists T'. split; [exact H'|].
      split; [apply (env_trans _ s); [subst s; env_tac|exact V']|].
      split; [exact L'|].
      assert (Ea : allocs (first_bp st) (l1 ++ (asize, 1) :: (csz - asize, 0) :: l2) =
                   allocs (first_bp st) l1 ++ (bp, asize) ::
                   allocs (first_bp st + total l1 + csz) l2).
      { rewrite allocs_app. simpl. fold bp. do 3 f_equal. lia. }
      rewrite Ea in K2. split.
      * apply (keeps_trans _ s).
        -- apply (keeps_eq _ _ _ _ K1). oth_tac.
        -- apply (keeps_incl _ _ (allocs (first_bp st) l1 ++ (bp, asize) ::
                                  allocs (first_bp st + total l1 + csz) l2)
                    (others (first_bp st) l1 csz l2)); [|exact K2].
           intros x Hx. unfold others in Hx. apply in_app_or in Hx. apply in_or_app.
           destruct Hx as [Hx|Hx]; [now left|right; now right].
      * apply (keeps_trans _ s); [exact Kp|].
        apply (keeps_incl _ _ (allocs (first_bp st) l1 ++ (bp, asize) ::
                               allocs (first_bp st + total l1 + csz) l2)
                 [(bp, asize)]); [|exact K2].
        intros x [<-|[]]. apply in_or_app. right. now left.
  - rewrite Z.geb_leb in Ec. apply Z.leb_gt in Ec. unfold MINBLOCKSIZE, DSIZE in Ec.
    exists st. split; [reflexivity|]. left. split; [lia|reflexivity].
Qed.

(** [mm_realloc] when the adjusted size exceeds the block: the block takes
    its free successor when that is enough, and moves otherwise; when the
    allocation for the move fails, nothing changes.  The new block holds
    the old payload, as far as the request goes, and the other allocated
    blocks keep theirs. *)
Lemma realloc_grow_ok : forall st l1 csz l2 T size fuel,
  hinv st (l1 ++ (csz, 1) :: l2) T -> 0 < size < 2 ^ 32 ->
  csz < adjust_size size -> (S (length (nodes T)) <= fuel)%nat ->
  exists q st',
    mm_realloc fuel (first_bp st + total l1) size st = Some (q, st') /\
    ((q = NULL /\ st' = st) \/
     (q <> NULL /\ exists bl' T' szq,
        hinv st' bl' T' /\ env_ext st st' /\
        Permutation (allocs (first_bp st) bl')
                    ((q, szq) :: others (first_bp st) l1 csz l2) /\
        adjust_size size <= szq /\
        keeps st st' (others (first_bp st) l1 csz l2) /\
        (forall i, 0 <= i < Z.min size (csz - 8) ->
           bytes st' (q + i) = bytes st (first_bp st + total l1 + i)))).
Proof.
  intros st l1 csz l2 T size fuel Hinv Hs Hc Hf.
  destruct (adjust_size_range size) as [Ha Hm].
  pose proof (adjust_size_fits size ltac:(lia)) as Hfit.
  set (asize := adjust_size size) in *.
  set (bp := first_bp st + total l1).
  destruct (hx_block st l1 l2 csz 1 T [] Hinv)
    as (_ & _ & Hsz & Hcm & _ & T1 & T2 & Eb & _ & _). fold bp in Eb.
  destruct (hx_reads st l1 l2 csz 1 T [] Hinv)
    as (psz & pa & nsz & na & R1 & R2 & R3 & R4 & R5 & R6 & R7 & R8 & R9 &
        Hp & Hpa & Hna & Lp & Ln).
  fold bp in R1, R2, R3, R4, R5, R6, R7, R8, R9.
  pose proof (hi_rng _ _ _ _ Hinv) as (G1 & G2 & G3 & G4). unfold DSIZE in G1.
  assert (Hb0 : heap_listp st + 8 <= bp) by (unfold bp, first_bp, DSIZE; lia).
  assert (Ea : allocs (first_bp st) (l1 ++ (csz, 1) :: l2) =
               allocs (first_bp st) l1 ++ (bp, csz) ::
               allocs (first_bp st + total l1 + csz) l2).
  { rewrite allocs_app. simpl. reflexivity. }
  assert (Io : incl (others (first_bp st) l1 csz l2)
                    (allocs (first_bp st) (l1 ++ (csz, 1) :: l2))).
  { rewrite Ea. intros x Hx. unfold others in Hx. apply in_app_or in Hx.
    apply in_or_app. destruct Hx as [Hx|Hx]; [now left|right; now right]. }
  assert (Ip : incl [(bp, csz)] (allocs (first_bp st) (l1 ++ (csz, 1) :: l2))).
  { rewrite Ea. intros x [<-|[]]. apply in_or_app. right. now left. }
  unfold mm_realloc.
  replace (size =? 0) with false by (symmetry; apply Z.eqb_neq; lia).
  replace (bp =? NULL) with false by (symmetry; apply Z.eqb_neq; unfold NULL; lia).
  fold asize. unfold NEXT_BLKP, HDRP, WSIZE. rd.
  replace (asize <=? csz) with false by (symmetry; apply Z.leb_gt; exact Hc).
  destruct ((na =? 0) && (u32 (nsz + csz) >=? asize)) eqn:Eg.
  - (* the free successor is taken *)
    apply andb_prop in Eg. destruct Eg as [Eg1 Eg2]. apply Z.eqb_eq in Eg1.
    destruct (Ln Eg1) as [l2' El2]. subst l2.
    destruct (hx_block st (l1 ++ [(csz, 1)]) l2' nsz 0 T _
                ltac:(rewrite <- app_assoc; exact Hinv))
      as (_ & _ & Hnsz & Hnm & _ & _ & T3 & Eb' & _ & _).
    rewrite total_app in Eb'. simpl in Eb'.
    replace (first_bp st + (total l1 + (csz + 0))) with (bp + csz) in Eb'
      by (unfold bp; lia).
    rewrite (u32_small (nsz + csz)) in Eg2 by lia. apply Z.geb_le in Eg2.
    destruct (remove_hl st _ T _ (bp + csz) fuel Hinv) as (st1 & T1' & E1 & H1 & W1 & L1);
      [|lia|].
    { apply (hx_in_tree _ _ _ _ _ Hinv).
      - rewrite frees_app. apply in_or_app. right. fold bp. simpl. now left.
      - simpl. tauto. }
    rewrite E1. cbn [obind].
    pose proof (env_first _ _ (env_wr _ _ _ W1)) as EF1.
    pose proof (hx_keeps _ _ _ _ _ _ Hinv W1 (incl_refl _)) as K01.
    destruct (hx_block_size st1 (l1 ++ [(csz, 1)]) l2' nsz 0 T1' _
                ltac:(rewrite <- app_assoc; exact H1)) as (B1 & _).
    rewrite total_app, EF1 in B1. simpl in B1.
    replace (first_bp st + (total l1 + (csz + 0)) - 4) with (bp + csz - 4) in B1
      by (unfold bp; lia).
    rd. rewrite (u32_small (csz + nsz)) by lia.
    rewrite (u32_small (csz + nsz - asize)) by lia.
    assert (Hrem : (csz + nsz - asize) mod 8 = 0)
      by (apply mod8_sub; [apply mod8_add|]; assumption).
    assert (Eo : others (first_bp st) l1 csz ((nsz, 0) :: l2') =
                 others (first_bp st) l1 (csz + nsz) l2') by oth_tac.
    rewrite Eo in Io.
    destruct (csz + nsz - asize >=? MINBLOCKSIZE) eqn:Ec.
    + apply Z.geb_le in Ec. unfold MINBLOCKSIZE, DSIZE in Ec.
      unfold FTRP, NEXT_BLKP, HDRP, WSIZE, DSIZE. hsimp.
      set (s := PUT _ _ _).
      assert (Kp : keeps st1 s [(bp, csz)]).
      { subst s. repeat (apply keeps_PUT;
          [|intros q0 s0 [Hq|[]]; injection Hq as <- <-; lia]).
        apply keeps_refl. }
      destruct (split_finish st1 s l1 [(csz, 1); (nsz, 0)] l2' T1' asize
                  (csz + nsz - asize) fuel)
        as (st' & T' & E' & H' & L' & V' & K1 & K2); rewrite ?EF1; fold bp.
      * exact H1.
      * simpl total. subst s. repeat (apply agree_PUT; [|lia|lia]). apply agree_refl.
      * reflexivity.
      * reflexivity.
      * simpl total. subst s. simpl. unfold HDRP, MINBLOCKSIZE, WSIZE, DSIZE. hsimp.
        repeat split; auto; lia.
      * lia.
      * rewrite EF1 in E', K1, K2. fold bp in E'. rewrite E'. cbn [obind].
        assert (Ea2 : allocs (first_bp st)
                        (l1 ++ (asize, 1) :: (csz + nsz - asize, 0) :: l2') =
                      allocs (first_bp st) l1 ++ (bp, asize) ::
                      allocs (first_bp st + total l1 + (csz + nsz)) l2').
        { rewrite allocs_app. simpl. fold bp. do 3 f_equal. lia. }
        rewrite Ea2 in K2.
        exists bp, st'. split; [reflexivity|]. right.
        split; [unfold NULL; lia|]. eexists _, T', asize. split; [exact H'|].
        split.
        { apply env_eq_ext.
          apply (env_trans _ st1); [eapply env_wr; eassumption|].
          apply (env_trans _ s); [subst s; env_tac|exact V']. }
        split.
        { rewrite Ea2, Eo. unfold others. fold bp.
          symmetry. apply Permutation_middle. }
        split; [lia|]. split.
        { rewrite Eo.
          apply (keeps_trans _ st1); [apply (keeps_incl _ _ _ _ Io K01)|].
          apply (keeps_trans _ s).
          - apply (keeps_eq _ _ _ _ K1). oth_tac.
          - apply (keeps_incl _ _ (allocs (first_bp st) l1 ++ (bp, asize) ::
                     allocs (first_bp st + total l1 + (csz + nsz)) l2')
                     (others (first_bp st) l1 (csz + nsz) l2')); [|exact K2].
            intros x Hx. unfold others in Hx. apply in_app_or in Hx. apply in_or_app.
            destruct Hx as [Hx|Hx]; [now left|right; now right]. }
        assert (Kb : keeps st st' [(bp, csz)]).
        { apply (keeps_trans _ st1); [apply (keeps_incl _ _ _ _ Ip K01)|].
          apply (keeps_trans _ s); [exact Kp|].
          apply (keeps_shrink _ _ bp asize csz); [|lia].
          apply (keeps_incl _ _ (allocs (first_bp st) l1 ++ (bp, asize) ::
                   allocs (first_bp st + total l1 + (csz + nsz)) l2')
                   [(bp, asize)]); [|exact K2].
          intros x [<-|[]]. apply in_or_app. right. now left. }
        intros i Hi. apply (Kb bp csz (bp + i) (or_introl eq_refl)).
        unfold DSIZE. lia.
    + rewrite Z.geb_leb in Ec. apply Z.leb_gt in Ec. unfold MINBLOCKSIZE, DSIZE in Ec.
      unfold FTRP, NEXT_BLKP, HDRP, WSIZE, DSIZE. hsimp.
      set (s := PUT _ _ _).
      assert (Kp : keeps st1 s [(bp, csz)]).
      { subst s. repeat (apply keeps_PUT;
          [|intros q0 s0 [Hq|[]]; injection Hq as <- <-; lia]).
        apply keeps_refl. }
      assert (As : agree st1 s (bp - 4) (bp + (csz + nsz) - 4)).
      { subst s. repeat (apply agree_PUT; [|lia|lia]). apply agree_refl. }
      exists bp, s. split; [reflexivity|]. right. split; [unfold NULL; lia|].
      pose proof (replace_mid st1 s l1 [(csz, 1); (nsz, 0)] [(csz + nsz, 1)] l2' T1' [])
        as H. rewrite EF1 in H. fold bp in H.
      cbn [frees total Z.eqb app] in H.
      eexists _, T1', (csz + nsz). split.
      { apply H.
        - exact H1.
        - replace (bp + (csz + (nsz + 0)) - 4) with (bp + (csz + nsz) - 4) by lia.
          exact As.
        - reflexivity.
        - reflexivity.
        - subst s. simpl. unfold HDRP, MINBLOCKSIZE, WSIZE, DSIZE. hsimp.
          repeat split; auto; try lia. apply mod8_add; assumption. }
      split.
      { apply env_eq_ext.
        apply (env_trans _ st1); [eapply env_wr; eassumption|subst s; env_tac]. }
      split.
      { rewrite Eo, allocs_app. simpl. unfold others. fold bp.
        replace (bp + (csz + nsz)) with (first_bp st + total l1 + (csz + nsz))
          by (unfold bp; lia).
        symmetry. apply Permutation_middle. }
      split; [lia|]. split.
      { rewrite Eo.
        apply (keeps_trans _ st1); [apply (keeps_incl _ _ _ _ Io K01)|].
        apply (keeps_eq _ _ _ _
                 (keeps_agree_mid st1 l1 [(csz, 1); (nsz, 0)] l2' T1' _ s H1
                    ltac:(rewrite EF1; fold bp; simpl total;
                          replace (bp + (csz + (nsz + 0)) - 4)
                            with (bp + (csz + nsz) - 4) by lia; exact As))).
        rewrite EF1. oth_tac. }
      assert (Kb : keeps st s [(bp, csz)]).
      { apply (keeps_trans _ st1); [apply (keeps_incl _ _ _ _ Ip K01)|exact Kp]. }
      intros i Hi. apply (Kb bp csz (bp + i) (or_introl eq_refl)).
      unfold DSIZE. lia.
  - (* the block moves *)
    clear Eg.
    destruct (mm_malloc_ok st _ T size fuel Hinv ltac:(lia) Hf)
      as [(E0 & _)|(st1 & T1' & l1n & szn & l2n & E1 & H1 & Hszn & L1 &
                    V1 & EA & K1 & _)].
    { rewrite E0. cbn [obind]. rewrite Z.eqb_refl.
      exists NULL, st. split; [reflexivity|]. left. auto. }
    rewrite E1. cbn [obind].
    pose proof (env_ext_first _ _ V1) as EF1.
    set (q := first_bp st + total l1n) in *.
    destruct (hx_block st1 l1n l2n szn 1 T1' [] H1)
      as (Q1 & Q2 & Qsz & Qcm & _ & Tn1 & Tn2 & Qb & _ & _).
    rewrite EF1 in Q1, Q2, Qb. fold q in Q1, Q2, Qb.
    assert (Hq0 : heap_listp st + 8 <= q) by (unfold q, first_bp, DSIZE; lia).
    replace (q =? NULL) with false by (symmetry; apply Z.eqb_neq; unfold NULL; lia).
    unfold DSIZE. rewrite (u32_small (csz - 8)) by lia.
    set (n := if size <? csz - 8 then size else csz - 8).
    assert (Hn : n = Z.min size (csz - 8)).
    { unfold n. destruct (size <? csz - 8) eqn:En;
        [apply Z.ltb_lt in En|apply Z.ltb_ge in En]; lia. }
    set (s2 := set_bytes _ st1).
    assert (A : agree st1 s2 q (q + n)) by apply agree_memcpy.
    assert (A' : agree st1 s2 (first_bp st1 + total l1n - 4)
                   (first_bp st1 + total l1n + total [(szn, 1)] - 4)).
    { rewrite EF1. fold q. simpl total. apply (agree_widen _ _ _ _ _ _ A); lia. }
    assert (H2 : hinv s2 (l1n ++ (szn, 1) :: l2n) T1').
    { pose proof (replace_mid st1 s2 l1n [(szn, 1)] [(szn, 1)] l2n T1' []) as H.
      cbn [frees Z.eqb app] in H.
      apply H.
      - exact H1.
      - exact A'.
      - reflexivity.
      - reflexivity.
      - rewrite EF1. fold q. simpl. unfold HDRP, MINBLOCKSIZE, WSIZE, DSIZE.
        rewrite !(agree_GET st1 s2 _ _ _ A) by lia.
        repeat split; auto; lia. }
    assert (K12 : keeps st1 s2 (others (first_bp st) l1n szn l2n)).
    { apply (keeps_eq _ _ _ _ (keeps_agree_mid st1 l1n [(szn, 1)] l2n T1' _ s2 H1 A')).
      rewrite EF1. oth_tac. }
    assert (EF2 : first_bp s2 = first_bp st) by (rewrite <- EF1; reflexivity).
    assert (Eq : allocs (first_bp st) (l1n ++ (szn, 1) :: l2n) =
                 allocs (first_bp st) l1n ++ (q, szn) ::
                 allocs (first_bp st + total l1n + szn) l2n).
    { rewrite allocs_app. simpl. reflexivity. }
    assert (Hin : In (bp, csz) (allocs (first_bp s2) (l1n ++ (szn, 1) :: l2n))).
    { rewrite EF2, Eq.
      assert (Hin0 : In (bp, csz) (others (first_bp st) l1n szn l2n)).
      { rewrite <- EA. apply Ip. now left. }
      unfold others in Hin0. apply in_app_or in Hin0. apply in_or_app.
      destruct Hin0; [now left|right; now right]. }
    destruct (allocs_split _ _ _ _ _ _ (hi_seg _ _ _ _ H2) Hin)
      as (l1' & l2' & El & Ebp).
    pose proof H2 as H2'. rewrite El in H2'.
    destruct (mm_free_ok s2 l1' csz l2' T1' fuel H2' ltac:(lia))
      as (st' & T' & bl' & E' & H' & L' & V' & AF & KF).
    rewrite <- Ebp in E'. rewrite E'. cbn [obind]. rewrite EF2 in AF, KF.
    (* the allocated blocks after the move *)
    assert (P1 : Permutation (allocs (first_bp st) (l1n ++ (szn, 1) :: l2n))
                   ((bp, csz) :: others (first_bp st) l1' csz l2')).
    { assert (Ebp' : bp = first_bp st + total l1') by (rewrite <- EF2; exact Ebp).
      rewrite El, allocs_app. simpl. unfold others. rewrite <- Ebp'.
      symmetry. apply Permutation_middle. }
    assert (P2 : Permutation (allocs (first_bp st) (l1n ++ (szn, 1) :: l2n))
                   ((q, szn) :: (bp, csz) :: others (first_bp st) l1 csz l2)).
    { rewrite Eq. fold (others (first_bp st) l1n szn l2n) in EA.
      etransitivity; [symmetry; apply Permutation_middle|].
      apply perm_skip. change (Permutation (others (first_bp st) l1n szn l2n)
                                 ((bp, csz) :: others (first_bp st) l1 csz l2)).
      rewrite <- EA, Ea. symmetry. apply Permutation_middle. }
    assert (P3 : Permutation (others (first_bp st) l1' csz l2')
                   ((q, szn) :: others (first_bp st) l1 csz l2)).
    { apply (Permutation_cons_inv (a := (bp, csz))).
      etransitivity; [symmetry; exact P1|].
      etransitivity; [exact P2|]. apply perm_swap. }
    exists q, st'. split; [reflexivity|]. right. split; [unfold NULL; lia|].
    exists bl', T', szn. split; [exact H'|].
    split.
    { apply (env_ext_trans _ st1); [exact V1|].
      apply env_eq_ext. apply (env_trans _ s2); [|exact V'].
      unfold env_eq. subst s2. simpl. auto. }
    split; [rewrite AF; exact P3|]. split; [exact Hszn|].
    assert (Io' : incl (others (first_bp st) l1 csz l2)
                       (others (first_bp st) l1' csz l2')).
    { intros x Hx. apply (Permutation_in _ (Permutation_sym P3)). now right. }
    assert (Io2 : incl (others (first_bp st) l1 csz l2)
                       (others (first_bp st) l1n szn l2n)).
    { rewrite <- EA. exact Io. }
    split.
    { apply (keeps_trans _ st1); [apply (keeps_incl _ _ _ _ Io K1)|].
      apply (keeps_trans _ s2); [apply (keeps_incl _ _ _ _ Io2 K12)|].
      apply (keeps_incl _ _ _ _ Io' KF). }
    intros i Hi.
    assert (Hq : In (q, szn) (others (first_bp st) l1' csz l2'))
      by (apply (Permutation_in _ (Permutation_sym P3)); now left).
    rewrite (KF q szn (q + i) Hq) by (unfold DSIZE; lia).
    rewrite <- (K1 bp csz (bp + i) (Ip _ (or_introl eq_refl)))
      by (unfold DSIZE; lia).
    subst s2. unfold set_bytes, Mem.memcpy. cbn [bytes].
    replace (q <=? q + i) with true by (symmetry; apply Z.leb_le; lia).
    replace (q + i <? q + n) with true by (symmetry; apply Z.ltb_lt; lia).
    cbn [andb]. f_equal. lia.
Qed.

(* ================================================================== *)

Lemma rbt_insert_fixup_mono : forall n m, (n <= m)%nat -> forall bp st r,
  rbt_insert_fixup n bp st = Some r -> rbt_insert_fixup m bp st = Some r.
Proof.
  induction n as [|n IH]; intros m Hm bp st r; destruct m as [|m]; try lia;
    simpl; destruct (negb (bp =? root st) && (COLOR st (PARENT st bp) =? RED));
    auto; try discriminate.
  destruct (insert_fixup_body bp st). apply IH. lia.
Qed.

Lemma insert_descend_mono : forall n m, (n <= m)%nat -> forall size x y st r,
  insert_descend n size x y st = Some r -> insert_descend m size x y st = Some r.
Proof.
  induction n as [|n IH]; intros m Hm size x y st r; destruct m as [|m]; try lia;
    simpl; destruct (x =? NIL st); auto; try discriminate.
  destruct (size <? GET_SIZE st (HDRP x)); apply IH; lia.
Qed.

Lemma rbt_minimum_mono : forall n m, (n <= m)%nat -> forall node st r,
  rbt_minimum n node st = Some r -> rbt_minimum m node st = Some r.
Proof.
  induction n as [|n IH]; intros m Hm node st r; destruct m as [|m]; try lia;
    simpl; destruct (LEFT st node =? NIL st); auto; try discriminate.
  apply IH. lia.
Qed.

Lemma rbt_remove_fixup_mono : forall n m, (n <= m)%nat -> forall x st r,
  rbt_remove_fixup n x st = Some r -> rbt_remove_fixup m x st = Some r.
Proof.
  induction n as [|n IH]; intros m Hm x st r; destruct m as [|m]; try lia;
    simpl; destruct (negb (x =? root st) && (COLOR st x =? BLACK));
    auto; try discriminate.
  destruct (remove_fixup_body x st). apply IH. lia.
Qed.

Lemma rbt_find_best_fit_mono : forall n m, (n <= m)%nat -> forall node asize best st r,
  rbt_find_best_fit n node asize best st = Some r ->
  rbt_find_best_fit m node asize best st = Some r.
Proof.
  induction n as [|n IH]; intros m Hm node asize best st r; destruct m as [|m];
    try lia; simpl; destruct (node =? NIL st); auto; try discriminate.
  destruct (GET_SIZE st (HDRP node) >=? asize); apply IH; lia.
Qed.

(** One step through a sequence of fuelled calls: the call that
    succeeded with less fuel succeeds with more, by [tac]. *)
Ltac mono_call tac :=
  match goal with
  | H : context [obind ?e _] |- context [obind ?e' _] =>
      lazymatch e with obind _ _ => fail | _ => idtac end;
      lazymatch e' with obind _ _ => fail | _ => idtac end;
      let E := fresh "E" in
      let v := fresh "v" in
      destruct e as [v|] eqn:E; [|cbn [obind] in H; discriminate H];
      let E' := fresh "E" in
      assert (E' : e' = Some v) by tac;
      rewrite E'; cbn [obind] in H |- *
  end.

Ltac mono_struct :=
  match goal with
  | H : (if ?c then _ else _) = Some _ |- _ => destruct c
  | H : (let '(_, _) := ?p in _) = Some _ |- _ => destruct p
  | H : Some _ = Some _ |- _ => exact H
  | H : context [if ?c then _ else _] |- _ => destruct c
  end.

Lemma rbt_insert_mono : forall n m, (n <= m)%nat -> forall bp st r,
  rbt_insert n bp st = Some r -> rbt_insert m bp st = Some r.
Proof.
  intros n m Hm bp st r. unfold rbt_insert. cbv zeta. intros H.
  mono_call ltac:(eapply insert_descend_mono; eassumption).
  eapply rbt_insert_fixup_mono; eassumption.
Qed.

Lemma rbt_remove_mono : forall n m, (n <= m)%nat -> forall bp st r,
  rbt_remove n bp st = Some r -> rbt_remove m bp st = Some r.
Proof.
  intros n m Hm bp st r. unfold rbt_remove. cbv zeta. intros H.
  assert (K : forall c x s,
    (if c =? BLACK then rbt_remove_fixup n x s else Some s) = Some r ->
    (if c =? BLACK then rbt_remove_fixup m x s else Some s) = Some r).
  { intros c x s. destruct (c =? BLACK); auto.
    apply rbt_remove_fixup_mono; assumption. }
  destruct (LEFT st bp =? NIL st); [cbn [obind] in *; apply K; exact H|].
  destruct (RIGHT st bp =? NIL st); [cbn [obind] in *; apply K; exact H|].
  cbn [obind] in H |- *.
  mono_call ltac:(eapply rbt_minimum_mono; eassumption).
  apply K. exact H.
Qed.

Lemma insert_free_block_mono : forall n m, (n <= m)%nat -> forall bp size st r,
  insert_free_block n bp size st = Some r -> insert_free_block m bp size st = Some r.
Proof. intros n m Hm bp size st r. apply rbt_insert_mono. exact Hm. Qed.

Lemma remove_free_block_mono : forall n m, (n <= m)%nat -> forall bp st r,
  remove_free_block n bp st = Some r -> remove_free_block m bp st = Some r.
Proof. intros n m Hm bp st r. apply rbt_remove_mono. exact Hm. Qed.

Lemma find_fit_mono : forall n m, (n <= m)%nat -> forall asize st r,
  find_fit n asize st = Some r -> find_fit m asize st = Some r.
Proof. intros n m Hm asize st r. apply rbt_find_best_fit_mono. exact Hm. Qed.

Ltac mono_any :=
  first [ eapply insert_free_block_mono; eassumption
        | eapply remove_free_block_mono; eassumption
        | eapply find_fit_mono; eassumption ].

Lemma coalesce_mono : forall n m, (n <= m)%nat -> forall bp st r,
  coalesce n bp st = Some r -> coalesce m bp st = Some r.
Proof.
  intros n m Hm bp st r. unfold coalesce. cbv zeta. intros H.
  repeat first [ mono_call mono_any | mono_struct | progress cbn [obind] in H |- * ].
Qed.

Lemma extend_heap_mono : forall n m, (n <= m)%nat -> forall words st r,
  extend_heap n words st = Some r -> extend_heap m words st = Some r.
Proof.
  intros n m Hm words st r. unfold extend_heap. cbv zeta.
  destruct (mem_sbrk _ st) as [bp s]. destruct (bp =? MINUS1); auto.
  apply coalesce_mono. exact Hm.
Qed.

Lemma mm_init_mono : forall n m, (n <= m)%nat -> forall st r,
  mm_init n st = Some r -> mm_init m st = Some r.
Proof.
  intros n m Hm st r. unfold mm_init. cbv zeta.
  destruct (mem_sbrk _ _) as [p s]. destruct (heap_listp _ =? MINUS1); auto.
  intros H. mono_call ltac:(eapply extend_heap_mono; eassumption). exact H.
Qed.

Lemma place_mono : forall n m, (n <= m)%nat -> forall bp asize st r,
  place n bp asize st = Some r -> place m bp asize st = Some r.
Proof.
  intros n m Hm bp asize st r. unfold place. cbv zeta. intros H.
  mono_call mono_any.
  destruct (u32 _ >=? MINBLOCKSIZE); [|exact H].
  eapply insert_free_block_mono; eassumption.
Qed.

Ltac mono_any2 :=
  first [ eapply insert_free_block_mono; eassumption
        | eapply remove_free_block_mono; eassumption
        | eapply find_fit_mono; eassumption
        | eapply place_mono; eassumption
        | eapply extend_heap_mono; eassumption
        | eapply coalesce_mono; eassumption ].

Lemma mm_malloc_mono : forall n m, (n <= m)%nat -> forall size st r,
  mm_malloc n size st = Some r -> mm_malloc m size st = Some r.
Proof.
  intros n m Hm size st r. unfold mm_malloc. cbv zeta.
  destruct (size =? 0); auto. intros H.
  mono_call mono_any2.
  destruct (negb (v =? NULL)).
  - mono_call mono_any2. exact H.
  - mono_call mono_any2. destruct v0 as [bp s].
    destruct (bp =? NULL); [exact H|].
    mono_call mono_any2. exact H.
Qed.

Lemma mm_free_mono : forall n m, (n <= m)%nat -> forall bp st r,
  mm_free n bp st = Some r -> mm_free m bp st = Some r.
Proof.
  intros n m Hm bp st r. unfold mm_free. cbv zeta.
  destruct (bp =? NULL); auto. intros H.
  mono_call mono_any2. exact H.
Qed.

Lemma mm_realloc_mono : forall n m, (n <= m)%nat -> forall ptr size st r,
  mm_realloc n ptr size st = Some r -> mm_realloc m ptr size st = Some r.
Proof.
  intros n m Hm ptr size st r. unfold mm_realloc. cbv zeta.
  destruct (size =? 0).
  { intros H. mono_call ltac:(eapply mm_free_mono; eassumption). exact H. }
  destruct (ptr =? NULL); [apply mm_malloc_mono; exact Hm|].
  destruct (adjust_size size <=? GET_SIZE st (HDRP ptr)).
  { destruct (u32 _ >=? MINBLOCKSIZE); auto.
    intros H. mono_call mono_any2. exact H. }
  destruct (_ && _).
  { intros H. mono_call mono_any2.
    destruct (u32 _ >=? MINBLOCKSIZE); [|exact H].
    mono_call mono_any2. exact H. }
  intros H. mono_call ltac:(eapply mm_malloc_mono; eassumption).
  destruct v as [q s]. destruct (q =? NULL); [exact H|].
  mono_call ltac:(eapply mm_free_mono; eassumption). exact H.
Qed.


(* ================================================================== *)
(** ** What the walks over the heap and the tree see *)
(* ================================================================== *)

Lemma heap_walk_seg : forall st bl b e fuel,
  seg st b e bl -> GET st (e - WSIZE) = PACK 0 1 -> total bl < 2 ^ 32 ->
  (length bl <= fuel)%nat ->
  heap_walk fuel b st = Some (blocks_at b bl).
Proof.
  intros st. induction bl as [|[sz a] bl IH]; intros b e fuel Hs He Hb Hf.
  - simpl in Hs. subst e.
    destruct (GET_SIZE_word _ _ 0 1 He ltac:(lia) eq_refl (or_intror eq_refl)) as [E _].
    destruct fuel; simpl; unfold HDRP; rewrite E; reflexivity.
  - simpl in Hs. destruct Hs as (H1 & H2 & Hm & H4 & H5 & H6).
    pose proof (seg_total_nonneg _ _ _ _ H6) as Ht.
    simpl in Hb, Hf. unfold MINBLOCKSIZE, DSIZE in Hm.
    destruct (GET_SIZE_word _ _ sz a H1 ltac:(lia) H4 H5) as [E1 E2].
    destruct fuel as [|fuel]; [lia|].
    simpl. unfold NEXT_BLKP. fold (HDRP b). rewrite E1, E2.
    replace (sz =? 0) with false by (symmetry; apply Z.eqb_neq; lia).
    rewrite (IH (b + sz) e fuel H6 He ltac:(lia) ltac:(lia)). reflexivity.
Qed.

Lemma heap_walk_mono : forall n m, (n <= m)%nat -> forall b st r,
  heap_walk n b st = Some r -> heap_walk m b st = Some r.
Proof.
  induction n as [|n IH]; intros m Hm b st r; destruct m as [|m]; try lia;
    simpl; destruct (GET_SIZE st (HDRP b) =? 0); auto; try discriminate.
  destruct (heap_walk n (NEXT_BLKP st b) st) eqn:E; [|discriminate].
  rewrite (IH m ltac:(lia) _ _ _ E). auto.
Qed.

(** The walk over the heap lists the blocks of the heap. *)
Lemma heap_blocks_ok : forall st bl T xs fuel,
  hinv_x st bl T xs -> (length bl <= fuel)%nat ->
  heap_blocks fuel st = Some (blocks_at (first_bp st) bl).
Proof.
  intros st bl T xs fuel Hinv Hf.
  pose proof Hinv as [Hs [Hp1 Hp2] He (R1 & R2 & R3 & R4) _ _ _ _ _].
  pose proof (seg_end _ _ _ _ Hs) as Ee.
  unfold heap_blocks, NEXT_BLKP.
  destruct (GET_SIZE_word _ _ 8 1 Hp1 ltac:(lia) eq_refl (or_intror eq_refl)) as [E _].
  rewrite E. apply (heap_walk_seg st bl _ (mem_brk st)); auto.
  unfold first_bp, DSIZE in *. lia.
Qed.

Lemma heap_blocks_inv : forall st bl T xs fuel bs,
  hinv_x st bl T xs -> heap_blocks fuel st = Some bs ->
  bs = blocks_at (first_bp st) bl.
Proof.
  intros st bl T xs fuel bs Hinv H.
  pose proof (heap_blocks_ok st bl T xs (Nat.max fuel (length bl)) Hinv
                (Nat.le_max_r _ _)) as H'.
  unfold heap_blocks in *.
  rewrite (heap_walk_mono fuel _ (Nat.le_max_l _ _) _ _ _ H) in H'. congruence.
Qed.

Lemma frees_blocks_at : forall bl b,
  map (fun x => fst (fst x)) (filter is_free (blocks_at b bl)) = frees b bl.
Proof.
  induction bl as [|[sz a] bl IH]; intros b; simpl; [reflexivity|].
  unfold is_free at 1. simpl. destruct (a =? 0); simpl; rewrite IH; reflexivity.
Qed.

Lemma allocs_blocks_at : forall st bl b e p sz,
  seg st b e bl ->
  (In (p, sz, 1) (blocks_at b bl) <-> In (p, sz) (allocs b bl)).
Proof.
  intros st. induction bl as [|[s a] bl IH]; intros b e p sz Hs; simpl; [tauto|].
  simpl in Hs. destruct Hs as (_ & _ & _ & _ & Ha & Hs).
  specialize (IH _ _ p sz Hs).
  destruct Ha as [->| ->]; simpl.
  - split; [intros [H|H]; [discriminate H|tauto]|tauto].
  - split; (intros [H|H]; [left; congruence|tauto]).
Qed.

(** The free blocks the walk finds are the free blocks of the heap. *)
Lemma free_blocks_ok : forall st bl T xs fuel,
  hinv_x st bl T xs -> (length bl <= fuel)%nat ->
  free_blocks fuel st = Some (frees (first_bp st) bl).
Proof.
  intros st bl T xs fuel Hinv Hf. unfold free_blocks.
  rewrite (heap_blocks_ok st bl T xs fuel Hinv Hf). cbn [obind].
  rewrite frees_blocks_at. reflexivity.
Qed.

(** An allocated block, as the walk finds it, is a block of the heap. *)
Lemma allocated_split : forall st bl T p sz,
  hinv st bl T -> allocated st p sz ->
  exists l1 l2, bl = l1 ++ (sz, 1) :: l2 /\ p = first_bp st + total l1.
Proof.
  intros st bl T p sz Hinv (fuel & bs & E & Hin).
  rewrite (heap_blocks_inv st bl T [] fuel bs Hinv E) in Hin.
  apply (allocs_blocks_at st bl _ _ p sz (hi_seg _ _ _ _ Hinv)) in Hin.
  apply (allocs_split _ _ _ _ _ _ (hi_seg _ _ _ _ Hinv) Hin).
Qed.

Lemma split_allocated : forall st l1 sz l2 T,
  hinv st (l1 ++ (sz, 1) :: l2) T -> allocated st (first_bp st + total l1) sz.
Proof.
  intros st l1 sz l2 T Hinv.
  exists (length (l1 ++ (sz, 1) :: l2)), (blocks_at (first_bp st) (l1 ++ (sz, 1) :: l2)).
  split; [apply (heap_blocks_ok _ _ _ _ _ Hinv); lia|].
  rewrite blocks_at_app. apply in_or_app. right. simpl. now left.
Qed.

(** The walk over the tree lists its nodes, in order. *)
Lemma tree_walk_rep : forall st t par fuel,
  rep st par t -> Forall (far (NIL st)) (nodes t) -> (height t <= fuel)%nat ->
  tree_walk fuel (ptr (NIL st) t) st = Some (nodes t).
Proof.
  intros st. induction t as [|c l IHl x r IHr]; intros par fuel Hr Hfar Hh.
  - simpl. destruct fuel; simpl; rewrite Z.eqb_refl; reflexivity.
  - simpl in Hr. destruct Hr as (_ & _ & HL & HR & Rl & Rr).
    simpl in Hfar. apply Forall_app in Hfar. destruct Hfar as [Fl Fr].
    inversion Fr as [|? ? Fx Fr']; subst.
    simpl in Hh. destruct fuel as [|fuel]; [lia|].
    cbn [tree_walk ptr nodes].
    replace (x =? NIL st) with false
      by (symmetry; apply Z.eqb_neq; unfold far in Fx; lia).
    rewrite HL, HR.
    rewrite (IHl x fuel Rl Fl ltac:(lia)), (IHr x fuel Rr Fr' ltac:(lia)).
    reflexivity.
Qed.

Lemma tree_nodes_ok : forall st bl T xs fuel,
  hinv_x st bl T xs -> (length (nodes T) <= fuel)%nat ->
  tree_nodes fuel st = Some (nodes T).
Proof.
  intros st bl T xs fuel Hinv Hf.
  pose proof (hi_tree _ _ _ _ Hinv) as [[Hroot Hrep] Hsep _ _].
  unfold tree_nodes. rewrite Hroot.
  apply (tree_walk_rep st T (NIL st)); auto.
  - simpl in Hsep. tauto.
  - pose proof (height_le_nodes T). lia.
Qed.

(* ================================================================== *)
(** ** Every reachable state is a heap *)
(* ================================================================== *)

(** A public operation that returned with some fuel returns the same with
    the fuel the lemmas ask for. *)
Lemma malloc_step : forall st bl T fuel n p st',
  hinv st bl T -> mm_malloc fuel n st = Some (p, st') ->
  exists bl' T', hinv st' bl' T' /\ env_ext st st'.
Proof.
  intros st bl T fuel n p st' Hinv E.
  destruct (Z.eq_dec n 0) as [->|Hn].
  { unfold mm_malloc in E. simpl in E. injection E as <- <-.
    exists bl, T. split; [exact Hinv|apply env_ext_refl]. }
  set (F := Nat.max fuel (S (length (nodes T)))).
  pose proof (mm_malloc_mono fuel F (Nat.le_max_l _ _) _ _ _ E) as E'.
  destruct (mm_malloc_ok st bl T n F Hinv Hn (Nat.le_max_r _ _))
    as [(E0 & _)|(s & T' & l1 & sz & l2 & E1 & H1 & _ & _ & V1 & _)].
  - rewrite E0 in E'. injection E' as <- <-.
    exists bl, T. split; [exact Hinv|apply env_ext_refl].
  - rewrite E1 in E'. injection E' as <- <-. eauto.
Qed.

Lemma free_step : forall st bl T fuel p st',
  hinv st bl T -> (p = NULL \/ exists sz, allocated st p sz) ->
  mm_free fuel p st = Some st' ->
  exists bl' T', hinv st' bl' T' /\ env_ext st st'.
Proof.
  intros st bl T fuel p st' Hinv [->|[sz Ha]] E.
  { unfold mm_free in E. simpl in E. injection E as <-.
    exists bl, T. split; [exact Hinv|apply env_ext_refl]. }
  destruct (allocated_split st bl T p sz Hinv Ha) as (l1 & l2 & -> & ->).
  set (F := Nat.max fuel (length (nodes T))).
  pose proof (mm_free_mono fuel F (Nat.le_max_l _ _) _ _ _ E) as E'.
  destruct (mm_free_ok st l1 sz l2 T F Hinv (Nat.le_max_r _ _))
    as (s & T' & bl' & E1 & H1 & _ & V1 & _).
  rewrite E1 in E'. injection E' as <-.
  exists bl', T'. split; [exact H1|apply env_eq_ext; exact V1].
Qed.

Lemma realloc_step : forall st bl T fuel p n q st',
  hinv st bl T -> (p = NULL \/ exists sz, allocated st p sz) ->
  0 <= n < 2 ^ 32 -> mm_realloc fuel p n st = Some (q, st') ->
  exists bl' T', hinv st' bl' T' /\ env_ext st st'.
Proof.
  intros st bl T fuel p n q st' Hinv Hp Hn E.
  destruct (Z.eq_dec n 0) as [->|Hn0].
  { unfold mm_realloc in E. simpl in E.
    destruct (mm_free fuel p st) as [s|] eqn:Ef; [|discriminate E].
    cbn [obind] in E. injection E as <- <-.
    apply (free_step st bl T fuel p s Hinv Hp Ef). }
  destruct Hp as [->|[sz Ha]].
  { unfold mm_realloc in E.
    replace (n =? 0) with false in E by (symmetry; apply Z.eqb_neq; exact Hn0).
    simpl in E. apply (malloc_step st bl T fuel n q st' Hinv E). }
  destruct (allocated_split st bl T p sz Hinv Ha) as (l1 & l2 & -> & ->).
  set (F := Nat.max fuel (S (length (nodes T)))).
  pose proof (mm_realloc_mono fuel F (Nat.le_max_l _ _) _ _ _ _ E) as E'.
  assert (HF : (S (length (nodes T)) <= F)%nat) by apply Nat.le_max_r.
  destruct (Z_le_gt_dec (adjust_size n) sz) as [Hc|Hc].
  - destruct (realloc_shrink_ok st l1 sz l2 T n F Hinv Hn0 Hc ltac:(lia))
      as (s & E1 & [[_ ->]|(_ & T' & H1 & V1 & _)]);
      rewrite E1 in E'; injection E' as <- <-.
    + eexists _, T. split; [exact Hinv|apply env_ext_refl].
    + eexists _, T'. split; [exact H1|apply env_eq_ext; exact V1].
  - destruct (realloc_grow_ok st l1 sz l2 T n F Hinv ltac:(lia) ltac:(lia) HF)
      as (q' & s & E1 & [[_ ->]|(_ & bl' & T' & szq & H1 & V1 & _)]);
      rewrite E1 in E'; injection E' as <- <-.
    + eexists _, T. split; [exact Hinv|apply env_ext_refl].
    + exists bl', T'. split; [exact H1|exact V1].
Qed.

(** A byte written into the payload of an allocated block. *)
Lemma write_step : forall st bl T p sz a b,
  hinv st bl T -> allocated st p sz -> p <= a < p + sz - DSIZE ->
  hinv (set_bytes (Mem.upd (bytes st) a b) st) bl T.
Proof.
  intros st bl T p sz a b Hinv Ha Hr.
  destruct (allocated_split st bl T p sz Hinv Ha) as (l1 & l2 & -> & ->).
  set (s := set_bytes _ st). unfold DSIZE in Hr.
  assert (A : agree st s a (a + 1)).
  { unfold agree, s, set_bytes, Mem.upd. simpl. repeat split; auto.
    intros x Hx. replace (x =? a) with false; [reflexivity|].
    symmetry. apply Z.eqb_neq. lia. }
  destruct (hx_block st l1 l2 sz 1 T [] Hinv) as (Q1 & Q2 & Qsz & Qcm & _).
  pose proof (replace_mid st s l1 [(sz, 1)] [(sz, 1)] l2 T []) as H.
  cbn [frees total Z.eqb app] in H. apply H.
  - exact Hinv.
  - apply (agree_widen _ _ _ _ _ _ A); lia.
  - reflexivity.
  - reflexivity.
  - simpl. unfold HDRP, MINBLOCKSIZE, WSIZE, DSIZE.
    rewrite !(agree_GET st s _ _ _ A) by lia.
    repeat split; auto; lia.
Qed.

(** Between two public operations the memory is a heap: blocks from the
    prologue to the epilogue, and a red-black tree, ordered by size, of
    exactly the free ones. *)
Lemma reachable_hinv : forall st, reachable st -> exists bl T, hinv st bl T.
Proof.
  intros st H. induction H as
    [st0 fuel st Hpre E
    |st fuel n p st' _ (bl & T & Hinv) Hn E
    |st fuel p st' _ (bl & T & Hinv) Hp E
    |st fuel p n q st' _ (bl & T & Hinv) Hp Hn E
    |st p sz a b _ (bl & T & Hinv) Ha Hr].
  - destruct (mm_init_ok st0 fuel Hpre)
      as [(_ & s & E0)|(_ & s & bl & T & E0 & H0 & _)];
      rewrite E0 in E; [discriminate E|].
    injection E as <-. eauto.
  - destruct (malloc_step st bl T fuel n p st' Hinv E) as (bl' & T' & H' & _). eauto.
  - destruct (free_step st bl T fuel p st' Hinv Hp E) as (bl' & T' & H' & _). eauto.
  - destruct (realloc_step st bl T fuel p n q st' Hinv Hp Hn E)
      as (bl' & T' & H' & _). eauto.
  - exists bl, T. eapply write_step; eassumption.
Qed.

(* ================================================================== *)
(** ** The states of the scenarios are reachable *)
(* ================================================================== *)

Lemma init_reachable : reachable init_state.
Proof.
  apply (reach_init (fresh zero_mem) 64).
  - unfold pre_init. simpl. lia.
  - vm_compute. reflexivity.
Qed.

Lemma alloc_reachable : reachable alloc_state.
Proof.
  apply (reach_malloc small_init 64 100 alloc_ptr).
  - apply (reach_init (fresh_small zero_mem) 64).
    + unfold pre_init. simpl. lia.
    + vm_compute. reflexivity.
  - lia.
  - vm_compute. reflexivity.
Qed.

Lemma alloc_allocated : allocated alloc_state alloc_ptr 112.
Proof.
  exists 64%nat, [(alloc_ptr, 112, 1); (alloc_ptr + 112, 3984, 0)].
  split; [vm_compute; reflexivity|]. left. reflexivity.
Qed.

(* ================================================================== *)
(** ** Helpers of the claims *)
(* ================================================================== *)

(** When [mm_malloc] returns NULL it has changed nothing. *)
Lemma malloc_null : forall st bl T fuel n s,
  hinv st bl T -> mm_malloc fuel n st = Some (NULL, s) -> s = st.
Proof.
  intros st bl T fuel n s Hinv E.
  destruct (Z.eq_dec n 0) as [->|Hn].
  { unfold mm_malloc in E. simpl in E. congruence. }
  set (F := Nat.max fuel (S (length (nodes T)))).
  pose proof (mm_malloc_mono fuel F (Nat.le_max_l _ _) _ _ _ E) as E'.
  destruct (mm_malloc_ok st bl T n F Hinv Hn (Nat.le_max_r _ _))
    as [(E0 & _)|(s1 & T' & l1 & sz & l2 & E1 & H1 & _)].
  - congruence.
  - rewrite E1 in E'. injection E' as E2 _.
    pose proof (seg_total_nonneg _ _ _ _
      (proj1 (proj1 (seg_app _ _ _ _ _) (hi_seg _ _ _ _ H1)))) as Tn.
    pose proof (hi_rng _ _ _ _ Hinv) as (G1 & _).
    unfold NULL, first_bp, DSIZE in *. lia.
Qed.

(* ================================================================== *)
(** ** The claims *)
(* ================================================================== *)

(** C1. In every reachable state and for every adjusted size [asize], the
    best-fit search [find_fit] returns, given enough fuel, a free block of
    the smallest size that is at least [asize] among all the free blocks
    of the heap, and NULL exactly when no free block is that large. *)
Theorem find_fit_best_fit : forall st asize,
  reachable st ->
  exists N fb r,
    best_fit_of st fb asize r /\
    forall fuel, (N <= fuel)%nat ->
      free_blocks fuel st = Some fb /\ find_fit fuel asize st = Some r.
Proof.
  intros st asize Hr.
  destruct (reachable_hinv st Hr) as (bl & T & Hinv).
  set (N := Nat.max (length bl) (length (nodes T))).
  destruct (find_fit_ok st bl T asize N Hinv (Nat.le_max_r _ _))
    as (r & Er & R1 & R2).
  exists N, (frees (first_bp st) bl), r. split.
  - unfold best_fit_of.
    destruct (Z.eq_dec r NULL) as [En|En].
    + left. split; [exact En|]. intros x Hx. rewrite <- key_hdr.
      apply (proj1 R1 En x Hx).
    + right. destruct (R2 En) as (C1 & C2 & C3).
      split; [exact En|]. split; [exact C1|].
      split; [rewrite <- key_hdr; exact C2|].
      intros x Hx. rewrite <- !key_hdr. apply C3. exact Hx.
  - intros fuel Hf. split.
    + apply (free_blocks_ok st bl T [] fuel Hinv). lia.
    + apply (find_fit_mono N fuel Hf). exact Er.
Qed.

Lemma find_fit_best_fit_witness :
  exists N fb r,
    best_fit_of init_state fb 48 r /\
    forall fuel, (N <= fuel)%nat ->
      free_blocks fuel init_state = Some fb /\
      find_fit fuel 48 init_state = Some r.
Proof. exact (find_fit_best_fit init_state 48 init_reachable). Defined.

(** C2. In every reachable state, that is after every public operation,
    the blocks whose header marks them free are the nodes of the tree at
    [root], up to their order, and no free block occurs twice. *)
Theorem free_blocks_are_tree_nodes : forall st,
  reachable st ->
  exists N fb tn,
    Permutation fb tn /\ NoDup fb /\
    forall fuel, (N <= fuel)%nat ->
      free_blocks fuel st = Some fb /\ tree_nodes fuel st = Some tn.
Proof.
  intros st Hr.
  destruct (reachable_hinv st Hr) as (bl & T & Hinv).
  exists (Nat.max (length bl) (length (nodes T))), (frees (first_bp st) bl), (nodes T).
  split; [symmetry; exact (hi_free _ _ _ _ Hinv)|].
  split; [apply sepl_NoDup; apply (frees_sepl st bl _ _ (hi_seg _ _ _ _ Hinv))|].
  intros fuel Hf. split.
  - apply (free_blocks_ok st bl T [] fuel Hinv). lia.
  - apply (tree_nodes_ok st bl T [] fuel Hinv). lia.
Qed.

Lemma free_blocks_are_tree_nodes_witness :
  reachable alloc_state /\
  exists N fb tn,
    Permutation fb tn /\ NoDup fb /\
    forall fuel, (N <= fuel)%nat ->
      free_blocks fuel alloc_state = Some fb /\
      tree_nodes fuel alloc_state = Some tn.
Proof.
  split; [exact alloc_reachable|].
  exact (free_blocks_are_tree_nodes alloc_state alloc_reachable).
Defined.

(** C4. For an allocated block [p] of [sz] bytes, whose payload holds
    [sz - 8] bytes, and for [0 < n <= sz - 8], [mm_realloc p n] returns
    the pointer [p] itself. *)
Theorem realloc_fits_same_pointer : forall st p sz n,
  reachable st -> allocated st p sz -> 0 < n <= sz - 8 ->
  exists N st', forall fuel, (N <= fuel)%nat ->
    mm_realloc fuel p n st = Some (p, st').
Proof.
  intros st p sz n Hr Ha Hn.
  destruct (reachable_hinv st Hr) as (bl & T & Hinv).
  destruct (allocated_split st bl T p sz Hinv Ha) as (l1 & l2 & -> & ->).
  destruct (hx_block st l1 l2 sz 1 T [] Hinv) as (_ & _ & Hsz & Hcm & _).
  pose proof (adjust_size_le n sz ltac:(lia) ltac:(lia) Hsz Hcm) as Hc.
  destruct (realloc_shrink_ok st l1 sz l2 T n (length (nodes T)) Hinv
              ltac:(lia) Hc (le_n _)) as (st' & E & _).
  exists (length (nodes T)), st'. intros fuel Hf.
  apply (mm_realloc_mono _ _ Hf). exact E.
Qed.

Lemma realloc_fits_same_pointer_witness :
  reachable alloc_state /\ allocated alloc_state alloc_ptr 112 /\
  0 < 50 <= 112 - 8 /\
  exists N st', forall fuel, (N <= fuel)%nat ->
    mm_realloc fuel alloc_ptr 50 alloc_state = Some (alloc_ptr, st').
Proof.
  split; [exact alloc_reachable|]. split; [exact alloc_allocated|].
  split; [lia|].
  apply (realloc_fits_same_pointer alloc_state alloc_ptr 112 50
           alloc_reachable alloc_allocated). lia.
Defined.

(** C6. For an allocated block [p] and [0 < n], when [mm_realloc p n]
    takes its fall-back path and the allocation inside it fails
    ([mm_malloc n] returns NULL), [mm_realloc] returns NULL and the whole
    state is as before: the block [p] is still allocated, with its size
    and its payload. *)
Theorem realloc_fallback_failure_keeps_heap : forall st p sz n fuel s,
  reachable st -> allocated st p sz -> 0 < n < 2 ^ 32 ->
  falls_back st p n = true -> mm_malloc fuel n st = Some (NULL, s) ->
  mm_realloc fuel p n st = Some (NULL, st) /\ allocated st p sz.
Proof.
  intros st p sz n fuel s Hr Ha Hn Hfb E.
  destruct (reachable_hinv st Hr) as (bl & T & Hinv).
  pose proof (malloc_null st bl T fuel n s Hinv E) as ->.
  split; [|exact Ha].
  destruct (allocated_split st bl T p sz Hinv Ha) as (l1 & l2 & -> & ->).
  pose proof (seg_total_nonneg _ _ _ _
    (proj1 (proj1 (seg_app _ _ _ _ _) (hi_seg _ _ _ _ Hinv)))) as Tn.
  pose proof (hi_rng _ _ _ _ Hinv) as (G1 & _).
  unfold falls_back in Hfb. apply andb_prop in Hfb. destruct Hfb as [F1 F2].
  apply negb_true_iff in F1, F2.
  unfold mm_realloc. cbv zeta.
  replace (n =? 0) with false by (symmetry; apply Z.eqb_neq; lia).
  replace (first_bp st + total l1 =? NULL) with false
    by (symmetry; apply Z.eqb_neq; unfold NULL, first_bp, DSIZE in *; lia).
  rewrite F1, F2, E. cbn [obind]. rewrite Z.eqb_refl. reflexivity.
Qed.

Lemma realloc_fallback_failure_keeps_heap_witness :
  reachable alloc_state /\ allocated alloc_state alloc_ptr 112 /\
  0 < 5000 < 2 ^ 32 /\ falls_back alloc_state alloc_ptr 5000 = true /\
  mm_malloc 64 5000 alloc_state = Some (NULL, alloc_state) /\
  mm_realloc 64 alloc_ptr 5000 alloc_state = Some (NULL, alloc_state) /\
  allocated alloc_state alloc_ptr 112.
Proof.
  split; [exact alloc_reachable|]. split; [exact alloc_allocated|].
  split; [lia|]. split; [vm_compute; reflexivity|].
  split; [vm_compute; reflexivity|].
  apply (realloc_fallback_failure_keeps_heap alloc_state alloc_ptr 112 5000 64
           alloc_state alloc_reachable alloc_allocated).
  - lia.
  - vm_compute. reflexivity.
  - vm_compute. reflexivity.
Defined.

(** C8, amended. In every reachable state the left and right pointers of
    the NIL sentinel point to NIL itself and its colour is BLACK; its
    parent pointer is not part of the invariant. *)
Theorem nil_children_and_colour : forall st,
  reachable st -> nil_ok st.
Proof.
  intros st Hr. destruct (reachable_hinv st Hr) as (bl & T & Hinv).
  apply (ti_nil _ _ (hi_tree _ _ _ _ Hinv)).
Qed.

Lemma nil_children_and_colour_witness :
  reachable alloc_state /\ nil_ok alloc_state.
Proof.
  split; [exact alloc_reachable|].
  exact (nil_children_and_colour alloc_state alloc_reachable).
Defined.

(** C8, counterexample. After [a = allocate(40); b = allocate(40);
    free(a); c = allocate(40)] on a fresh heap the state is reachable and
    the parent pointer of NIL is the root of the tree, not NIL: the test
    of claim C8 fails. *)
Lemma nil_parent_overwritten :
  reachable np_s4 /\ nil_self_b np_s4 = false /\
  PARENT np_s4 (NIL np_s4) = root np_s4 /\
  (root np_s4 =? NIL np_s4) = false.
Proof.
  split.
  - apply (reach_malloc np_s3 64 40 np_a); [|lia|vm_compute; reflexivity].
    apply (reach_free np_s2 64 np_a).
    + apply (reach_malloc np_s1 64 40 (np_a + 48)); [|lia|vm_compute; reflexivity].
      apply (reach_malloc init_state 64 40 np_a);
        [exact init_reachable|lia|vm_compute; reflexivity].
    + right. exists 48, 64%nat,
        [(np_a, 48, 1); (np_a + 48, 48, 1); (np_a + 96, 4000, 0)].
      split; [vm_compute; reflexivity|]. left. reflexivity.
    + vm_compute. reflexivity.
  - repeat split; vm_compute; reflexivity.
Qed.

(* ================================================================== *)
(** ** End-to-end scenarios on the concrete address space *)
(* ================================================================== *)

(** C9. Starting from a fresh init, [p = allocate(40); free(p)] leaves the
    heap with exactly one block between prologue and epilogue; it is free,
    its size is CHUNKSIZE = 4096 bytes, and it is the only tree node. *)
Theorem simple_cycle_one_free_chunk : forall m0,
  exists st p,
    simple_cycle m0 = Some st /\
    heap_blocks 64 st = Some [(p, CHUNKSIZE, 0)] /\
    free_blocks 64 st = Some [p] /\
    tree_nodes 64 st = Some [p].
Proof.
  intros m0. eexists; eexists.
  split; [vm_compute; reflexivity|].
  split; [vm_compute; reflexivity|].
  split; vm_compute; reflexivity.
Qed.

(** C7 (the code at the failing input). After a fresh init,
    [allocate(SIZE_MAX)] does not return NULL: the request wraps around to
    an adjusted size of 48 bytes, a 48-byte block is carved out of the free
    chunk and its payload pointer is returned. *)
Theorem alloc_size_max_allocates : forall m0,
  exists st p st',
    alloc_size_max m0 = Some (st, p, st') /\
    p <> NULL /\
    adjust_size (2 ^ 32 - 1) = 48 /\
    heap_blocks 64 st = Some [(p, 4096, 0)] /\
    heap_blocks 64 st' = Some [(p, 48, 1); (p + 48, 4048, 0)] /\
    tree_nodes 64 st = Some [p] /\
    tree_nodes 64 st' = Some [p + 48].
Proof.
  intros m0. do 3 eexists.
  split; [vm_compute; reflexivity|].
  repeat split; try (vm_compute; reflexivity).
  vm_compute; discriminate.
Qed.

(** C3 (the code at the failing input). After a fresh init,
    [p = allocate(200); reallocate(p, 40)] shrinks the block in place and
    leaves its 160-byte remainder free right before the free 3888-byte
    tail: two physically adjacent free blocks. *)
Theorem realloc_shrink_adjacent_free : forall m0,
  exists p st bs,
    shrink_scenario m0 = Some (p, p, st) /\
    heap_blocks 64 st = Some bs /\
    bs = [(p, 48, 1); (p + 48, 160, 0); (p + 208, 3888, 0)] /\
    adjacent_free bs = true.
Proof.
  intros m0. do 3 eexists.
  split; [vm_compute; reflexivity|].
  split; [vm_compute; reflexivity|].
  split; reflexivity.
Qed.

(** C5 (the code at the failing input). [p = allocate(100)] with its 104
    payload bytes set to 0xAA, then [q = reallocate(p, SIZE_MAX)]: the call
    succeeds with [q = p], yet the block has been cut down to 48 bytes and
    the payload bytes from offset 40 on are overwritten by the footer, by
    the remainder's header and by its tree node. *)
Theorem realloc_size_max_clobbers_payload : forall m0,
  exists p st st',
    clobber_scenario m0 = Some (p, st, p, st') /\
    p <> NULL /\
    GET_SIZE st (HDRP p) - 8 = 104 /\
    payload st p 104 = repeat 170 104 /\
    payload st' p 104 <> payload st p 104 /\
    payload st' p 48 =
      repeat 170 40 ++ [49; 0; 0; 0; 64; 0; 0; 0].
Proof.
  intros m0. do 3 eexists.
  split; [vm_compute; reflexivity|].
  split; [vm_compute; discriminate|].
  split; [vm_compute; reflexivity|].
  split; [vm_compute; reflexivity|].
  split; [vm_compute; discriminate|].
  vm_compute; reflexivity.
Qed.

(** C10 (the code at the failing input). With a provider of 3 GB the
    block [p] has grown to [2^31] bytes; for [n = 2^31 - 8] the adjusted
    size of the claim is [2^31], which the block holds with no remainder.
    [reallocate(p, n)] returns [p], yet the code's adjusted size is 48 and
    the block is cut down to 48 bytes, the rest becoming a free block. *)
Theorem realloc_huge_block_is_split : forall m0,
  exists p st st',
    big_scenario m0 = Some (p, st, p, st') /\
    Z.max 48 (8 * ((2 ^ 31 - 8 + 8 + 7) / 8)) = 2 ^ 31 /\
    adjust_size (2 ^ 31 - 8) = 48 /\
    heap_blocks 64 st = Some [(4112, 4048, 1); (p, 2 ^ 31, 1)] /\
    heap_blocks 64 st' =
      Some [(4112, 4048, 1); (p, 48, 1); (p + 48, 2 ^ 31 - 48, 0)] /\
    tree_nodes 64 st = Some [] /\
    tree_nodes 64 st' = Some [p + 48].
Proof.
  intros m0. do 3 eexists.
  split; [vm_compute; reflexivity|].
  repeat split; vm_compute; reflexivity.
Qed.

(* ================================================================== *)
(** ** Further properties of the code *)
(* ================================================================== *)

(** *** The size adjustment of [mm_malloc] and [mm_realloc] *)

(** X1. For a request of [0 < n <= 2^31 - 16] bytes the adjusted size is
    [n + 8] rounded up to a multiple of 8, and at least [MINBLOCKSIZE]:
    it leaves room for the request and the two boundary tags. *)
Theorem adjust_size_formula : forall n,
  0 < n -> n + 15 < 2 ^ 31 ->
  adjust_size n = Z.max 48 (8 * ((n + 15) / 8)) /\
  n + 8 <= adjust_size n /\ adjust_size n mod 8 = 0.
Proof.
  intros n Hn Hb.
  destruct (adjust_size_range n) as [Hr Hm].
  assert (E : adjust_size n = Z.max 48 (8 * ((n + 15) / 8))).
  { unfold adjust_size, MAX, to_int, MINBLOCKSIZE, DSIZE. change (6 * 8) with 48.
    destruct (n <=? 8) eqn:E8.
    - apply Z.leb_le in E8.
      assert (Hq : (n + 15) / 8 = 2).
      { symmetry. apply Z.div_unique with (r := n + 15 - 16); lia. }
      rewrite Hq. reflexivity.
    - apply Z.leb_gt in E8.
      replace (n + 8 + (8 - 1)) with (n + 15) by lia.
      rewrite (u32_small (n + 15)) by lia.
      pose proof (Z.mul_div_le (n + 15) 8 ltac:(lia)) as Hle.
      pose proof (Z.mod_pos_bound (n + 15) 8 ltac:(lia)) as Hmod.
      pose proof (Z.div_mod (n + 15) 8 ltac:(lia)) as Hdm.
      rewrite !(u32_small (8 * ((n + 15) / 8))) by lia.
      replace (8 * ((n + 15) / 8) <? 2 ^ 31) with true
        by (symmetry; apply Z.ltb_lt; lia).
      destruct (8 * ((n + 15) / 8) >? 48) eqn:E2.
      + apply Z.gtb_lt in E2. rewrite u32_small by lia. lia.
      + rewrite Z.gtb_ltb in E2. apply Z.ltb_ge in E2.
        change (u32 48) with 48. lia. }
  split; [exact E|]. split; [|exact Hm].
  rewrite E.
  pose proof (Z.mod_pos_bound (n + 15) 8 ltac:(lia)) as Hmod.
  pose proof (Z.div_mod (n + 15) 8 ltac:(lia)) as Hdm. lia.
Qed.

Lemma adjust_size_formula_witness :
  0 < 100 /\ 100 + 15 < 2 ^ 31 /\
  adjust_size 100 = Z.max 48 (8 * ((100 + 15) / 8)) /\
  100 + 8 <= adjust_size 100 /\ adjust_size 100 mod 8 = 0.
Proof.
  split; [lia|]. split; [lia|]. apply (adjust_size_formula 100); lia.
Defined.

(** X2. A request of [2^31 - 15] bytes or more, up to [SIZE_MAX], is
    adjusted to [MINBLOCKSIZE]: the sum wraps around in [uint32_t], or
    the signed [MAX] reads it as negative. *)
Theorem adjust_size_wraps : forall n,
  2 ^ 31 - 15 <= n < 2 ^ 32 -> adjust_size n = 48.
Proof.
  intros n Hn. unfold adjust_size, MAX, to_int, MINBLOCKSIZE, DSIZE.
  change (6 * 8) with 48.
  replace (n <=? 8) with false by (symmetry; apply Z.leb_gt; lia).
  replace (n + 8 + (8 - 1)) with (n + 15) by lia.
  set (x := u32 (n + 15)).
  assert (Hx : 0 <= x < 2 ^ 32) by (apply Z.mod_pos_bound; lia).
  assert (Hw : (x = n + 15 /\ 2 ^ 31 <= x) \/ x <= 14).
  { subst x. unfold u32. destruct (Z_lt_dec (n + 15) (2 ^ 32)).
    - left. rewrite Z.mod_small by lia. lia.
    - right. replace (n + 15) with (n + 15 - 2 ^ 32 + 1 * 2 ^ 32) by lia.
      rewrite Z.mod_add by lia. rewrite Z.mod_small by lia. lia. }
  pose proof (Z.mul_div_le x 8 ltac:(lia)) as Hle.
  pose proof (Z.mod_pos_bound x 8 ltac:(lia)) as Hmod.
  pose proof (Z.div_mod x 8 ltac:(lia)) as Hdm.
  assert (H0 : 0 <= 8 * (x / 8)) by lia.
  rewrite !(u32_small (8 * (x / 8))) by lia.
  destruct Hw as [[_ Hbig]|Hsmall].
  - assert (Hy : 2 ^ 31 <= 8 * (x / 8)).
    { assert (2 ^ 28 <= x / 8); [|lia].
      apply Z.div_le_lower_bound; lia. }
    replace (8 * (x / 8) <? 2 ^ 31) with false by (symmetry; apply Z.ltb_ge; lia).
    replace (8 * (x / 8) - 2 ^ 32 >? 48) with false
      by (symmetry; rewrite Z.gtb_ltb; apply Z.ltb_ge; lia).
    reflexivity.
  - replace (8 * (x / 8) <? 2 ^ 31) with true by (symmetry; apply Z.ltb_lt; lia).
    replace (8 * (x / 8) >? 48) with false
      by (symmetry; rewrite Z.gtb_ltb; apply Z.ltb_ge; lia).
    reflexivity.
Qed.

Lemma adjust_size_wraps_witness :
  2 ^ 31 - 15 <= 2 ^ 32 - 1 < 2 ^ 32 /\ adjust_size (2 ^ 32 - 1) = 48.
Proof. split; [lia|]. apply (adjust_size_wraps (2 ^ 32 - 1)). lia. Defined.

(** *** Boundary tags *)

(** X3. A header word written with [PUT] and [PACK] is read back by
    [GET_SIZE] and [GET_ALLOC]: the size, a multiple of 8 that fits 32
    bits, and the allocated bit. *)
Theorem pack_roundtrip : forall st p size alloc,
  0 <= size < 2 ^ 32 -> size mod 8 = 0 -> alloc = 0 \/ alloc = 1 ->
  GET_SIZE (PUT p (PACK size alloc) st) p = size /\
  GET_ALLOC (PUT p (PACK size alloc) st) p = alloc.
Proof.
  intros st p size alloc Hr Hm Ha. split.
  - apply GET_SIZE_PUT_eq; auto.
  - apply GET_ALLOC_PUT_eq; auto.
Qed.

Lemma pack_roundtrip_witness :
  0 <= 4096 < 2 ^ 32 /\ 4096 mod 8 = 0 /\ (1 = 0 \/ 1 = 1) /\
  GET_SIZE (PUT 4108 (PACK 4096 1) init_state) 4108 = 4096 /\
  GET_ALLOC (PUT 4108 (PACK 4096 1) init_state) 4108 = 1.
Proof.
  split; [lia|]. split; [reflexivity|]. split; [right; reflexivity|].
  apply (pack_roundtrip init_state 4108 4096 1); [lia|reflexivity|right; reflexivity].
Defined.

(* ================================================================== *)
(** ** Helpers: what an operation that returned has done *)
(* ================================================================== *)

Lemma allocated_iff : forall st bl T q s,
  hinv st bl T -> (allocated st q s <-> In (q, s) (allocs (first_bp st) bl)).
Proof.
  intros st bl T q s Hinv. split.
  - intros Ha. destruct (allocated_split st bl T q s Hinv Ha) as (l1 & l2 & -> & ->).
    rewrite allocs_app. apply in_or_app. right. simpl. now left.
  - intros Hin.
    destruct (allocs_split _ _ _ _ _ _ (hi_seg _ _ _ _ Hinv) Hin) as (l1 & l2 & E & ->).
    subst bl. apply (split_allocated st l1 s l2 T Hinv).
Qed.

(** The blocks around a block do not start where it does. *)
Lemma others_apart : forall st l1 sz a l2 T q s,
  hinv st (l1 ++ (sz, a) :: l2) T ->
  In (q, s) (others (first_bp st) l1 sz l2) ->
  q + s <= first_bp st + total l1 \/ first_bp st + total l1 + sz <= q.
Proof.
  intros st l1 sz a l2 T q s Hinv Hin.
  pose proof (hi_seg _ _ _ _ Hinv) as Hs. apply seg_app in Hs.
  destruct Hs as [S1 S2]. simpl in S2. destruct S2 as (_ & _ & _ & _ & _ & S3).
  unfold others in Hin. apply in_app_or in Hin. destruct Hin as [Hin|Hin].
  - destruct (allocs_range _ _ _ _ _ _ S1 Hin) as (_ & H & _). left. exact H.
  - destruct (allocs_range _ _ _ _ _ _ S3 Hin) as (H & _). right. exact H.
Qed.

Lemma allocs_mid : forall b l1 sz l2,
  allocs b (l1 ++ (sz, 1) :: l2) =
  allocs b l1 ++ (b + total l1, sz) :: allocs (b + total l1 + sz) l2.
Proof. intros. rewrite allocs_app. reflexivity. Qed.

Lemma in_others_mid : forall b l1 sz l2 x,
  In x (allocs b (l1 ++ (sz, 1) :: l2)) <->
  x = (b + total l1, sz) \/ In x (others b l1 sz l2).
Proof.
  intros. rewrite allocs_mid. unfold others. rewrite !in_app_iff. simpl.
  intuition congruence.
Qed.

(** [mm_malloc], whatever fuel it returned with. *)
Lemma malloc_facts : forall st bl T fuel n p st',
  hinv st bl T -> n <> 0 -> mm_malloc fuel n st = Some (p, st') ->
  (p = NULL /\ st' = st /\
   (forall y, In y (frees (first_bp st) bl) -> key st y < adjust_size n) /\
   mem_max_addr st < mem_brk st + Z.max (adjust_size n) 4096) \/
  (p <> NULL /\ exists T' l1 sz l2,
    p = first_bp st + total l1 /\
    hinv st' (l1 ++ (sz, 1) :: l2) T' /\ adjust_size n <= sz /\ env_ext st st' /\
    allocs (first_bp st) bl = others (first_bp st) l1 sz l2 /\
    keeps st st' (allocs (first_bp st) bl) /\
    ((exists y, In y (frees (first_bp st) bl) /\ adjust_size n <= key st y) \/
     mem_brk st + Z.max (adjust_size n) 4096 <= mem_max_addr st) /\
    ((exists y, In y (frees (first_bp st) bl) /\ adjust_size n <= key st y) ->
     mem_brk st' = mem_brk st)).
Proof.
  intros st bl T fuel n p st' Hinv Hn E.
  set (F := Nat.max fuel (S (length (nodes T)))).
  pose proof (mm_malloc_mono fuel F (Nat.le_max_l _ _) _ _ _ E) as E'.
  destruct (mm_malloc_ok st bl T n F Hinv Hn (Nat.le_max_r _ _))
    as [(E0 & N1 & N2)|(s & T' & l1 & sz & l2 & E1 & H1 & Hsz & _ & V1 & EA & K1 & D1 & D2)].
  - rewrite E0 in E'. injection E' as <- <-. left. auto.
  - rewrite E1 in E'. injection E' as <- <-. right.
    pose proof (seg_total_nonneg _ _ _ _
      (proj1 (proj1 (seg_app _ _ _ _ _) (hi_seg _ _ _ _ H1)))) as Tn.
    pose proof (hi_rng _ _ _ _ Hinv) as (G1 & _).
    split; [unfold NULL, first_bp, DSIZE in *; lia|].
    exists T', l1, sz, l2.
    split; [reflexivity|]. split; [exact H1|]. split; [exact Hsz|].
    split; [exact V1|]. split; [exact EA|]. split; [exact K1|].
    split; [exact D1|exact D2].
Qed.

(** [mm_free] of an allocated block, whatever fuel it returned with. *)
Lemma free_facts : forall st l1 sz l2 T fuel st',
  hinv st (l1 ++ (sz, 1) :: l2) T ->
  mm_free fuel (first_bp st + total l1) st = Some st' ->
  exists bl' T', hinv st' bl' T' /\ env_eq st st' /\
    allocs (first_bp st) bl' = others (first_bp st) l1 sz l2 /\
    keeps st st' (others (first_bp st) l1 sz l2).
Proof.
  intros st l1 sz l2 T fuel st' Hinv E.
  set (F := Nat.max fuel (length (nodes T))).
  pose proof (mm_free_mono fuel F (Nat.le_max_l _ _) _ _ _ E) as E'.
  destruct (mm_free_ok st l1 sz l2 T F Hinv (Nat.le_max_r _ _))
    as (s & T' & bl' & E1 & H1 & _ & V1 & A1 & K1).
  rewrite E1 in E'. injection E' as <-. eauto 8.
Qed.

Lemma small_reachable : reachable small_init.
Proof.
  apply (reach_init (fresh_small zero_mem) 64).
  - unfold pre_init. simpl. lia.
  - vm_compute. reflexivity.
Qed.

Lemma alloc_run : mm_malloc 64 100 small_init = Some (alloc_ptr, alloc_state).
Proof. vm_compute. reflexivity. Qed.

Lemma free_blocks_inv : forall st bl T fuel fb,
  hinv st bl T -> free_blocks fuel st = Some fb -> fb = frees (first_bp st) bl.
Proof.
  intros st bl T fuel fb Hinv E. unfold free_blocks in E.
  destruct (heap_blocks fuel st) as [bs|] eqn:Eb; [|discriminate E].
  cbn [obind] in E. injection E as <-.
  rewrite (heap_blocks_inv st bl T [] fuel bs Hinv Eb). apply frees_blocks_at.
Qed.

(* ================================================================== *)
(** ** [mm_malloc] *)
(* ================================================================== *)

(** X4. In a reachable state [mm_malloc n], for [0 < n], returns given
    enough fuel; it returns NULL with the state unchanged, or a pointer to
    an allocated block of at least the adjusted size that was not
    allocated before. *)
Theorem mm_malloc_allocates : forall st n,
  reachable st -> 0 < n < 2 ^ 32 ->
  exists N p st',
    (forall fuel, (N <= fuel)%nat -> mm_malloc fuel n st = Some (p, st')) /\
    ((p = NULL /\ st' = st) \/
     (p <> NULL /\ exists sz,
        allocated st' p sz /\ adjust_size n <= sz /\
        forall s, ~ allocated st p s)).
Proof.
  intros st n Hr Hn.
  destruct (reachable_hinv st Hr) as (bl & T & Hinv).
  set (N := S (length (nodes T))).
  assert (Ex : exists p st', mm_malloc N n st = Some (p, st')).
  { destruct (mm_malloc_ok st bl T n N Hinv ltac:(lia) (le_n _))
      as [(E0 & _)|(s & T' & l1 & sz & l2 & E1 & _)]; eauto. }
  destruct Ex as (p & st' & E). exists N, p, st'. split.
  { intros fuel Hf. apply (mm_malloc_mono N fuel Hf). exact E. }
  destruct (malloc_facts st bl T N n p st' Hinv ltac:(lia) E)
    as [(-> & -> & _)|(Hp & T' & l1 & sz & l2 & -> & H1 & Hsz & V1 & EA & K1 & _)].
  - left. auto.
  - right. split; [exact Hp|]. exists sz.
    pose proof (env_ext_first _ _ V1) as EF. rewrite <- EF.
    split; [apply (split_allocated st' l1 sz l2 T' H1)|]. split; [exact Hsz|].
    intros s Ha. rewrite EF in Ha.
    apply (allocated_iff st bl T _ s Hinv) in Ha. rewrite EA in Ha.
    pose proof Ha as Ha'. rewrite <- EF in Ha'.
    destruct (others_apart st' l1 sz 1 l2 T' _ s H1 Ha') as [K|K].
    + rewrite <- EA in Ha.
      destruct (allocs_range _ _ _ _ _ _ (hi_seg _ _ _ _ Hinv) Ha) as (_ & _ & Hm).
      unfold MINBLOCKSIZE, DSIZE in Hm. lia.
    + destruct (hx_block st' l1 l2 sz 1 T' [] H1) as (_ & _ & Hb & _). lia.
Qed.

Lemma mm_malloc_allocates_witness :
  reachable init_state /\ 0 < 100 < 2 ^ 32 /\
  exists N p st',
    (forall fuel, (N <= fuel)%nat -> mm_malloc fuel 100 init_state = Some (p, st')) /\
    ((p = NULL /\ st' = init_state) \/
     (p <> NULL /\ exists sz,
        allocated st' p sz /\ adjust_size 100 <= sz /\
        forall s, ~ allocated init_state p s)).
Proof.
  split; [exact init_reachable|]. split; [lia|].
  apply (mm_malloc_allocates init_state 100 init_reachable). lia.
Defined.

(** X5. [mm_malloc] leaves every block that was allocated allocated, with
    its size and the bytes of its payload, and allocates no block but the
    one it returns. *)
Theorem mm_malloc_keeps_blocks : forall st n fuel p st',
  reachable st -> 0 <= n < 2 ^ 32 -> mm_malloc fuel n st = Some (p, st') ->
  (forall q s, allocated st q s ->
     allocated st' q s /\
     forall a, q <= a < q + s - 8 -> bytes st' a = bytes st a) /\
  (forall q s, allocated st' q s -> q = p \/ allocated st q s).
Proof.
  intros st n fuel p st' Hr Hn E.
  destruct (reachable_hinv st Hr) as (bl & T & Hinv).
  destruct (Z.eq_dec n 0) as [->|Hn0].
  { unfold mm_malloc in E. simpl in E. injection E as <- <-. split; auto. }
  destruct (malloc_facts st bl T fuel n p st' Hinv Hn0 E)
    as [(-> & -> & _)|(Hp & T' & l1 & sz & l2 & -> & H1 & Hsz & V1 & EA & K1 & _)].
  { split; auto. }
  pose proof (env_ext_first _ _ V1) as EF.
  split.
  - intros q s Ha. apply (allocated_iff st bl T q s Hinv) in Ha. split.
    + apply (allocated_iff st' _ T' q s H1). rewrite EF.
      apply in_others_mid. right. rewrite <- EA. exact Ha.
    + intros a Hq. apply (K1 q s a Ha). exact Hq.
  - intros q s Ha. apply (allocated_iff st' _ T' q s H1) in Ha. rewrite EF in Ha.
    apply in_others_mid in Ha. destruct Ha as [Ha|Ha].
    + left. congruence.
    + right. apply (allocated_iff st bl T q s Hinv). rewrite EA. exact Ha.
Qed.

Lemma mm_malloc_keeps_blocks_witness :
  reachable small_init /\ 0 <= 100 < 2 ^ 32 /\
  mm_malloc 64 100 small_init = Some (alloc_ptr, alloc_state) /\
  (forall q s, allocated small_init q s ->
     allocated alloc_state q s /\
     forall a, q <= a < q + s - 8 -> bytes alloc_state a = bytes small_init a) /\
  (forall q s, allocated alloc_state q s -> q = alloc_ptr \/ allocated small_init q s).
Proof.
  split; [exact small_reachable|]. split; [lia|]. split; [exact alloc_run|].
  apply (mm_malloc_keeps_blocks small_init 100 64 alloc_ptr alloc_state
           small_reachable); [lia|exact alloc_run].
Defined.

(** X6. [mm_malloc n], for [0 < n], returns NULL exactly when no free
    block has the adjusted size and the provider cannot grow the region
    by the larger of the adjusted size and [CHUNKSIZE]; and when a free
    block fits, the region is not grown. *)
Theorem mm_malloc_fails_iff : forall st n fuel p st',
  reachable st -> 0 < n < 2 ^ 32 -> mm_malloc fuel n st = Some (p, st') ->
  (p = NULL <->
     (forall k fb q, free_blocks k st = Some fb -> In q fb ->
                     GET_SIZE st (HDRP q) < adjust_size n) /\
     mem_max_addr st < mem_brk st + Z.max (adjust_size n) CHUNKSIZE) /\
  (forall k fb q, free_blocks k st = Some fb -> In q fb ->
                  adjust_size n <= GET_SIZE st (HDRP q) ->
                  mem_brk st' = mem_brk st).
Proof.
  intros st n fuel p st' Hr Hn E.
  destruct (reachable_hinv st Hr) as (bl & T & Hinv).
  unfold CHUNKSIZE.
  destruct (malloc_facts st bl T fuel n p st' Hinv ltac:(lia) E)
    as [(-> & -> & N1 & N2)|(Hp & T' & l1 & sz & l2 & -> & H1 & Hsz & V1 & EA & K1 & D1 & D2)].
  - split; [|reflexivity]. split; [|reflexivity]. intros _. split; [|exact N2].
    intros k fb q Ek Hq. rewrite (free_blocks_inv st bl T k fb Hinv Ek) in Hq.
    rewrite <- key_hdr. apply N1. exact Hq.
  - split.
    + split; [intros Hc; contradiction|]. intros [F1 F2]. exfalso.
      destruct D1 as [(y & Hy1 & Hy2)|D1]; [|lia].
      specialize (F1 _ _ y (free_blocks_ok st bl T [] _ Hinv (le_n _)) Hy1).
      rewrite <- key_hdr in F1. lia.
    + intros k fb q Ek Hq Hfit. apply D2. exists q.
      rewrite (free_blocks_inv st bl T k fb Hinv Ek) in Hq.
      rewrite key_hdr. auto.
Qed.

Lemma mm_malloc_fails_iff_witness :
  reachable alloc_state /\ 0 < 5000 < 2 ^ 32 /\
  mm_malloc 64 5000 alloc_state = Some (NULL, alloc_state) /\
  (NULL = NULL <->
     (forall k fb q, free_blocks k alloc_state = Some fb -> In q fb ->
                     GET_SIZE alloc_state (HDRP q) < adjust_size 5000) /\
     mem_max_addr alloc_state <
       mem_brk alloc_state + Z.max (adjust_size 5000) CHUNKSIZE) /\
  (forall k fb q, free_blocks k alloc_state = Some fb -> In q fb ->
                  adjust_size 5000 <= GET_SIZE alloc_state (HDRP q) ->
                  mem_brk alloc_state = mem_brk alloc_state).
Proof.
  split; [exact alloc_reachable|]. split; [lia|].
  split; [vm_compute; reflexivity|].
  apply (mm_malloc_fails_iff alloc_state 5000 64 NULL alloc_state alloc_reachable);
    [lia|vm_compute; reflexivity].
Defined.

(* ================================================================== *)
(** ** [mm_free] *)
(* ================================================================== *)

(** X7. [mm_free] of an allocated block returns given enough fuel; the
    block is no longer allocated, the other allocated blocks stay
    allocated with their sizes and the bytes of their payloads, and the
    break does not move. *)
Theorem mm_free_releases : forall st p sz,
  reachable st -> allocated st p sz ->
  exists N st',
    (forall fuel, (N <= fuel)%nat -> mm_free fuel p st = Some st') /\
    (forall q s, allocated st' q s <-> allocated st q s /\ q <> p) /\
    (forall q s a, allocated st q s -> q <> p -> q <= a < q + s - 8 ->
                   bytes st' a = bytes st a) /\
    mem_brk st' = mem_brk st.
Proof.
  intros st p sz Hr Ha.
  destruct (reachable_hinv st Hr) as (bl & T & Hinv).
  destruct (allocated_split st bl T p sz Hinv Ha) as (l1 & l2 & -> & ->).
  set (N := length (nodes T)).
  destruct (mm_free_ok st l1 sz l2 T N Hinv (le_n _))
    as (st' & T' & bl' & E & H' & _ & V & AF & KF).
  exists N, st'. split.
  { intros fuel Hf. apply (mm_free_mono N fuel Hf). exact E. }
  pose proof (env_first _ _ V) as EF.
  assert (Hap : forall q s, In (q, s) (others (first_bp st) l1 sz l2) ->
                            q <> first_bp st + total l1).
  { intros q s Hin. destruct (others_apart st l1 sz 1 l2 T q s Hinv Hin) as [K|K].
    - assert (Hin' : In (q, s) (allocs (first_bp st) (l1 ++ (sz, 1) :: l2)))
        by (apply in_others_mid; now right).
      destruct (allocs_range _ _ _ _ _ _ (hi_seg _ _ _ _ Hinv) Hin') as (_ & _ & Hm).
      unfold MINBLOCKSIZE, DSIZE in Hm. lia.
    - destruct (hx_block st l1 l2 sz 1 T [] Hinv) as (_ & _ & Hb & _). lia. }
  split; [|split].
  - intros q s. rewrite (allocated_iff st' bl' T' q s H'), EF, AF.
    rewrite (allocated_iff st _ T q s Hinv), in_others_mid. split.
    + intros Hin. split; [now right|]. apply (Hap q s Hin).
    + intros [[Hq|Hin] Hne]; [|exact Hin]. injection Hq as -> ->. contradiction.
  - intros q s a Hq Hne Hb.
    apply (allocated_iff st _ T q s Hinv) in Hq. apply in_others_mid in Hq.
    destruct Hq as [Hq|Hq]; [injection Hq as -> ->; contradiction|].
    apply (KF q s a Hq). exact Hb.
  - apply V.
Qed.

Lemma mm_free_releases_witness :
  reachable alloc_state /\ allocated alloc_state alloc_ptr 112 /\
  exists N st',
    (forall fuel, (N <= fuel)%nat -> mm_free fuel alloc_ptr alloc_state = Some st') /\
    (forall q s, allocated st' q s <-> allocated alloc_state q s /\ q <> alloc_ptr) /\
    (forall q s a, allocated alloc_state q s -> q <> alloc_ptr ->
                   q <= a < q + s - 8 -> bytes st' a = bytes alloc_state a) /\
    mem_brk st' = mem_brk alloc_state.
Proof.
  split; [exact alloc_reachable|]. split; [exact alloc_allocated|].
  exact (mm_free_releases alloc_state alloc_ptr 112 alloc_reachable alloc_allocated).
Defined.

(* ================================================================== *)
(** ** [mm_realloc] *)
(* ================================================================== *)

(** [mm_realloc] of an allocated block with a size that is not zero. *)
Lemma realloc_ok : forall st l1 sz l2 T n,
  hinv st (l1 ++ (sz, 1) :: l2) T -> 0 < n < 2 ^ 32 ->
  exists q st',
    mm_realloc (S (length (nodes T))) (first_bp st + total l1) n st = Some (q, st') /\
    ((q = NULL /\ st' = st) \/
     (q <> NULL /\ exists bl' T' szq,
        hinv st' bl' T' /\ env_ext st st' /\
        Permutation (allocs (first_bp st) bl')
                    ((q, szq) :: others (first_bp st) l1 sz l2) /\
        adjust_size n <= szq /\
        keeps st st' (others (first_bp st) l1 sz l2) /\
        (adjust_size n <= sz -> q = first_bp st + total l1) /\
        (forall i, 0 <= i < Z.min (Z.min n (adjust_size n - 8)) (sz - 8) ->
           bytes st' (q + i) = bytes st (first_bp st + total l1 + i)))).
Proof.
  intros st l1 sz l2 T n Hinv Hn.
  set (p := first_bp st + total l1).
  destruct (hx_block st l1 l2 sz 1 T [] Hinv) as (_ & _ & Hsz & _).
  pose proof (seg_total_nonneg _ _ _ _
    (proj1 (proj1 (seg_app _ _ _ _ _) (hi_seg _ _ _ _ Hinv)))) as Tn.
  pose proof (hi_rng _ _ _ _ Hinv) as (G1 & _).
  assert (Hp : p <> NULL) by (unfold p, NULL, first_bp, DSIZE in *; lia).
  destruct (adjust_size_range n) as [Ha _].
  destruct (Z_le_gt_dec (adjust_size n) sz) as [Hc|Hc].
  - destruct (realloc_shrink_ok st l1 sz l2 T n (S (length (nodes T))) Hinv
                ltac:(lia) Hc ltac:(lia))
      as (st' & E & [[Hs ->]|(Hs & T' & H' & V & _ & K1 & K2)]).
    + exists p, st. split; [exact E|]. right. split; [exact Hp|].
      exists (l1 ++ (sz, 1) :: l2), T, sz.
      split; [exact Hinv|]. split; [apply env_ext_refl|].
      split; [rewrite allocs_mid; symmetry; apply Permutation_middle|].
      split; [exact Hc|]. split; [apply keeps_refl|]. split; [reflexivity|].
      reflexivity.
    + exists p, st'. split; [exact E|]. right. split; [exact Hp|].
      eexists _, T', (adjust_size n).
      split; [exact H'|]. split; [apply env_eq_ext; exact V|].
      split.
      { rewrite allocs_mid. fold p.
        replace (others (first_bp st) l1 sz l2)
          with (others (first_bp st) l1 (adjust_size n)
                  ((sz - adjust_size n, 0) :: l2)) by oth_tac.
        symmetry. apply Permutation_middle. }
      split; [lia|]. split; [exact K1|]. split; [reflexivity|].
      intros i Hi. apply (K2 p (adjust_size n) (p + i) (or_introl eq_refl)).
      unfold DSIZE. lia.
  - destruct (realloc_grow_ok st l1 sz l2 T n (S (length (nodes T))) Hinv Hn
                ltac:(lia) (le_n _))
      as (q & st' & E & [[-> ->]|(Hq & bl' & T' & szq & H' & V & P & Hs & K & C)]).
    + exists NULL, st. split; [exact E|]. left. auto.
    + exists q, st'. split; [exact E|]. right. split; [exact Hq|].
      exists bl', T', szq. split; [exact H'|]. split; [exact V|].
      split; [exact P|]. split; [exact Hs|]. split; [exact K|].
      split; [intros; lia|].
      intros i Hi. apply C. lia.
Qed.

(** X8. For an allocated block [p] of [sz] bytes and a request of
    [0 < n <= 2^31 - 16] bytes, [mm_realloc p n] returns given enough
    fuel; it returns NULL with the state unchanged, or a pointer [q] to an
    allocated block with room for [n] bytes whose first
    [min n (sz - 8)] payload bytes are those [p] held. *)
Theorem mm_realloc_preserves_content : forall st p sz n,
  reachable st -> allocated st p sz -> 0 < n -> n + 15 < 2 ^ 31 ->
  exists N q st',
    (forall fuel, (N <= fuel)%nat -> mm_realloc fuel p n st = Some (q, st')) /\
    ((q = NULL /\ st' = st) \/
     (q <> NULL /\ exists szq,
        allocated st' q szq /\ n + 8 <= szq /\
        forall i, 0 <= i < Z.min n (sz - 8) ->
          bytes st' (q + i) = bytes st (p + i))).
Proof.
  intros st p sz n Hr Ha Hn Hb.
  destruct (reachable_hinv st Hr) as (bl & T & Hinv).
  destruct (allocated_split st bl T p sz Hinv Ha) as (l1 & l2 & -> & ->).
  destruct (adjust_size_formula n Hn Hb) as (_ & Hfit & _).
  destruct (realloc_ok st l1 sz l2 T n Hinv ltac:(lia))
    as (q & st' & E & [[-> ->]|(Hq & bl' & T' & szq & H' & V & P & Hs & K & _ & C)]).
  - exists (S (length (nodes T))), NULL, st. split; [|left; auto].
    intros fuel Hf. apply (mm_realloc_mono _ _ Hf). exact E.
  - exists (S (length (nodes T))), q, st'. split.
    { intros fuel Hf. apply (mm_realloc_mono _ _ Hf). exact E. }
    right. split; [exact Hq|]. exists szq.
    split; [|split; [lia|]].
    + apply (allocated_iff st' bl' T' q szq H').
      rewrite (env_ext_first _ _ V).
      apply (Permutation_in _ (Permutation_sym P)). now left.
    + intros i Hi. apply C. lia.
Qed.

Lemma mm_realloc_preserves_content_witness :
  reachable alloc_state /\ allocated alloc_state alloc_ptr 112 /\
  0 < 200 /\ 200 + 15 < 2 ^ 31 /\
  exists N q st',
    (forall fuel, (N <= fuel)%nat ->
       mm_realloc fuel alloc_ptr 200 alloc_state = Some (q, st')) /\
    ((q = NULL /\ st' = alloc_state) \/
     (q <> NULL /\ exists szq,
        allocated st' q szq /\ 200 + 8 <= szq /\
        forall i, 0 <= i < Z.min 200 (112 - 8) ->
          bytes st' (q + i) = bytes alloc_state (alloc_ptr + i))).
Proof.
  split; [exact alloc_reachable|]. split; [exact alloc_allocated|].
  split; [lia|]. split; [lia|].
  apply (mm_realloc_preserves_content alloc_state alloc_ptr 112 200
           alloc_reachable alloc_allocated); lia.
Defined.



(** X10. When the adjusted size fits the block and the remainder is
    smaller than [MINBLOCKSIZE], [mm_realloc] returns the pointer it got
    and changes nothing, with any fuel. *)
Theorem mm_realloc_no_split_unchanged : forall st p sz n fuel,
  reachable st -> allocated st p sz -> 0 < n < 2 ^ 32 ->
  adjust_size n <= sz -> sz - adjust_size n < MINBLOCKSIZE ->
  mm_realloc fuel p n st = Some (p, st).
Proof.
  intros st p sz n fuel Hr Ha Hn Hc Hs.
  destruct (reachable_hinv st Hr) as (bl & T & Hinv).
  destruct (allocated_split st bl T p sz Hinv Ha) as (l1 & l2 & -> & ->).
  destruct (hx_block st l1 l2 sz 1 T [] Hinv) as (_ & _ & Hsz & _).
  destruct (hx_block_size st l1 l2 sz 1 T [] Hinv) as (Hg & _).
  pose proof (seg_total_nonneg _ _ _ _
    (proj1 (proj1 (seg_app _ _ _ _ _) (hi_seg _ _ _ _ Hinv)))) as Tn.
  pose proof (hi_rng _ _ _ _ Hinv) as (G1 & _).
  destruct (adjust_size_range n) as [Har _].
  unfold mm_realloc. cbv zeta.
  replace (n =? 0) with false by (symmetry; apply Z.eqb_neq; lia).
  replace (first_bp st + total l1 =? NULL) with false
    by (symmetry; apply Z.eqb_neq; unfold NULL, first_bp, DSIZE in *; lia).
  unfold HDRP, WSIZE. rewrite Hg.
  replace (adjust_size n <=? sz) with true by (symmetry; apply Z.leb_le; exact Hc).
  rewrite (u32_small (sz - adjust_size n)) by lia.
  replace (sz - adjust_size n >=? MINBLOCKSIZE) with false
    by (symmetry; rewrite Z.geb_leb; apply Z.leb_gt; exact Hs).
  reflexivity.
Qed.

Lemma mm_realloc_no_split_unchanged_witness :
  reachable alloc_state /\ allocated alloc_state alloc_ptr 112 /\
  0 < 90 < 2 ^ 32 /\ adjust_size 90 <= 112 /\
  112 - adjust_size 90 < MINBLOCKSIZE /\
  mm_realloc 0 alloc_ptr 90 alloc_state = Some (alloc_ptr, alloc_state).
Proof.
  split; [exact alloc_reachable|]. split; [exact alloc_allocated|].
  split; [lia|]. split; [vm_compute; discriminate|].
  split; [vm_compute; reflexivity|].
  apply (mm_realloc_no_split_unchanged alloc_state alloc_ptr 112 90 0
           alloc_reachable alloc_allocated);
    [lia|vm_compute; discriminate|vm_compute; reflexivity].
Defined.
